(** * book-tts-vni: the import pipeline of [parser.ts]

    A shallow embedding of the document import pipeline (plain text, PDF and
    EPUB) and of its chapter splitter, with the properties of the
    specification that concern it.

    JavaScript strings are sequences of UTF-16 code units; every offset the
    source computes ([match.index], [lastIndex], [length], [substring]) counts
    code units, so a string is modelled as a [list N] of code units. *)

From Stdlib Require Import List NArith Arith Bool Lia Ascii.
From Stdlib Require String DecimalString.
Import String.StringSyntax.
Delimit Scope string_scope with string.
Open Scope string_scope.
From Stdlib Require Import Sorting.Permutation Sorting.Sorted.
From Stdlib Require Import Floats.
Import ListNotations.
Set Warnings "-inexact-float".

Local Open Scope nat_scope.

(* ================================================================== *)
(** * JavaScript strings *)
(* ================================================================== *)

Module Js.

Definition char16 := N.
Definition jstring := list char16.

Definition NL : char16 := 10%N.
Definition CR : char16 := 13%N.
Definition TAB : char16 := 9%N.
Definition SP : char16 := 32%N.
Definition QUOTE : char16 := 34%N.

(** UTF-16 encoding of one code point. *)
Definition utf16_encode (cp : N) : jstring :=
  if (cp <? 65536)%N then [cp]
  else let v := (cp - 65536)%N in
       [(55296 + N.shiftr v 10)%N; (56320 + N.land v 1023)%N].

(** The source file is UTF-8; [utf16 s] is the JavaScript string a literal
    with the bytes [s] denotes. *)
Fixpoint utf16_go (bs : list N) (need : nat) (acc : N) : jstring :=
  match bs with
  | [] => []
  | b :: bs' =>
      match need with
      | 0 =>
          if (b <? 128)%N then b :: utf16_go bs' 0 0%N
          else if (b <? 224)%N then utf16_go bs' 1 (N.land b 31)
          else if (b <? 240)%N then utf16_go bs' 2 (N.land b 15)
          else utf16_go bs' 3 (N.land b 7)
      | S n =>
          let acc' := N.lor (N.shiftl acc 6) (N.land b 63) in
          match n with
          | 0 => utf16_encode acc' ++ utf16_go bs' 0 0%N
          | _ => utf16_go bs' n acc'
          end
      end
  end.

Definition utf16 (s : String.string) : jstring :=
  utf16_go (map N_of_ascii (String.list_ascii_of_string s)) 0 0%N.
Arguments utf16 s%_string.

(** [String.prototype.length] is [List.length]. *)

(** [s.substring(a, b)]: both ends are clamped to the length and swapped when
    out of order. *)
Definition substring (s : jstring) (a b : nat) : jstring :=
  let a' := Nat.min a (length s) in
  let b' := Nat.min b (length s) in
  let lo := Nat.min a' b' in
  let hi := Nat.max a' b' in
  firstn (hi - lo) (skipn lo s).

(** [s.indexOf(c, from)] for a one-character needle; [None] is [-1]. *)
Fixpoint indexOf_go (c : char16) (s : jstring) (pos : nat) : option nat :=
  match s with
  | [] => None
  | x :: s' => if (x =? c)%N then Some pos else indexOf_go c s' (S pos)
  end.

Definition indexOf (c : char16) (s : jstring) (from : nat) : option nat :=
  indexOf_go c (skipn from s) from.

(** [s.lastIndexOf(c)] for a one-character needle. *)
Fixpoint lastIndexOf_go (c : char16) (s : jstring) (pos : nat) (found : option nat)
  : option nat :=
  match s with
  | [] => found
  | x :: s' => lastIndexOf_go c s' (S pos) (if (x =? c)%N then Some pos else found)
  end.

Definition lastIndexOf (c : char16) (s : jstring) : option nat :=
  lastIndexOf_go c s 0 None.

(** White space in the sense of [String.prototype.trim] and of the class [\s]:
    WhiteSpace and LineTerminator of the language definition. *)
Definition is_ws (c : char16) : bool :=
  ((9 <=? c) && (c <=? 13) || (c =? 32) || (c =? 160) || (c =? 5760)
   || ((8192 <=? c) && (c <=? 8202)) || (c =? 8232) || (c =? 8233)
   || (c =? 8239) || (c =? 8287) || (c =? 12288) || (c =? 65279))%N.

Fixpoint trimStart (s : jstring) : jstring :=
  match s with
  | [] => []
  | c :: s' => if is_ws c then trimStart s' else s
  end.

Definition trimEnd (s : jstring) : jstring := rev (trimStart (rev s)).

Definition trim (s : jstring) : jstring := trimEnd (trimStart s).

(** [s.split(c)] for a one-character separator: never empty. *)
Fixpoint split (c : char16) (s : jstring) : list jstring :=
  match s with
  | [] => [[]]
  | x :: s' =>
      match split c s' with
      | [] => [[]]
      | l :: ls => if (x =? c)%N then [] :: l :: ls else (x :: l) :: ls
      end
  end.

(** [parts.join(sep)]. *)
Fixpoint join (sep : jstring) (parts : list jstring) : jstring :=
  match parts with
  | [] => []
  | [p] => p
  | p :: ps => p ++ sep ++ join sep ps
  end.

Definition jstring_eqb (a b : jstring) : bool :=
  if list_eq_dec N.eq_dec a b then true else false.

(** [s.endsWith(suffix)] *)
Definition endsWith (s suffix : jstring) : bool :=
  jstring_eqb (skipn (length s - length suffix) s) suffix
  && (length suffix <=? length s).

End Js.
Import Js.

(* ================================================================== *)
(** * Regular expressions *)
(* ================================================================== *)

(** The backtracking matcher of the language definition, in continuation
    passing style, for the constructs the patterns of [parser.ts] use:
    literals (with and without the [i] flag), character classes, [^] (no [m]
    flag is ever set), sequence, alternation, capture groups, the greedy
    optional group, and greedy or lazy quantifiers over one character class. *)

Module Regex.

(** [Canonicalize] of the [i] flag (without [u]): the upper-case mapping of one
    code unit.  It is tabulated on the blocks the letters of the patterns come
    from: Basic Latin, Latin-1, the letters d-stroke, o-horn and u-horn, and
    the Vietnamese part of Latin Extended Additional.  No code unit outside
    these blocks canonicalizes to a character of a pattern: the language
    definition leaves a code unit unchanged when its upper case is ASCII and
    the code unit is not, which is the case of the dotless i, the long s and
    the Kelvin sign. *)
Definition canonicalize (c : char16) : char16 :=
  (if (97 <=? c) && (c <=? 122) then c - 32
   else if (224 <=? c) && (c <=? 254) && negb (c =? 247) then c - 32
   else if c =? 273 then 272
   else if c =? 417 then 416
   else if c =? 432 then 431
   else if (7840 <=? c) && (c <=? 7935) && N.odd c then c - 1
   else c)%N.

Definition ci_eq (p c : char16) : bool :=
  (canonicalize p =? canonicalize c)%N.

Inductive regex : Type :=
| Eps
| Bol                                          (* ^ *)
| Eol                                          (* $ *)
| Chr (c : char16)                             (* a literal character *)
| ChrI (c : char16)                            (* a literal character under /i *)
| Cls (p : char16 -> bool)                     (* a character class *)
| Seq (r1 r2 : regex)
| Alt (r1 r2 : regex)
| Grp (i : nat) (r : regex)                    (* capture group number i *)
| Opt (r : regex)                              (* (?:r)? *)
| Rep (greedy : bool) (p : char16 -> bool) (min : nat) (max : option nat).

(** Matcher state: the end index, the rest of the input from there, and the
    captures so far (most recent first). *)
Record mstate : Type := MState {
  pos : nat;
  rest : jstring;
  caps : list (nat * jstring)
}.

Definition cont := mstate -> option mstate.

Fixpoint capture (i : nat) (cs : list (nat * jstring)) : option jstring :=
  match cs with
  | [] => None
  | (j, s) :: cs' => if i =? j then Some s else capture i cs'
  end.

Definition max_is_zero (m : option nat) : bool :=
  match m with Some 0 => true | _ => false end.

Definition dec_max (m : option nat) : option nat := option_map pred m.

Definition orelse (a b : option mstate) : option mstate :=
  match a with Some x => Some x | None => b end.

(** [p{min,max}]: as many characters as possible first. *)
Fixpoint rep_greedy (p : char16 -> bool) (min : nat) (max : option nat)
    (cs : list (nat * jstring)) (i : nat) (s : jstring) (k : cont)
  : option mstate :=
  let stop := if min =? 0 then k (MState i s cs) else None in
  match s with
  | c :: s' =>
      if max_is_zero max then stop
      else if p c
           then orelse (rep_greedy p (pred min) (dec_max max) cs (S i) s' k) stop
           else stop
  | [] => stop
  end.

(** [p{min,max}?]: as few characters as possible first. *)
Fixpoint rep_lazy (p : char16 -> bool) (min : nat) (max : option nat)
    (cs : list (nat * jstring)) (i : nat) (s : jstring) (k : cont)
  : option mstate :=
  let more :=
    match s with
    | c :: s' =>
        if max_is_zero max then None
        else if p c then rep_lazy p (pred min) (dec_max max) cs (S i) s' k
             else None
    | [] => None
    end in
  if min =? 0 then orelse (k (MState i s cs)) more else more.

Definition step_if (ok : char16 -> bool) (st : mstate) (k : cont) : option mstate :=
  match rest st with
  | c :: s' => if ok c then k (MState (S (pos st)) s' (caps st)) else None
  | [] => None
  end.

Fixpoint rmatch (r : regex) (st : mstate) (k : cont) : option mstate :=
  match r with
  | Eps => k st
  | Bol => if pos st =? 0 then k st else None
  | Eol => match rest st with [] => k st | _ :: _ => None end
  | Chr c => step_if (N.eqb c) st k
  | ChrI c => step_if (ci_eq c) st k
  | Cls p => step_if p st k
  | Seq r1 r2 => rmatch r1 st (fun st1 => rmatch r2 st1 k)
  | Alt r1 r2 => orelse (rmatch r1 st k) (rmatch r2 st k)
  | Grp i r =>
      rmatch r st (fun st1 =>
        k (MState (pos st1) (rest st1)
             ((i, firstn (pos st1 - pos st) (rest st)) :: caps st1)))
  | Opt r =>
      (* an iteration that matches the empty string is rejected *)
      orelse (rmatch r st (fun st1 => if pos st1 =? pos st then None else k st1))
             (k st)
  | Rep true p min max => rep_greedy p min max (caps st) (pos st) (rest st) k
  | Rep false p min max => rep_lazy p min max (caps st) (pos st) (rest st) k
  end.

(** A literal word, and the same under the [i] flag. *)
Definition lit (s : jstring) : regex := fold_right (fun c r => Seq (Chr c) r) Eps s.
Definition litI (s : jstring) : regex := fold_right (fun c r => Seq (ChrI c) r) Eps s.

(** [a|b|c] *)
Fixpoint alts (rs : list regex) : regex :=
  match rs with
  | [] => Rep true (fun _ => false) 1 None      (* the empty alternation never matches *)
  | [r] => r
  | r :: rs' => Alt r (alts rs')
  end.

Fixpoint seqs (rs : list regex) : regex :=
  match rs with
  | [] => Eps
  | [r] => r
  | r :: rs' => Seq r (seqs rs')
  end.

Definition star (p : char16 -> bool) : regex := Rep true p 0 None.
Definition plus (p : char16 -> bool) : regex := Rep true p 1 None.

(** The result of [regex.exec]: [index], the end of the match (the new
    [lastIndex] of a global pattern) and the captures. *)
Record RegExpMatch : Type := RMatch {
  mindex : nat;
  mend : nat;
  groups : list (nat * jstring)
}.

(** Anchoring the pattern at index [p] of [text]. *)
Definition match_at (r : regex) (text : jstring) (p : nat) : option RegExpMatch :=
  match rmatch r (MState p (skipn p text) []) Some with
  | Some st => Some (RMatch p (pos st) (caps st))
  | None => None
  end.

(** The first index from [p] on, among [n + 1] of them, where the pattern
    matches. *)
Fixpoint exec_from (r : regex) (text : jstring) (p n : nat) : option RegExpMatch :=
  match match_at r text p with
  | Some m => Some m
  | None =>
      match n with
      | 0 => None
      | S n' => exec_from r text (S p) n'
      end
  end.

(** [regex.exec(text)] with [regex.lastIndex = lastIndex]. *)
Definition exec (r : regex) (text : jstring) (lastIndex : nat) : option RegExpMatch :=
  if lastIndex <=? length text
  then exec_from r text lastIndex (length text - lastIndex)
  else None.

(** [match[0]] *)
Definition matched (text : jstring) (m : RegExpMatch) : jstring :=
  firstn (mend m - mindex m) (skipn (mindex m) text).

(** [match[i]] *)
Definition group (i : nat) (m : RegExpMatch) : option jstring := capture i (groups m).

(** [regex.test(s)] and [s.match(regex)] for a pattern without the [g] flag. *)
Definition test (r : regex) (s : jstring) : bool :=
  match exec r s 0 with Some _ => true | None => false end.

(** [text.replace(regex, f)] for a pattern without the [g] flag: the first
    match only. *)
Definition replaceFirst (r : regex) (f : jstring -> RegExpMatch -> jstring)
    (text : jstring) : jstring :=
  match exec r text 0 with
  | Some m => firstn (mindex m) text ++ f (matched text m) m ++ skipn (mend m) text
  | None => text
  end.

(** The successive results of [regex.exec(text)] for a pattern with the [g]
    flag, as the loop [while ((match = regex.exec(text)) !== null)] sees them.
    [p] is the index under inspection, [n] the number of indices after it, and
    [skip] the distance to [lastIndex] when that lies ahead.  An empty match
    leaves [lastIndex] where it is, so the loop would see it again for ever:
    that is [None]. *)
Fixpoint execAll_go (r : regex) (text : jstring) (p n skip : nat)
  : option (list RegExpMatch) :=
  match skip with
  | S skip' =>
      match n with
      | 0 => Some []
      | S n' => execAll_go r text (S p) n' skip'
      end
  | 0 =>
      match match_at r text p with
      | Some m =>
          if mend m <=? p then None
          else match n with
               | 0 => Some [m]
               | S n' => option_map (cons m) (execAll_go r text (S p) n' (mend m - S p))
               end
      | None =>
          match n with
          | 0 => Some []
          | S n' => execAll_go r text (S p) n' 0
          end
      end
  end.

Definition execAll (r : regex) (text : jstring) : option (list RegExpMatch) :=
  execAll_go r text 0 (length text) 0.

(** [text.replace(regex, f)] for a pattern with the [g] flag, position by
    position: [skip] counts the characters of the current match still to be
    dropped.  After an empty match the search resumes one character further
    and that character is kept. *)
Fixpoint replace_go (r : regex) (f : jstring -> RegExpMatch -> jstring)
    (p : nat) (s : jstring) (skip : nat) : jstring :=
  match skip with
  | S skip' =>
      match s with
      | [] => []
      | _ :: s' => replace_go r f (S p) s' skip'
      end
  | 0 =>
      match rmatch r (MState p s []) Some with
      | Some st =>
          let m := RMatch p (pos st) (caps st) in
          let out := f (firstn (pos st - p) s) m in
          match s with
          | [] => out
          | c :: s' =>
              match pos st - p with
              | 0 => out ++ c :: replace_go r f (S p) s' 0
              | S n => out ++ replace_go r f (S p) s' n
              end
          end
      | None =>
          match s with
          | [] => []
          | c :: s' => c :: replace_go r f (S p) s' 0
          end
      end
  end.

Definition replace (r : regex) (f : jstring -> RegExpMatch -> jstring)
    (text : jstring) : jstring :=
  replace_go r f 0 text 0.

(** The least number of characters a match consumes. *)
Fixpoint minlen (r : regex) : nat :=
  match r with
  | Eps | Bol | Eol => 0
  | Chr _ | ChrI _ | Cls _ => 1
  | Seq r1 r2 => minlen r1 + minlen r2
  | Alt r1 r2 => Nat.min (minlen r1) (minlen r2)
  | Grp _ r => minlen r
  | Opt _ => 0
  | Rep _ _ min _ => min
  end.

End Regex.
Import Regex.

(* ================================================================== *)
(** * Asynchronous functions, the abort signal and progress reports *)
(* ================================================================== *)

(** An [async] function runs without interruption from one [await] to the
    next, so a task of the event loop (the handler of a cancel button) can
    raise the abort signal only while the function is suspended.  The logical
    clock counts the suspensions so far, and the signal is a predicate on that
    clock, [true] from the suspension during which it is raised:
    [signal?.aborted] reads it at the current time.

    The suspensions counted are those in which the function waits for
    something outside the parser: the file, the archive, pdf.js, a timer.
    Awaiting the promise of one of the parser's own functions
    ([await parsePdf(...)], [await splitIntoChapters(...)]) resumes, once that
    function has returned, before any other task runs; it gives no task a
    chance to raise the signal and is not counted.

    The calls of [onProgress] are recorded in order; a call is identified by
    its place in the source and the numbers its texts are built from (the
    percentage, a floating point expression of the same numbers, is left
    out).  The callback is the caller's code and runs inside the call: it is
    taken to report and to do nothing else.  A callback that aborts the
    controller itself raises the signal between two suspensions; no signal of
    this model does that, and what is proved about cancellation is proved of
    signals raised from outside. *)

Module Async.

Inductive progress : Type :=
| PdfOpening                       (* (0, 'Đang đọc file PDF...', 'Khởi tạo...') *)
| PdfBatch (i batchEnd numPages : nat)
                                   (* ((i-1)/numPages*100 halved, `Trang i-batchEnd / numPages`) *)
| TextReading                      (* (0, 'Đang đọc file văn bản...', ...) *)
| SplitSearching                   (* (50 or 0, 'Đang phân tích chương...', 'Đang tìm kiếm tiêu đề chương...') *)
| SplitFound (n : nat)             (* (50, `Tìm thấy n chương`) *)
| SplitCounted (count : nat)       (* (0, `Đã tìm thấy count chương...`) *)
| SplitChapter (i total : nat)     (* (i/total*100, `Đang tách chương i+1 / total`) *)
| SplitDone (n : nat)              (* (100, `Hoàn tất n chương`) *)
| EpubOpening                      (* (0, 'Đang đọc file EPUB...', 'Đang giải nén...') *)
| EpubBatch (batchEnd chapterNum total : nat)
                                   (* (round(batchEnd/total*90), ..., `Đang xử lý chapterNum/total phần`) *)
| Finished.                        (* (100, 'Hoàn tất!', 'Đang chuẩn bị lưu...') *)

Inductive error : Type :=
| Aborted                          (* new Error('Aborted') *)
| InvalidEpub (what : jstring)     (* new Error('Invalid EPUB: ...') *)
| EmptyEpub                        (* new Error('EPUB không có nội dung ...') *)
| Rejected.                        (* a rejection of pdf.js, JSZip or decodeURIComponent:
                                      that the call fails, not which error it carries *)

Inductive result (A : Type) : Type :=
| Ok (a : A)
| Throw (e : error)
| Hang.                            (* the promise never settles *)
Arguments Ok {A} a.
Arguments Throw {A} e.
Arguments Hang {A}.

Record world : Type := World {
  clock : nat;
  trace : list progress
}.

Definition M (A : Type) : Type := (nat -> bool) -> world -> result A * world.

Definition ret {A} (a : A) : M A := fun _ w => (Ok a, w).

Definition bind {A B} (m : M A) (f : A -> M B) : M B :=
  fun sig w =>
    match m sig w with
    | (Ok a, w') => f a sig w'
    | (Throw e, w') => (Throw e, w')
    | (Hang, w') => (Hang, w')
    end.

Definition throw {A} (e : error) : M A := fun _ w => (Throw e, w).
Definition hang {A} : M A := fun _ w => (Hang, w).

(** [if (signal?.aborted) throw new Error('Aborted')] *)
Definition checkAborted : M unit :=
  fun sig w => if sig (clock w) then (Throw Aborted, w) else (Ok tt, w).

(** [if (onProgress) onProgress(...)]: the report is recorded; the callback
    is taken not to touch the signal. *)
Definition onProgress (e : progress) : M unit :=
  fun _ w => (Ok tt, World (clock w) (trace w ++ [e])).

(** One suspension: [await]. *)
Definition await : M unit :=
  fun _ w => (Ok tt, World (S (clock w)) (trace w)).

Definition run {A} (m : M A) (sig : nat -> bool) : result A * world :=
  m sig (World 0 []).

End Async.
Import Async.

Notation "x <- m ;; k" := (bind m (fun x => k))
  (at level 61, m at next level, right associativity).
Notation "m ;;; k" := (bind m (fun _ => k))
  (at level 61, right associativity).

(** [new Map(pairs)] and [map.values()]: a map that remembers the order in
    which its keys were first inserted. *)
Module JsMap.
Section JsMap.
Variables (K V : Type) (eqb : K -> K -> bool).

Fixpoint set (k : K) (v : V) (m : list (K * V)) : list (K * V) :=
  match m with
  | [] => [(k, v)]
  | (k', v') :: m' => if eqb k k' then (k, v) :: m' else (k', v') :: set k v m'
  end.

Fixpoint get (k : K) (m : list (K * V)) : option V :=
  match m with
  | [] => None
  | (k', v') :: m' => if eqb k k' then Some v' else get k m'
  end.

Definition of_list (pairs : list (K * V)) : list (K * V) :=
  fold_left (fun m kv => set (fst kv) (snd kv) m) pairs [].

Definition values (m : list (K * V)) : list V := map snd m.
End JsMap.
Arguments set {K V} eqb k v m.
Arguments get {K V} eqb k m.
Arguments of_list {K V} eqb pairs.
Arguments values {K V} m.
End JsMap.

(** [array.sort((a, b) => key(a) - key(b))]: the sort is stable. *)
Section Sort.
Variables (A : Type) (key : A -> nat).

Fixpoint insert_by (x : A) (l : list A) : list A :=
  match l with
  | [] => [x]
  | y :: l' => if key x <=? key y then x :: l else y :: insert_by x l'
  end.

Definition sort_by (l : list A) : list A := fold_right insert_by [] l.
End Sort.
Arguments insert_by {A} key x l.
Arguments sort_by {A} key l.

(* ================================================================== *)
(** * The chapter splitter *)
(* ================================================================== *)

Record Chapter : Type := mkChapter {
  title : jstring;
  content : jstring
}.

(** [interface ChapterMatch] *)
Module ChapterMatch.
Record t : Type := mk {
  index : nat;        (* where the chapter content starts *)
  matchStart : nat;   (* where the heading starts *)
  title : jstring
}.
End ChapterMatch.

Module Patterns.

Definition sp_tab (c : char16) : bool := ((c =? 32) || (c =? 9))%N.          (* [ \t] *)
Definition sep (c : char16) : bool := ((c =? 58) || (c =? 45) || (c =? 46))%N. (* [:\-\.] *)
Definition digit (c : char16) : bool := ((48 <=? c) && (c <=? 57))%N.        (* \d *)
Definition one_of_i (members : jstring) (c : char16) : bool :=
  existsb (fun a => ci_eq a c) members.
Definition roman : char16 -> bool := one_of_i (utf16 "IVXLCDM").            (* [IVXLCDM] under /i *)
Definition sep_ws (c : char16) : bool := sep c || is_ws c.                   (* [:\-\.\s] *)
Definition not_nl (c : char16) : bool := negb (c =? NL)%N.                   (* [^\n] *)
Definition nl_cr (c : char16) : bool := ((c =? NL) || (c =? CR))%N.          (* [\n\r] *)
Definition sentence_end (c : char16) : bool :=                               (* [,\.!?;] *)
  ((c =? 44) || (c =? 46) || (c =? 33) || (c =? 63) || (c =? 59))%N.

(** Vietnamese and English keywords of the first pattern, and of the second. *)
Definition keywords1 : list regex :=
  [litI (utf16 "Chương"); litI (utf16 "Chapter"); litI (utf16 "Hồi");
   litI (utf16 "Quyển"); litI (utf16 "Book")].
Definition keywords2 : list regex :=
  [litI (utf16 "Phần"); litI (utf16 "Tiết"); litI (utf16 "Mục"); litI (utf16 "Part")].

(** [/(?:^|\n)[ \t]*(?:KEYWORDS)[ \t]*[:\-\.]?[ \t]*(\d+|[IVXLCDM]+)
      (?:[ \t]*[:\-\.\s][ \t]*([^\n]{0,100}))?/gi]: what comes before the
    keywords, and what comes after. *)
Definition headingStart : regex := Seq (Alt Bol (Chr NL)) (star sp_tab).

Definition headingRest : regex :=
  seqs [star sp_tab; Opt (Cls sep); star sp_tab;
        Grp 1 (Alt (plus digit) (plus roman));
        Opt (seqs [star sp_tab; Cls sep_ws; star sp_tab;
                   Grp 2 (Rep true not_nl 0 (Some 100))])].

Definition heading (keywords : regex) : regex :=
  Seq headingStart (Seq keywords headingRest).

(** [/^[ \t]*(?:Chương trình|Chương mục|Phần lớn|Phần đông|Phần nào|Phần nhiều
      |Tiết khí|Tiết kiệm)/i] *)
Definition falsePositivePattern : regex :=
  seqs [Bol; star sp_tab;
        alts [litI (utf16 "Chương trình"); litI (utf16 "Chương mục");
              litI (utf16 "Phần lớn"); litI (utf16 "Phần đông");
              litI (utf16 "Phần nào"); litI (utf16 "Phần nhiều");
              litI (utf16 "Tiết khí"); litI (utf16 "Tiết kiệm")]].

(** [/^(Chương|Chapter|Hồi|Phần|Quyển|Tiết|Mục|Book|Part)/i] *)
Definition keywordPattern : regex :=
  Seq Bol
    (Grp 1 (alts [litI (utf16 "Chương"); litI (utf16 "Chapter"); litI (utf16 "Hồi");
                  litI (utf16 "Phần"); litI (utf16 "Quyển"); litI (utf16 "Tiết");
                  litI (utf16 "Mục"); litI (utf16 "Book"); litI (utf16 "Part")])).

(** [/[,\.!?;]$/] *)
Definition sentenceEndPattern : regex := Seq (Cls sentence_end) Eol.

(** [/^[\n\r]+/] *)
Definition leadingNewlines : regex := Seq Bol (plus nl_cr).

End Patterns.
Import Patterns.

(** ['Nội dung'] and ['Mở đầu'] *)
Definition TITLE_CONTENT : jstring := utf16 "Nội dung".
Definition TITLE_PROLOGUE : jstring := utf16 "Mở đầu".

(** [fullMatch.replace(/^[\n\r]+/, '')] *)
Definition stripLeadingNewlines (s : jstring) : jstring :=
  replaceFirst leadingNewlines (fun _ _ => []) s.

(** [`${a}${b}`] for an optional [b]: a capture that did not take part prints
    as [undefined]. *)
Definition orUndefined (o : option jstring) : jstring :=
  match o with Some s => s | None => utf16 "undefined" end.

(** The steps the two versions of the splitter share after the scan: removal of
    duplicates, sort, prologue and slicing loop. *)
Section Slicing.
Variable text : jstring.

(** [Array.from(new Map(allMatches.map(m => [m.matchStart, m])).values())
      .sort((a, b) => a.matchStart - b.matchStart)] *)
Definition uniqueMatchesOf (allMatches : list ChapterMatch.t) : list ChapterMatch.t :=
  sort_by ChapterMatch.matchStart
    (JsMap.values
       (JsMap.of_list Nat.eqb
          (map (fun m => (ChapterMatch.matchStart m, m)) allMatches))).

(** The prologue, pushed when there is text before the first heading. *)
Definition prologueOf (uniqueMatches : list ChapterMatch.t) : list Chapter :=
  match uniqueMatches with
  | [] => []
  | m0 :: _ =>
      if 0 <? ChapterMatch.matchStart m0
      then let prologue := trim (substring text 0 (ChapterMatch.matchStart m0)) in
           if 0 <? length prologue then [mkChapter TITLE_PROLOGUE prologue] else []
      else []
  end.

(** [endIndex] and the chapter pushed at iteration [i] of the slicing loop. *)
Definition endIndexOf (uniqueMatches : list ChapterMatch.t) (i : nat) : nat :=
  if i <? length uniqueMatches - 1
  then match nth_error uniqueMatches (i + 1) with
       | Some m' => ChapterMatch.matchStart m'
       | None => length text
       end
  else length text.

Definition chapterAt (uniqueMatches : list ChapterMatch.t) (i : nat) (m : ChapterMatch.t)
  : Chapter :=
  mkChapter (ChapterMatch.title m)
            (trim (substring text (ChapterMatch.index m) (endIndexOf uniqueMatches i))).

End Slicing.

(** ** The optimized splitter: one combined pattern *)

Module Optimized.

(** [chapterRegex]: all nine keywords in one alternation. *)
Definition chapterRegex : regex := heading (alts (keywords1 ++ keywords2)).

(** The body of the scanning loop for one result [match] of [exec]: [None] is
    [continue], otherwise the record pushed on [allMatches]. *)
Definition chapterMatch (text : jstring) (m : RegExpMatch) : option ChapterMatch.t :=
  let fullMatch := matched text m in
  let trimmedMatch := trim (stripLeadingNewlines fullMatch) in
  if test falsePositivePattern trimmedMatch then None
  else if length trimmedMatch =? 0 then None
  else
    let chapterNumber := orUndefined (group 1 m) in
    let chapterSubtitle := match group 2 m with Some s => trim s | None => [] end in
    let keyword :=
      match exec keywordPattern trimmedMatch 0 with
      | Some km => orUndefined (group 1 km)
      | None => []
      end in
    let title :=
      if (0 <? length chapterSubtitle)
         && negb (test sentenceEndPattern chapterSubtitle)
         && (length chapterSubtitle <=? 80)
      then keyword ++ [SP] ++ chapterNumber ++ utf16 ": " ++ chapterSubtitle
      else keyword ++ [SP] ++ chapterNumber in
    let leadingNewlineLen := length fullMatch - length (stripLeadingNewlines fullMatch) in
    let matchStart := mindex m + leadingNewlineLen in
    let contentStart :=
      match indexOf NL text matchStart with
      | Some lineEndIndex => lineEndIndex + 1
      | None => mindex m + length fullMatch
      end in
    Some (ChapterMatch.mk contentStart matchStart (trim title)).

(** [while ((match = chapterRegex.exec(text)) !== null) { ... }] over the
    successive results of [exec]. *)
Fixpoint scanLoop (text : jstring) (results : list RegExpMatch)
    (allMatches : list ChapterMatch.t) : M (list ChapterMatch.t) :=
  match results with
  | [] => ret allMatches
  | m :: results' =>
      checkAborted ;;;
      match chapterMatch text m with
      | None => scanLoop text results' allMatches
      | Some cm => scanLoop text results' (allMatches ++ [cm])
      end
  end.

(** [for (let i = 0; i < uniqueMatches.length; i++) { ... }], with [n] the
    number of iterations left. *)
Fixpoint sliceLoop (text : jstring) (uniqueMatches : list ChapterMatch.t)
    (i n : nat) (chapters : list Chapter) : M (list Chapter) :=
  match n with
  | 0 => ret chapters
  | S n' =>
      checkAborted ;;;
      match nth_error uniqueMatches i with
      | Some m =>
          sliceLoop text uniqueMatches (S i) n'
                    (chapters ++ [chapterAt text uniqueMatches i m])
      | None => ret chapters
      end
  end.

Definition splitIntoChapters (text : jstring) : M (list Chapter) :=
  match execAll chapterRegex text with
  | None => hang
  | Some results =>
      allMatches <- scanLoop text results [] ;;
      onProgress (SplitFound (length allMatches)) ;;;
      if length allMatches =? 0
      then ret [mkChapter TITLE_CONTENT text]
      else
        let uniqueMatches := uniqueMatchesOf allMatches in
        chapters <- sliceLoop text uniqueMatches 0 (length uniqueMatches)
                              (prologueOf text uniqueMatches) ;;
        onProgress (SplitDone (length chapters)) ;;;
        ret chapters
  end.

End Optimized.

(** ** The original splitter: two patterns, one after the other *)

Module Original.

Definition chapterPatterns : list regex :=
  [heading (alts keywords1); heading (alts keywords2)].

Definition chapterMatch (text : jstring) (m : RegExpMatch) : option ChapterMatch.t :=
  let fullMatch := matched text m in
  let trimmedMatch := trim (stripLeadingNewlines fullMatch) in
  if test falsePositivePattern trimmedMatch then None
  else if length trimmedMatch =? 0 then None
  else
    let chapterNumber := orUndefined (group 1 m) in
    let chapterSubtitle := match group 2 m with Some s => trim s | None => [] end in
    let keyword :=
      match exec keywordPattern trimmedMatch 0 with
      | Some km => orUndefined (group 1 km)
      | None => []
      end in
    let title :=
      if (0 <? length chapterSubtitle) && negb (test sentenceEndPattern chapterSubtitle)
      then if length chapterSubtitle <=? 80
           then keyword ++ [SP] ++ chapterNumber ++ utf16 ": " ++ chapterSubtitle
           else keyword ++ [SP] ++ chapterNumber
      else keyword ++ [SP] ++ chapterNumber in
    let leadingNewlineLen := length fullMatch - length (stripLeadingNewlines fullMatch) in
    let matchStart := mindex m + leadingNewlineLen in
    let contentStart :=
      match indexOf NL text matchStart with
      | Some lineEndIndex => lineEndIndex + 1
      | None => mindex m + length fullMatch
      end in
    Some (ChapterMatch.mk contentStart matchStart (trim title)).

(** The inner [while] loop; [count] is shared by the two patterns. *)
Fixpoint scanLoop (text : jstring) (results : list RegExpMatch)
    (acc : list ChapterMatch.t * nat) : M (list ChapterMatch.t * nat) :=
  match results with
  | [] => ret acc
  | m :: results' =>
      checkAborted ;;;
      match chapterMatch text m with
      | None => scanLoop text results' acc
      | Some cm =>
          let count := S (snd acc) in
          (if count mod 100 =? 0 then onProgress (SplitCounted count) else ret tt) ;;;
          scanLoop text results' (fst acc ++ [cm], count)
      end
  end.

(** [for (const regex of chapterPatterns) { regex.lastIndex = 0; while ... }] *)
Fixpoint patternLoop (text : jstring) (patterns : list regex)
    (acc : list ChapterMatch.t * nat) : M (list ChapterMatch.t * nat) :=
  match patterns with
  | [] => ret acc
  | regex :: patterns' =>
      match execAll regex text with
      | None => hang
      | Some results =>
          acc' <- scanLoop text results acc ;;
          patternLoop text patterns' acc'
      end
  end.

(** The slicing loop reports and yields ([setTimeout], 10 ms) every fiftieth
    chapter. *)
Fixpoint sliceLoop (text : jstring) (uniqueMatches : list ChapterMatch.t)
    (i n : nat) (chapters : list Chapter) : M (list Chapter) :=
  match n with
  | 0 => ret chapters
  | S n' =>
      checkAborted ;;;
      match nth_error uniqueMatches i with
      | Some m =>
          let chapters' := chapters ++ [chapterAt text uniqueMatches i m] in
          (if i mod 50 =? 0
           then onProgress (SplitChapter i (length uniqueMatches)) ;;; await
           else ret tt) ;;;
          sliceLoop text uniqueMatches (S i) n' chapters'
      | None => ret chapters
      end
  end.

Definition splitIntoChapters (text : jstring) : M (list Chapter) :=
  acc <- patternLoop text chapterPatterns ([], 0) ;;
  let allMatches := fst acc in
  if length allMatches =? 0
  then ret [mkChapter TITLE_CONTENT text]
  else
    let uniqueMatches := uniqueMatchesOf allMatches in
    sliceLoop text uniqueMatches 0 (length uniqueMatches)
              (prologueOf text uniqueMatches).

End Original.

(* ================================================================== *)
(** * EPUB: markup to text *)
(* ================================================================== *)

Module Html.

Definition any (c : char16) : bool := true.                                  (* [\s\S] *)
Definition not_gt (c : char16) : bool := negb (c =? 62)%N.                   (* [^>] *)
Definition digit16 (c : char16) : bool := ((49 <=? c) && (c <=? 54))%N.      (* [1-6] *)
Definition hexdigit (c : char16) : bool :=                                   (* [0-9a-fA-F] *)
  ((48 <=? c) && (c <=? 57) || (97 <=? c) && (c <=? 102) || (65 <=? c) && (c <=? 70))%N.

(** [(p|div|h[1-6]|li|blockquote|tr)] *)
Definition blockTag : regex :=
  Grp 1 (alts [litI (utf16 "p"); litI (utf16 "div");
               Seq (ChrI 104%N) (Cls digit16);
               litI (utf16 "li"); litI (utf16 "blockquote"); litI (utf16 "tr")]).

(** [/<NAME[^>]*>[\s\S]*?<\/NAME>/gi] *)
Definition region (name : String.string) : regex :=
  seqs [litI (utf16 "<" ++ utf16 name); star not_gt; Chr 62%N;
        Rep false any 0 None; litI (utf16 "</" ++ utf16 name ++ utf16 ">")].

Definition brTag : regex :=                                  (* /<br\s*\/?>/gi *)
  seqs [litI (utf16 "<br"); star is_ws; Opt (Chr 47%N); Chr 62%N].
Definition closeBlock : regex :=                             (* /<\/(p|...|tr)>/gi *)
  seqs [litI (utf16 "</"); blockTag; Chr 62%N].
Definition openBlock : regex :=                              (* /<(p|...|tr)[^>]*>/gi *)
  seqs [Chr 60%N; blockTag; star not_gt; Chr 62%N].
Definition anyTag : regex :=                                 (* /<[^>]+>/g *)
  seqs [Chr 60%N; plus not_gt; Chr 62%N].
Definition hexEntity : regex :=                              (* /&#x([0-9a-fA-F]+);/gi *)
  seqs [litI (utf16 "&#x"); Grp 1 (plus hexdigit); Chr 59%N].
Definition decEntity : regex :=                              (* /&#(\d+);/gi *)
  seqs [litI (utf16 "&#"); Grp 1 (plus digit); Chr 59%N].
Definition blanks : regex := plus sp_tab.                    (* /[ \t]+/g *)
Definition blankLines : regex :=                             (* /\n\s*\n\s*\n/g *)
  seqs [Chr NL; star is_ws; Chr NL; star is_ws; Chr NL].

(** The value of a digit in a radix up to 16. *)
Definition digitValue (c : char16) : N :=
  (if (48 <=? c) && (c <=? 57) then c - 48
   else if (97 <=? c) && (c <=? 102) then c - 87
   else if (65 <=? c) && (c <=? 70) then c - 55
   else 0)%N.

(** The nearest number (a double) to an integer: 53 significant bits, ties to
    even. *)
Definition toNumber (v : N) : N :=
  let n := N.size v in
  if (n <=? 53)%N then v
  else
    let sh := (n - 53)%N in
    let q := N.shiftr v sh in
    let r := N.land v (N.ones sh) in
    let half := N.shiftl 1 (sh - 1) in
    let q' := if (half <? r)%N then (q + 1)%N
              else if (r =? half)%N then (if N.odd q then q + 1 else q)%N
              else q in
    N.shiftl q' sh.

(** [String.fromCharCode(parseInt(digits, radix))] for a non-empty string of
    digits of the radix: [ToUint16] of the number.  (For radix 10 the language
    definition leaves the digits after the twentieth to the implementation;
    the model rounds the exact value.) *)
Definition charFromDigits (radix : N) (digits : jstring) : char16 :=
  (toNumber (fold_left (fun acc c => acc * radix + digitValue c) digits 0) mod 65536)%N.

Definition constant (s : jstring) : jstring -> RegExpMatch -> jstring := fun _ _ => s.

(** The clean-up that ends [htmlToText]: runs of blanks, blank lines, the
    white space around each line and around the whole. *)
Definition collapseBlankLines (text : jstring) : jstring :=
  replace blankLines (constant [NL; NL]) text.

Definition trimLines (text : jstring) : jstring :=
  join [NL] (map trim (split NL text)).

Definition cleanUp (text : jstring) : jstring :=
  trim (trimLines (collapseBlankLines (replace blanks (constant [SP]) text))).

(** Removal of the markup and decoding of the entities. *)
Definition stripMarkup (html : jstring) : jstring :=
  let text := replace (region "head") (constant []) html in
  let text := replace (region "style") (constant []) text in
  let text := replace (region "script") (constant []) text in
  let text := replace brTag (constant [NL]) text in
  let text := replace closeBlock (constant [NL; NL]) text in
  let text := replace openBlock (constant []) text in
  replace anyTag (constant []) text.

Definition decodeEntities (text : jstring) : jstring :=
  let text := replace (litI (utf16 "&nbsp;")) (constant [SP]) text in
  let text := replace (litI (utf16 "&amp;")) (constant (utf16 "&")) text in
  let text := replace (litI (utf16 "&lt;")) (constant (utf16 "<")) text in
  let text := replace (litI (utf16 "&gt;")) (constant (utf16 ">")) text in
  let text := replace (litI (utf16 "&quot;")) (constant [QUOTE]) text in
  let text := replace (litI (utf16 "&#39;")) (constant (utf16 "'")) text in
  let text := replace hexEntity
                (fun _ m => [charFromDigits 16 (orUndefined (group 1 m))]) text in
  replace decEntity (fun _ m => [charFromDigits 10 (orUndefined (group 1 m))]) text.

Definition htmlToText (html : jstring) : jstring :=
  cleanUp (decodeEntities (stripMarkup html)).

End Html.
Import Html.

(* ================================================================== *)
(** * PDF: text from positioned fragments *)
(* ================================================================== *)

(** JavaScript numbers are IEEE 754 doubles: the kernel's primitive floats. *)

Module Pdf.
Local Open Scope float_scope.

(** A text item of pdf.js: [str], [width], and of [transform] the entries
    [3] (vertical scale, the height of the font), [4] (x) and [5] (y of the
    baseline). *)
Record TextItem : Type := mkItem {
  str : jstring;
  transform3 : float;
  transform4 : float;
  transform5 : float;
  width : float
}.

(** [x || 0] *)
Definition orZero (x : float) : float :=
  if PrimFloat.eqb x 0 || negb (PrimFloat.eqb x x) then 0 else x.

(** [a > b] *)
Definition gt (a b : float) : bool := PrimFloat.ltb b a.

(** The state of the walk over the items of a page. *)
Record walkState : Type := mkWalk {
  lastY : float;
  lastX : float;
  lastWidth : float
}.

(** What the walk pushes before the text of [item]. *)
Definition separator (st : walkState) (item : TextItem) : list jstring :=
  if negb (PrimFloat.eqb (lastY st) (-1))        (* lastY !== -1 *)
  then
    let yDiff := PrimFloat.abs (transform5 item - lastY st) in
    let fontHeight := transform3 item in
    if gt yDiff (fontHeight * 1.4) then [[NL; NL]]
    else if gt yDiff (fontHeight * 0.4) then [[NL]]
    else
      let gap := transform4 item - lastX st in
      if gt gap (fontHeight * 0.3) then [[SP]] else []
  else [].

Definition advance (item : TextItem) : walkState :=
  mkWalk (transform5 item) (transform4 item + orZero (width item)) (orZero (width item)).

(** [for (const item of items) { ... parts.push(item.str); ... }] *)
Fixpoint walk (items : list TextItem) (st : walkState) (parts : list jstring)
  : list jstring :=
  match items with
  | [] => parts
  | item :: items' =>
      walk items' (advance item) (parts ++ separator st item ++ [str item])
  end.

Definition initialWalk : walkState := mkWalk (-1) (-1) 0.

(** The text of a page from its sorted items:
    [parts.join('').replace(/·/g, '')]. *)
Definition pageText (items : list TextItem) : jstring :=
  replace (Chr 183%N) (fun _ _ => []) (concat (walk items initialWalk [])).

(** The comparator of the sort. *)
Definition compareItems (a b : TextItem) : float :=
  if gt (PrimFloat.abs (transform5 a - transform5 b)) 4
  then transform5 b - transform5 a
  else transform4 a - transform4 b.

Local Close Scope float_scope.

(** What pdf.js makes of a page: [getPage] or [getTextContent] rejects, or
    the items come. *)
Inductive PageOutcome : Type :=
| PageFails
| PageItems (items : list TextItem).

(** [Promise.all]: the values in the order of the promises, or the rejection
    of the first promise to reject. *)
Fixpoint promiseAll {A : Type} (settled : list (option A)) : option (list A) :=
  match settled with
  | [] => Some []
  | None :: _ => None
  | Some v :: rest =>
      match promiseAll rest with
      | Some vs => Some (v :: vs)
      | None => None
      end
  end.

(** The batches of [size] consecutive elements, the last one shorter. *)
Fixpoint batches_go {A : Type} (size : nat) (l cur : list A) (n : nat) : list (list A) :=
  match l with
  | [] => if n =? 0 then [] else [rev cur]
  | x :: l' =>
      if S n =? size then rev (x :: cur) :: batches_go size l' [] 0
      else batches_go size l' (x :: cur) (S n)
  end.

Definition batchesOf {A : Type} (size : nat) (l : list A) : list (list A) :=
  batches_go size l [] 0.

Definition BATCH_SIZE : nat := 50.

Section ParsePdf.
(** [items.sort(compare)]: the comparator is not an order (two items can
    compare as on one line, each with a third that is not), so the result is
    left to the implementation; it is a parameter here. *)
Variable sortItems : list TextItem -> list TextItem.

Definition pagePromise (page : PageOutcome) : option jstring :=
  match page with
  | PageFails => None
  | PageItems items => Some (pageText (sortItems items))
  end.

(** [for (let i = 1; i <= numPages; i += BATCH_SIZE) { ... }] over the batches
    of pages, [i] being the number of the first page of the batch. *)
Fixpoint batchLoop (numPages : nat) (todo : list (list PageOutcome)) (i : nat)
    (pagesText : list jstring) : M (list jstring) :=
  match todo with
  | [] => ret pagesText
  | batch :: todo' =>
      checkAborted ;;;
      onProgress (PdfBatch i (Nat.min (i + BATCH_SIZE - 1) numPages) numPages) ;;;
      await ;;;                                   (* await Promise.all(batchPromises) *)
      match promiseAll (map pagePromise batch) with
      | None => throw Rejected
      | Some batchResults =>
          batchLoop numPages todo' (i + BATCH_SIZE) (pagesText ++ batchResults)
      end
  end.

(** [parsePdf]: [document] is what [getDocument] makes of the file, [None]
    when it rejects. *)
Definition parsePdf (document : option (list PageOutcome)) : M jstring :=
  await ;;;                                       (* await file.arrayBuffer() *)
  await ;;;                                       (* await getDocument(...).promise *)
  match document with
  | None => throw Rejected
  | Some pages =>
      pagesText <- batchLoop (length pages) (batchesOf BATCH_SIZE pages) 1 [] ;;
      ret (join [NL; NL] pagesText)
  end.

End ParsePdf.

(** A stable insertion sort with the comparator, for the examples. *)
Fixpoint insertItem (x : TextItem) (l : list TextItem) : list TextItem :=
  match l with
  | [] => [x]
  | y :: l' => if gt (compareItems x y) 0%float then y :: insertItem x l' else x :: l
  end.

Definition insertionSort (l : list TextItem) : list TextItem :=
  fold_right insertItem [] l.

End Pdf.
Import Pdf.

(** ** The original extraction: one string, batches of thirty, a pause after each *)

Module OriginalPdf.
Local Open Scope float_scope.

(** What the walk appends to [pageText] before the text of [item]. *)
Definition separator (st : walkState) (item : TextItem) : jstring :=
  if negb (PrimFloat.eqb (lastY st) (-1))        (* lastY !== -1 *)
  then
    let yDiff := PrimFloat.abs (transform5 item - lastY st) in
    let fontHeight := transform3 item in
    let isNewParagraph := gt yDiff (fontHeight * 1.4) in
    if isNewParagraph then [NL; NL]
    else if gt yDiff (fontHeight * 0.4) then [NL]
    else
      let currentX := transform4 item in
      let gap := currentX - lastX st in
      (* [lastStr] and [avgCharWidth] are computed at this point and not used *)
      if gt gap (fontHeight * 0.3) then [SP] else []
  else [].

(** [for (const item of items) { ... pageText += item.str; ... }] *)
Fixpoint walk (items : list TextItem) (st : walkState) (pageText : jstring) : jstring :=
  match items with
  | [] => pageText
  | item :: items' =>
      walk items' (advance item) (pageText ++ separator st item ++ str item)
  end.

(** [pageText.replace(/·/g, '')] *)
Definition pageText (items : list TextItem) : jstring :=
  replace (Chr 183%N) (fun _ _ => []) (walk items initialWalk []).

Local Close Scope float_scope.

Definition BATCH_SIZE : nat := 30.

Section ParsePdf.
Variable sortItems : list TextItem -> list TextItem.
(** [onProgress] is the caller's: [report i currentBatchEnd numPages] is what
    it records of the call for the batch from page [i] on. *)
Variable report : nat -> nat -> nat -> progress.

Definition pagePromise (page : PageOutcome) : option jstring :=
  match page with
  | PageFails => None
  | PageItems items => Some (pageText (sortItems items))
  end.

Fixpoint batchLoop (numPages : nat) (todo : list (list PageOutcome)) (i : nat)
    (pagesText : list jstring) : M (list jstring) :=
  match todo with
  | [] => ret pagesText
  | batch :: todo' =>
      checkAborted ;;;
      onProgress (report i (Nat.min (i + BATCH_SIZE - 1) numPages) numPages) ;;;
      await ;;;                                   (* await Promise.all(batchPromises) *)
      match promiseAll (map pagePromise batch) with
      | None => throw Rejected
      | Some batchResults =>
          await ;;;                               (* await new Promise(... setTimeout(resolve, 1)) *)
          batchLoop numPages todo' (i + BATCH_SIZE) (pagesText ++ batchResults)
      end
  end.

Definition parsePdf (document : option (list PageOutcome)) : M jstring :=
  await ;;;                                       (* await file.arrayBuffer() *)
  await ;;;                                       (* await getDocument(...).promise *)
  match document with
  | None => throw Rejected
  | Some pages =>
      pagesText <- batchLoop (length pages) (batchesOf BATCH_SIZE pages) 1 [] ;;
      ret (join [NL; NL] pagesText)
  end.

End ParsePdf.
End OriginalPdf.

(* ================================================================== *)
(** * EPUB: the package reader *)
(* ================================================================== *)

Module Uri.

Definition hexValue (c : char16) : option N :=
  (if (48 <=? c) && (c <=? 57) then Some (c - 48)
   else if (97 <=? c) && (c <=? 102) then Some (c - 87)
   else if (65 <=? c) && (c <=? 70) then Some (c - 55)
   else None)%N.

Inductive mode : Type :=
| Plain                      (* outside an escape *)
| Hex1                       (* after [%] *)
| Hex2 (h : N).              (* after [%] and one digit *)

(** [decodeURIComponent], one character at a time.  [need] counts the
    continuation bytes still to come of a UTF-8 sequence, [acc] holds the bits
    read so far and [lo] the least code point the sequence may encode.  [None]
    is the [URIError]. *)
Fixpoint decode_go (s : jstring) (m : mode) (need : nat) (acc lo : N) : option jstring :=
  match s with
  | [] => match m, need with Plain, 0 => Some [] | _, _ => None end
  | c :: s' =>
      match m with
      | Plain =>
          if (c =? 37)%N then decode_go s' Hex1 need acc lo
          else match need with
               | 0 => option_map (cons c) (decode_go s' Plain 0 0%N 0%N)
               | S _ => None
               end
      | Hex1 =>
          match hexValue c with
          | Some h => decode_go s' (Hex2 h) need acc lo
          | None => None
          end
      | Hex2 h =>
          match hexValue c with
          | None => None
          | Some l =>
              let b := (16 * h + l)%N in
              match need with
              | 0 =>
                  if (b <? 128)%N then option_map (cons b) (decode_go s' Plain 0 0%N 0%N)
                  else if (b <? 192)%N then None
                  else if (b <? 224)%N then decode_go s' Plain 1 (N.land b 31) 128%N
                  else if (b <? 240)%N then decode_go s' Plain 2 (N.land b 15) 2048%N
                  else if (b <? 248)%N then decode_go s' Plain 3 (N.land b 7) 65536%N
                  else None
              | S need' =>
                  if ((128 <=? b) && (b <? 192))%N
                  then
                    let acc' := N.lor (N.shiftl acc 6) (N.land b 63) in
                    match need' with
                    | 0 =>
                        if ((lo <=? acc') && (acc' <=? 1114111)
                            && negb ((55296 <=? acc') && (acc' <=? 57343)))%N
                        then option_map (app (utf16_encode acc'))
                                        (decode_go s' Plain 0 0%N 0%N)
                        else None
                    | S _ => decode_go s' Plain need' acc' lo
                    end
                  else None
              end
          end
      end
  end.

Definition decodeURIComponent (s : jstring) : option jstring :=
  decode_go s Plain 0 0%N 0%N.

End Uri.
Import Uri.

Module Epub.

(** What JSZip makes of a path: no such file, a file that cannot be read as
    text, or its text. *)
Inductive ZipEntry : Type :=
| Missing
| Corrupt
| Text (s : jstring).

Definition not_quote (c : char16) : bool := negb (c =? QUOTE)%N.   (* [^\x22] *)
Definition not_lt (c : char16) : bool := negb (c =? 60)%N.        (* [^<] *)
Definition not_slash_dot (c : char16) : bool :=                   (* [^/.] *)
  negb ((c =? 47) || (c =? 46))%N.
Definition one_or_two (c : char16) : bool := ((c =? 49) || (c =? 50))%N.  (* [12] *)

(** [NAME=\x22([^\x22]+)\x22] with capture group [i]; [\x22] is the
    double quote. *)
Definition attribute (name : String.string) (i : nat) : regex :=
  seqs [litI (utf16 name ++ utf16 "=" ++ [QUOTE]); Grp i (plus not_quote); Chr QUOTE].

(** [/full-path=\x22([^\x22]+)\x22/i] *)
Definition rootfilePattern : regex := attribute "full-path" 1.
(** [/<dc:title[^>]*>([^<]+)<\/dc:title>/i] *)
Definition dcTitlePattern : regex :=
  seqs [litI (utf16 "<dc:title"); star not_gt; Chr 62%N; Grp 1 (plus not_lt);
        litI (utf16 "</dc:title>")].
(** [/<item\s[^>]*id=\x22([^\x22]+)\x22[^>]*href=\x22([^\x22]+)\x22[^>]*>/gi] *)
Definition manifestRegex : regex :=
  seqs [litI (utf16 "<item"); Cls is_ws; star not_gt; attribute "id" 1;
        star not_gt; attribute "href" 2; star not_gt; Chr 62%N].
(** [/<itemref\s[^>]*idref=\x22([^\x22]+)\x22[^>]*\/?>\s*/gi] *)
Definition spineRegex : regex :=
  seqs [litI (utf16 "<itemref"); Cls is_ws; star not_gt; attribute "idref" 1;
        star not_gt; Opt (Chr 47%N); Chr 62%N; star is_ws].
(** [/<item[^>]*media-type=\x22application\/x-dtbncx\+xml\x22[^>]*
      href=\x22([^\x22]+)\x22[^>]*>/i] *)
Definition ncxItemPattern : regex :=
  seqs [litI (utf16 "<item"); star not_gt;
        litI (utf16 "media-type=" ++ [QUOTE] ++ utf16 "application/x-dtbncx+xml" ++ [QUOTE]);
        star not_gt; attribute "href" 1; star not_gt; Chr 62%N].
(** [/<navPoint[^>]*>\s*<navLabel>\s*<text>(LABEL)<\/text>\s*<\/navLabel>\s*
      <content\s+src=\x22([^\x22]+)\x22[^>]*\/>/gi], where [LABEL] stands for
    [[^<]*]. *)
Definition navPointRegex : regex :=
  seqs [litI (utf16 "<navPoint"); star not_gt; Chr 62%N; star is_ws;
        litI (utf16 "<navLabel>"); star is_ws; litI (utf16 "<text>");
        Grp 1 (star not_lt); litI (utf16 "</text>"); star is_ws;
        litI (utf16 "</navLabel>"); star is_ws; litI (utf16 "<content"); plus is_ws;
        attribute "src" 2; star not_gt; litI (utf16 "/>")].
(** [/<title[^>]*>([^<]+)<\/title>/i] *)
Definition htmlTitlePattern : regex :=
  seqs [litI (utf16 "<title"); star not_gt; Chr 62%N; Grp 1 (plus not_lt);
        litI (utf16 "</title>")].
(** [/<h[12][^>]*>([^<]+)<\/h[12]>/i] *)
Definition headingPattern : regex :=
  seqs [litI (utf16 "<h"); Cls one_or_two; star not_gt; Chr 62%N; Grp 1 (plus not_lt);
        litI (utf16 "</h"); Cls one_or_two; Chr 62%N].
(** [/\.[^/.]+$/] *)
Definition extensionPattern : regex := seqs [Chr 46%N; plus not_slash_dot; Eol].

(** [file.name.replace(/\.[^/.]+$/, '')] *)
Definition baseName (name : jstring) : jstring :=
  replaceFirst extensionPattern (fun _ _ => []) name.

(** The decimal digits of a number, for [`Chương ${chapterNum}`]. *)
Definition decimal (n : nat) : jstring :=
  utf16 (DecimalString.NilEmpty.string_of_uint (Nat.to_uint n)).

(** [manifest]: the loop over [manifestRegex.exec(opfXml)]. *)
Definition manifestOf (opfXml : jstring) : list (jstring * jstring) :=
  match execAll manifestRegex opfXml with
  | Some ms =>
      JsMap.of_list jstring_eqb
        (map (fun m => (orUndefined (group 1 m), orUndefined (group 2 m))) ms)
  | None => []
  end.

(** [spineItems] *)
Definition spineItemsOf (opfXml : jstring) : list jstring :=
  match execAll spineRegex opfXml with
  | Some ms => map (fun m => orUndefined (group 1 m)) ms
  | None => []
  end.

(** [opfDir] *)
Definition opfDirOf (opfPath : jstring) : jstring :=
  match lastIndexOf 47%N opfPath with
  | Some i => substring opfPath 0 (i + 1)
  | None => []
  end.

(** The entries [chapterTitles] gets from the navigation document; [None]
    when [decodeURIComponent] throws. *)
Fixpoint navTitles (ncxXml : jstring) (ms : list RegExpMatch)
    (chapterTitles : list (jstring * jstring)) : option (list (jstring * jstring)) :=
  match ms with
  | [] => Some chapterTitles
  | m :: ms' =>
      let title := trim (orUndefined (group 1 m)) in
      match decodeURIComponent (hd [] (split 35%N (orUndefined (group 2 m)))) with
      | None => None
      | Some href =>
          navTitles ncxXml ms'
            (if 0 <? length title then JsMap.set jstring_eqb href title chapterTitles
             else chapterTitles)
      end
  end.

(** [a || b] on optional strings: the empty string is falsy. *)
Definition orElse (a b : option jstring) : option jstring :=
  match a with
  | Some (_ :: _) => a
  | _ => b
  end.

(** The value the promise of one spine entry resolves to: [None] is [null]. *)
Definition entryValue (chapterTitles : list (jstring * jstring)) (href decoded : jstring)
    (xhtml : jstring) : option (jstring * jstring) :=
  match xhtml with
  | [] => None
  | _ :: _ =>
      let textContent := trim (htmlToText xhtml) in
      if length textContent <? 10 then None
      else
        let fromNav := orElse (JsMap.get jstring_eqb href chapterTitles)
                              (JsMap.get jstring_eqb decoded chapterTitles) in
        let fromTitle :=
          match fromNav with
          | Some (_ :: _) => fromNav
          | _ =>
              match exec htmlTitlePattern xhtml 0 with
              | Some m =>
                  let t := trim (orUndefined (group 1 m)) in
                  if (0 <? length t) && (length t <? 100) then Some t else fromNav
              | None => fromNav
              end
          end in
        let chTitle :=
          match fromTitle with
          | Some (_ :: _) => fromTitle
          | _ =>
              match exec headingPattern xhtml 0 with
              | Some m =>
                  let t := trim (orUndefined (group 1 m)) in
                  if 0 <? length t then Some t else fromTitle
              | None => fromTitle
              end
          end in
        Some (match chTitle with Some t => t | None => [] end, textContent)
  end.

(** A promise of the batch: what it settles to ([None]: it rejects). *)
Definition entryPromise (zip : jstring -> ZipEntry) (opfDir : jstring)
    (chapterTitles : list (jstring * jstring)) (href decoded : jstring)
  : option (option (jstring * jstring)) :=
  match zip (opfDir ++ decoded) with
  | Missing => Some None
  | Corrupt => None
  | Text xhtml => Some (entryValue chapterTitles href decoded xhtml)
  end.

(** The promises one batch pushes, in order; [None] when
    [decodeURIComponent(href)] throws while the batch is built. *)
Fixpoint batchPromises (zip : jstring -> ZipEntry) (opfDir : jstring)
    (manifest chapterTitles : list (jstring * jstring)) (batch : list jstring)
  : option (list (option (option (jstring * jstring)))) :=
  match batch with
  | [] => Some []
  | itemId :: batch' =>
      match orElse (JsMap.get jstring_eqb itemId manifest) None with
      | None => option_map (cons (Some None)) (batchPromises zip opfDir manifest chapterTitles batch')
      | Some href =>
          match decodeURIComponent href with
          | None => None
          | Some decoded =>
              option_map (cons (entryPromise zip opfDir chapterTitles href decoded))
                         (batchPromises zip opfDir manifest chapterTitles batch')
          end
      end
  end.

(** [Promise.all] as the language defines it: each promise, when it settles,
    stores its value at its own index; the first rejection rejects the whole.
    [order] lists the indices in the order the promises settle; a promise
    whose index is not in [order] never settles, and then, unless another one
    rejects, [Promise.all] stays pending. *)
Fixpoint setNth {A : Type} (i : nat) (v : A) (l : list A) : list A :=
  match l, i with
  | [], _ => []
  | _ :: l', 0 => v :: l'
  | x :: l', S i' => x :: setNth i' v l'
  end.

Fixpoint settle {A : Type} (order : list nat) (promises : list (option A))
    (values : list (option A)) : option (list (option A)) :=
  match order with
  | [] => Some values
  | i :: order' =>
      match nth_error promises i with
      | Some (Some v) => settle order' promises (setNth i (Some v) values)
      | Some None => None
      | None => settle order' promises values
      end
  end.

Definition promiseAllIn {A : Type} (order : list nat) (promises : list (option A))
  : result (list A) :=
  match settle order promises (repeat None (length promises)) with
  | Some values =>
      match promiseAll values with
      | Some batchResults => Ok batchResults
      | None => Hang
      end
  | None => Throw Rejected
  end.

(** [for (const result of batchResults) if (result) { chapterNum++; ... }] *)
Fixpoint pushResults (batchResults : list (option (jstring * jstring)))
    (chapters : list Chapter) (chapterNum : nat) : list Chapter * nat :=
  match batchResults with
  | [] => (chapters, chapterNum)
  | None :: rs => pushResults rs chapters chapterNum
  | Some (t, c) :: rs =>
      let chapterNum' := S chapterNum in
      pushResults rs
        (chapters ++ [mkChapter (match t with
                                 | [] => utf16 "Chương " ++ decimal chapterNum'
                                 | _ :: _ => t
                                 end) c])
        chapterNum'
  end.

Definition EPUB_BATCH : nat := 10.

Section ParseEpub.
(** [completion i n]: the order in which the [n] promises of the batch that
    starts at spine index [i] settle. *)
Variable completion : nat -> nat -> list nat.
Variable zip : jstring -> ZipEntry.

(** [zip.file(path)?.async('text')], awaited: [None] is a missing file or an
    empty text, both falsy. *)
Definition readText (path : jstring) : M (option jstring) :=
  await ;;;
  match zip path with
  | Missing => ret None
  | Corrupt => throw Rejected
  | Text [] => ret None
  | Text s => ret (Some s)
  end.

(** [for (let i = 0; i < spineItems.length; i += EPUB_BATCH) { ... }] over
    the batches of the spine. *)
Fixpoint spineLoop (total : nat) (opfDir : jstring)
    (manifest chapterTitles : list (jstring * jstring))
    (todo : list (list jstring)) (i : nat) (chapters : list Chapter) (chapterNum : nat)
  : M (list Chapter) :=
  match todo with
  | [] => ret chapters
  | batch :: todo' =>
      checkAborted ;;;
      let batchEnd := Nat.min (i + EPUB_BATCH) total in
      match batchPromises zip opfDir manifest chapterTitles batch with
      | None => throw Rejected
      | Some promises =>
          await ;;;                               (* await Promise.all(batchPromises) *)
          match promiseAllIn (completion i (length promises)) promises with
          | Hang => hang
          | Throw e => throw e
          | Ok batchResults =>
              let (chapters', chapterNum') := pushResults batchResults chapters chapterNum in
              onProgress (EpubBatch batchEnd chapterNum' total) ;;;
              spineLoop total opfDir manifest chapterTitles todo' (i + EPUB_BATCH)
                        chapters' chapterNum'
          end
      end
  end.

(** [chapterTitles] from the navigation document the package declares. *)
Definition readNavigation (opfDir opfXml : jstring) : M (list (jstring * jstring)) :=
  match exec ncxItemPattern opfXml 0 with
  | None => ret []
  | Some ncxItem =>
      match decodeURIComponent (orUndefined (group 1 ncxItem)) with
      | None => throw Rejected
      | Some decoded =>
          ncx <- readText (opfDir ++ decoded) ;;
          match ncx with
          | None => ret []
          | Some ncxXml =>
              match execAll navPointRegex ncxXml with
              | None => hang
              | Some ms =>
                  match navTitles ncxXml ms [] with
                  | None => throw Rejected
                  | Some chapterTitles => ret chapterTitles
                  end
              end
          end
      end
  end.

(** [parseEpub]: [opened] tells whether [JSZip.loadAsync] resolves. *)
Definition parseEpub (name : jstring) (opened : bool) : M (jstring * list Chapter) :=
  await ;;;                                       (* await file.arrayBuffer() *)
  await ;;;                                       (* await JSZip.loadAsync(arrayBuffer) *)
  (if opened then ret tt else throw Rejected) ;;;
  checkAborted ;;;
  container <- readText (utf16 "META-INF/container.xml") ;;
  match container with
  | None => throw (InvalidEpub (utf16 "missing container.xml"))
  | Some containerXml =>
      match exec rootfilePattern containerXml 0 with
      | None => throw (InvalidEpub (utf16 "cannot find rootfile"))
      | Some rootfileMatch =>
          let opfPath := orUndefined (group 1 rootfileMatch) in
          let opfDir := opfDirOf opfPath in
          opf <- readText opfPath ;;
          match opf with
          | None => throw (InvalidEpub (utf16 "missing OPF file"))
          | Some opfXml =>
              let bookTitle :=
                match exec dcTitlePattern opfXml 0 with
                | Some titleMatch => trim (orUndefined (group 1 titleMatch))
                | None => baseName name
                end in
              let manifest := manifestOf opfXml in
              let spineItems := spineItemsOf opfXml in
              if length spineItems =? 0
              then throw (InvalidEpub (utf16 "no spine items found"))
              else
                chapterTitles <- readNavigation opfDir opfXml ;;
                chapters <- spineLoop (length spineItems) opfDir manifest chapterTitles
                                      (batchesOf EPUB_BATCH spineItems) 0 [] 0 ;;
                if length chapters =? 0 then throw EmptyEpub
                else ret (bookTitle, chapters)
          end
      end
  end.

End ParseEpub.

End Epub.
Import Epub.

(* ================================================================== *)
(** * The pipeline: [parseFile] *)
(* ================================================================== *)

Module Pipeline.

(** A file, as its decoders see it: its text ([file.text()]), its pages
    ([getDocument]; [None] when it does not open as a PDF) and its archive
    ([JSZip.loadAsync]; [zipOpens] tells whether it resolves). *)
Record File : Type := mkFile {
  name : jstring;
  type : jstring;
  text : jstring;
  pdf : option (list PageOutcome);
  zipOpens : bool;
  zip : jstring -> ZipEntry
}.

Section ParseFile.
Variable sortItems : list TextItem -> list TextItem.
Variable completion : nat -> nat -> list nat.

Definition isPdf (file : File) : bool :=
  jstring_eqb (type file) (utf16 "application/pdf") || endsWith (name file) (utf16 ".pdf").

Definition isEpub (file : File) : bool :=
  jstring_eqb (type file) (utf16 "application/epub+zip")
  || endsWith (name file) (utf16 ".epub").

(** [parseFile].  Its own suspension is [await file.text()]; the others are
    those of [parseEpub] and [parsePdf].  The awaits of the results of
    [parseEpub], [parsePdf] and [splitIntoChapters] wait for nothing outside
    the parser and are not counted. *)
Definition parseFile (file : File) : M (jstring * list Chapter) :=
  if isEpub file
  then
    onProgress EpubOpening ;;;
    result <- parseEpub completion (zip file) (name file) (zipOpens file) ;;
    onProgress Finished ;;;
    ret result
  else
    text <- (if isPdf file
             then onProgress PdfOpening ;;; parsePdf sortItems (pdf file)
             else onProgress TextReading ;;;
                  await ;;;                       (* await file.text() *)
                  ret (text file)) ;;
    checkAborted ;;;
    let title := baseName (name file) in
    onProgress SplitSearching ;;;
    chapters <- Optimized.splitIntoChapters text ;;
    onProgress Finished ;;;
    ret (title, chapters).

End ParseFile.
End Pipeline.
Import Pipeline.

(** ** The original pipeline: text and PDF only *)

Module OriginalPipeline.
Section ParseFile.
Variable sortItems : list TextItem -> list TextItem.
(** What [onProgress] records of a report of [parsePdf], which [parseFile]
    relays with the percentage halved. *)
Variable report : nat -> nat -> nat -> progress.

Definition parseFile (file : File) : M (jstring * list Chapter) :=
  text <- (if isPdf file
           then onProgress PdfOpening ;;; OriginalPdf.parsePdf sortItems report (pdf file)
           else onProgress TextReading ;;;
                await ;;;                         (* await file.text() *)
                ret (text file)) ;;
  checkAborted ;;;
  let title := baseName (name file) in
  onProgress SplitSearching ;;;
  chapters <- Original.splitIntoChapters text ;;
  onProgress Finished ;;;
  ret (title, chapters).

End ParseFile.
End OriginalPipeline.

(* ================================================================== *)
(** * The reader: paragraphs of a chapter *)
(* ================================================================== *)

(** [processContent] of [Reader.tsx] cuts the content of a chapter into the
    paragraphs the reader shows and the speech service reads. *)

Module Reader.

(** [s.split(regex)] for a pattern without capture groups and a string that
    is not empty, position by position: [q] is the index under inspection,
    [cur] holds, last first, the characters since the end [p] of the previous
    separator, and [skip] counts the characters of the current separator still
    to be passed.  A match that ends at [p] is no separator. *)
Fixpoint splitRe_go (r : regex) (q : nat) (s : jstring) (cur : jstring) (skip : nat)
  : list jstring :=
  match skip with
  | S skip' =>
      match s with
      | [] => [rev cur]
      | _ :: s' => splitRe_go r (S q) s' cur skip'
      end
  | 0 =>
      match s with
      | [] => [rev cur]
      | c :: s' =>
          match rmatch r (MState q s []) Some with
          | Some st =>
              match pos st - q, cur with
              | 0, [] => splitRe_go r (S q) s' [c] 0
              | 0, _ :: _ => rev cur :: splitRe_go r (S q) s' [c] 0
              | S n, _ => rev cur :: splitRe_go r (S q) s' [] n
              end
          | None => splitRe_go r (S q) s' (c :: cur) 0
          end
      end
  end.

(** On the empty string the result is empty when the pattern matches it, and
    holds the empty string otherwise. *)
Definition splitRe (r : regex) (s : jstring) : list jstring :=
  match s with
  | [] => match rmatch r (MState 0 [] []) Some with Some _ => [] | None => [[]] end
  | _ :: _ => splitRe_go r 0 s [] 0
  end.

Definition crlf : regex := lit [CR; NL].                                   (* /\r\n/g *)
Definition paragraphBreak : regex := seqs [Chr NL; star is_ws; Chr NL].    (* /\n\s*\n/g *)

(** [[a-zàáạả...đ]]: the lower case letters of Vietnamese. *)
Definition lower (c : char16) : bool :=
  ((97 <=? c) && (c <=? 122))%N
  || existsb (N.eqb c)
       (utf16 "àáạảãâầấậẩẫăằắặẳẵèéẹẻẽêềếệểễìíịỉĩòóọỏõôồốộổỗơờớợởỡùúụủũưừứựửữỳýỵỷỹđ").

(** [[.!?:\x22'”’\]\}>»]], where [\x22] is the double quote. *)
Definition closing (c : char16) : bool :=
  existsb (N.eqb c) (utf16 ".!?:" ++ [QUOTE] ++ utf16 "'”’]}>»").

(** [[-–—]] *)
Definition dash (c : char16) : bool := existsb (N.eqb c) (utf16 "-–—").

Definition startsWithLower : regex := Seq Bol (Cls lower).
Definition prevEndsWithPunc : regex := Seq (Cls closing) Eol.
Definition currStartsWithDash : regex := Seq Bol (Cls dash).

(** [Boolean(s)] for a string. *)
Definition truthy (s : jstring) : bool :=
  match s with [] => false | _ :: _ => true end.

(** [for (let i = 0; i < lines.length; i++) { ... }]: a line continues the
    current paragraph when it starts in lower case, or when the paragraph does
    not end a sentence and the line does not open a dialogue. *)
Fixpoint joinLines (lines : list jstring) (paragraphs : list jstring)
    (currentParagraph : jstring) : list jstring * jstring :=
  match lines with
  | [] => (paragraphs, currentParagraph)
  | l :: lines' =>
      let line := trim l in
      if negb (truthy line) then joinLines lines' paragraphs currentParagraph
      else if negb (truthy currentParagraph) then joinLines lines' paragraphs line
      else
        let isPuncEnd := test prevEndsWithPunc currentParagraph
                         || endsWith currentParagraph [QUOTE] in
        let isDashStart := test currStartsWithDash line in
        let isLowerStart := test startsWithLower line in
        if isLowerStart || (negb isPuncEnd && negb isDashStart)
        then joinLines lines' paragraphs (currentParagraph ++ [SP] ++ line)
        else joinLines lines' (paragraphs ++ [currentParagraph]) line
  end.

(** [(normalized.match(/\n\s*\n/g) || []).length] *)
Definition doubleNewlineCount (normalized : jstring) : nat :=
  match execAll paragraphBreak normalized with
  | Some ms => length ms
  | None => 0
  end.

Definition processContent (text : jstring) : list jstring :=
  if negb (truthy text) then []
  else
    let normalized := replace crlf (constant [NL]) text in
    if 3 <? doubleNewlineCount normalized
    then
      filter truthy
        (map (fun p => trim (replace (Chr NL) (constant [SP]) p))
             (splitRe paragraphBreak normalized))
    else
      let (paragraphs, currentParagraph) := joinLines (split NL normalized) [] [] in
      if truthy currentParagraph then paragraphs ++ [currentParagraph] else paragraphs.

End Reader.

(** Texts for the examples: lines joined with a newline. *)
Definition lines (ls : list String.string) : jstring := join [NL] (map utf16 ls).

Definition never : nat -> bool := fun _ => false.

(* ================================================================== *)
(** * Facts about strings *)
(* ================================================================== *)

Module StringFacts.

(** A string without white space at either end. *)
Definition edge_free (s : jstring) : Prop :=
  (forall c, hd_error s = Some c -> is_ws c = false) /\
  (forall c, hd_error (rev s) = Some c -> is_ws c = false).

Lemma trimStart_hd s c : hd_error (trimStart s) = Some c -> is_ws c = false.
Proof.
  induction s as [|x s IH]; simpl; [discriminate|].
  destruct (is_ws x) eqn:E; auto.
  simpl. intros [= <-]. exact E.
Qed.

Lemma trimStart_suffix s : exists a, s = a ++ trimStart s /\ forallb is_ws a = true.
Proof.
  induction s as [|x s [a [IH1 IH2]]]; simpl.
  - exists []. auto.
  - destruct (is_ws x) eqn:E.
    + exists (x :: a). simpl. rewrite E, IH2. split; [f_equal; exact IH1|reflexivity].
    + exists []. auto.
Qed.

Lemma trimEnd_prefix s : exists b, s = trimEnd s ++ b /\ forallb is_ws b = true.
Proof.
  unfold trimEnd. destruct (trimStart_suffix (rev s)) as [a [H1 H2]].
  exists (rev a). split.
  - rewrite <- rev_app_distr, <- H1, rev_involutive. reflexivity.
  - rewrite forallb_forall in *. intros x Hx. apply H2. now apply in_rev.
Qed.

Lemma trimStart_app_keep l c :
  is_ws c = false -> exists l', trimStart (l ++ [c]) = l' ++ [c].
Proof.
  intros Hc. induction l as [|x l [l' IH]]; simpl.
  - rewrite Hc. exists []. reflexivity.
  - destruct (is_ws x).
    + exists l'. exact IH.
    + exists (x :: l). reflexivity.
Qed.

Lemma trimEnd_hd s c :
  hd_error s = Some c -> is_ws c = false -> hd_error (trimEnd s) = Some c.
Proof.
  destruct s as [|x s]; simpl; [discriminate|]. intros [= ->] Hc.
  unfold trimEnd. simpl.
  destruct (trimStart_app_keep (rev s) c Hc) as [l' ->].
  rewrite rev_app_distr. reflexivity.
Qed.

Lemma trim_edge_free s : edge_free (trim s).
Proof.
  unfold trim. split.
  - intros c Hc. destruct (trimStart s) as [|x t] eqn:E.
    + discriminate.
    + assert (Hx : is_ws x = false) by (apply (trimStart_hd s); rewrite E; reflexivity).
      rewrite (trimEnd_hd (x :: t) x eq_refl Hx) in Hc. now inversion Hc; subst.
  - intros c. unfold trimEnd. rewrite rev_involutive. apply trimStart_hd.
Qed.

Lemma trimStart_all_ws s : forallb is_ws s = true -> trimStart s = [].
Proof.
  induction s as [|x s IH]; simpl; [reflexivity|].
  destruct (is_ws x); simpl; [exact IH|discriminate].
Qed.

Lemma trim_all_ws s : forallb is_ws s = true -> trim s = [].
Proof. intros H. unfold trim. rewrite (trimStart_all_ws _ H). reflexivity. Qed.

(** [substring] between ordered ends inside the string is the plain slice. *)
Definition slice (s : jstring) (a b : nat) : jstring := firstn (b - a) (skipn a s).

Lemma substring_slice s a b :
  a <= b -> b <= length s -> substring s a b = slice s a b.
Proof.
  intros Hab Hb. unfold substring, slice.
  rewrite (Nat.min_l a), (Nat.min_l b), (Nat.min_l a b), (Nat.max_r a b) by lia.
  reflexivity.
Qed.

Lemma indexOf_go_spec c s p i :
  indexOf_go c s p = Some i ->
  p <= i /\ nth_error s (i - p) = Some c /\
  forall j, j < i - p -> nth_error s j <> Some c.
Proof.
  revert p. induction s as [|x s IH]; simpl; intros p; [discriminate|].
  destruct (N.eqb_spec x c) as [->|Hne].
  - intros [= <-]. rewrite Nat.sub_diag. simpl. repeat split; auto. lia.
  - intros H. destruct (IH _ H) as [H1 [H2 H3]].
    replace (i - p) with (S (i - S p)) by lia. simpl. repeat split; [lia|exact H2|].
    intros [|j] Hj; simpl; [congruence|]. apply H3. lia.
Qed.


Lemma nth_error_skipn {A} (l : list A) n j :
  nth_error (skipn n l) j = nth_error l (n + j).
Proof.
  revert l. induction n as [|n IH]; intros [|x l]; simpl; auto.
  destruct j; reflexivity.
Qed.

(** [indexOf]: the first occurrence at or after [from]. *)
Lemma indexOf_spec c s from i :
  indexOf c s from = Some i ->
  from <= i /\ i < length s /\ nth_error s i = Some c /\
  forall j, from <= j < i -> nth_error s j <> Some c.
Proof.
  unfold indexOf. intros H. destruct (indexOf_go_spec _ _ _ _ H) as [H1 [H2 H3]].
  rewrite nth_error_skipn in H2. replace (from + (i - from)) with i in H2 by lia.
  repeat split; auto.
  - apply nth_error_Some. congruence.
  - intros j Hj. specialize (H3 (j - from) ltac:(lia)).
    rewrite nth_error_skipn in H3. replace (from + (j - from)) with j in H3 by lia.
    exact H3.
Qed.


End StringFacts.
Import StringFacts.

(* ================================================================== *)
(** * Facts about the matcher *)
(* ================================================================== *)

Module RegexFacts.

(** [st'] is reached from [st] by consuming at least [n] characters. *)
Definition adv (n : nat) (st st' : mstate) : Prop :=
  exists w, rest st = w ++ rest st' /\ pos st' = pos st + length w /\ n <= length w.

Lemma adv_refl st : adv 0 st st.
Proof. exists []. simpl. repeat split; lia. Qed.

Lemma adv_trans n1 n2 a b c : adv n1 a b -> adv n2 b c -> adv (n1 + n2) a c.
Proof.
  intros [w1 [R1 [P1 L1]]] [w2 [R2 [P2 L2]]]. exists (w1 ++ w2).
  rewrite length_app, <- app_assoc, <- R2. repeat split; auto; lia.
Qed.

Lemma adv_weaken n m a b : m <= n -> adv n a b -> adv m a b.
Proof. intros H [w [R [P L]]]. exists w. repeat split; auto; lia. Qed.

Lemma orelse_some a b res :
  orelse a b = Some res -> a = Some res \/ (a = None /\ b = Some res).
Proof. destruct a; simpl; intros H; [left; exact H|right; auto]. Qed.

Lemma orelse_none a b : orelse a b = None <-> a = None /\ b = None.
Proof.
  destruct a as [x|]; simpl.
  - split; [discriminate|intros [H _]; discriminate].
  - split; [intro H; split; auto|intros [_ H]; exact H].
Qed.

Lemma rep_greedy_sound p s : forall min max cs i k res,
  rep_greedy p min max cs i s k = Some res ->
  exists w s', s = w ++ s' /\ forallb p w = true /\ min <= length w /\
               k (MState (i + length w) s' cs) = Some res.
Proof.
  induction s as [|c s IH]; intros min max cs i k res H.
  - simpl in H. destruct (Nat.eqb_spec min 0); [|discriminate].
    exists [], []. simpl. rewrite Nat.add_0_r. repeat split; auto; lia.
  - simpl in H.
    assert (Stop : (if min =? 0 then k (MState i (c :: s) cs) else None) = Some res ->
                   exists w s', c :: s = w ++ s' /\ forallb p w = true /\ min <= length w /\
                                k (MState (i + length w) s' cs) = Some res).
    { destruct (Nat.eqb_spec min 0); [|discriminate]. intros Hk.
      exists [], (c :: s). simpl. rewrite Nat.add_0_r. repeat split; auto; lia. }
    destruct (max_is_zero max); [auto|].
    destruct (p c) eqn:Pc; [|auto].
    apply orelse_some in H. destruct H as [H|[_ H]]; [|auto].
    destruct (IH _ _ _ _ _ _ H) as [w [s' [E [F [L K]]]]].
    exists (c :: w), s'. simpl. rewrite Pc, F, E.
    replace (i + S (length w)) with (S i + length w) by lia.
    repeat split; auto; lia.
Qed.

Lemma rep_lazy_sound p s : forall min max cs i k res,
  rep_lazy p min max cs i s k = Some res ->
  exists w s', s = w ++ s' /\ forallb p w = true /\ min <= length w /\
               k (MState (i + length w) s' cs) = Some res.
Proof.
  induction s as [|c s IH]; intros min max cs i k res H.
  - simpl in H. destruct (Nat.eqb_spec min 0); [|discriminate].
    destruct (k (MState i [] cs)) eqn:K; simpl in H; [|discriminate].
    exists [], []. simpl. rewrite Nat.add_0_r. repeat split; auto; try lia. congruence.
  - simpl in H.
    assert (More : (if max_is_zero max then None
                    else if p c then rep_lazy p (pred min) (dec_max max) cs (S i) s k
                         else None) = Some res ->
                   exists w s', c :: s = w ++ s' /\ forallb p w = true /\ min <= length w /\
                                k (MState (i + length w) s' cs) = Some res).
    { destruct (max_is_zero max); [discriminate|].
      destruct (p c) eqn:Pc; [|discriminate]. intros H'.
      destruct (IH _ _ _ _ _ _ H') as [w [s' [E [F [L K]]]]].
      exists (c :: w), s'. simpl. rewrite Pc, F, E.
      replace (i + S (length w)) with (S i + length w) by lia.
      repeat split; auto; lia. }
    destruct (Nat.eqb_spec min 0); [|auto].
    apply orelse_some in H. destruct H as [H|[_ H]]; [|auto].
    exists [], (c :: s). simpl. rewrite Nat.add_0_r. repeat split; auto; lia.
Qed.

Lemma step_if_sound ok st k res :
  step_if ok st k = Some res ->
  exists c s', rest st = c :: s' /\ ok c = true /\
               k (MState (S (pos st)) s' (caps st)) = Some res.
Proof.
  unfold step_if. destruct (rest st) as [|c s']; [discriminate|].
  destruct (ok c) eqn:E; [|discriminate]. intros H. exists c, s'. auto.
Qed.

(** Every result of the matcher comes from the continuation, called on a
    state further along the input by at least [minlen r] characters. *)
Lemma rmatch_sound r : forall st k res,
  rmatch r st k = Some res ->
  exists st', k st' = Some res /\ adv (minlen r) st st'.
Proof.
  induction r as [| | |c|c|p|r1 IH1 r2 IH2|r1 IH1 r2 IH2|i r IH|r IH|g p min max];
    intros st k res H; simpl in H.
  - exists st. split; [exact H|apply adv_refl].
  - destruct (pos st =? 0); [|discriminate]. exists st. split; [exact H|apply adv_refl].
  - destruct (rest st) eqn:E; [|discriminate]. exists st. split; [exact H|apply adv_refl].
  - destruct (step_if_sound _ _ _ _ H) as [x [s' [E [_ K]]]].
    eexists. split; [exact K|]. exists [x]. simpl. repeat split; auto; lia.
  - destruct (step_if_sound _ _ _ _ H) as [x [s' [E [_ K]]]].
    eexists. split; [exact K|]. exists [x]. simpl. repeat split; auto; lia.
  - destruct (step_if_sound _ _ _ _ H) as [x [s' [E [_ K]]]].
    eexists. split; [exact K|]. exists [x]. simpl. repeat split; auto; lia.
  - destruct (IH1 _ _ _ H) as [st1 [K1 A1]].
    destruct (IH2 _ _ _ K1) as [st2 [K2 A2]].
    exists st2. split; [exact K2|]. simpl. eapply adv_trans; eauto.
  - apply orelse_some in H. destruct H as [H|[_ H]].
    + destruct (IH1 _ _ _ H) as [st1 [K1 A1]]. exists st1. split; auto.
      eapply adv_weaken; [|exact A1]. simpl. lia.
    + destruct (IH2 _ _ _ H) as [st1 [K1 A1]]. exists st1. split; auto.
      eapply adv_weaken; [|exact A1]. simpl. lia.
  - destruct (IH _ _ _ H) as [st1 [K1 A1]]. eexists. split; [exact K1|].
    destruct A1 as [w [R [P L]]]. exists w. simpl. auto.
  - apply orelse_some in H. destruct H as [H|[_ H]].
    + destruct (IH _ _ _ H) as [st1 [K1 A1]].
      destruct (pos st1 =? pos st); [discriminate|].
      exists st1. split; auto. eapply adv_weaken; [|exact A1]. simpl. lia.
    + exists st. split; [exact H|apply adv_refl].
  - destruct g.
    + destruct (rep_greedy_sound _ _ _ _ _ _ _ _ H) as [w [s' [E [_ [L K]]]]].
      eexists. split; [exact K|]. exists w. simpl. auto.
    + destruct (rep_lazy_sound _ _ _ _ _ _ _ _ H) as [w [s' [E [_ [L K]]]]].
      eexists. split; [exact K|]. exists w. simpl. auto.
Qed.

(** Two continuations that agree wherever a third one fails are
    interchangeable where the matcher fails with the third. *)
Lemma rep_greedy_congr p s : forall min max cs i (k1 k2 k3 : cont),
  (forall st, k3 st = None -> k1 st = k2 st) ->
  rep_greedy p min max cs i s k3 = None ->
  rep_greedy p min max cs i s k1 = rep_greedy p min max cs i s k2.
Proof.
  induction s as [|c s IH]; intros min max cs i k1 k2 k3 Hk H; simpl in *.
  - destruct (min =? 0); auto.
  - destruct (max_is_zero max); [destruct (min =? 0); auto|].
    destruct (p c); [|destruct (min =? 0); auto].
    apply orelse_none in H. destruct H as [H1 H2].
    rewrite (IH _ _ _ _ k1 k2 k3 Hk H1).
    destruct (min =? 0); [rewrite (Hk _ H2)|]; reflexivity.
Qed.

Lemma rep_lazy_congr p s : forall min max cs i (k1 k2 k3 : cont),
  (forall st, k3 st = None -> k1 st = k2 st) ->
  rep_lazy p min max cs i s k3 = None ->
  rep_lazy p min max cs i s k1 = rep_lazy p min max cs i s k2.
Proof.
  induction s as [|c s IH]; intros min max cs i k1 k2 k3 Hk H; simpl in *.
  - destruct (min =? 0); auto. apply orelse_none in H. destruct H as [H1 _].
    rewrite (Hk _ H1). reflexivity.
  - destruct (min =? 0).
    + apply orelse_none in H. destruct H as [H1 H2]. rewrite (Hk _ H1).
      destruct (max_is_zero max); [reflexivity|]. destruct (p c); [|reflexivity].
      rewrite (IH _ _ _ _ k1 k2 k3 Hk H2). reflexivity.
    + destruct (max_is_zero max); [reflexivity|]. destruct (p c); [|reflexivity].
      apply (IH _ _ _ _ k1 k2 k3 Hk H).
Qed.

Lemma rmatch_congr r : forall st (k1 k2 k3 : cont),
  (forall st', k3 st' = None -> k1 st' = k2 st') ->
  rmatch r st k3 = None ->
  rmatch r st k1 = rmatch r st k2.
Proof.
  induction r as [| | |c|c|p|r1 IH1 r2 IH2|r1 IH1 r2 IH2|i r IH|r IH|g p min max];
    intros st k1 k2 k3 Hk H; simpl in *.
  - auto.
  - destruct (pos st =? 0); auto.
  - destruct (rest st); auto.
  - unfold step_if in *. destruct (rest st); auto. destruct (c =? c0)%N; auto.
  - unfold step_if in *. destruct (rest st); auto. destruct (ci_eq c c0); auto.
  - unfold step_if in *. destruct (rest st); auto. destruct (p c); auto.
  - apply (IH1 st _ _ (fun st1 => rmatch r2 st1 k3)); [|exact H].
    intros st' H'. apply (IH2 st' k1 k2 k3 Hk H').
  - apply orelse_none in H. destruct H as [H1 H2].
    rewrite (IH1 st k1 k2 k3 Hk H1), (IH2 st k1 k2 k3 Hk H2). reflexivity.
  - eapply IH; [|exact H]. intros st' H'. simpl in H'. apply Hk. exact H'.
  - apply orelse_none in H. destruct H as [H1 H2].
    rewrite (Hk _ H2). f_equal.
    eapply IH; [|exact H1]. intros st' H'. simpl in H'.
    destruct (pos st' =? pos st); auto.
  - destruct g; [eapply rep_greedy_congr|eapply rep_lazy_congr]; eauto.
Qed.

Lemma match_at_index r text p m : match_at r text p = Some m -> mindex m = p.
Proof.
  unfold match_at. destruct (rmatch _ _ _); [|discriminate]. intros [= <-]. reflexivity.
Qed.

(** A match at [p] consumes the string [matched text m], of at least
    [minlen r] characters, and stays inside the text. *)
Lemma match_at_spec r text p m :
  match_at r text p = Some m -> p <= length text ->
  mindex m = p /\ p + minlen r <= mend m /\ mend m <= length text /\
  skipn p text = matched text m ++ skipn (mend m) text /\
  length (matched text m) = mend m - p.
Proof.
  unfold match_at. destruct (rmatch _ _ _) as [st|] eqn:E; [|discriminate].
  intros [= <-] Hp. simpl.
  destruct (rmatch_sound _ _ _ _ E) as [st' [K [w [R [P L]]]]].
  injection K as ->. simpl in *.
  assert (Hlen : length (skipn p text) = length w + length (rest st))
    by (rewrite R, length_app; reflexivity).
  rewrite length_skipn in Hlen.
  assert (Hw : firstn (pos st - p) (skipn p text) = w).
  { rewrite R, P. replace (p + length w - p) with (length w + 0) by lia.
    rewrite firstn_app_2. simpl. apply app_nil_r. }
  assert (Hr : skipn (pos st) text = rest st).
  { rewrite P, Nat.add_comm, <- skipn_skipn, R, skipn_app, skipn_all, Nat.sub_diag. reflexivity. }
  unfold matched. simpl. rewrite Hw, Hr.
  repeat split; auto; lia.
Qed.

Lemma exec_from_some r text : forall n p m,
  exec_from r text p n = Some m ->
  p <= mindex m <= p + n /\ match_at r text (mindex m) = Some m /\
  forall q, p <= q < mindex m -> match_at r text q = None.
Proof.
  induction n as [|n IH]; intros p m H; simpl in H.
  - destruct (match_at r text p) as [m'|] eqn:E; [|discriminate].
    injection H as ->. pose proof (match_at_index _ _ _ _ E) as I. rewrite I.
    split; [lia|]. split; [exact E|]. intros q Hq. lia.
  - destruct (match_at r text p) as [m'|] eqn:E.
    + injection H as ->. pose proof (match_at_index _ _ _ _ E) as I. rewrite I.
      split; [lia|]. split; [exact E|]. intros q Hq. lia.
    + destruct (IH _ _ H) as [H1 [H2 H3]]. split; [lia|]. split; [exact H2|].
      intros q Hq. destruct (Nat.eq_dec q p) as [->|]; [exact E|]. apply H3. lia.
Qed.

Lemma exec_from_none r text : forall n p,
  exec_from r text p n = None ->
  forall q, p <= q <= p + n -> match_at r text q = None.
Proof.
  induction n as [|n IH]; intros p H q Hq; simpl in H;
    destruct (match_at r text p) eqn:E; try discriminate.
  - replace q with p by lia. exact E.
  - destruct (Nat.eq_dec q p) as [->|]; [exact E|]. apply (IH _ H). lia.
Qed.

Lemma exec_from_first r text : forall n p q m,
  (forall q', p <= q' < q -> match_at r text q' = None) ->
  match_at r text q = Some m -> p <= q <= p + n ->
  exec_from r text p n = Some m.
Proof.
  induction n as [|n IH]; intros p q m Hnone Hm Hq; simpl.
  - replace p with q by lia. rewrite Hm. reflexivity.
  - destruct (Nat.eq_dec q p) as [->|Hne].
    + rewrite Hm. reflexivity.
    + rewrite (Hnone p) by lia. apply (IH _ q); auto; try lia.
      intros q' Hq'. apply Hnone. lia.
Qed.

Lemma exec_from_all_none r text : forall n p,
  (forall q, p <= q <= p + n -> match_at r text q = None) ->
  exec_from r text p n = None.
Proof.
  induction n as [|n IH]; intros p H; simpl; rewrite (H p) by lia; [reflexivity|].
  apply IH. intros q Hq. apply H. lia.
Qed.

(** [exec] finds the first index from [lastIndex] on where the pattern
    matches. *)
Lemma exec_some r text li m :
  exec r text li = Some m ->
  li <= mindex m <= length text /\ match_at r text (mindex m) = Some m /\
  forall q, li <= q < mindex m -> match_at r text q = None.
Proof.
  unfold exec. destruct (Nat.leb_spec li (length text)) as [Hli|Hli]; [|discriminate].
  intros H. destruct (exec_from_some _ _ _ _ _ H) as [H1 [H2 H3]].
  repeat split; auto; lia.
Qed.

Lemma exec_none r text li q :
  exec r text li = None -> li <= q <= length text -> match_at r text q = None.
Proof.
  unfold exec. destruct (Nat.leb_spec li (length text)) as [Hli|Hli]; [|lia].
  intros H Hq. apply (exec_from_none _ _ _ _ H). lia.
Qed.

Lemma exec_first r text li q m :
  (forall q', li <= q' < q -> match_at r text q' = None) ->
  match_at r text q = Some m -> li <= q <= length text ->
  exec r text li = Some m.
Proof.
  intros Hn Hm Hq. unfold exec. destruct (Nat.leb_spec li (length text)) as [Hli|Hli]; [|lia].
  apply (exec_from_first _ _ _ _ q); auto. lia.
Qed.

Lemma exec_all_none r text li :
  (forall q, li <= q <= length text -> match_at r text q = None) ->
  exec r text li = None.
Proof.
  intros H. unfold exec. destruct (Nat.leb_spec li (length text)) as [Hli|Hli]; [|reflexivity].
  apply exec_from_all_none. intros q Hq. apply H. lia.
Qed.

(** Moving [lastIndex] forward, but not past the next match, does not change
    the result. *)
Lemma exec_later r text li li' :
  li <= li' ->
  match exec r text li with
  | Some m => li' <= mindex m -> exec r text li' = Some m
  | None => exec r text li' = None
  end.
Proof.
  intros Hle. destruct (exec r text li) as [m|] eqn:E.
  - intros Hm. destruct (exec_some _ _ _ _ E) as [H1 [H2 H3]].
    apply (exec_first _ _ _ (mindex m)); auto; try lia.
    intros q' Hq'. apply H3. lia.
  - unfold exec. destruct (Nat.leb_spec li' (length text)) as [Hli|Hli]; [|reflexivity].
    apply exec_from_all_none. intros q Hq. apply (exec_none _ _ _ _ E). lia.
Qed.

(** The scan from [lastIndex = li]. *)
Definition scanFrom (r : regex) (text : jstring) (li : nat) : option (list RegExpMatch) :=
  execAll_go r text li (length text - li) 0.

Lemma execAll_go_skip r text : forall skip p n,
  skip <= n ->
  execAll_go r text p n skip = execAll_go r text (p + skip) (n - skip) 0.
Proof.
  induction skip as [|skip IH]; intros p n H.
  - rewrite Nat.add_0_r, Nat.sub_0_r. reflexivity.
  - destruct n as [|n]; [lia|]. simpl execAll_go at 1.
    rewrite IH by lia. f_equal; lia.
Qed.

Lemma execAll_go_eq r text : forall n p,
  p + n = length text ->
  execAll_go r text p n 0 =
  match exec_from r text p n with
  | None => Some []
  | Some m => if mend m <=? mindex m then None
              else option_map (cons m) (scanFrom r text (mend m))
  end.
Proof.
  induction n as [|n IH]; intros p Hp; simpl.
  - destruct (match_at r text p) as [m|] eqn:E; [|reflexivity].
    destruct (match_at_spec _ _ _ _ E ltac:(lia)) as [I [_ [Hend _]]]. rewrite I.
    destruct (Nat.leb_spec (mend m) p); [reflexivity|lia].
  - destruct (match_at r text p) as [m|] eqn:E.
    + destruct (match_at_spec _ _ _ _ E ltac:(lia)) as [I [_ [Hend _]]]. rewrite I.
      destruct (Nat.leb_spec (mend m) p); [reflexivity|].
      rewrite execAll_go_skip by lia. unfold scanFrom. do 2 f_equal; lia.
    + apply IH. lia.
Qed.

(** The equation of the loop [while ((match = regex.exec(text)) !== null)]. *)
Lemma scanFrom_eq r text li :
  li <= length text ->
  scanFrom r text li =
  match exec r text li with
  | None => Some []
  | Some m => if mend m <=? mindex m then None
              else option_map (cons m) (scanFrom r text (mend m))
  end.
Proof.
  intros H. unfold scanFrom at 1, exec.
  destruct (Nat.leb_spec li (length text)) as [Hli|Hli]; [|lia].
  apply execAll_go_eq. lia.
Qed.

(** [scanned r text li ms]: [ms] are the successive results of [exec] from
    [lastIndex = li] to the final [null]. *)
Inductive scanned (r : regex) (text : jstring) : nat -> list RegExpMatch -> Prop :=
| scanned_nil li : exec r text li = None -> scanned r text li []
| scanned_cons li m ms :
    exec r text li = Some m -> mindex m < mend m -> mend m <= length text ->
    scanned r text (mend m) ms -> scanned r text li (m :: ms).

(** A pattern that cannot match the empty string is scanned to the end. *)
Lemma scanFrom_total r text :
  0 < minlen r ->
  forall k li, length text - li <= k -> li <= length text ->
  exists ms, scanFrom r text li = Some ms /\ scanned r text li ms.
Proof.
  intros Hmin. induction k as [|k IH]; intros li Hk Hli.
  - rewrite scanFrom_eq by exact Hli.
    destruct (exec r text li) as [m|] eqn:E.
    + destruct (exec_some _ _ _ _ E) as [H1 [H2 _]].
      destruct (match_at_spec _ _ _ _ H2 ltac:(lia)) as [_ [Hmn [Hend _]]]. lia.
    + exists []. split; [reflexivity|constructor; exact E].
  - rewrite scanFrom_eq by exact Hli.
    destruct (exec r text li) as [m|] eqn:E.
    + destruct (exec_some _ _ _ _ E) as [H1 [H2 _]].
      destruct (match_at_spec _ _ _ _ H2 ltac:(lia)) as [_ [Hmn [Hend _]]].
      destruct (Nat.leb_spec (mend m) (mindex m)); [lia|].
      destruct (IH (mend m) ltac:(lia) Hend) as [ms [S1 S2]].
      exists (m :: ms). rewrite S1. split; [reflexivity|].
      apply scanned_cons; auto.
    + exists []. split; [reflexivity|constructor; exact E].
Qed.

Lemma execAll_total r text :
  0 < minlen r -> exists ms, execAll r text = Some ms /\ scanned r text 0 ms.
Proof.
  intros H. destruct (scanFrom_total r text H (length text) 0) as [ms [S1 S2]]; try lia.
  exists ms. split; [|exact S2]. unfold scanFrom in S1. rewrite Nat.sub_0_r in S1. exact S1.
Qed.

End RegexFacts.
Import RegexFacts.

(* ================================================================== *)
(** * Facts about the splitter *)
(* ================================================================== *)

(** [collect f l]: the values [f] gives on [l], in order. *)
Fixpoint collect {A B : Type} (f : A -> option B) (l : list A) : list B :=
  match l with
  | [] => []
  | x :: l' =>
      match f x with
      | Some y => y :: collect f l'
      | None => collect f l'
      end
  end.

Lemma collect_app {A B} (f : A -> option B) l1 l2 :
  collect f (l1 ++ l2) = collect f l1 ++ collect f l2.
Proof.
  induction l1 as [|x l1 IH]; simpl; [reflexivity|].
  destruct (f x); simpl; rewrite IH; reflexivity.
Qed.

Lemma collect_In {A B} (f : A -> option B) l y :
  In y (collect f l) -> exists x, In x l /\ f x = Some y.
Proof.
  induction l as [|x l IH]; simpl; [tauto|].
  destruct (f x) as [y'|] eqn:E.
  - intros [<-|H]; [exists x; auto|]. destruct (IH H) as [x' [H1 H2]]. exists x'. auto.
  - intros H. destruct (IH H) as [x' [H1 H2]]. exists x'. auto.
Qed.

(** The chapters the slicing loop pushes from iteration [i] on, for the
    remaining matches [ms]. *)
Fixpoint loopChapters (text : jstring) (uniqueMatches : list ChapterMatch.t) (i : nat)
    (ms : list ChapterMatch.t) : list Chapter :=
  match ms with
  | [] => []
  | m :: ms' => chapterAt text uniqueMatches i m :: loopChapters text uniqueMatches (S i) ms'
  end.

Module OptimizedFacts.
Import Optimized.

(** The results of [exec] over the whole text, and the candidates the scan
    accepts among them. *)
Definition rawMatches (text : jstring) : list RegExpMatch :=
  match execAll chapterRegex text with Some ms => ms | None => [] end.

Definition candidates (text : jstring) : list ChapterMatch.t :=
  collect (chapterMatch text) (rawMatches text).

Lemma chapterRegex_minlen : 0 < minlen chapterRegex.
Proof. vm_compute. lia. Qed.

Lemma execAll_chapterRegex text :
  execAll chapterRegex text = Some (rawMatches text) /\
  scanned chapterRegex text 0 (rawMatches text).
Proof.
  destruct (execAll_total chapterRegex text chapterRegex_minlen) as [ms [H1 H2]].
  unfold rawMatches. rewrite H1. auto.
Qed.

Lemma scanLoop_ok text sig w : sig (clock w) = false ->
  forall ms acc, scanLoop text ms acc sig w = (Ok (acc ++ collect (chapterMatch text) ms), w).
Proof.
  intros Hs. induction ms as [|m ms IH]; intros acc; simpl.
  - unfold ret. rewrite app_nil_r. reflexivity.
  - unfold bind, checkAborted. rewrite Hs.
    destruct (chapterMatch text m); rewrite IH; [rewrite <- app_assoc|]; reflexivity.
Qed.

Lemma scanLoop_aborted text sig w : sig (clock w) = true ->
  forall m ms acc, scanLoop text (m :: ms) acc sig w = (Throw Aborted, w).
Proof. intros Hs m ms acc. simpl. unfold bind, checkAborted. rewrite Hs. reflexivity. Qed.

Lemma sliceLoop_ok text um sig : forall n i chapters w,
  sig (clock w) = false -> i + n <= length um ->
  sliceLoop text um i n chapters sig w =
  (Ok (chapters ++ loopChapters text um i (firstn n (skipn i um))), w).
Proof.
  induction n as [|n IH]; intros i chapters w Hs Hi; simpl.
  - unfold ret. rewrite app_nil_r. reflexivity.
  - unfold bind, checkAborted. rewrite Hs.
    destruct (nth_error um i) as [m|] eqn:E.
    + rewrite IH by (auto; lia).
      assert (Hsk : skipn i um = m :: skipn (S i) um).
      { clear -E. revert um E. induction i as [|i IH]; intros [|x um] E; simpl in *;
          try discriminate; [congruence|]. apply IH. exact E. }
      rewrite Hsk. simpl. rewrite <- app_assoc. reflexivity.
    + apply nth_error_None in E. lia.
Qed.

(** The chapter list of a run that is not aborted. *)
Definition chapters (text : jstring) : list Chapter :=
  match candidates text with
  | [] => [mkChapter TITLE_CONTENT text]
  | _ :: _ =>
      let uniqueMatches := uniqueMatchesOf (candidates text) in
      prologueOf text uniqueMatches ++ loopChapters text uniqueMatches 0 uniqueMatches
  end.

Lemma splitIntoChapters_ok text sig w :
  sig (clock w) = false ->
  exists tr, splitIntoChapters text sig w = (Ok (chapters text), World (clock w) tr).
Proof.
  intros Hs. unfold splitIntoChapters.
  destruct (execAll_chapterRegex text) as [-> _].
  unfold bind at 1. rewrite (scanLoop_ok text sig w Hs). simpl app.
  fold (candidates text). unfold bind at 1, onProgress at 1.
  unfold chapters. destruct (candidates text) as [|c cs] eqn:E.
  - simpl. unfold ret. eexists. reflexivity.
  - rewrite <- E. replace (length (candidates text) =? 0) with false
      by (rewrite E; reflexivity).
    unfold bind. rewrite sliceLoop_ok by (simpl; auto).
    unfold onProgress, ret. simpl. rewrite firstn_all. eexists. reflexivity.
Qed.

(** *** Where a heading match lies *)

Lemma rep_greedy_min0_total p s : forall max cs i (k : cont),
  (forall st, k st <> None) -> rep_greedy p 0 max cs i s k <> None.
Proof.
  induction s as [|c s IH]; intros max cs i k Hk; simpl; [apply Hk|].
  destruct (max_is_zero max); [apply Hk|].
  destruct (p c); [|apply Hk].
  intros H. apply orelse_none in H. destruct H as [_ H]. exact (Hk _ H).
Qed.

(** [leadingNewlineLen] *)
Definition leadingNewlineLen (fullMatch : jstring) : nat :=
  length fullMatch - length (stripLeadingNewlines fullMatch).

Lemma leadingNewlineLen_le s : leadingNewlineLen s <= length s.
Proof. unfold leadingNewlineLen. lia. Qed.

Lemma leadingNewlineLen_nl s : 1 <= leadingNewlineLen (NL :: s).
Proof.
  unfold leadingNewlineLen, stripLeadingNewlines, replaceFirst.
  destruct (exec leadingNewlines (NL :: s) 0) as [m|] eqn:E.
  - destruct (exec_some _ _ _ _ E) as [H1 [H2 H3]].
    assert (I0 : mindex m = 0).
    { destruct (Nat.eq_dec (mindex m) 0) as [|Hne]; [assumption|].
      exfalso. unfold match_at in H2. simpl in H2.
      destruct (mindex m); [congruence|]. discriminate. }
    rewrite I0 in *. destruct (match_at_spec _ _ _ _ H2 ltac:(lia)) as [_ [Hmin [Hend _]]].
    change (minlen leadingNewlines) with 1 in Hmin.
    simpl firstn. rewrite !app_nil_l, length_skipn. simpl length in *. lia.
  - exfalso. pose proof (exec_none _ _ _ 0 E ltac:(simpl; lia)) as H0.
    unfold match_at in H0. simpl in H0.
    destruct (rep_greedy nl_cr 0 None [] 1 s Some) eqn:R; simpl in H0; [discriminate|].
    revert R. apply rep_greedy_min0_total. discriminate.
Qed.

(** A heading matched after the start of the text begins with the newline
    that ends the previous line. *)
Lemma heading_after_start kw text p m :
  match_at (heading kw) text p = Some m -> 0 < p ->
  exists s, skipn p text = NL :: s.
Proof.
  unfold match_at. destruct (rmatch _ _ _) as [st|] eqn:E; [|discriminate].
  intros _ Hp. unfold heading, headingStart in E. cbn [rmatch] in E.
  apply orelse_some in E. destruct E as [E|[_ E]].
  - cbn [pos] in E. destruct (Nat.eqb_spec p 0); [lia|discriminate].
  - destruct (step_if_sound _ _ _ _ E) as [c [s [R [C _]]]]. cbn [rest] in R.
    apply N.eqb_eq in C. subst c. exists s. exact R.
Qed.

Lemma matched_after_start kw text m :
  match_at (heading kw) text (mindex m) = Some m -> 0 < mindex m ->
  mindex m < mend m -> exists s, matched text m = NL :: s.
Proof.
  intros H Hp Hlt. destruct (heading_after_start _ _ _ _ H Hp) as [s Hs].
  unfold matched. rewrite Hs. destruct (mend m - mindex m) eqn:D; [lia|].
  simpl. eauto.
Qed.

(** What the body of the scanning loop pushes. *)
Lemma chapterMatch_inv text m c :
  chapterMatch text m = Some c ->
  ChapterMatch.matchStart c = mindex m + leadingNewlineLen (matched text m) /\
  ChapterMatch.index c =
    match indexOf NL text (ChapterMatch.matchStart c) with
    | Some lineEndIndex => lineEndIndex + 1
    | None => mindex m + length (matched text m)
    end /\
  exists t, ChapterMatch.title c = trim t.
Proof.
  unfold chapterMatch.
  destruct (test falsePositivePattern _); [discriminate|].
  destruct (length _ =? 0); [discriminate|].
  intros [= <-]. simpl. repeat split. eexists. reflexivity.
Qed.

(** A result of [exec] in the scan of the text. *)
Definition raw_ok (r : regex) (text : jstring) (m : RegExpMatch) : Prop :=
  match_at r text (mindex m) = Some m /\ mindex m < mend m /\ mend m <= length text.

Definition before (m m' : RegExpMatch) : Prop := mend m <= mindex m'.

Lemma scanned_sorted r text li ms :
  scanned r text li ms ->
  Forall (fun m => li <= mindex m /\ raw_ok r text m) ms /\ StronglySorted before ms.
Proof.
  induction 1 as [li E|li m ms E Hlt Hend S [IH1 IH2]].
  - split; constructor.
  - destruct (exec_some _ _ _ _ E) as [H1 [H2 _]]. split.
    + constructor; [unfold raw_ok; auto with arith|].
      * split; [lia|]. repeat split; auto.
      * eapply Forall_impl; [|exact IH1]. simpl. intros a [Ha Hok]. split; [lia|exact Hok].
    + constructor; [exact IH2|].
      eapply Forall_impl; [|exact IH1]. simpl. intros a [Ha _]. exact Ha.
Qed.

Lemma rawMatches_sorted text :
  Forall (raw_ok chapterRegex text) (rawMatches text) /\
  StronglySorted before (rawMatches text).
Proof.
  destruct (execAll_chapterRegex text) as [_ S].
  destruct (scanned_sorted _ _ _ _ S) as [H1 H2]. split; [|exact H2].
  eapply Forall_impl; [|exact H1]. simpl. tauto.
Qed.

(** The order of two accepted candidates, and the bounds of one. *)
Definition cand_before (c c' : ChapterMatch.t) : Prop :=
  ChapterMatch.matchStart c < ChapterMatch.matchStart c' /\
  ChapterMatch.index c <= ChapterMatch.matchStart c'.

Definition cand_ok (text : jstring) (c : ChapterMatch.t) : Prop :=
  ChapterMatch.matchStart c <= ChapterMatch.index c /\
  ChapterMatch.index c <= length text.

Lemma matched_length text m :
  raw_ok chapterRegex text m -> length (matched text m) = mend m - mindex m.
Proof.
  intros [H [Hlt Hend]].
  destruct (match_at_spec _ _ _ _ H ltac:(lia)) as [_ [_ [_ [_ L]]]]. exact L.
Qed.

Lemma candidate_ok text m c :
  raw_ok chapterRegex text m -> chapterMatch text m = Some c ->
  cand_ok text c /\ mindex m <= ChapterMatch.matchStart c <= mend m /\
  (0 < mindex m -> mindex m < ChapterMatch.matchStart c).
Proof.
  intros Hok Hc. pose proof (matched_length _ _ Hok) as L.
  destruct Hok as [Hm [Hlt Hend]].
  destruct (chapterMatch_inv _ _ _ Hc) as [MS [CS _]].
  pose proof (leadingNewlineLen_le (matched text m)) as Hle.
  assert (Hpos : 0 < mindex m -> mindex m < ChapterMatch.matchStart c).
  { intros Hp. destruct (matched_after_start _ _ _ Hm Hp Hlt) as [s Hs].
    pose proof (leadingNewlineLen_nl s) as H1. rewrite <- Hs in H1. lia. }
  assert (Hcs : ChapterMatch.matchStart c <= ChapterMatch.index c <= length text).
  { rewrite CS. destruct (indexOf NL text (ChapterMatch.matchStart c)) as [q|] eqn:I.
    - destruct (indexOf_spec _ _ _ _ I) as [? [? _]]. lia.
    - lia. }
  unfold cand_ok. repeat split; lia.
Qed.

Lemma candidate_before text m m' c c' :
  raw_ok chapterRegex text m -> raw_ok chapterRegex text m' -> before m m' ->
  chapterMatch text m = Some c -> chapterMatch text m' = Some c' ->
  cand_before c c'.
Proof.
  intros Hok Hok' Hb Hc Hc'. unfold before in Hb.
  destruct (candidate_ok _ _ _ Hok Hc) as [_ [B _]].
  destruct (candidate_ok _ _ _ Hok' Hc') as [_ [B' P']].
  pose proof (matched_length _ _ Hok) as L.
  destruct Hok as [Hm [Hlt Hend]]. destruct Hok' as [Hm' [Hlt' Hend']].
  specialize (P' ltac:(lia)).
  destruct (chapterMatch_inv _ _ _ Hc) as [MS [CS _]].
  split; [lia|]. rewrite CS.
  destruct (indexOf NL text (ChapterMatch.matchStart c)) as [q|] eqn:I; [|lia].
  destruct (indexOf_spec _ _ _ _ I) as [_ [_ [_ First]]].
  destruct (heading_after_start _ _ _ _ Hm' ltac:(lia)) as [s Hs].
  assert (Hnl : nth_error text (mindex m') = Some NL).
  { pose proof (nth_error_skipn text (mindex m') 0) as N. rewrite Hs in N.
    simpl in N. rewrite Nat.add_0_r in N. auto. }
  destruct (Nat.le_gt_cases q (mindex m')) as [|Hgt]; [lia|].
  exfalso. apply (First (mindex m')); [lia|exact Hnl].
Qed.

Lemma collect_sorted {A B} (R : A -> A -> Prop) (R' : B -> B -> Prop) (P : A -> Prop)
    (f : A -> option B) l :
  (forall x x' y y', P x -> P x' -> R x x' -> f x = Some y -> f x' = Some y' -> R' y y') ->
  Forall P l -> StronglySorted R l -> StronglySorted R' (collect f l).
Proof.
  intros HR HP HS. revert HP. induction HS as [|x l HS IH Hx]; intros HP; simpl; [constructor|].
  inversion HP as [|? ? Px Pl]; subst.
  destruct (f x) as [y|] eqn:E; [|exact (IH Pl)].
  constructor; [exact (IH Pl)|]. apply Forall_forall. intros y' Hy'.
  destruct (collect_In _ _ _ Hy') as [x' [I1 I2]].
  rewrite Forall_forall in Hx, Pl.
  exact (HR x x' y y' Px (Pl _ I1) (Hx _ I1) E I2).
Qed.

Lemma candidates_sorted text :
  StronglySorted cand_before (candidates text) /\ Forall (cand_ok text) (candidates text).
Proof.
  destruct (rawMatches_sorted text) as [H1 H2]. split.
  - apply (collect_sorted before cand_before (raw_ok chapterRegex text)); auto.
    intros x x' y y' Px Px' Hb E E'. exact (candidate_before _ _ _ _ _ Px Px' Hb E E').
  - apply Forall_forall. intros c Hc. destruct (collect_In _ _ _ Hc) as [m [I1 I2]].
    rewrite Forall_forall in H1. exact (proj1 (candidate_ok _ _ _ (H1 _ I1) I2)).
Qed.

End OptimizedFacts.

(* ================================================================== *)
(** * Facts about the removal of duplicates and the sort *)
(* ================================================================== *)

Module SortFacts.
Section SortFacts.
Context {A : Type} (key : A -> nat).

Definition key_le (a b : A) : Prop := key a <= key b.
Definition key_lt (a b : A) : Prop := key a < key b.

Lemma set_fresh k (v : A) : forall m,
  (forall kv, In kv m -> fst kv <> k) ->
  JsMap.set Nat.eqb k v m = m ++ [(k, v)].
Proof.
  induction m as [|[k' v'] m IH]; intros H; simpl; [reflexivity|].
  destruct (Nat.eqb_spec k k') as [->|Hne].
  - exfalso. apply (H (k', v')); simpl; auto.
  - rewrite IH; [reflexivity|]. intros kv Hkv. apply H. simpl. auto.
Qed.

Lemma of_list_fold_nodup : forall (l acc : list (nat * A)),
  NoDup (map fst (acc ++ l)) ->
  fold_left (fun m kv => JsMap.set Nat.eqb (fst kv) (snd kv) m) l acc = acc ++ l.
Proof.
  induction l as [|[k v] l IH]; intros acc H; simpl.
  - rewrite app_nil_r. reflexivity.
  - rewrite set_fresh.
    + rewrite IH; rewrite <- app_assoc; simpl; [reflexivity|exact H].
    + intros kv Hkv Heq. rewrite map_app in H. simpl in H.
      apply NoDup_remove_2 in H. apply H. apply in_or_app. left.
      rewrite <- Heq. apply in_map. exact Hkv.
Qed.

(** Without duplicate keys the map keeps every entry, in order. *)
Lemma values_of_list_nodup (l : list A) :
  NoDup (map key l) ->
  JsMap.values (JsMap.of_list Nat.eqb (map (fun x => (key x, x)) l)) = l.
Proof.
  intros H. unfold JsMap.of_list. rewrite of_list_fold_nodup.
  - simpl. unfold JsMap.values. rewrite map_map. simpl. apply map_id.
  - simpl. rewrite map_map. simpl. exact H.
Qed.

Lemma insert_by_perm x : forall l, Permutation (insert_by key x l) (x :: l).
Proof.
  induction l as [|y l IH]; simpl; [reflexivity|].
  destruct (key x <=? key y); [reflexivity|].
  rewrite IH. apply perm_swap.
Qed.

Lemma sort_by_perm : forall l, Permutation (sort_by key l) l.
Proof.
  induction l as [|x l IH]; simpl; [reflexivity|].
  rewrite insert_by_perm. constructor. exact IH.
Qed.

Lemma insert_by_sorted x : forall l,
  StronglySorted key_le l -> StronglySorted key_le (insert_by key x l).
Proof.
  induction l as [|y l IH]; intros H; simpl.
  - repeat constructor.
  - inversion H as [|? ? Hs Hf]; subst.
    destruct (Nat.leb_spec (key x) (key y)) as [Hle|Hgt].
    + constructor; [exact H|]. constructor; [exact Hle|].
      eapply Forall_impl; [|exact Hf]. unfold key_le. intros; lia.
    + constructor; [apply IH; exact Hs|].
      apply Forall_forall. intros z Hz.
      apply (Permutation_in _ (insert_by_perm x l)) in Hz. destruct Hz as [<-|Hz].
      * unfold key_le. lia.
      * rewrite Forall_forall in Hf. apply Hf. exact Hz.
Qed.

Lemma sort_by_sorted : forall l, StronglySorted key_le (sort_by key l).
Proof.
  induction l as [|x l IH]; simpl; [constructor|]. apply insert_by_sorted. exact IH.
Qed.

(** A sorted list stays as it is. *)
Lemma sort_by_id : forall l, StronglySorted key_le l -> sort_by key l = l.
Proof.
  induction l as [|x l IH]; intros H; simpl; [reflexivity|].
  inversion H as [|? ? Hs Hf]; subst. rewrite (IH Hs).
  destruct l as [|y l]; simpl; [reflexivity|].
  inversion Hf as [|? ? Hxy _]; subst. unfold key_le in Hxy.
  destruct (Nat.leb_spec (key x) (key y)); [reflexivity|lia].
Qed.

Lemma key_inj_on l a b :
  NoDup (map key l) -> In a l -> In b l -> key a = key b -> a = b.
Proof.
  induction l as [|x l IH]; simpl; [tauto|].
  intros H Ha Hb E. inversion H as [|? ? Hn Hd]; subst.
  destruct Ha as [->|Ha], Hb as [->|Hb]; auto.
  - exfalso. apply Hn. rewrite E. apply in_map. exact Hb.
  - exfalso. apply Hn. rewrite <- E. apply in_map. exact Ha.
Qed.

(** Two sorted lists with the same elements and no duplicate key are equal. *)
Lemma sorted_perm_eq : forall l1 l2,
  StronglySorted key_le l1 -> StronglySorted key_le l2 ->
  Permutation l1 l2 -> NoDup (map key l1) -> l1 = l2.
Proof.
  induction l1 as [|a l1 IH]; intros l2 S1 S2 P N.
  - apply Permutation_nil in P. subst. reflexivity.
  - destruct l2 as [|b l2]; [apply Permutation_sym, Permutation_nil in P; discriminate|].
    inversion S1 as [|? ? S1' F1]; subst. inversion S2 as [|? ? S2' F2]; subst.
    assert (Hab : a = b).
    { assert (Ia : In a (b :: l2)) by (apply (Permutation_in _ P); simpl; auto).
      assert (Ib : In b (a :: l1))
        by (apply (Permutation_in _ (Permutation_sym P)); simpl; auto).
      apply (key_inj_on (a :: l1)); simpl; auto.
      rewrite Forall_forall in F1, F2. unfold key_le in *.
      destruct Ia as [->|Ia]; [reflexivity|]. destruct Ib as [->|Ib]; [reflexivity|].
      pose proof (F1 _ Ib). pose proof (F2 _ Ia). lia. }
    subst b. f_equal. apply IH; auto.
    + apply (Permutation_cons_inv P).
    + simpl in N. inversion N; assumption.
Qed.

Lemma lt_sorted_le l : StronglySorted key_lt l -> StronglySorted key_le l.
Proof.
  induction 1 as [|x l S IH F]; constructor; auto.
  eapply Forall_impl; [|exact F]. unfold key_lt, key_le. intros; lia.
Qed.

Lemma lt_sorted_nodup l : StronglySorted key_lt l -> NoDup (map key l).
Proof.
  induction 1 as [|x l S IH F]; simpl; constructor; auto.
  intros Hin. apply in_map_iff in Hin. destruct Hin as [y [E Hy]].
  rewrite Forall_forall in F. specialize (F _ Hy). unfold key_lt in F. lia.
Qed.

End SortFacts.
End SortFacts.

(* ================================================================== *)
(** * The chapters of the optimized splitter *)
(* ================================================================== *)

(** The chapter for each candidate, written over the list of candidates: the
    content of a candidate runs from its [index] to the [matchStart] of the
    next one, the last to the end of the text. *)
Fixpoint sliced (text : jstring) (cands : list ChapterMatch.t) : list Chapter :=
  match cands with
  | [] => []
  | c :: rest =>
      mkChapter (ChapterMatch.title c)
        (trim (slice text (ChapterMatch.index c)
                 (match rest with
                  | [] => length text
                  | c' :: _ => ChapterMatch.matchStart c'
                  end)))
      :: sliced text rest
  end.

(** The prologue for a first candidate that starts at [matchStart0]. *)
Definition prologue (text : jstring) (matchStart0 : nat) : list Chapter :=
  let p := trim (slice text 0 matchStart0) in
  if 0 <? length p then [mkChapter TITLE_PROLOGUE p] else [].

Module SplitFacts.
Import Optimized OptimizedFacts SortFacts.

Lemma cand_sorted_lt l :
  StronglySorted cand_before l -> StronglySorted (key_lt ChapterMatch.matchStart) l.
Proof.
  induction 1 as [|x l S IH F]; constructor; auto.
  eapply Forall_impl; [|exact F]. intros a [H _]. exact H.
Qed.

(** Candidates in increasing order have no duplicates and are sorted. *)
Lemma uniqueMatchesOf_sorted l :
  StronglySorted cand_before l -> uniqueMatchesOf l = l.
Proof.
  intros H. apply cand_sorted_lt in H. unfold uniqueMatchesOf.
  rewrite values_of_list_nodup by (apply lt_sorted_nodup; exact H).
  apply sort_by_id. apply lt_sorted_le. exact H.
Qed.

Lemma endIndexOf_app text pre m rest :
  endIndexOf text (pre ++ m :: rest) (length pre) =
  match rest with
  | [] => length text
  | m' :: _ => ChapterMatch.matchStart m'
  end.
Proof.
  unfold endIndexOf. rewrite length_app. simpl length.
  destruct rest as [|m' rest]; simpl length.
  - destruct (Nat.ltb_spec (length pre) (length pre + 1 - 1)); [lia|reflexivity].
  - destruct (Nat.ltb_spec (length pre) (length pre + S (S (length rest)) - 1)); [|lia].
    rewrite nth_error_app2 by lia.
    replace (length pre + 1 - length pre) with 1 by lia. reflexivity.
Qed.

Lemma loopChapters_sliced text : forall ms pre,
  StronglySorted cand_before ms -> Forall (cand_ok text) ms ->
  loopChapters text (pre ++ ms) (length pre) ms = sliced text ms.
Proof.
  induction ms as [|m ms IH]; intros pre HS F; simpl; [reflexivity|].
  inversion HS as [|? ? HS' B]; subst. inversion F as [|? ? Fm F']; subst.
  f_equal.
  - unfold chapterAt. rewrite endIndexOf_app. f_equal. f_equal.
    destruct Fm as [_ Fm]. destruct ms as [|m' ms'].
    + apply substring_slice; lia.
    + apply Forall_inv in B. destruct B as [_ Bm].
      apply Forall_inv in F'. destruct F' as [? ?].
      apply substring_slice; lia.
  - replace (pre ++ m :: ms) with ((pre ++ [m]) ++ ms) by (rewrite <- app_assoc; reflexivity).
    replace (S (length pre)) with (length (pre ++ [m])) by (rewrite length_app; simpl; lia).
    apply IH; assumption.
Qed.

Lemma prologueOf_prologue text c0 rest :
  cand_ok text c0 ->
  prologueOf text (c0 :: rest) =
  if 0 <? ChapterMatch.matchStart c0 then prologue text (ChapterMatch.matchStart c0) else [].
Proof.
  intros [H1 H2]. unfold prologueOf, prologue.
  rewrite substring_slice by lia. reflexivity.
Qed.

(** With at least one candidate: the prologue, then one chapter for each. *)
Lemma chapters_sliced text c0 rest :
  candidates text = c0 :: rest ->
  chapters text =
  (if 0 <? ChapterMatch.matchStart c0 then prologue text (ChapterMatch.matchStart c0) else [])
  ++ sliced text (c0 :: rest).
Proof.
  intros E. destruct (candidates_sorted text) as [HS F]. unfold chapters.
  rewrite E in *. rewrite (uniqueMatchesOf_sorted _ HS).
  inversion F as [|? ? F0 _]; subst.
  rewrite (prologueOf_prologue _ _ _ F0). f_equal.
  apply (loopChapters_sliced text (c0 :: rest) [] HS F).
Qed.

(** Whatever the signal, a run that returns chapters returns [chapters text]:
    an aborted run returns only when [exec] found nothing at all. *)
Lemma splitIntoChapters_inv text sig w cs :
  fst (splitIntoChapters text sig w) = Ok cs -> cs = chapters text.
Proof.
  destruct (sig (clock w)) eqn:Hs.
  - unfold splitIntoChapters. destruct (execAll_chapterRegex text) as [E _]. rewrite E.
    unfold chapters, candidates. destruct (rawMatches text) as [|m ms].
    + simpl. intros [= <-]. reflexivity.
    + unfold bind at 1. rewrite (scanLoop_aborted text sig w Hs). simpl. discriminate.
  - destruct (splitIntoChapters_ok text sig w Hs) as [tr ->]. simpl. congruence.
Qed.

End SplitFacts.

(* ================================================================== *)
(** * Properties of the splitter *)
(* ================================================================== *)

(** [matchStart] of the first accepted candidate. *)
Definition firstMatchStart (text : jstring) : option nat :=
  option_map ChapterMatch.matchStart (hd_error (OptimizedFacts.candidates text)).

Module SplitProps.
Import Optimized OptimizedFacts SortFacts SplitFacts.

Lemma TITLE_PROLOGUE_edge_free : edge_free TITLE_PROLOGUE.
Proof. split; intros c [= <-]; reflexivity. Qed.

Lemma candidate_title_trimmed text c :
  In c (candidates text) -> edge_free (ChapterMatch.title c).
Proof.
  intros H. destruct (collect_In _ _ _ H) as [m [_ Hm]].
  destruct (chapterMatch_inv _ _ _ Hm) as [_ [_ [t ->]]]. apply trim_edge_free.
Qed.

Lemma sliced_trimmed text ms :
  (forall c, In c ms -> edge_free (ChapterMatch.title c)) ->
  Forall (fun c => edge_free (title c) /\ edge_free (content c)) (sliced text ms).
Proof.
  induction ms as [|c ms IH]; intros H; simpl; constructor.
  - simpl. split; [apply H; simpl; auto|apply trim_edge_free].
  - apply IH. intros c' Hc'. apply H. simpl. auto.
Qed.

Lemma prologue_trimmed text n :
  Forall (fun c => edge_free (title c) /\ edge_free (content c)) (prologue text n).
Proof.
  unfold prologue. destruct (0 <? _); constructor; [|constructor].
  simpl. split; [apply TITLE_PROLOGUE_edge_free|apply trim_edge_free].
Qed.

End SplitProps.
Import SplitProps.

Section SplitterClaims.
Import Optimized OptimizedFacts SplitFacts.

(** C3 (as amended).  When the first accepted candidate starts after the
    beginning of the text, the splitter returns the prologue (titled
    ['Mở đầu'], the "Foreword" of the specification) with the trimmed text
    before that candidate, provided it is not empty after trimming, and then
    one chapter for each candidate, whose content is the trimmed text from the
    candidate's [index] to the [matchStart] of the next one (the last one to
    the end of the text). *)
Theorem prologue_then_one_chapter_per_candidate text ms0 sig w :
  firstMatchStart text = Some ms0 -> 0 < ms0 -> sig (clock w) = false ->
  fst (splitIntoChapters text sig w)
  = Ok (prologue text ms0 ++ sliced text (candidates text)).
Proof.
  intros Hf Hpos Hs. destruct (splitIntoChapters_ok text sig w Hs) as [tr ->]. simpl.
  unfold firstMatchStart in Hf.
  destruct (candidates text) as [|c0 ms] eqn:E; [discriminate|].
  simpl in Hf. injection Hf as <-.
  rewrite (chapters_sliced _ _ _ E).
  destruct (Nat.ltb_spec 0 (ChapterMatch.matchStart c0)); [reflexivity|lia].
Qed.

(** C10 (as amended).  When at least one candidate is accepted, every chapter
    returned, the prologue included, has a title and a content without white
    space at either end; and when the text before the first candidate is white
    space only, there is no prologue: the chapters are exactly those of the
    candidates.  (The single chapter returned when no candidate is accepted
    carries the text as it is.) *)
Theorem chapters_are_trimmed text sig w cs :
  fst (splitIntoChapters text sig w) = Ok cs ->
  candidates text <> [] ->
  Forall (fun c => edge_free (title c) /\ edge_free (content c)) cs /\
  (forall ms0, firstMatchStart text = Some ms0 ->
               forallb is_ws (slice text 0 ms0) = true ->
               cs = sliced text (candidates text)).
Proof.
  intros H NE. apply splitIntoChapters_inv in H. subst cs.
  destruct (candidates text) as [|c0 ms] eqn:E; [congruence|].
  rewrite (chapters_sliced _ _ _ E). split.
  - apply Forall_app. split.
    + destruct (0 <? _); [apply prologue_trimmed|constructor].
    + apply sliced_trimmed. intros c Hc. apply (candidate_title_trimmed text).
      rewrite E. exact Hc.
  - intros ms0 Hf Hws. unfold firstMatchStart in Hf. rewrite E in Hf. simpl in Hf.
    injection Hf as <-. unfold prologue. rewrite (trim_all_ws _ Hws). simpl.
    destruct (0 <? _); reflexivity.
Qed.

End SplitterClaims.

(** ** Examples *)

Module SplitExamples.
Import Optimized OptimizedFacts.

Definition start : world := World 0 [].

(** A text with a prologue and two headed chapters. *)
Definition book : jstring :=
  lines ["intro"; "Chapter 1: The Beginning"; ""; "body text.";
         "Chapter 2: The Journey"; "more"].

Definition book_chapters : list Chapter :=
  [mkChapter TITLE_PROLOGUE (utf16 "intro");
   mkChapter (utf16 "Chapter 1: The Beginning") (utf16 "body text.");
   mkChapter (utf16 "Chapter 2: The Journey") (utf16 "more")].

Example book_split :
  run (splitIntoChapters book) never
  = (Ok book_chapters, World 0 [SplitFound 2; SplitDone 3]).
Proof. vm_compute. reflexivity. Qed.

(** A text without any heading. *)
Definition plain : jstring := utf16 "  no heading here".

(** A heading preceded by an empty line only. *)
Definition blank_then_heading : jstring := lines [""; "Chapter 1"; "foo"].

End SplitExamples.
Import SplitExamples.

Section SplitterWitnesses.
Import Optimized OptimizedFacts.


(** C3: the claim as stated fails when the text before the first candidate is
    blank: the candidate starts at index 1, and no prologue is returned. *)
Lemma blank_prefix_has_no_prologue :
  firstMatchStart blank_then_heading = Some 1 /\
  fst (run (splitIntoChapters blank_then_heading) never)
  = Ok [mkChapter (utf16 "Chapter 1: foo") (utf16 "foo")].
Proof. split; vm_compute; reflexivity. Qed.

Lemma prologue_then_one_chapter_per_candidate_witness :
  firstMatchStart book = Some 6 /\ 0 < 6 /\ never (clock start) = false /\
  fst (splitIntoChapters book never start)
  = Ok (prologue book 6 ++ sliced book (candidates book)).
Proof.
  split; [vm_compute; reflexivity|]. split; [lia|]. split; [reflexivity|].
  apply prologue_then_one_chapter_per_candidate; [vm_compute; reflexivity|lia|reflexivity].
Defined.

(** C10: the claim as stated fails for the chapter returned when no candidate
    is accepted: its content is the text, leading spaces included. *)
Lemma fallback_content_not_trimmed :
  fst (run (splitIntoChapters plain) never) = Ok [mkChapter TITLE_CONTENT plain] /\
  ~ edge_free (content (mkChapter TITLE_CONTENT plain)).
Proof.
  split; [vm_compute; reflexivity|].
  intros [H _]. specialize (H SP eq_refl). discriminate.
Qed.

Lemma chapters_are_trimmed_witness :
  fst (splitIntoChapters book never start) = Ok book_chapters /\
  candidates book <> [] /\
  Forall (fun c => edge_free (title c) /\ edge_free (content c)) book_chapters /\
  (forall ms0, firstMatchStart book = Some ms0 ->
               forallb is_ws (slice book 0 ms0) = true ->
               book_chapters = sliced book (candidates book)).
Proof.
  split; [vm_compute; reflexivity|]. split; [vm_compute; discriminate|].
  apply (chapters_are_trimmed book never start book_chapters);
    [vm_compute; reflexivity|vm_compute; discriminate].
Defined.

End SplitterWitnesses.

(* ================================================================== *)
(** * The original splitter and the optimized one *)
(* ================================================================== *)

(** Two results of [exec] overlap when each starts before the other ends. *)
Definition overlap (a b : RegExpMatch) : bool :=
  (mindex a <? mend b) && (mindex b <? mend a).

Definition disjointb (l1 l2 : list RegExpMatch) : bool :=
  forallb (fun a => forallb (fun b => negb (overlap a b)) l2) l1.

Module OriginalFacts.
Import Original.
Local Arguments Nat.modulo : simpl never.

(** The results of [exec] for the first pattern and for the second. *)
Definition rawMatches1 (text : jstring) : list RegExpMatch :=
  match execAll (heading (alts keywords1)) text with Some ms => ms | None => [] end.
Definition rawMatches2 (text : jstring) : list RegExpMatch :=
  match execAll (heading (alts keywords2)) text with Some ms => ms | None => [] end.

(** [allMatches] after both patterns. *)
Definition allMatches (text : jstring) : list ChapterMatch.t :=
  collect (chapterMatch text) (rawMatches1 text)
  ++ collect (chapterMatch text) (rawMatches2 text).

(** The chapter list of a run that is never aborted. *)
Definition chapters (text : jstring) : list Chapter :=
  match allMatches text with
  | [] => [mkChapter TITLE_CONTENT text]
  | _ :: _ =>
      let uniqueMatches := uniqueMatchesOf (allMatches text) in
      prologueOf text uniqueMatches ++ loopChapters text uniqueMatches 0 uniqueMatches
  end.

(** The two versions build the same record from a result of [exec]. *)
Lemma chapterMatch_same text m :
  Original.chapterMatch text m = Optimized.chapterMatch text m.
Proof.
  unfold Original.chapterMatch, Optimized.chapterMatch.
  destruct (test falsePositivePattern _); [reflexivity|].
  destruct (length _ =? 0); [reflexivity|].
  destruct (0 <? _); simpl; [|reflexivity].
  destruct (test sentenceEndPattern _); simpl; reflexivity.
Qed.

Lemma original_scanLoop_ok text sig :
  forall ms acc w, sig (clock w) = false ->
  exists tr,
    scanLoop text ms acc sig w
    = (Ok (fst acc ++ collect (chapterMatch text) ms,
           snd acc + length (collect (chapterMatch text) ms)),
       World (clock w) tr).
Proof.
  induction ms as [|m ms IH]; intros [all count] w Hs; simpl.
  - unfold ret. rewrite app_nil_r, Nat.add_0_r. destruct w. eexists. reflexivity.
  - unfold bind at 1, checkAborted. rewrite Hs.
    destruct (chapterMatch text m) as [cm|].
    + unfold bind at 1.
      destruct (S count mod 100 =? 0).
      * unfold onProgress at 1.
        destruct (IH (all ++ [cm], S count) (World (clock w) (trace w ++ [SplitCounted (S count)])) Hs)
          as [tr ->].
        simpl. rewrite <- app_assoc. simpl. eexists. do 3 f_equal. lia.
      * unfold ret at 1. destruct (IH (all ++ [cm], S count) w Hs) as [tr ->].
        simpl. rewrite <- app_assoc. simpl. eexists. do 3 f_equal. lia.
    + apply (IH (all, count) w Hs).
Qed.

Lemma minlen_heading1 : 0 < minlen (heading (alts keywords1)).
Proof. vm_compute. lia. Qed.
Lemma minlen_heading2 : 0 < minlen (heading (alts keywords2)).
Proof. vm_compute. lia. Qed.

Lemma execAll_heading1 text :
  execAll (heading (alts keywords1)) text = Some (rawMatches1 text) /\
  scanned (heading (alts keywords1)) text 0 (rawMatches1 text).
Proof.
  destruct (execAll_total _ text minlen_heading1) as [ms [H1 H2]].
  unfold rawMatches1. rewrite H1. auto.
Qed.

Lemma execAll_heading2 text :
  execAll (heading (alts keywords2)) text = Some (rawMatches2 text) /\
  scanned (heading (alts keywords2)) text 0 (rawMatches2 text).
Proof.
  destruct (execAll_total _ text minlen_heading2) as [ms [H1 H2]].
  unfold rawMatches2. rewrite H1. auto.
Qed.

Lemma patternLoop_ok text sig w :
  sig (clock w) = false ->
  exists tr n,
    patternLoop text chapterPatterns ([], 0) sig w
    = (Ok (allMatches text, n), World (clock w) tr).
Proof.
  intros Hs. unfold chapterPatterns. cbn [patternLoop].
  destruct (execAll_heading1 text) as [-> _]. unfold bind at 1.
  destruct (original_scanLoop_ok text sig (rawMatches1 text) ([], 0) w Hs) as [tr1 ->].
  destruct (execAll_heading2 text) as [-> _]. unfold bind at 1.
  match goal with
  | |- context [scanLoop text (rawMatches2 text) ?acc sig ?w1] =>
      destruct (original_scanLoop_ok text sig (rawMatches2 text) acc w1 Hs) as [tr2 ->]
  end.
  unfold ret. simpl. eexists. eexists. reflexivity.
Qed.

Lemma original_sliceLoop_ok text um sig :
  (forall t, sig t = false) ->
  forall n i cs w, i + n <= length um ->
  exists w',
    sliceLoop text um i n cs sig w
    = (Ok (cs ++ loopChapters text um i (firstn n (skipn i um))), w').
Proof.
  intros Hs. induction n as [|n IH]; intros i cs w Hi; simpl.
  - unfold ret. rewrite app_nil_r. eexists. reflexivity.
  - unfold bind at 1, checkAborted. rewrite Hs.
    destruct (nth_error um i) as [m|] eqn:E.
    + assert (Hsk : skipn i um = m :: skipn (S i) um).
      { clear -E. revert um E. induction i as [|i IH]; intros [|x um] E; simpl in *;
          try discriminate; [congruence|]. apply IH. exact E. }
      rewrite Hsk. simpl. unfold bind at 1.
      destruct (i mod 50 =? 0).
      * unfold bind at 1, onProgress, await. simpl.
        destruct (IH (S i) (cs ++ [chapterAt text um i m])
                     (World (S (clock w)) (trace w ++ [SplitChapter i (length um)]))
                     ltac:(lia)) as [w' ->].
        rewrite <- app_assoc. eexists. reflexivity.
      * unfold ret at 1.
        destruct (IH (S i) (cs ++ [chapterAt text um i m]) w ltac:(lia)) as [w' ->].
        rewrite <- app_assoc. eexists. reflexivity.
    + apply nth_error_None in E. lia.
Qed.

Lemma original_splitIntoChapters_ok text sig w :
  (forall t, sig t = false) ->
  exists w', splitIntoChapters text sig w = (Ok (chapters text), w').
Proof.
  intros Hs. unfold splitIntoChapters. unfold bind at 1.
  destruct (patternLoop_ok text sig w (Hs _)) as [tr [n ->]]. cbv beta iota zeta. cbn [fst].
  unfold chapters. destruct (allMatches text) as [|c cs] eqn:E.
  - simpl. unfold ret. eexists. reflexivity.
  - rewrite <- E. replace (length (allMatches text) =? 0) with false
      by (rewrite E; reflexivity).
    match goal with
    | |- context [sliceLoop text ?um ?i ?n ?cs sig ?w1] =>
        destruct (original_sliceLoop_ok text um sig Hs n i cs w1 ltac:(simpl; lia)) as [w' ->]
    end.
    simpl. rewrite firstn_all. eexists. reflexivity.
Qed.

End OriginalFacts.

(** C2.  When the scan accepts no candidate, the splitter returns exactly one
    chapter: its title is the fallback title (['Nội dung'], the "Content" of
    the specification) and its content is the whole text, unchanged.  This
    holds for the optimized splitter and for the original one. *)
Theorem no_candidate_single_chapter text sig w :
  sig (clock w) = false ->
  (OptimizedFacts.candidates text = [] ->
   fst (Optimized.splitIntoChapters text sig w) = Ok [mkChapter TITLE_CONTENT text]) /\
  (OriginalFacts.allMatches text = [] ->
   fst (Original.splitIntoChapters text sig w) = Ok [mkChapter TITLE_CONTENT text]).
Proof.
  intros Hs. split; intros E.
  - destruct (OptimizedFacts.splitIntoChapters_ok text sig w Hs) as [tr ->]. simpl.
    unfold OptimizedFacts.chapters. rewrite E. reflexivity.
  - unfold Original.splitIntoChapters. unfold bind at 1.
    destruct (OriginalFacts.patternLoop_ok text sig w Hs) as [tr [n ->]].
    cbv beta iota zeta. cbn [fst]. rewrite E. reflexivity.
Qed.

Lemma no_candidate_single_chapter_witness :
  never (clock start) = false /\
  OptimizedFacts.candidates plain = [] /\ OriginalFacts.allMatches plain = [] /\
  fst (Optimized.splitIntoChapters plain never start) = Ok [mkChapter TITLE_CONTENT plain] /\
  fst (Original.splitIntoChapters plain never start) = Ok [mkChapter TITLE_CONTENT plain].
Proof.
  split; [reflexivity|]. split; [vm_compute; reflexivity|]. split; [vm_compute; reflexivity|].
  destruct (no_candidate_single_chapter plain never start eq_refl) as [H1 H2].
  split; [apply H1|apply H2]; vm_compute; reflexivity.
Defined.

(** ** One combined scan against two scans *)

Module MergeFacts.

Lemma orelse_none_r a : orelse a None = a.
Proof. destruct a; reflexivity. Qed.

Lemma orelse_assoc a b c : orelse (orelse a b) c = orelse a (orelse b c).
Proof. destruct a; reflexivity. Qed.

(** An alternation over [l1 ++ l2] tries [l1], then [l2]. *)
Lemma alts_app l1 l2 st k :
  l1 <> [] -> l2 <> [] ->
  rmatch (alts (l1 ++ l2)) st k
  = orelse (rmatch (alts l1) st k) (rmatch (alts l2) st k).
Proof.
  intros H1 H2. induction l1 as [|r l1 IH]; [congruence|].
  destruct l1 as [|r' l1].
  - simpl app. destruct l2 as [|r2 l2]; [congruence|]. reflexivity.
  - change (rmatch (alts ((r :: r' :: l1) ++ l2)) st k)
      with (orelse (rmatch r st k) (rmatch (alts ((r' :: l1) ++ l2)) st k)).
    rewrite IH by discriminate.
    change (rmatch (alts (r :: r' :: l1)) st k)
      with (orelse (rmatch r st k) (rmatch (alts (r' :: l1)) st k)).
    rewrite orelse_assoc. reflexivity.
Qed.

Lemma match_at_none r text p :
  match_at r text p = None <-> rmatch r (MState p (skipn p text) []) Some = None.
Proof. unfold match_at. destruct (rmatch _ _ _); split; congruence. Qed.

(** Where the headings of one keyword list do not match, the combined pattern
    matches exactly as the headings of the other list do. *)
Lemma heading_alts_agree l1 l2 text p :
  l1 <> [] -> l2 <> [] ->
  (match_at (heading (alts l2)) text p = None ->
   match_at (heading (alts (l1 ++ l2))) text p = match_at (heading (alts l1)) text p) /\
  (match_at (heading (alts l1)) text p = None ->
   match_at (heading (alts (l1 ++ l2))) text p = match_at (heading (alts l2)) text p).
Proof.
  intros H1 H2.
  assert (U : forall kw, rmatch (heading kw) (MState p (skipn p text) []) Some
              = rmatch headingStart (MState p (skipn p text) [])
                  (fun st1 => rmatch kw st1 (fun st2 => rmatch headingRest st2 Some)))
    by reflexivity.
  split; intros H; apply match_at_none in H; rewrite U in H;
    unfold match_at; rewrite !U.
  - rewrite (rmatch_congr headingStart _
               (fun st1 => rmatch (alts (l1 ++ l2)) st1 (fun st2 => rmatch headingRest st2 Some))
               (fun st1 => rmatch (alts l1) st1 (fun st2 => rmatch headingRest st2 Some))
               (fun st1 => rmatch (alts l2) st1 (fun st2 => rmatch headingRest st2 Some)));
      [reflexivity| |exact H].
    intros st' H'. cbv beta in *. rewrite alts_app, H' by assumption.
    apply orelse_none_r.
  - rewrite (rmatch_congr headingStart _
               (fun st1 => rmatch (alts (l1 ++ l2)) st1 (fun st2 => rmatch headingRest st2 Some))
               (fun st1 => rmatch (alts l2) st1 (fun st2 => rmatch headingRest st2 Some))
               (fun st1 => rmatch (alts l1) st1 (fun st2 => rmatch headingRest st2 Some)));
      [reflexivity| |exact H].
    intros st' H'. cbv beta in *. rewrite alts_app, H' by assumption. reflexivity.
Qed.

Section Merge.
Variables (text : jstring) (r1 r2 rc : regex).
Hypothesis agree1 : forall p,
  match_at r2 text p = None -> match_at rc text p = match_at r1 text p.
Hypothesis agree2 : forall p,
  match_at r1 text p = None -> match_at rc text p = match_at r2 text p.

Definition disjoint (l1 l2 : list RegExpMatch) : Prop :=
  forall a b, In a l1 -> In b l2 -> overlap a b = false.

Lemma scanned_unique r li ms : scanned r text li ms ->
  forall ms', scanned r text li ms' -> ms = ms'.
Proof.
  induction 1 as [li E|li m ms E Hlt Hend HS IH]; intros ms' H';
    inversion H' as [? E'|? m' ms0 E' Hlt' Hend' HS']; subst.
  - reflexivity.
  - congruence.
  - congruence.
  - rewrite E in E'. injection E' as <-. f_equal. apply IH. exact HS'.
Qed.

(** The scan from a later [lastIndex] that is not past the first result. *)
Lemma scanned_later r li li' ms :
  scanned r text li ms -> li <= li' ->
  (forall m, hd_error ms = Some m -> li' <= mindex m) ->
  scanned r text li' ms.
Proof.
  intros HS Hle Hhd. pose proof (exec_later r text li li' Hle) as L.
  inversion HS as [? E|? m ms0 E Hlt Hend HS']; subst; rewrite E in L.
  - constructor. exact L.
  - apply scanned_cons; auto.
Qed.

(** No result of the scan lies before [lastIndex], or between two results. *)
Lemma scanned_gap r li ms q :
  scanned r text li ms -> li <= q <= length text ->
  (forall m, hd_error ms = Some m -> q < mindex m) ->
  match_at r text q = None.
Proof.
  intros HS Hq Hhd. inversion HS as [? E|? m ms0 E Hlt Hend HS']; subst.
  - apply (exec_none _ _ _ _ E). exact Hq.
  - destruct (exec_some _ _ _ _ E) as [_ [_ H3]]. apply H3.
    specialize (Hhd m eq_refl). lia.
Qed.

Lemma overlap_false a b :
  overlap a b = false -> mend b <= mindex a \/ mend a <= mindex b.
Proof.
  unfold overlap. intros H. apply andb_false_iff in H.
  destruct H as [H|H]; apply Nat.ltb_ge in H; auto.
Qed.

(** The first result of the first pattern is the first of the combined one
    when the second pattern has nothing before its end. *)
Lemma merge_first_1 li a l2 :
  exec r1 text li = Some a -> mindex a < mend a -> mend a <= length text ->
  scanned r2 text li l2 ->
  (forall b, hd_error l2 = Some b -> mend a <= mindex b) ->
  exec rc text li = Some a /\ scanned r2 text (mend a) l2.
Proof.
  intros E Hlt Hend S2 Hhd.
  destruct (exec_some _ _ _ _ E) as [H1 [H2 H3]].
  assert (G : forall q, li <= q <= mindex a -> match_at r2 text q = None).
  { intros q Hq. apply (scanned_gap r2 li l2 q S2); [lia|].
    intros b Hb. specialize (Hhd b Hb). lia. }
  split.
  - apply (exec_first _ _ _ (mindex a)); [|rewrite agree1; auto; apply G; lia|lia].
    intros q' Hq'. rewrite agree1; [apply H3; exact Hq'|apply G; lia].
  - apply (scanned_later r2 li (mend a) l2 S2); [lia|exact Hhd].
Qed.

Lemma merge_first_2 li b l1 :
  exec r2 text li = Some b -> mindex b < mend b -> mend b <= length text ->
  scanned r1 text li l1 ->
  (forall a, hd_error l1 = Some a -> mend b <= mindex a) ->
  exec rc text li = Some b /\ scanned r1 text (mend b) l1.
Proof.
  intros E Hlt Hend S1 Hhd.
  destruct (exec_some _ _ _ _ E) as [H1 [H2 H3]].
  assert (G : forall q, li <= q <= mindex b -> match_at r1 text q = None).
  { intros q Hq. apply (scanned_gap r1 li l1 q S1); [lia|].
    intros a Ha. specialize (Hhd a Ha). lia. }
  split.
  - apply (exec_first _ _ _ (mindex b)); [|rewrite agree2; auto; apply G; lia|lia].
    intros q' Hq'. rewrite agree2; [apply H3; exact Hq'|apply G; lia].
  - apply (scanned_later r1 li (mend b) l1 S1); [lia|exact Hhd].
Qed.

(** When no result of one pattern overlaps a result of the other, the scan of
    the combined pattern finds the results of both. *)
Lemma merge_scans : forall k li l1 l2,
  length text - li <= k -> li <= length text ->
  scanned r1 text li l1 -> scanned r2 text li l2 -> disjoint l1 l2 ->
  exists lc, scanned rc text li lc /\ Permutation lc (l1 ++ l2).
Proof.
  induction k as [|k IH]; intros li l1 l2 Hk Hli S1 S2 D.
  - inversion S1 as [? E1|? a l1' E1 Hlt1 Hend1 S1']; subst;
      [|destruct (exec_some _ _ _ _ E1); lia].
    inversion S2 as [? E2|? b l2' E2 Hlt2 Hend2 S2']; subst;
      [|destruct (exec_some _ _ _ _ E2); lia].
    exists []. split; [|reflexivity]. constructor. apply exec_all_none.
    intros q Hq. rewrite agree1; [apply (exec_none _ _ _ _ E1 Hq)|apply (exec_none _ _ _ _ E2 Hq)].
  - inversion S1 as [? E1|? a l1' E1 Hlt1 Hend1 S1']; subst;
      inversion S2 as [? E2|? b l2' E2 Hlt2 Hend2 S2']; subst.
    + exists []. split; [|reflexivity]. constructor. apply exec_all_none.
      intros q Hq. rewrite agree1; [apply (exec_none _ _ _ _ E1 Hq)|apply (exec_none _ _ _ _ E2 Hq)].
    + destruct (merge_first_2 li b [] E2 Hlt2 Hend2 S1) as [Ec S1'']; [discriminate|].
      destruct (exec_some _ _ _ _ E2) as [? _].
      destruct (IH (mend b) [] l2' ltac:(lia) Hend2 S1'' S2') as [lc [Sc P]].
      { intros x y Hx. inversion Hx. }
      exists (b :: lc). split; [apply scanned_cons; auto|].
      simpl in *. constructor. exact P.
    + destruct (merge_first_1 li a [] E1 Hlt1 Hend1 S2) as [Ec S2'']; [discriminate|].
      destruct (exec_some _ _ _ _ E1) as [? _].
      destruct (IH (mend a) l1' [] ltac:(lia) Hend1 S1' S2'') as [lc [Sc P]].
      { intros x y _ Hy. inversion Hy. }
      exists (a :: lc). split; [apply scanned_cons; auto|].
      simpl. constructor. exact P.
    + destruct (exec_some _ _ _ _ E1) as [? _]. destruct (exec_some _ _ _ _ E2) as [? _].
      destruct (overlap_false a b (D a b ltac:(simpl; auto) ltac:(simpl; auto))) as [Hba|Hab].
      * destruct (merge_first_2 li b (a :: l1') E2 Hlt2 Hend2 S1) as [Ec S1''].
        { intros x [= <-]. exact Hba. }
        destruct (IH (mend b) (a :: l1') l2' ltac:(lia) Hend2 S1'' S2') as [lc [Sc P]].
        { intros x y Hx Hy. apply D; simpl; auto. }
        exists (b :: lc). split; [apply scanned_cons; auto|].
        apply Permutation_cons_app. exact P.
      * destruct (merge_first_1 li a (b :: l2') E1 Hlt1 Hend1 S2) as [Ec S2''].
        { intros x [= <-]. exact Hab. }
        destruct (IH (mend a) l1' (b :: l2') ltac:(lia) Hend1 S1' S2'') as [lc [Sc P]].
        { intros x y Hx Hy. apply D; simpl; auto. }
        exists (a :: lc). split; [apply scanned_cons; auto|].
        simpl. constructor. exact P.
Qed.

End Merge.

Lemma disjointb_disjoint l1 l2 : disjointb l1 l2 = true -> disjoint l1 l2.
Proof.
  unfold disjointb, disjoint. intros H a b Ha Hb.
  rewrite forallb_forall in H. specialize (H a Ha).
  rewrite forallb_forall in H. specialize (H b Hb).
  apply negb_true_iff in H. exact H.
Qed.

Lemma collect_perm {A B} (f : A -> option B) l l' :
  Permutation l l' -> Permutation (collect f l) (collect f l').
Proof.
  induction 1 as [|x l l' P IH|x y l|l l' l'' P1 IH1 P2 IH2]; simpl.
  - constructor.
  - destruct (f x); [constructor|]; exact IH.
  - destruct (f x), (f y); try reflexivity. apply perm_swap.
  - etransitivity; eauto.
Qed.

End MergeFacts.

Module RefinementFacts.
Import SortFacts OptimizedFacts SplitFacts MergeFacts.

Lemma collect_ext {A B} (f g : A -> option B) l :
  (forall x, f x = g x) -> collect f l = collect g l.
Proof.
  intros H. induction l as [|x l IH]; simpl; [reflexivity|]. rewrite H, IH. reflexivity.
Qed.

(** Without overlap the combined pattern accepts the candidates of the two
    patterns, in some order. *)
Lemma candidates_perm text :
  disjointb (OriginalFacts.rawMatches1 text) (OriginalFacts.rawMatches2 text) = true ->
  Permutation (OptimizedFacts.candidates text) (OriginalFacts.allMatches text).
Proof.
  intros D. apply disjointb_disjoint in D.
  destruct (OriginalFacts.execAll_heading1 text) as [_ S1].
  destruct (OriginalFacts.execAll_heading2 text) as [_ S2].
  destruct (OptimizedFacts.execAll_chapterRegex text) as [_ Sc].
  destruct (merge_scans text (heading (alts keywords1)) (heading (alts keywords2))
              Optimized.chapterRegex
              (fun p => proj1 (heading_alts_agree keywords1 keywords2 text p
                                 ltac:(discriminate) ltac:(discriminate)))
              (fun p => proj2 (heading_alts_agree keywords1 keywords2 text p
                                 ltac:(discriminate) ltac:(discriminate)))
              (length text) 0 _ _ ltac:(lia) ltac:(lia) S1 S2 D) as [lc [Sc' P]].
  rewrite (scanned_unique text _ _ _ Sc' _ Sc) in P.
  unfold OptimizedFacts.candidates, OriginalFacts.allMatches.
  rewrite <- collect_app.
  rewrite (collect_ext _ _ _ (OriginalFacts.chapterMatch_same text)).
  apply collect_perm. exact P.
Qed.

Lemma uniqueMatchesOf_perm l l' :
  StronglySorted cand_before l -> Permutation l l' -> uniqueMatchesOf l' = l.
Proof.
  intros HS P. apply cand_sorted_lt in HS.
  pose proof (lt_sorted_nodup _ _ HS) as N.
  assert (N' : NoDup (map ChapterMatch.matchStart l'))
    by (eapply Permutation_NoDup; [apply Permutation_map; exact P|exact N]).
  unfold uniqueMatchesOf. rewrite values_of_list_nodup by exact N'.
  symmetry. apply (sorted_perm_eq ChapterMatch.matchStart).
  - apply lt_sorted_le. exact HS.
  - apply sort_by_sorted.
  - rewrite P. symmetry. apply sort_by_perm.
  - exact N.
Qed.

Lemma chapters_same text :
  disjointb (OriginalFacts.rawMatches1 text) (OriginalFacts.rawMatches2 text) = true ->
  OriginalFacts.chapters text = OptimizedFacts.chapters text.
Proof.
  intros D. pose proof (candidates_perm text D) as P.
  destruct (OptimizedFacts.candidates_sorted text) as [HS _].
  unfold OriginalFacts.chapters, OptimizedFacts.chapters.
  rewrite (uniqueMatchesOf_perm _ _ HS P), (uniqueMatchesOf_sorted _ HS).
  destruct (OptimizedFacts.candidates text) as [|c cs] eqn:E.
  - apply Permutation_nil in P. rewrite P. reflexivity.
  - destruct (OriginalFacts.allMatches text) as [|c' cs'] eqn:E'.
    + apply Permutation_sym, Permutation_nil in P. discriminate.
    + reflexivity.
Qed.

End RefinementFacts.

(** C8 (as amended).  The two splitters do not always agree: where a heading
    of one keyword family overlaps a heading of the other (one is taken as the
    subtitle of the other), the original finds both and the optimized one only
    the first.  They return the same chapter list, when run without
    cancellation, on every text in which no match of the first pattern
    overlaps a match of the second. *)
Theorem combined_pattern_same_chapters text :
  disjointb (OriginalFacts.rawMatches1 text) (OriginalFacts.rawMatches2 text) = true ->
  fst (run (Original.splitIntoChapters text) never)
  = fst (run (Optimized.splitIntoChapters text) never).
Proof.
  intros D. unfold run.
  destruct (OriginalFacts.original_splitIntoChapters_ok text never (World 0 []) (fun _ => eq_refl))
    as [w1 ->].
  destruct (OptimizedFacts.splitIntoChapters_ok text never (World 0 []) eq_refl)
    as [tr ->].
  simpl. f_equal. apply RefinementFacts.chapters_same. exact D.
Qed.

Definition two_families : jstring :=
  lines ["Part 1: One"; "Chapter 1: Intro"; "text a";
         "Part 2: Two"; "Chapter 2: More"; "text b"].

Lemma combined_pattern_same_chapters_witness :
  disjointb (OriginalFacts.rawMatches1 two_families)
            (OriginalFacts.rawMatches2 two_families) = true /\
  fst (run (Original.splitIntoChapters two_families) never)
  = fst (run (Optimized.splitIntoChapters two_families) never).
Proof.
  split; [vm_compute; reflexivity|].
  apply combined_pattern_same_chapters. vm_compute. reflexivity.
Defined.

(** C8: the claim as stated fails where a heading of the second pattern
    follows a heading of the first on the next line. *)
Lemma combined_pattern_differs :
  fst (run (Original.splitIntoChapters (lines ["Chapter 1"; "Part 2"; "foo"])) never)
  = Ok [mkChapter (utf16 "Chapter 1: Part 2") [];
        mkChapter (utf16 "Part 2: foo") (utf16 "foo")] /\
  fst (run (Optimized.splitIntoChapters (lines ["Chapter 1"; "Part 2"; "foo"])) never)
  = Ok [mkChapter (utf16 "Chapter 1: Part 2") (lines ["Part 2"; "foo"])].
Proof. split; vm_compute; reflexivity. Qed.

(* ================================================================== *)
(** * The markup normalizer: no run of three newlines survives *)
(* ================================================================== *)

Module HtmlFacts.

(** The number of newlines in the white space a string starts with. *)
Fixpoint nlws (s : jstring) : nat :=
  match s with
  | [] => 0
  | c :: s' => if is_ws c then (if (c =? NL)%N then 1 else 0) + nlws s' else 0
  end.

(** [ok3 cnt s]: with [cnt] newlines already in the current run of white
    space, no run of white space of [s] holds more than two newlines in all. *)
Fixpoint ok3 (cnt : nat) (s : jstring) : bool :=
  match s with
  | [] => true
  | c :: s' =>
      if (c =? NL)%N then (cnt <? 2) && ok3 (S cnt) s'
      else if is_ws c then ok3 cnt s'
      else ok3 0 s'
  end.

(** [s'] is [s] without some of its white space. *)
Inductive wsdel : jstring -> jstring -> Prop :=
| wsdel_nil : wsdel [] []
| wsdel_keep c s s' : wsdel s s' -> wsdel (c :: s) (c :: s')
| wsdel_drop c s s' : is_ws c = true -> wsdel s s' -> wsdel (c :: s) s'.

Lemma rep_greedy_none p s : forall cs i (k : cont),
  rep_greedy p 0 None cs i s k = None ->
  forall w s2, s = w ++ s2 -> forallb p w = true ->
               k (MState (i + length w) s2 cs) = None.
Proof.
  induction s as [|c s IH]; intros cs i k H w s2 E F; simpl in H.
  - destruct w; [|discriminate]. simpl in *. subst s2. rewrite Nat.add_0_r. exact H.
  - destruct (p c) eqn:Pc.
    + apply orelse_none in H. destruct H as [H1 H2].
      destruct w as [|c' w]; simpl in *.
      * subst s2. rewrite Nat.add_0_r. exact H2.
      * injection E as <- E. apply andb_true_iff in F. destruct F as [_ F].
        replace (i + S (length w)) with (S i + length w) by lia.
        apply (IH _ _ _ H1 w s2 E F).
    + destruct w as [|c' w]; simpl in *.
      * subst s2. rewrite Nat.add_0_r. exact H.
      * injection E as <- E. rewrite Pc in F. discriminate.
Qed.

(** The greedy star stops at the longest run the continuation accepts. *)
Lemma rep_greedy_longest p s : forall cs i (k : cont) res,
  rep_greedy p 0 None cs i s k = Some res ->
  exists w s', s = w ++ s' /\ forallb p w = true /\
    k (MState (i + length w) s' cs) = Some res /\
    forall w2 s2, s' = w2 ++ s2 -> w2 <> [] -> forallb p w2 = true ->
                  k (MState (i + length w + length w2) s2 cs) = None.
Proof.
  induction s as [|c s IH]; intros cs i k res H; simpl in H.
  - exists [], []. simpl. rewrite Nat.add_0_r. repeat split; auto.
    intros w2 s2 E N. destruct w2; [congruence|discriminate].
  - destruct (p c) eqn:Pc.
    + apply orelse_some in H. destruct H as [H|[H1 H2]].
      * destruct (IH _ _ _ _ H) as [w [s' [E [F [K L]]]]].
        exists (c :: w), s'. simpl. rewrite Pc, F, E.
        replace (i + S (length w)) with (S i + length w) by lia.
        repeat split; auto.
      * exists [], (c :: s). simpl. rewrite Nat.add_0_r. repeat split; auto.
        intros w2 s2 E N F. destruct w2 as [|c' w2]; [congruence|].
        simpl in *. injection E as <- E. apply andb_true_iff in F. destruct F as [_ F].
        replace (i + S (length w2)) with (S i + length w2) by lia.
        apply (rep_greedy_none _ _ _ _ _ H1 w2 s2 E F).
    + exists [], (c :: s). simpl. rewrite Nat.add_0_r. repeat split; auto.
      intros w2 s2 E N F. destruct w2 as [|c' w2]; [congruence|].
      simpl in *. injection E as <- E. rewrite Pc in F. discriminate.
Qed.

Lemma skipn_exact {A} (a b : list A) n : n = length a -> skipn n (a ++ b) = b.
Proof. intros ->. induction a as [|x a IH]; simpl; auto. Qed.

Lemma firstn_exact {A} (a b : list A) n : n = length a -> firstn n (a ++ b) = a.
Proof. intros ->. induction a as [|x a IH]; simpl; [reflexivity|]. rewrite IH. reflexivity. Qed.

Lemma NL_is_ws : is_ws NL = true.
Proof. reflexivity. Qed.

Lemma nlws_cons_nl s : nlws (NL :: s) = S (nlws s).
Proof. reflexivity. Qed.

Lemma nlws_app_ws w s : forallb is_ws w = true -> nlws s <= nlws (w ++ s).
Proof.
  induction w as [|c w IH]; simpl; intros F; [lia|].
  apply andb_true_iff in F. destruct F as [Fc F]. rewrite Fc. specialize (IH F). lia.
Qed.

Lemma nlws_pos s n :
  nlws s = S n ->
  exists u v, s = u ++ NL :: v /\ forallb is_ws u = true /\ nlws v = n.
Proof.
  induction s as [|c s IH]; simpl; [discriminate|].
  destruct (is_ws c) eqn:W; [|discriminate].
  destruct (N.eqb_spec c NL) as [->|Hne]; simpl.
  - intros [= H]. exists [], s. auto.
  - intros H. destruct (IH H) as [u [v [E [F V]]]].
    exists (c :: u), v. simpl. rewrite W, F, E. auto.
Qed.

Lemma blankLines_unfold st (k : cont) :
  rmatch blankLines st k =
  step_if (N.eqb NL) st (fun st1 =>
    rep_greedy is_ws 0 None (caps st1) (pos st1) (rest st1) (fun st2 =>
      step_if (N.eqb NL) st2 (fun st3 =>
        rep_greedy is_ws 0 None (caps st3) (pos st3) (rest st3) (fun st4 =>
          step_if (N.eqb NL) st4 k)))).
Proof. reflexivity. Qed.

Lemma step_nl_sound st (k : cont) res :
  step_if (N.eqb NL) st k = Some res ->
  exists s', rest st = NL :: s' /\ k (MState (S (pos st)) s' (caps st)) = Some res.
Proof.
  intros H. destruct (step_if_sound _ _ _ _ H) as [c [s' [R [C K]]]].
  apply N.eqb_eq in C. subst c. eauto.
Qed.

(** A match of the blank-line pattern: at least three newlines lie in the
    white space the string starts with, the match is not empty, and the white
    space right after it holds no newline. *)
Lemma blankLines_match p s st :
  rmatch blankLines (MState p s []) Some = Some st ->
  3 <= nlws s /\ p < pos st /\ skipn (pos st - p) s = rest st /\ nlws (rest st) = 0 /\
  forallb is_ws (firstn (pos st - p) s) = true.
Proof.
  rewrite blankLines_unfold. intros H.
  destruct (step_nl_sound _ _ _ H) as [s1 [R1 H1]]. simpl in R1, H1. subst s.
  destruct (rep_greedy_sound _ _ _ _ _ _ _ _ H1) as [w1 [s2 [E1 [F1 [_ H2]]]]].
  destruct (step_nl_sound _ _ _ H2) as [s3 [R3 H3]]. simpl in R3, H3. subst s2.
  destruct (rep_greedy_longest _ _ _ _ _ _ H3) as [w2 [s4 [E2 [F2 [H4 L]]]]].
  destruct (step_nl_sound _ _ _ H4) as [s5 [R5 H5]]. simpl in R5, H5. subst s4.
  injection H5 as <-. simpl pos. simpl rest. subst s1 s3.
  repeat split.
  - rewrite nlws_cons_nl.
    pose proof (nlws_app_ws w1 (NL :: w2 ++ NL :: s5) F1) as A1.
    pose proof (nlws_app_ws w2 (NL :: s5) F2) as A2.
    rewrite !nlws_cons_nl in *. lia.
  - lia.
  - replace (NL :: w1 ++ NL :: w2 ++ NL :: s5)
      with ((NL :: w1 ++ NL :: w2 ++ [NL]) ++ s5)
      by (simpl; rewrite <- !app_assoc; simpl; rewrite <- !app_assoc; reflexivity).
    apply skipn_exact. cbn [length]. rewrite !length_app. cbn [length].
    rewrite !length_app. cbn [length]. lia.
  - destruct (nlws s5) as [|n] eqn:N; [reflexivity|]. exfalso.
    destruct (nlws_pos _ _ N) as [u [v [E [F _]]]].
    specialize (L (NL :: u) (NL :: v)). rewrite E in L.
    specialize (L eq_refl ltac:(discriminate)). simpl in L. rewrite F in L.
    specialize (L eq_refl). unfold step_if in L. simpl in L. discriminate.
  - replace (NL :: w1 ++ NL :: w2 ++ NL :: s5)
      with ((NL :: w1 ++ NL :: w2 ++ [NL]) ++ s5)
      by (simpl; rewrite <- !app_assoc; simpl; rewrite <- !app_assoc; reflexivity).
    rewrite firstn_exact.
    + cbn [forallb]. rewrite forallb_app. cbn [forallb]. rewrite forallb_app.
      rewrite F1, F2. reflexivity.
    + cbn [length]. rewrite !length_app. cbn [length].
      rewrite !length_app. cbn [length]. lia.
Qed.

(** Where three newlines lie in the white space after a newline at the head,
    the pattern matches. *)
Lemma blankLines_complete p s :
  rmatch blankLines (MState p (NL :: s) []) Some = None -> nlws s <= 1.
Proof.
  rewrite blankLines_unfold. unfold step_if at 1. simpl. intros H.
  destruct (nlws s) as [|[|n]] eqn:N; [lia|lia|]. exfalso.
  destruct (nlws_pos _ _ N) as [u1 [v1 [E1 [F1 N1]]]].
  destruct (nlws_pos _ _ N1) as [u2 [v2 [E2 [F2 _]]]].
  pose proof (rep_greedy_none _ _ _ _ _ H u1 (NL :: v1) E1 F1) as H2.
  unfold step_if in H2. simpl in H2.
  pose proof (rep_greedy_none _ _ _ _ _ H2 u2 (NL :: v2) E2 F2) as H3.
  unfold step_if in H3. simpl in H3. discriminate.
Qed.

(** The invariant of the replacement loop. *)
Definition inv (cnt skip : nat) (s : jstring) : Prop :=
  (cnt = 0 /\ skip = 0) \/ (cnt + nlws (skipn skip s) <= 2 /\ skip <= length s).

Lemma collapse_ok3 : forall s p skip cnt,
  inv cnt skip s ->
  ok3 cnt (replace_go blankLines (constant [NL; NL]) p s skip) = true.
Proof.
  induction s as [|c s IH]; intros p skip cnt I.
  - destruct skip as [|skip]; simpl; [|reflexivity].
    destruct (rmatch blankLines (MState p [] []) Some) as [st|] eqn:M; [|reflexivity].
    destruct (blankLines_match _ _ _ M) as [N _]. simpl in N. lia.
  - destruct skip as [|skip].
    + cbn [replace_go].
      destruct (rmatch blankLines (MState p (c :: s) []) Some) as [st|] eqn:M.
      * destruct (blankLines_match _ _ _ M) as [N [P [R [Z _]]]].
        assert (cnt = 0) by (destruct I as [[? _]|[I _]]; [assumption|simpl skipn in I; lia]).
        subst cnt. destruct (pos st - p) as [|n] eqn:D; [lia|].
        unfold constant. simpl app. cbn [ok3]. rewrite N.eqb_refl. simpl.
        apply IH. right. simpl in R. rewrite R, Z.
        split; [lia|].
        destruct (Nat.le_gt_cases n (length s)) as [|Hgt]; [assumption|].
        exfalso. pose proof (rmatch_sound _ _ _ _ M) as [st' [K [w [Rw [Pw _]]]]].
        injection K as ->. simpl in Rw, Pw.
        apply (f_equal (@length _)) in Rw. rewrite length_app in Rw. simpl in Rw. lia.
      * cbn [ok3]. destruct (N.eqb_spec c NL) as [->|Hne].
        -- pose proof (blankLines_complete _ _ M) as C.
           assert (Hc : cnt + S (nlws s) <= 2).
           { destruct I as [[-> _]|[I _]]; [lia|]. simpl skipn in I.
             rewrite nlws_cons_nl in I. lia. }
           apply andb_true_iff. split; [apply Nat.ltb_lt; lia|].
           apply IH. right. simpl. split; lia.
        -- destruct (is_ws c) eqn:W.
           ++ apply IH. destruct I as [I|[I _]]; [left; exact I|right].
              simpl in *. rewrite W in I. apply N.eqb_neq in Hne. rewrite Hne in I.
              simpl in I. split; lia.
           ++ apply IH. left. auto.
    + cbn [replace_go]. apply IH. destruct I as [[_ I]|[I L]]; [discriminate|].
      right. simpl in *. split; [exact I|lia].
Qed.

Lemma ok3_mono s : forall cnt, ok3 (S cnt) s = true -> ok3 cnt s = true.
Proof.
  induction s as [|c s IH]; intros cnt H; simpl in *; [reflexivity|].
  destruct (c =? NL)%N.
  - apply andb_true_iff in H. destruct H as [H1 H2].
    apply Nat.ltb_lt in H1. rewrite (IH _ H2).
    apply andb_true_iff. split; [apply Nat.ltb_lt; lia|reflexivity].
  - destruct (is_ws c); [apply IH|]; exact H.
Qed.

Lemma ok3_wsdel s s' : wsdel s s' -> forall cnt, ok3 cnt s = true -> ok3 cnt s' = true.
Proof.
  induction 1 as [|c s s' D IH|c s s' W D IH]; intros cnt H; simpl in *.
  - reflexivity.
  - destruct (c =? NL)%N.
    + apply andb_true_iff in H. destruct H as [H1 H2]. rewrite H1, (IH _ H2). reflexivity.
    + destruct (is_ws c); apply IH; exact H.
  - rewrite W in H. destruct (c =? NL)%N.
    + apply andb_true_iff in H. destruct H as [_ H]. apply IH. apply ok3_mono. exact H.
    + apply IH. exact H.
Qed.

Lemma wsdel_refl s : wsdel s s.
Proof. induction s; constructor; auto. Qed.

Lemma wsdel_app a a' b b' : wsdel a a' -> wsdel b b' -> wsdel (a ++ b) (a' ++ b').
Proof. induction 1; simpl; intros; try constructor; auto. Qed.

Lemma wsdel_all_ws a : forallb is_ws a = true -> wsdel a [].
Proof.
  induction a as [|c a IH]; simpl; intros H; [constructor|].
  apply andb_true_iff in H. destruct H. apply wsdel_drop; auto.
Qed.

Lemma wsdel_trim s : wsdel s (trim s).
Proof.
  unfold trim. destruct (trimStart_suffix s) as [a [E1 F1]].
  destruct (trimEnd_prefix (trimStart s)) as [b [E2 F2]].
  rewrite E1 at 1. rewrite E2 at 1.
  change (trimEnd (trimStart s)) with ([] ++ trimEnd (trimStart s)) at 2.
  apply wsdel_app; [apply wsdel_all_ws; exact F1|].
  rewrite <- (app_nil_r (trimEnd (trimStart s))) at 2.
  apply wsdel_app; [apply wsdel_refl|apply wsdel_all_ws; exact F2].
Qed.

Lemma split_not_nil c s : split c s <> [].
Proof.
  induction s as [|x s IH]; simpl; [discriminate|].
  destruct (split c s); [congruence|]. destruct (x =? c)%N; discriminate.
Qed.

Lemma wsdel_join_trim ls : wsdel (join [NL] ls) (join [NL] (map trim ls)).
Proof.
  induction ls as [|l ls IH]; simpl; [constructor|].
  destruct ls as [|l' ls]; simpl in *; [apply wsdel_trim|].
  apply wsdel_app; [apply wsdel_trim|]. apply wsdel_keep. exact IH.
Qed.

Lemma join_split s : join [NL] (split NL s) = s.
Proof.
  induction s as [|x s IH]; simpl; [reflexivity|].
  pose proof (split_not_nil NL s) as N.
  destruct (split NL s) as [|l ls]; [congruence|].
  destruct (N.eqb_spec x NL) as [->|Hne].
  - simpl. simpl in IH. rewrite IH. reflexivity.
  - destruct ls as [|l' ls]; simpl in *; rewrite IH; reflexivity.
Qed.

Lemma wsdel_trimLines s : wsdel s (trimLines s).
Proof.
  unfold trimLines. rewrite <- (join_split s) at 1. apply wsdel_join_trim.
Qed.

Lemma ok3_no_triple a b : forall cnt, ok3 cnt (a ++ [NL; NL; NL] ++ b) = false.
Proof.
  induction a as [|c a IH]; intros cnt; simpl.
  - destruct cnt as [|[|cnt]]; reflexivity.
  - destruct (c =? NL)%N; [rewrite IH; apply andb_false_r|].
    destruct (is_ws c); apply IH.
Qed.

Lemma replace_go_skip r f a : forall p b,
  replace_go r f p (a ++ b) (length a) = replace_go r f (p + length a) b 0.
Proof.
  induction a as [|x a IH]; intros p b; simpl.
  - rewrite Nat.add_0_r. reflexivity.
  - rewrite IH. f_equal. lia.
Qed.

Lemma blankLines_no_nl p c s :
  c <> NL -> rmatch blankLines (MState p (c :: s) []) Some = None.
Proof.
  intros H. rewrite blankLines_unfold. unfold step_if at 1. cbn [rest].
  destruct (N.eqb_spec NL c); [congruence|reflexivity].
Qed.

(** The clean-up leaves at most two newlines in any run of white space. *)
Lemma cleanUp_ok3 text : ok3 0 (cleanUp text) = true.
Proof.
  unfold cleanUp.
  apply (ok3_wsdel _ _ (wsdel_trim _)).
  apply (ok3_wsdel _ _ (wsdel_trimLines _)).
  unfold collapseBlankLines, replace. apply collapse_ok3. left. auto.
Qed.

End HtmlFacts.

(** Two paragraphs with an empty line between them. *)
Definition two_paragraphs : jstring :=
  utf16 "<p>a</p>" ++ [NL; NL] ++ utf16 "<p>b &amp; c</p>".

(** Four newlines between two paragraphs come out as two. *)
Example htmlToText_paragraphs :
  htmlToText two_paragraphs = utf16 "a" ++ [NL; NL] ++ utf16 "b & c".
Proof. vm_compute. reflexivity. Qed.

(* ================================================================== *)
(** * The PDF reader: what the walk inserts, and failing pages *)
(* ================================================================== *)

Module PdfFacts.

(** The state of the walk after a list of items. *)
Definition walkAfter (items : list TextItem) (st : walkState) : walkState :=
  fold_left (fun _ item => advance item) items st.

Lemma walk_app l1 l2 st parts :
  walk (l1 ++ l2) st parts = walk l2 (walkAfter l1 st) (walk l1 st parts).
Proof.
  revert st parts. induction l1 as [|x l1 IH]; intros st parts; simpl; [reflexivity|].
  apply IH.
Qed.

Lemma walkAfter_snoc l a st : walkAfter (l ++ [a]) st = advance a.
Proof. unfold walkAfter. rewrite fold_left_app. reflexivity. Qed.

(** Two consecutive items [a], [b]: between their texts comes what
    [separator] gives for [b] after [a], and nothing else. *)
Lemma walk_consecutive before a b :
  walk (before ++ [a; b]) initialWalk []
  = walk (before ++ [a]) initialWalk [] ++ separator (advance a) b ++ [str b].
Proof.
  replace (before ++ [a; b]) with ((before ++ [a]) ++ [b])
    by (rewrite <- app_assoc; reflexivity).
  rewrite walk_app, walkAfter_snoc. reflexivity.
Qed.

(** On one line, and after an item whose baseline is not the sentinel -1, the
    separator is one space when the gap exceeds 0.3 times the font height and
    nothing otherwise. *)
Lemma same_line_separator st item :
  PrimFloat.eqb (lastY st) (-1)%float = false ->
  gt (PrimFloat.abs (transform5 item - lastY st)) (transform3 item * 1.4)%float = false ->
  gt (PrimFloat.abs (transform5 item - lastY st)) (transform3 item * 0.4)%float = false ->
  separator st item
  = if gt (transform4 item - lastX st) (transform3 item * 0.3)%float then [[SP]] else [].
Proof. intros H1 H2 H3. unfold separator. rewrite H1, H2, H3. reflexivity. Qed.

Lemma promiseAll_app {A} (l1 l2 : list (option A)) :
  promiseAll (l1 ++ l2) =
  match promiseAll l1, promiseAll l2 with
  | Some a, Some b => Some (a ++ b)
  | _, _ => None
  end.
Proof.
  induction l1 as [|[v|] l1 IH]; simpl.
  - destruct (promiseAll l2); reflexivity.
  - rewrite IH. destruct (promiseAll l1), (promiseAll l2); reflexivity.
  - reflexivity.
Qed.

Lemma promiseAll_none {A} (l : list (option A)) : In None l -> promiseAll l = None.
Proof.
  induction l as [|[v|] l IH]; simpl; [tauto| |reflexivity].
  intros [H|H]; [discriminate|]. rewrite (IH H). reflexivity.
Qed.

Lemma promiseAll_some {A} (l : list A) : promiseAll (map Some l) = Some l.
Proof. induction l as [|x l IH]; simpl; [reflexivity|]. rewrite IH. reflexivity. Qed.

Lemma batches_go_concat {A} size : forall (l cur : list A) n,
  n = length cur -> concat (batches_go size l cur n) = rev cur ++ l.
Proof.
  induction l as [|x l IH]; intros cur n Hn; cbn [batches_go].
  - destruct cur; subst; simpl; [reflexivity|]. rewrite !app_nil_r. reflexivity.
  - destruct (S n =? size).
    + cbn [concat]. rewrite (IH [] 0 eq_refl). cbn [rev app].
      rewrite <- app_assoc. reflexivity.
    + rewrite (IH (x :: cur) (S n)) by (simpl; lia). cbn [rev].
      rewrite <- app_assoc. reflexivity.
Qed.

Lemma batchesOf_concat {A} size (l : list A) : concat (batchesOf size l) = l.
Proof. unfold batchesOf. rewrite batches_go_concat; reflexivity. Qed.

(** A run of the batch loop that is never aborted: all the texts, or the
    rejection of the first batch that holds a failing page. *)
Lemma batchLoop_never sortItems numPages sig :
  (forall t, sig t = false) ->
  forall todo i acc w,
  fst (batchLoop sortItems numPages todo i acc sig w) =
  match promiseAll (map (pagePromise sortItems) (concat todo)) with
  | Some texts => Ok (acc ++ texts)
  | None => Throw Rejected
  end.
Proof.
  intros Hs. induction todo as [|batch todo IH]; intros i acc w; simpl.
  - rewrite app_nil_r. reflexivity.
  - unfold bind at 1, checkAborted. rewrite Hs.
    unfold bind at 1, onProgress. unfold bind at 1, await.
    rewrite map_app, promiseAll_app.
    destruct (promiseAll (map (pagePromise sortItems) batch)) as [texts|]; [|reflexivity].
    rewrite IH.
    destruct (promiseAll (map (pagePromise sortItems) (concat todo))); [|reflexivity].
    rewrite app_assoc. reflexivity.
Qed.

End PdfFacts.

(** C4 (as amended).  No page is skipped: [parsePdf] waits for the pages of a
    batch with [Promise.all] and has no handler for a rejection, so a page
    that fails to decode makes the whole extraction fail, as a document that
    fails to open does.  When every page decodes, the result is the texts of
    all pages, in page order, joined by a paragraph break. *)
Theorem page_failure_is_fatal sortItems document sig w :
  (forall t, sig t = false) ->
  (document = None ->
   fst (parsePdf sortItems document sig w) = Throw Rejected) /\
  (forall pages, document = Some pages -> In PageFails pages ->
   fst (parsePdf sortItems document sig w) = Throw Rejected) /\
  (forall pageItems, document = Some (map PageItems pageItems) ->
   fst (parsePdf sortItems document sig w)
   = Ok (join [NL; NL] (map (fun items => pageText (sortItems items)) pageItems))).
Proof.
  intros Hs. unfold parsePdf. repeat split.
  - intros ->. reflexivity.
  - intros pages -> Hin. unfold bind at 1, await. unfold bind at 1. unfold bind at 1.
    match goal with
    | |- context [batchLoop ?s ?n ?todo ?i ?acc sig ?w1] =>
        pose proof (PdfFacts.batchLoop_never s n sig Hs todo i acc w1) as B;
        destruct (batchLoop s n todo i acc sig w1) as [r w2]
    end.
    simpl in B. rewrite PdfFacts.batchesOf_concat in B.
    rewrite PdfFacts.promiseAll_none in B
      by (change None with (pagePromise sortItems PageFails); apply in_map; exact Hin).
    subst r. reflexivity.
  - intros pageItems ->. unfold bind at 1, await. unfold bind at 1. unfold bind at 1.
    match goal with
    | |- context [batchLoop ?s ?n ?todo ?i ?acc sig ?w1] =>
        pose proof (PdfFacts.batchLoop_never s n sig Hs todo i acc w1) as B;
        destruct (batchLoop s n todo i acc sig w1) as [r w2]
    end.
    simpl in B. rewrite PdfFacts.batchesOf_concat, map_map in B.
    change (fun x => pagePromise sortItems (PageItems x))
      with (fun x => Some (pageText (sortItems x))) in B.
    rewrite <- (map_map (fun x => pageText (sortItems x)) Some) in B.
    rewrite PdfFacts.promiseAll_some in B. subst r. reflexivity.
Qed.

Module PdfExamples.
Local Open Scope float_scope.

(** Two fragments on the line of baseline [y]; the second starts [gap] after
    the end of the first.  The font height is 10, each fragment is 5 wide. *)
Definition pair (y gap : float) : list TextItem :=
  [mkItem (utf16 "a") 10 0 y 5; mkItem (utf16 "b") 10 (5 + gap) y 5].

Example gap_tenth_of_height : pageText (pair 700 1) = utf16 "ab".
Proof. vm_compute. reflexivity. Qed.

Example gap_half_of_height : pageText (pair 700 5) = utf16 "a b".
Proof. vm_compute. reflexivity. Qed.

Definition page (s : String.string) : PageOutcome :=
  PageItems [mkItem (utf16 s) 10 0 700 5].

End PdfExamples.
Import PdfExamples.

Lemma page_failure_is_fatal_witness :
  (forall t, never t = false) /\
  fst (parsePdf insertionSort (Some [page "one"; PageFails; page "three"]) never
         (World 0 []))
  = Throw Rejected.
Proof.
  split; [reflexivity|].
  destruct (page_failure_is_fatal insertionSort
              (Some [page "one"; PageFails; page "three"]) never (World 0 [])
              (fun _ => eq_refl)) as [_ [H _]].
  apply (H [page "one"; PageFails; page "three"]); [reflexivity|simpl; auto].
Defined.

(** C4: the claim as stated fails on a document whose second page does not
    decode: the result is the rejection, not the text of the other pages. *)
Lemma failing_page_not_skipped :
  fst (run (parsePdf insertionSort (Some [page "one"; PageFails; page "three"])) never)
  = Throw Rejected /\
  fst (run (parsePdf insertionSort (Some [page "one"; page "three"])) never)
  = Ok (utf16 "one" ++ [NL; NL] ++ utf16 "three").
Proof. split; vm_compute; reflexivity. Qed.

(** C5: the code at the failing input.  Two fragments on the line of baseline
    -1, the second half a font height after the end of the first: the walk
    takes the baseline of the first for its "no item yet" sentinel and pushes
    no space, where on any other line it pushes one. *)
Theorem sentinel_baseline_drops_space :
  pageText (pair (-1) 5) = utf16 "ab" /\ pageText (pair 700 5) = utf16 "a b".
Proof. split; vm_compute; reflexivity. Qed.

(* ================================================================== *)
(** * The package reader and the pipeline *)
(* ================================================================== *)

Module EpubExamples.

Definition q (s : String.string) : jstring := [QUOTE] ++ utf16 s ++ [QUOTE].

Definition containerXml : jstring :=
  utf16 "<container><rootfiles><rootfile full-path=" ++ q "OEBPS/content.opf"
  ++ utf16 "/></rootfiles></container>".

Definition item (id href : String.string) : jstring :=
  utf16 "<item id=" ++ q id ++ utf16 " href=" ++ q href ++ utf16 "/>".
Definition itemref (id : String.string) : jstring :=
  utf16 "<itemref idref=" ++ q id ++ utf16 "/>".

(** A package whose spine lists the files A, B and C, in this order, while the
    manifest lists them in another. *)
Definition opfXml : jstring :=
  utf16 "<package><metadata><dc:title>Three</dc:title></metadata><manifest>"
  ++ item "c" "C.xhtml" ++ item "a" "A.xhtml" ++ item "b" "B.xhtml"
  ++ utf16 "</manifest><spine>" ++ itemref "a" ++ itemref "b" ++ itemref "c"
  ++ utf16 "</spine></package>".

Definition chapterFile (heading body : String.string) : jstring :=
  utf16 "<html><body><h1>" ++ utf16 heading ++ utf16 "</h1><p>" ++ utf16 body
  ++ utf16 "</p></body></html>".

Definition zipOf (files : list (jstring * jstring)) (path : jstring) : ZipEntry :=
  match JsMap.get jstring_eqb path files with
  | Some s => Text s
  | None => Missing
  end.

Definition threeFiles : jstring -> ZipEntry :=
  zipOf [(utf16 "META-INF/container.xml", containerXml);
         (utf16 "OEBPS/content.opf", opfXml);
         (utf16 "OEBPS/A.xhtml", chapterFile "First" "The text of file A.");
         (utf16 "OEBPS/B.xhtml", chapterFile "Second" "The text of file B.");
         (utf16 "OEBPS/C.xhtml", chapterFile "Third" "The text of file C.")].

(** The promises of a batch settle in the order of their indices, or in the
    opposite order. *)
Definition inOrder (i n : nat) : list nat := seq 0 n.
Definition lastFirst (i n : nat) : list nat := rev (seq 0 n).

Definition threeChapters : list Chapter :=
  [mkChapter (utf16 "First") (utf16 "First" ++ [NL; NL] ++ utf16 "The text of file A.");
   mkChapter (utf16 "Second") (utf16 "Second" ++ [NL; NL] ++ utf16 "The text of file B.");
   mkChapter (utf16 "Third") (utf16 "Third" ++ [NL; NL] ++ utf16 "The text of file C.")].

Example three_files_last_first :
  run (parseEpub lastFirst threeFiles (utf16 "three.epub") true) never
  = (Ok (utf16 "Three", threeChapters), World 5 [EpubBatch 3 3 3]).
Proof. vm_compute. reflexivity. Qed.

(** When no fetch of the batch ever completes, the call stays pending. *)
Example three_files_never_fetched :
  fst (run (parseEpub (fun _ _ => []) threeFiles (utf16 "three.epub") true) never) = Hang.
Proof. vm_compute. reflexivity. Qed.

(** A package with one file. *)
Definition oneFile : File :=
  mkFile (utf16 "one.epub") (utf16 "application/epub+zip") [] None true
    (zipOf [(utf16 "META-INF/container.xml", containerXml);
            (utf16 "OEBPS/content.opf",
             utf16 "<package><manifest>" ++ item "a" "A.xhtml"
             ++ utf16 "</manifest><spine>" ++ itemref "a" ++ utf16 "</spine></package>");
            (utf16 "OEBPS/A.xhtml", chapterFile "Only" "The text of file A.")]).

(** The signal is raised during the suspension number [k]. *)
Definition raisedAt (k : nat) : nat -> bool := fun t => k <=? t.

End EpubExamples.
Import EpubExamples.

(** ** The chapters of a package follow the spine *)

(** The value the promise of the spine entry [itemId] resolves to. *)
Definition entryOf (zip : jstring -> ZipEntry) (opfDir : jstring)
    (manifest chapterTitles : list (jstring * jstring)) (itemId : jstring)
  : option (jstring * jstring) :=
  match orElse (JsMap.get jstring_eqb itemId manifest) None with
  | None => None
  | Some href =>
      match decodeURIComponent href with
      | None => None
      | Some decoded =>
          match entryPromise zip opfDir chapterTitles href decoded with
          | Some v => v
          | None => None
          end
      end
  end.

Module EpubFacts.
Import PdfFacts.

Lemma bind_Ok {A B} (m : M A) (f : A -> M B) sig w b :
  fst (bind m f sig w) = Ok b ->
  exists a w', m sig w = (Ok a, w') /\ fst (f a sig w') = Ok b.
Proof.
  unfold bind. destruct (m sig w) as [[a|e|] w']; simpl; intros H;
    [eauto|discriminate|discriminate].
Qed.

Lemma length_setNth {A} (v : A) : forall l i, length (setNth i v l) = length l.
Proof.
  induction l as [|x l IH]; intros [|i]; simpl; auto.
Qed.

Lemma nth_error_setNth_eq {A} (v : A) : forall l i,
  i < length l -> nth_error (setNth i v l) i = Some v.
Proof.
  induction l as [|x l IH]; intros [|i] H; simpl in *; try lia; auto.
  apply IH. lia.
Qed.

Lemma nth_error_setNth_neq {A} (v : A) : forall l i j,
  i <> j -> nth_error (setNth i v l) j = nth_error l j.
Proof.
  induction l as [|x l IH]; intros [|i] [|j] H; simpl; auto; try congruence.
Qed.

Lemma settle_reject {A} (promises : list (option A)) i :
  nth_error promises i = Some None ->
  forall order values, In i order -> settle order promises values = None.
Proof.
  intros Hi. induction order as [|j order IH]; intros values Hin; simpl in *; [tauto|].
  destruct (Nat.eq_dec j i) as [->|Hne].
  - rewrite Hi. reflexivity.
  - destruct Hin as [|Hin]; [congruence|].
    destruct (nth_error promises j) as [[v|]|]; auto.
Qed.

Lemma settle_values {A} (promises : list (option A)) :
  (forall i, nth_error promises i <> Some None) ->
  forall order values, length values = length promises ->
  exists values',
    settle order promises values = Some values' /\
    length values' = length values /\
    (forall i, In i order -> i < length values ->
               nth_error values' i = nth_error promises i) /\
    (forall i, ~ In i order -> nth_error values' i = nth_error values i).
Proof.
  intros Hall. induction order as [|j order IH]; intros values Hlen; simpl.
  - exists values. split; [reflexivity|]. split; [reflexivity|]. split; [intros i []|reflexivity].
  - destruct (nth_error promises j) as [[v|]|] eqn:Ej.
    + destruct (IH (setNth j (Some v) values)) as [values' [S1 [S2 [S3 S4]]]];
        [rewrite length_setNth; exact Hlen|].
      rewrite length_setNth in S2, S3.
      exists values'. split; [exact S1|]. split; [exact S2|]. split.
      * intros i Hin Hi. destruct (in_dec Nat.eq_dec i order) as [Hi'|Hi'].
        -- apply S3; assumption.
        -- destruct Hin as [->|Hin]; [|contradiction].
           rewrite S4 by exact Hi'. rewrite nth_error_setNth_eq by exact Hi.
           symmetry. exact Ej.
      * intros i Hin. rewrite S4 by tauto.
        apply nth_error_setNth_neq. intros ->. apply Hin. auto.
    + exfalso. exact (Hall j Ej).
    + destruct (IH values Hlen) as [values' [S1 [S2 [S3 S4]]]].
      exists values'. split; [exact S1|]. split; [exact S2|]. split.
      * intros i Hin Hi. destruct (in_dec Nat.eq_dec i order) as [Hi'|Hi'].
        -- apply S3; assumption.
        -- destruct Hin as [->|Hin]; [|contradiction].
           apply nth_error_None in Ej. lia.
      * intros i Hin. apply S4. tauto.
Qed.

Lemma none_or_all {A} (l : list (option A)) :
  (exists i, nth_error l i = Some None) \/ (forall i, nth_error l i <> Some None).
Proof.
  induction l as [|[v|] l [[i Hi]|IH]].
  - right. intros [|i]; discriminate.
  - left. exists (S i). exact Hi.
  - right. intros [|i]; simpl; [discriminate|apply IH].
  - left. exists 0. reflexivity.
  - left. exists 0. reflexivity.
Qed.

Lemma list_ext {A} : forall (l l' : list A),
  (forall i, nth_error l i = nth_error l' i) -> l = l'.
Proof.
  induction l as [|x l IH]; intros [|y l'] H.
  - reflexivity.
  - specialize (H 0). discriminate.
  - specialize (H 0). discriminate.
  - pose proof (H 0) as H0. simpl in H0. injection H0 as ->.
    f_equal. apply IH. intros i. exact (H (S i)).
Qed.

(** Whatever the order in which the promises settle, [Promise.all] gives the
    values in the order of the promises. *)
Lemma promiseAll_fulfilled {A} (l : list (option A)) :
  (forall i, nth_error l i <> Some None) -> exists vs, promiseAll l = Some vs.
Proof.
  induction l as [|[v|] l IH]; intros H; simpl.
  - eauto.
  - destruct IH as [vs ->]; [intros i; exact (H (S i))|]. eauto.
  - exfalso. exact (H 0 eq_refl).
Qed.

Lemma promiseAllIn_perm {A} (order : list nat) (promises : list (option A)) :
  Permutation order (seq 0 (length promises)) ->
  promiseAllIn order promises
  = match promiseAll promises with
    | Some batchResults => Ok batchResults
    | None => Throw Rejected
    end.
Proof.
  intros P. unfold promiseAllIn.
  destruct (none_or_all promises) as [[i Hi]|Hall].
  - assert (Hin : In i order).
    { apply (Permutation_in _ (Permutation_sym P)). apply in_seq.
      assert (i < length promises) by (apply nth_error_Some; congruence). lia. }
    rewrite (settle_reject promises i Hi order _ Hin).
    rewrite (promiseAll_none promises (nth_error_In _ _ Hi)). reflexivity.
  - destruct (settle_values promises Hall order (repeat None (length promises)))
      as [values' [S1 [S2 [S3 _]]]]; [apply repeat_length|].
    rewrite S1.
    assert (E : values' = promises).
    { apply list_ext. intros i.
      rewrite repeat_length in S2, S3.
      destruct (Nat.lt_ge_cases i (length promises)) as [Hlt|Hge].
      + apply S3; [|exact Hlt]. apply (Permutation_in _ (Permutation_sym P)).
        apply in_seq. lia.
      + rewrite (proj2 (nth_error_None _ _)) by lia.
        rewrite (proj2 (nth_error_None _ _)) by lia. reflexivity. }
    rewrite E. destruct (promiseAll_fulfilled promises Hall) as [vs ->]. reflexivity.
Qed.

Lemma pushResults_app : forall a b cs n,
  pushResults (a ++ b) cs n
  = pushResults b (fst (pushResults a cs n)) (snd (pushResults a cs n)).
Proof.
  induction a as [|[[t c]|] a IH]; intros b cs n; simpl; auto.
Qed.


Section Spine.
Variables (zip : jstring -> ZipEntry) (opfDir : jstring)
          (manifest chapterTitles : list (jstring * jstring)).

Lemma batch_results : forall batch promises results,
  batchPromises zip opfDir manifest chapterTitles batch = Some promises ->
  promiseAll promises = Some results ->
  results = map (entryOf zip opfDir manifest chapterTitles) batch.
Proof.
  induction batch as [|itemId batch IH]; intros promises results HB HP; simpl in HB.
  - injection HB as <-. simpl in HP. injection HP as <-. reflexivity.
  - unfold entryOf at 1. simpl map.
    destruct (orElse (JsMap.get jstring_eqb itemId manifest) None) as [href|].
    + destruct (decodeURIComponent href) as [decoded|]; [|discriminate].
      destruct (batchPromises zip opfDir manifest chapterTitles batch) as [ps|];
        [|discriminate].
      simpl in HB. injection HB as <-. simpl in HP.
      destruct (entryPromise zip opfDir chapterTitles href decoded) as [v|]; [|discriminate].
      destruct (promiseAll ps) as [vs|] eqn:E; [|discriminate].
      injection HP as <-. f_equal. unfold entryOf. apply (IH ps vs eq_refl E).
    + destruct (batchPromises zip opfDir manifest chapterTitles batch) as [ps|];
        [|discriminate].
      simpl in HB. injection HB as <-. simpl in HP.
      destruct (promiseAll ps) as [vs|] eqn:E; [|discriminate].
      injection HP as <-. f_equal. apply (IH ps vs eq_refl E).
Qed.

Variable completion : nat -> nat -> list nat.
Hypothesis completion_perm : forall i n, Permutation (completion i n) (seq 0 n).

Lemma spineLoop_inv total : forall todo i chapters chapterNum sig w out,
  fst (spineLoop completion zip total opfDir manifest chapterTitles todo i
                 chapters chapterNum sig w) = Ok out ->
  out = fst (pushResults (map (entryOf zip opfDir manifest chapterTitles) (concat todo))
                         chapters chapterNum).
Proof.
  induction todo as [|batch todo IH]; intros i chapters chapterNum sig w out H.
  - simpl in *. congruence.
  - cbn [spineLoop] in H.
    apply bind_Ok in H. destruct H as [[] [w1 [_ H]]].
    destruct (batchPromises zip opfDir manifest chapterTitles batch) as [promises|] eqn:B;
      [|discriminate].
    apply bind_Ok in H. destruct H as [[] [w2 [_ H]]].
    rewrite promiseAllIn_perm in H by apply completion_perm.
    destruct (promiseAll promises) as [results|] eqn:P; [|discriminate].
    rewrite (batch_results _ _ _ B P) in H.
    destruct (pushResults (map (entryOf zip opfDir manifest chapterTitles) batch)
                chapters chapterNum) as [cs' n'] eqn:R.
    apply bind_Ok in H. destruct H as [[] [w3 [_ H]]].
    apply IH in H. subst out. cbn [concat]. rewrite map_app, pushResults_app, R.
    reflexivity.
Qed.

End Spine.
End EpubFacts.



(** ** The flat branch checks the signal after its last suspension *)

Module PipelineFacts.

Lemma bind_run {A B} (m : M A) (f : A -> M B) sig w b w'' :
  bind m f sig w = (Ok b, w'') ->
  exists a w', m sig w = (Ok a, w') /\ f a sig w' = (Ok b, w'').
Proof.
  unfold bind. destruct (m sig w) as [[a|e|] w']; intros H;
    [eauto|discriminate|discriminate].
Qed.

(** In the PDF and text branch, a run returns a book only if the signal is
    still down when the run ends: the check before the split comes after the
    last suspension. *)
Lemma flat_branch_sees_signal sortItems completion file sig w book w' :
  isEpub file = false ->
  parseFile sortItems completion file sig w = (Ok book, w') ->
  sig (clock w') = false.
Proof.
  intros He H. unfold parseFile in H. rewrite He in H.
  apply bind_run in H. destruct H as [text [w1 [_ H]]].
  apply bind_run in H. destruct H as [[] [w2 [Hc H]]].
  unfold checkAborted in Hc. destruct (sig (clock w1)) eqn:Hs; [discriminate|].
  injection Hc as <-.
  apply bind_run in H. destruct H as [[] [w3 [Hp H]]].
  unfold onProgress in Hp. injection Hp as <-.
  apply bind_run in H. destruct H as [chapters [w4 [Hsplit H]]].
  destruct (OptimizedFacts.splitIntoChapters_ok text sig
              (World (clock w1) (trace w1 ++ [SplitSearching])) Hs) as [tr Hok].
  rewrite Hok in Hsplit. injection Hsplit as _ <-.
  apply bind_run in H. destruct H as [[] [w5 [Hf H]]].
  unfold onProgress in Hf. injection Hf as <-.
  unfold ret in H. injection H as _ <-. exact Hs.
Qed.

End PipelineFacts.

(** C9: the code at the failing input.  A package with a single file, the
    signal raised while its only batch is in flight (the fifth suspension):
    [parseEpub] has no check after the last batch, so the pipeline reports the
    batch, reports the end, and returns the book.  Raised one suspension
    earlier, the signal is seen at the start of the batch. *)
Theorem cancel_in_last_batch_returns_book :
  run (parseFile insertionSort inOrder oneFile) (raisedAt 5)
  = (Ok (utf16 "one",
         [mkChapter (utf16 "Only") (utf16 "Only" ++ [NL; NL] ++ utf16 "The text of file A.")]),
     World 5 [EpubOpening; EpubBatch 1 1 1; Finished])
  /\ run (parseFile insertionSort inOrder oneFile) (raisedAt 4)
     = (Throw Aborted, World 4 [EpubOpening]).
Proof. split; vm_compute; reflexivity. Qed.

(* ================================================================== *)
(** * Further properties of the pipeline *)
(* ================================================================== *)

Module PipelineProps.
Import PdfFacts EpubFacts PipelineFacts.

Lemma optimized_chapters_nonempty text : OptimizedFacts.chapters text <> [].
Proof.
  destruct (OptimizedFacts.candidates text) as [|c0 ms] eqn:E.
  - unfold OptimizedFacts.chapters. rewrite E. discriminate.
  - rewrite (SplitFacts.chapters_sliced _ _ _ E). simpl.
    destruct (0 <? _); [destruct (prologue _ _)|]; discriminate.
Qed.

Lemma spineLoop_Ok_parseEpub completion zip name opened sig w title chapters :
  fst (parseEpub completion zip name opened sig w) = Ok (title, chapters) ->
  chapters <> [].
Proof.
  intros H. unfold parseEpub in H.
  apply bind_Ok in H. destruct H as [[] [w1 [_ H]]].
  apply bind_Ok in H. destruct H as [[] [w2 [_ H]]].
  apply bind_Ok in H. destruct H as [[] [w3 [_ H]]].
  apply bind_Ok in H. destruct H as [[] [w4 [_ H]]].
  apply bind_Ok in H. destruct H as [container [w5 [_ H]]].
  destruct container as [containerXml|]; [|discriminate].
  destruct (exec rootfilePattern containerXml 0) as [rootfileMatch|]; [|discriminate].
  apply bind_Ok in H. destruct H as [opf [w6 [Hopf H]]].
  destruct opf as [opfXml|]; [|discriminate].
  destruct (length (spineItemsOf opfXml) =? 0); [discriminate|].
  apply bind_Ok in H. destruct H as [chapterTitles [w7 [_ H]]].
  apply bind_Ok in H. destruct H as [cs [w8 [Hloop H]]].
  destruct cs as [|c cs]; [discriminate|].
  simpl in H. injection H as _ <-. discriminate.
Qed.

Lemma batchesOf_nonempty {A} size (x : A) l : batchesOf size (x :: l) <> [].
Proof.
  intros E. pose proof (batchesOf_concat size (x :: l)) as C. rewrite E in C. discriminate.
Qed.

End PipelineProps.

(** X2.  A book that [parseFile] returns has at least one chapter: the EPUB
    branch throws when no spine entry gives a chapter, and the splitter
    returns the whole text as one chapter when it finds no heading. *)
Theorem parseFile_returns_a_chapter sortItems completion file sig w title chapters :
  fst (parseFile sortItems completion file sig w) = Ok (title, chapters) ->
  chapters <> [].
Proof.
  intros H. unfold parseFile in H. destruct (isEpub file).
  - apply EpubFacts.bind_Ok in H. destruct H as [[] [w1 [_ H]]].
    apply EpubFacts.bind_Ok in H. destruct H as [[t cs] [w2 [He H]]].
    apply EpubFacts.bind_Ok in H. destruct H as [[] [w3 [_ H]]].
    simpl in H. injection H as <- <-.
    exact (PipelineProps.spineLoop_Ok_parseEpub _ _ _ _ _ _ _ _ (f_equal fst He)).
  - apply EpubFacts.bind_Ok in H. destruct H as [text [w1 [_ H]]].
    apply EpubFacts.bind_Ok in H. destruct H as [[] [w2 [_ H]]].
    apply EpubFacts.bind_Ok in H. destruct H as [[] [w3 [_ H]]].
    apply EpubFacts.bind_Ok in H. destruct H as [cs [w4 [Hs H]]].
    apply EpubFacts.bind_Ok in H. destruct H as [[] [w5 [_ H]]].
    simpl in H. injection H as _ <-.
    rewrite (SplitFacts.splitIntoChapters_inv _ _ _ _ (f_equal fst Hs)).
    apply PipelineProps.optimized_chapters_nonempty.
Qed.

Lemma parseFile_returns_a_chapter_witness :
  fst (parseFile insertionSort inOrder oneFile never (World 0 []))
  = Ok (utf16 "one",
        [mkChapter (utf16 "Only") (utf16 "Only" ++ [NL; NL] ++ utf16 "The text of file A.")])
  /\ [mkChapter (utf16 "Only") (utf16 "Only" ++ [NL; NL] ++ utf16 "The text of file A.")]
     <> [].
Proof.
  split; [vm_compute; reflexivity|].
  apply (parseFile_returns_a_chapter insertionSort inOrder oneFile never (World 0 [])
           (utf16 "one")).
  vm_compute. reflexivity.
Defined.

(** X3.  A cancellation that is raised before [parseFile] is called, or while
    it waits for the first time, is never ignored: the call throws, and what
    it throws is ['Aborted'] unless the file fails to open first. *)
Theorem cancelled_at_entry_returns_no_book sortItems completion file sig w :
  (forall t, clock w < t -> sig t = true) ->
  fst (parseFile sortItems completion file sig w) = Throw Aborted \/
  fst (parseFile sortItems completion file sig w) = Throw Rejected.
Proof.
  intros Hs. unfold parseFile. destruct (isEpub file).
  - unfold parseEpub. unfold bind, onProgress, await, checkAborted. cbn [clock].
    destruct (zipOpens file); cbn; [|auto].
    rewrite Hs by lia. auto.
  - destruct (isPdf file).
    + unfold parsePdf. destruct (pdf file) as [[|p pages]|].
      * unfold bind, onProgress, await, checkAborted, ret. cbn.
        rewrite Hs by lia. auto.
      * destruct (batchesOf BATCH_SIZE (p :: pages)) as [|b todo] eqn:E;
          [exfalso; exact (PipelineProps.batchesOf_nonempty _ _ _ E)|].
        unfold bind at 1. unfold bind at 1, onProgress at 1.
        unfold bind at 1. unfold bind at 1, await at 1. unfold bind at 1, await at 1.
        unfold bind at 1. cbn [batchLoop]. unfold bind at 1, checkAborted at 1. cbn [clock].
        rewrite Hs by lia. auto.
      * unfold bind, onProgress, await, throw. cbn. auto.
    + unfold bind, onProgress, await, checkAborted, ret. cbn.
      rewrite Hs by lia. auto.
Qed.

Lemma cancelled_at_entry_returns_no_book_witness :
  (forall t, clock (World 0 []) < t -> raisedAt 0 t = true) /\
  (fst (parseFile insertionSort inOrder oneFile (raisedAt 0) (World 0 [])) = Throw Aborted \/
   fst (parseFile insertionSort inOrder oneFile (raisedAt 0) (World 0 [])) = Throw Rejected).
Proof.
  assert (H : forall t, clock (World 0 []) < t -> raisedAt 0 t = true)
    by (intros t _; reflexivity).
  split; [exact H|].
  exact (cancelled_at_entry_returns_no_book insertionSort inOrder oneFile (raisedAt 0)
           (World 0 []) H).
Defined.

(** X4.  The loops over [regex.exec] all come to an end: none of the patterns
    they run (the heading patterns of the two splitters, and the manifest,
    spine and navigation patterns of the EPUB reader) matches the empty
    string, so [lastIndex] moves forward at every result. *)
Theorem exec_loops_terminate :
  Forall (fun r => forall text, exists ms, execAll r text = Some ms /\ scanned r text 0 ms)
         (Optimized.chapterRegex :: Original.chapterPatterns
          ++ [manifestRegex; spineRegex; navPointRegex]).
Proof.
  repeat constructor; intros text; apply execAll_total; vm_compute; lia.
Qed.

(** X5.  In the optimized splitter the removal of duplicates and the sort
    change nothing: the scan already yields the candidates in strictly
    increasing order of [matchStart]. *)
Theorem dedup_and_sort_keep_scan_order text :
  uniqueMatchesOf (OptimizedFacts.candidates text) = OptimizedFacts.candidates text.
Proof.
  apply SplitFacts.uniqueMatchesOf_sorted.
  exact (proj1 (OptimizedFacts.candidates_sorted text)).
Qed.

(** X6.  A splitter that is called with the signal already raised throws
    ['Aborted'] at the first result of [exec]; when [exec] finds nothing the
    signal is never read, and the whole text comes back as one chapter.  This
    holds of both versions. *)
Theorem splitter_reads_signal_at_first_match text sig w :
  sig (clock w) = true ->
  fst (Optimized.splitIntoChapters text sig w)
  = (if length (OptimizedFacts.rawMatches text) =? 0
     then Ok [mkChapter TITLE_CONTENT text] else Throw Aborted) /\
  fst (Original.splitIntoChapters text sig w)
  = (if length (OriginalFacts.rawMatches1 text ++ OriginalFacts.rawMatches2 text) =? 0
     then Ok [mkChapter TITLE_CONTENT text] else Throw Aborted).
Proof.
  intros Hs. split.
  - unfold Optimized.splitIntoChapters.
    destruct (OptimizedFacts.execAll_chapterRegex text) as [-> _].
    destruct (OptimizedFacts.rawMatches text) as [|m ms]; [reflexivity|].
    unfold bind at 1. rewrite (OptimizedFacts.scanLoop_aborted text sig w Hs). reflexivity.
  - unfold Original.splitIntoChapters, Original.chapterPatterns. cbn [Original.patternLoop].
    destruct (OriginalFacts.execAll_heading1 text) as [-> _].
    destruct (OriginalFacts.execAll_heading2 text) as [-> _].
    destruct (OriginalFacts.rawMatches1 text) as [|m ms].
    + destruct (OriginalFacts.rawMatches2 text) as [|m ms]; [reflexivity|].
      cbn [Original.scanLoop]. unfold bind, ret, checkAborted. cbn. rewrite Hs. reflexivity.
    + cbn [Original.scanLoop]. unfold bind, checkAborted. rewrite Hs. reflexivity.
Qed.

Lemma splitter_reads_signal_at_first_match_witness :
  raisedAt 0 (clock (World 0 [])) = true /\
  fst (Optimized.splitIntoChapters SplitExamples.book (raisedAt 0) (World 0 []))
  = (if length (OptimizedFacts.rawMatches SplitExamples.book) =? 0
     then Ok [mkChapter TITLE_CONTENT SplitExamples.book] else Throw Aborted).
Proof.
  split; [reflexivity|].
  exact (proj1 (splitter_reads_signal_at_first_match SplitExamples.book (raisedAt 0)
                  (World 0 []) eq_refl)).
Defined.

(** X7.  A text or PDF import that returns a book has seen the signal down
    after its last suspension: a cancellation that arrives while the file is
    read or its pages are decoded is never ignored. *)
Theorem flat_import_honours_cancel sortItems completion file sig w book w' :
  isEpub file = false ->
  parseFile sortItems completion file sig w = (Ok book, w') ->
  sig (clock w') = false.
Proof. apply PipelineFacts.flat_branch_sees_signal. Qed.

Definition notes : File :=
  mkFile (utf16 "notes.txt") (utf16 "text/plain") SplitExamples.book None false
         (fun _ => Missing).

Lemma flat_import_honours_cancel_witness :
  isEpub notes = false /\
  parseFile insertionSort inOrder notes never (World 0 [])
  = (Ok (utf16 "notes", SplitExamples.book_chapters),
     World 1 [TextReading; SplitSearching; SplitFound 2; SplitDone 3; Finished]) /\
  never 1 = false.
Proof.
  split; [reflexivity|]. split; [vm_compute; reflexivity|].
  apply (flat_import_honours_cancel insertionSort inOrder notes never (World 0 [])
           (utf16 "notes", SplitExamples.book_chapters)
           (World 1 [TextReading; SplitSearching; SplitFound 2; SplitDone 3; Finished])).
  - reflexivity.
  - vm_compute. reflexivity.
Defined.

Module BaseNameFacts.

(** The continuation of [$]. *)
Definition atEnd : cont := fun st => match rest st with [] => Some st | _ :: _ => None end.

Lemma rep_greedy_to_end p cs : forall w min i,
  forallb p w = true -> min <= length w ->
  rep_greedy p min None cs i w atEnd = Some (MState (i + length w) [] cs).
Proof.
  induction w as [|c w IH]; intros min i Hp Hmin; simpl in *.
  - replace min with 0 by lia. rewrite Nat.add_0_r. reflexivity.
  - apply andb_prop in Hp. destruct Hp as [Hc Hw]. rewrite Hc.
    rewrite (IH (pred min) (S i) Hw) by lia.
    simpl. do 2 f_equal. lia.
Qed.

Lemma extension_unfold q s :
  rmatch extensionPattern (MState q s []) Some
  = match s with
    | c :: s' => if (46 =? c)%N
                 then rep_greedy not_slash_dot 1 None [] (S q) s' atEnd
                 else None
    | [] => None
    end.
Proof. destruct s as [|c s']; reflexivity. Qed.

(** Where [/\.[^/.]+$/] matches: at a dot that a non-empty run of characters
    other than dot and slash separates from the end. *)
Lemma extension_match_at text q m :
  match_at extensionPattern text q = Some m ->
  exists ext, skipn q text = 46%N :: ext /\ ext <> [] /\ forallb not_slash_dot ext = true /\
              m = RMatch q (length text) [].
Proof.
  unfold match_at. rewrite extension_unfold.
  destruct (skipn q text) as [|c s'] eqn:E; [discriminate|].
  destruct (N.eqb_spec 46 c) as [<-|]; [|discriminate].
  destruct (rep_greedy _ _ _ _ _ _ _) as [st|] eqn:R; [|discriminate].
  intros [= <-].
  destruct (rep_greedy_sound _ _ _ _ _ _ _ _ R) as [w [s'' [-> [Hw [Hl K]]]]].
  unfold atEnd in K. simpl in K. destruct s'' as [|x s'']; [|discriminate].
  injection K as <-. rewrite app_nil_r in *. exists w.
  split; [reflexivity|]. split; [destruct w; [simpl in Hl; lia|discriminate]|].
  split; [exact Hw|]. simpl. f_equal.
  assert (L : length (skipn q text) = S (length w)) by (rewrite E; reflexivity).
  rewrite length_skipn in L. lia.
Qed.

Lemma extension_match_here stem ext :
  ext <> [] -> forallb not_slash_dot ext = true ->
  match_at extensionPattern (stem ++ 46%N :: ext) (length stem)
  = Some (RMatch (length stem) (length (stem ++ 46%N :: ext)) []).
Proof.
  intros Hne Hp. unfold match_at. rewrite extension_unfold.
  rewrite skipn_app, skipn_all, Nat.sub_diag. simpl.
  rewrite rep_greedy_to_end; auto.
  - simpl. rewrite length_app. simpl. rewrite Nat.add_succ_r. reflexivity.
  - destruct ext; [congruence|simpl; lia].
Qed.

End BaseNameFacts.

(** X10.  The title of a text or PDF book is the name of the file without its
    extension: [baseName] removes the last dot and what follows it, when what
    follows is not empty and holds no slash. *)
Theorem baseName_strips_extension stem ext :
  ext <> [] -> forallb not_slash_dot ext = true ->
  baseName (stem ++ 46%N :: ext) = stem.
Proof.
  intros Hne Hp. unfold baseName, replaceFirst.
  rewrite (exec_first extensionPattern _ 0 (length stem)
             (RMatch (length stem) (length (stem ++ 46%N :: ext)) [])).
  - simpl. rewrite skipn_all, app_nil_r. rewrite firstn_app, Nat.sub_diag, firstn_all.
    simpl. apply app_nil_r.
  - intros q' Hq. destruct (match_at _ _ q') as [m|] eqn:E; [|reflexivity]. exfalso.
    destruct (BaseNameFacts.extension_match_at _ _ _ E) as [ext' [Hs [_ [Hp' _]]]].
    rewrite skipn_app in Hs. replace (q' - length stem) with 0 in Hs by lia.
    simpl in Hs.
    destruct (skipn q' stem) as [|c rest] eqn:Es.
    + assert (L : length (skipn q' stem) = 0) by (rewrite Es; reflexivity).
      rewrite length_skipn in L. lia.
    + simpl in Hs. injection Hs as _ <-.
      rewrite forallb_app in Hp'. simpl in Hp'.
      rewrite andb_false_r in Hp'. discriminate.
  - apply BaseNameFacts.extension_match_here; assumption.
  - rewrite length_app. simpl. lia.
Qed.

Lemma baseName_strips_extension_witness :
  utf16 "epub" <> [] /\ forallb not_slash_dot (utf16 "epub") = true /\
  baseName (utf16 "vol.1" ++ 46%N :: utf16 "epub") = utf16 "vol.1".
Proof.
  split; [discriminate|]. split; [reflexivity|].
  apply (baseName_strips_extension (utf16 "vol.1") (utf16 "epub")); [discriminate|reflexivity].
Defined.

(** X11.  A name without an extension is the title as it is: [baseName]
    changes nothing when no dot of the name is followed, up to the end, by a
    non-empty run of characters other than dot and slash. *)
Theorem baseName_without_extension name :
  (forall stem ext, name = stem ++ 46%N :: ext ->
                    ext = [] \/ forallb not_slash_dot ext = false) ->
  baseName name = name.
Proof.
  intros H. unfold baseName, replaceFirst. rewrite exec_all_none; [reflexivity|].
  intros q Hq. destruct (match_at _ _ q) as [m|] eqn:E; [|reflexivity]. exfalso.
  destruct (BaseNameFacts.extension_match_at _ _ _ E) as [ext [Hs [Hne [Hp _]]]].
  destruct (H (firstn q name) ext) as [->|Hf].
  - rewrite <- Hs. symmetry. apply firstn_skipn.
  - congruence.
  - congruence.
Qed.

Lemma baseName_without_extension_witness :
  (forall stem ext, utf16 "README" = stem ++ 46%N :: ext ->
                    ext = [] \/ forallb not_slash_dot ext = false) /\
  baseName (utf16 "README") = utf16 "README".
Proof.
  assert (H : forall stem ext, utf16 "README" = stem ++ 46%N :: ext ->
                ext = [] \/ forallb not_slash_dot ext = false).
  { intros stem ext E. exfalso.
    assert (I : In 46%N (utf16 "README")) by (rewrite E; apply in_elt).
    vm_compute in I. intuition discriminate. }
  split; [exact H|]. exact (baseName_without_extension (utf16 "README") H).
Defined.

Module ReplaceFacts.

(** Replacing every occurrence of one character by a fixed string. *)
Lemma replace_go_chr c t : forall s p,
  replace_go (Chr c) (fun _ _ => t) p s 0
  = flat_map (fun x => if (c =? x)%N then t else [x]) s.
Proof.
  induction s as [|x s IH]; intros p; [reflexivity|].
  cbn [replace_go rmatch step_if rest pos caps flat_map].
  destruct (c =? x)%N.
  - cbn [pos]. replace (S p - p) with 1 by lia. simpl app. rewrite IH. reflexivity.
  - rewrite IH. reflexivity.
Qed.

Lemma replace_chr c t s :
  replace (Chr c) (fun _ _ => t) s = flat_map (fun x => if (c =? x)%N then t else [x]) s.
Proof. apply replace_go_chr. Qed.

Lemma remove_chr c s :
  replace (Chr c) (fun _ _ => []) s = filter (fun x => negb (c =? x)%N) s.
Proof.
  rewrite replace_chr. induction s as [|x s IH]; simpl; [reflexivity|].
  destruct (c =? x)%N; simpl; rewrite IH; reflexivity.
Qed.

End ReplaceFacts.

(** The characters the walk over a page puts between two fragments. *)
Definition isSeparator (c : char16) : bool := ((c =? SP) || (c =? NL))%N.

Module PageFacts.

Lemma separator_chars st item :
  filter (fun c => negb (isSeparator c)) (concat (separator st item)) = [].
Proof.
  unfold separator.
  destruct (negb _); [|reflexivity].
  destruct (gt _ _); [reflexivity|].
  destruct (gt _ _); [reflexivity|].
  destruct (gt _ _); reflexivity.
Qed.

Lemma walk_visible (f : char16 -> bool) :
  (forall st item, filter f (concat (separator st item)) = []) ->
  forall items st parts,
  filter f (concat (walk items st parts))
  = filter f (concat parts) ++ filter f (concat (map str items)).
Proof.
  intros Hsep. induction items as [|item items IH]; intros st parts; simpl.
  - rewrite app_nil_r. reflexivity.
  - rewrite IH. rewrite !concat_app, !filter_app, Hsep. simpl.
    rewrite app_nil_r, <- app_assoc. reflexivity.
Qed.

End PageFacts.

(** X12.  The text of a page holds no middle dot (U+00B7): the walk strips
    them all, whatever the fragments. *)
Theorem pageText_has_no_middle_dot items : ~ In 183%N (pageText items).
Proof.
  unfold pageText. rewrite ReplaceFacts.remove_chr. intros H.
  apply filter_In in H. destruct H as [_ H]. discriminate.
Qed.

(** X13.  The walk over a page neither drops nor reorders text: apart from
    the spaces and newlines, the text of the page is the texts of the
    fragments one after the other, in the order of the walk, less their
    middle dots. *)
Theorem pageText_keeps_the_fragments items :
  filter (fun c => negb (isSeparator c)) (pageText items)
  = filter (fun c => negb (isSeparator c))
      (filter (fun c => negb (183 =? c)%N) (concat (map str items))).
Proof.
  unfold pageText. rewrite ReplaceFacts.remove_chr.
  set (dot := fun c => negb (183 =? c)%N). set (vis := fun c => negb (isSeparator c)).
  assert (C : forall s, filter vis (filter dot s) = filter dot (filter vis s)).
  { induction s as [|x s IH]; simpl; [reflexivity|].
    destruct (dot x) eqn:D, (vis x) eqn:V; simpl; rewrite ?D, ?V, IH; reflexivity. }
  rewrite !C. f_equal.
  rewrite (PageFacts.walk_visible vis PageFacts.separator_chars). reflexivity.
Qed.

Module OriginalPdfFacts.
Import PdfFacts.

Lemma separator_same st item :
  concat (Pdf.separator st item) = OriginalPdf.separator st item.
Proof.
  unfold Pdf.separator, OriginalPdf.separator.
  destruct (negb _); [|reflexivity].
  destruct (gt _ _); [reflexivity|].
  destruct (gt _ _); [reflexivity|].
  destruct (gt _ _); reflexivity.
Qed.

Lemma walk_same : forall items st parts,
  concat (Pdf.walk items st parts) = OriginalPdf.walk items st (concat parts).
Proof.
  induction items as [|item items IH]; intros st parts; simpl; [reflexivity|].
  rewrite IH, !concat_app, separator_same. simpl. rewrite app_nil_r. reflexivity.
Qed.

Lemma pageText_same items : OriginalPdf.pageText items = Pdf.pageText items.
Proof. unfold OriginalPdf.pageText, Pdf.pageText. rewrite walk_same. reflexivity. Qed.

Lemma pagePromise_same sortItems page :
  OriginalPdf.pagePromise sortItems page = Pdf.pagePromise sortItems page.
Proof. destruct page; simpl; [reflexivity|]. rewrite pageText_same. reflexivity. Qed.

Lemma original_batchLoop_never sortItems report numPages sig :
  (forall t, sig t = false) ->
  forall todo i acc w,
  fst (OriginalPdf.batchLoop sortItems report numPages todo i acc sig w) =
  match promiseAll (map (Pdf.pagePromise sortItems) (concat todo)) with
  | Some texts => Ok (acc ++ texts)
  | None => Throw Rejected
  end.
Proof.
  intros Hs. induction todo as [|batch todo IH]; intros i acc w; simpl.
  - rewrite app_nil_r. reflexivity.
  - unfold bind at 1, checkAborted. rewrite Hs.
    unfold bind at 1, onProgress. unfold bind at 1, await at 1.
    rewrite map_app, promiseAll_app.
    rewrite (map_ext _ _ (pagePromise_same sortItems)).
    destruct (promiseAll (map (Pdf.pagePromise sortItems) batch)) as [texts|]; [|reflexivity].
    unfold bind at 1, await at 1. rewrite IH.
    destruct (promiseAll (map (Pdf.pagePromise sortItems) (concat todo))); [|reflexivity].
    rewrite app_assoc. reflexivity.
Qed.

(** What a run returns that is never cancelled. *)
Definition extraction (sortItems : list TextItem -> list TextItem)
    (document : option (list PageOutcome)) : result jstring :=
  match document with
  | None => Throw Rejected
  | Some pages =>
      match promiseAll (map (Pdf.pagePromise sortItems) pages) with
      | Some texts => Ok (join [NL; NL] texts)
      | None => Throw Rejected
      end
  end.

Lemma parsePdf_never sortItems document sig w :
  (forall t, sig t = false) ->
  fst (Pdf.parsePdf sortItems document sig w) = extraction sortItems document.
Proof.
  intros Hs. unfold Pdf.parsePdf, extraction. destruct document as [pages|]; [|reflexivity].
  unfold bind at 1, await at 1. unfold bind at 1, await at 1. unfold bind at 1.
  match goal with
  | |- context [Pdf.batchLoop ?s ?n ?todo ?i ?acc sig ?w1] =>
      pose proof (batchLoop_never s n sig Hs todo i acc w1) as B;
      destruct (Pdf.batchLoop s n todo i acc sig w1) as [r w2]
  end.
  simpl in B. rewrite batchesOf_concat in B. subst r.
  destruct (promiseAll _); reflexivity.
Qed.

Lemma original_parsePdf_never sortItems report document sig w :
  (forall t, sig t = false) ->
  fst (OriginalPdf.parsePdf sortItems report document sig w) = extraction sortItems document.
Proof.
  intros Hs. unfold OriginalPdf.parsePdf, extraction.
  destruct document as [pages|]; [|reflexivity].
  unfold bind at 1, await at 1. unfold bind at 1, await at 1. unfold bind at 1.
  match goal with
  | |- context [OriginalPdf.batchLoop ?s ?rp ?n ?todo ?i ?acc sig ?w1] =>
      pose proof (original_batchLoop_never s rp n sig Hs todo i acc w1) as B;
      destruct (OriginalPdf.batchLoop s rp n todo i acc sig w1) as [r w2]
  end.
  simpl in B. rewrite batchesOf_concat in B. subst r.
  destruct (promiseAll _); reflexivity.
Qed.

End OriginalPdfFacts.

(** X14.  The two versions of the walk over a page give the same text: the
    original appends to one string, the current one pushes the parts on an
    array and joins them. *)
Theorem page_walk_versions_agree items :
  OriginalPdf.pageText items = Pdf.pageText items.
Proof.
  unfold OriginalPdf.pageText, Pdf.pageText.
  rewrite OriginalPdfFacts.walk_same. reflexivity.
Qed.

(** X15.  The optimization of [parsePdf] (batches of fifty pages instead of
    thirty, no pause after a batch) does not change what a run does that is
    never cancelled: both versions return the same text, or both reject.
    (Which page's error each one rejects with is not compared: with batches
    of different sizes it need not be the same.) *)
Theorem parsePdf_versions_agree sortItems report document sig w w' :
  (forall t, sig t = false) ->
  (exists text,
     fst (OriginalPdf.parsePdf sortItems report document sig w) = Ok text /\
     fst (Pdf.parsePdf sortItems document sig w') = Ok text) \/
  (fst (OriginalPdf.parsePdf sortItems report document sig w) = Throw Rejected /\
   fst (Pdf.parsePdf sortItems document sig w') = Throw Rejected).
Proof.
  intros Hs.
  rewrite OriginalPdfFacts.original_parsePdf_never, OriginalPdfFacts.parsePdf_never by exact Hs.
  unfold OriginalPdfFacts.extraction. destruct document as [pages|]; [|auto].
  destruct (promiseAll _) as [texts|]; [left; eauto|auto].
Qed.

Lemma parsePdf_versions_agree_witness :
  (forall t, never t = false) /\
  ((exists text,
      fst (OriginalPdf.parsePdf insertionSort PdfBatch
             (Some [PdfExamples.page "one"; PdfExamples.page "two"]) never (World 0 []))
      = Ok text /\
      fst (Pdf.parsePdf insertionSort
             (Some [PdfExamples.page "one"; PdfExamples.page "two"]) never (World 0 []))
      = Ok text) \/
   (fst (OriginalPdf.parsePdf insertionSort PdfBatch
           (Some [PdfExamples.page "one"; PdfExamples.page "two"]) never (World 0 []))
    = Throw Rejected /\
    fst (Pdf.parsePdf insertionSort
           (Some [PdfExamples.page "one"; PdfExamples.page "two"]) never (World 0 []))
    = Throw Rejected)).
Proof.
  split; [reflexivity|].
  apply (parsePdf_versions_agree insertionSort PdfBatch
           (Some [PdfExamples.page "one"; PdfExamples.page "two"]) never
           (World 0 []) (World 0 [])).
  reflexivity.
Defined.

Module PathFacts.

Lemma lastIndexOf_go_app c : forall a b p found,
  lastIndexOf_go c (a ++ b) p found
  = lastIndexOf_go c b (p + length a) (lastIndexOf_go c a p found).
Proof.
  induction a as [|x a IH]; intros b p found; simpl.
  - rewrite Nat.add_0_r. reflexivity.
  - rewrite IH. f_equal. lia.
Qed.

Lemma lastIndexOf_go_absent c : forall s p found,
  ~ In c s -> lastIndexOf_go c s p found = found.
Proof.
  induction s as [|x s IH]; intros p found H; simpl; [reflexivity|].
  rewrite IH by (intros I; apply H; right; exact I).
  destruct (N.eqb_spec x c) as [->|]; [exfalso; apply H; left; reflexivity|reflexivity].
Qed.

End PathFacts.

(** X16.  The directory of the package document, against which the paths of
    the manifest are resolved, is its path up to and including the last
    slash, and is empty for a path without a slash. *)
Theorem opfDirOf_is_the_directory (dir file : jstring) :
  ~ In 47%N file ->
  opfDirOf (dir ++ 47%N :: file) = dir ++ [47%N] /\ opfDirOf file = [].
Proof.
  intros H. unfold opfDirOf, lastIndexOf. split.
  - rewrite PathFacts.lastIndexOf_go_app. simpl.
    rewrite PathFacts.lastIndexOf_go_absent by exact H.
    rewrite substring_slice by (rewrite ?length_app; simpl; lia).
    unfold slice. rewrite Nat.sub_0_r. simpl skipn.
    replace (dir ++ 47%N :: file) with ((dir ++ [47%N]) ++ file)
      by (rewrite <- app_assoc; reflexivity).
    rewrite firstn_app.
    replace (length dir + 1 - length (dir ++ [47%N])) with 0
      by (rewrite length_app; simpl; lia).
    rewrite firstn_all2 by (rewrite length_app; simpl; lia).
    simpl. apply app_nil_r.
  - rewrite PathFacts.lastIndexOf_go_absent by exact H. reflexivity.
Qed.

Lemma opfDirOf_is_the_directory_witness :
  ~ In 47%N (utf16 "content.opf") /\
  opfDirOf (utf16 "OEBPS" ++ 47%N :: utf16 "content.opf") = utf16 "OEBPS" ++ [47%N] /\
  opfDirOf (utf16 "content.opf") = [].
Proof.
  assert (H : ~ In 47%N (utf16 "content.opf"))
    by (vm_compute; intuition discriminate).
  split; [exact H|]. exact (opfDirOf_is_the_directory (utf16 "OEBPS") (utf16 "content.opf") H).
Defined.

(** The chapters for a list of results [(title, content)], numbered from
    [k + 1] on: a result without a title is titled after its number. *)
Fixpoint numbered (k : nat) (results : list (jstring * jstring)) : list Chapter :=
  match results with
  | [] => []
  | (t, c) :: results' =>
      mkChapter (match t with
                 | [] => utf16 "Chương " ++ decimal (S k)
                 | _ :: _ => t
                 end) c
      :: numbered (S k) results'
  end.

Module EpubProps.
Import EpubFacts.

Lemma readText_Ok zip path sig w s w' :
  readText zip path sig w = (Ok (Some s), w') -> zip path = Text s /\ s <> [].
Proof.
  unfold readText, bind, await.
  destruct (zip path) as [| |[|c t]]; simpl; try discriminate.
  intros [= <- _]. split; [reflexivity|discriminate].
Qed.

(** What a run of [parseEpub] that returns a book has read. *)
Lemma parseEpub_inv completion zip name opened sig w title chapters :
  fst (parseEpub completion zip name opened sig w) = Ok (title, chapters) ->
  exists containerXml rootfileMatch opfXml chapterTitles i0 w1 w2,
    opened = true /\
    zip (utf16 "META-INF/container.xml") = Text containerXml /\ containerXml <> [] /\
    exec rootfilePattern containerXml 0 = Some rootfileMatch /\
    zip (orUndefined (group 1 rootfileMatch)) = Text opfXml /\ opfXml <> [] /\
    spineItemsOf opfXml <> [] /\
    spineLoop completion zip (length (spineItemsOf opfXml))
      (opfDirOf (orUndefined (group 1 rootfileMatch))) (manifestOf opfXml) chapterTitles
      (batchesOf EPUB_BATCH (spineItemsOf opfXml)) i0 [] 0 sig w1 = (Ok chapters, w2) /\
    chapters <> [].
Proof.
  intros H. unfold parseEpub in H.
  apply bind_Ok in H. destruct H as [[] [w1 [_ H]]].
  apply bind_Ok in H. destruct H as [[] [w2 [_ H]]].
  apply bind_Ok in H. destruct H as [[] [w3 [Ho H]]].
  apply bind_Ok in H. destruct H as [[] [w4 [_ H]]].
  apply bind_Ok in H. destruct H as [container [w5 [Hc H]]].
  destruct container as [containerXml|]; [|discriminate].
  destruct (exec rootfilePattern containerXml 0) as [rootfileMatch|] eqn:Hr; [|discriminate].
  apply bind_Ok in H. destruct H as [opf [w6 [Hopf H]]].
  destruct opf as [opfXml|]; [|discriminate].
  destruct (spineItemsOf opfXml) as [|x l] eqn:Hsp; [discriminate|]. rewrite <- Hsp in *.
  replace (length (spineItemsOf opfXml) =? 0) with false in H by (rewrite Hsp; reflexivity).
  apply bind_Ok in H. destruct H as [chapterTitles [w7 [_ H]]].
  apply bind_Ok in H. destruct H as [cs [w8 [Hloop H]]].
  destruct cs as [|c cs]; [discriminate|].
  simpl in H. injection H as _ <-.
  apply readText_Ok in Hc. apply readText_Ok in Hopf.
  exists containerXml, rootfileMatch, opfXml, chapterTitles, 0, w7, w8.
  destruct opened; [|discriminate].
  repeat split; try tauto; try discriminate; try congruence.
Qed.

Lemma collect_id_map {A B} (f : A -> option B) l :
  collect (fun r => r) (map f l) = collect f l.
Proof.
  induction l as [|x l IH]; simpl; [reflexivity|].
  destruct (f x); rewrite IH; reflexivity.
Qed.

Lemma pushResults_numbered : forall rs cs n,
  pushResults rs cs n
  = (cs ++ numbered n (collect (fun r => r) rs), n + length (collect (fun r => r) rs)).
Proof.
  induction rs as [|[[t c]|] rs IH]; intros cs n; simpl.
  - rewrite app_nil_r, Nat.add_0_r. reflexivity.
  - rewrite IH, <- app_assoc. simpl. do 2 f_equal. lia.
  - apply IH.
Qed.

Lemma entryValue_content chapterTitles href decoded xhtml t c :
  entryValue chapterTitles href decoded xhtml = Some (t, c) ->
  c = trim (htmlToText xhtml) /\ 10 <= length c.
Proof.
  unfold entryValue. destruct xhtml as [|x xhtml]; [discriminate|].
  destruct (Nat.ltb_spec (length (trim (htmlToText (x :: xhtml)))) 10); [discriminate|].
  intros [= _ <-]. auto.
Qed.

Lemma entryOf_content zip opfDir manifest chapterTitles itemId t c :
  entryOf zip opfDir manifest chapterTitles itemId = Some (t, c) ->
  exists xhtml, c = trim (htmlToText xhtml) /\ 10 <= length c.
Proof.
  unfold entryOf. destruct (orElse _ _) as [href|]; [|discriminate].
  destruct (decodeURIComponent href) as [decoded|]; [|discriminate].
  unfold entryPromise. destruct (zip _) as [| |xhtml]; try discriminate.
  intros H. exists xhtml. exact (entryValue_content _ _ _ _ _ _ H).
Qed.

Lemma numbered_titled P : forall results k,
  Forall (fun tc => P (snd tc)) results ->
  Forall (fun ch => title ch <> [] /\ P (content ch)) (numbered k results).
Proof.
  induction results as [|[t c] results IH]; intros k H; simpl; constructor.
  - simpl. split; [|exact (Forall_inv H)].
    destruct t; [|discriminate].
    change (utf16 "Chương ") with (67%N :: tl (utf16 "Chương ")). discriminate.
  - apply IH. exact (Forall_inv_tail H).
Qed.

Section Chapters.
Variable completion : nat -> nat -> list nat.
Hypothesis completion_perm : forall i n, Permutation (completion i n) (seq 0 n).

Lemma parseEpub_chapters zip name opened sig w title chapters :
  fst (parseEpub completion zip name opened sig w) = Ok (title, chapters) ->
  exists opfPath opfXml chapterTitles,
    zip opfPath = Text opfXml /\
    chapters
    = numbered 0 (collect (entryOf zip (opfDirOf opfPath) (manifestOf opfXml) chapterTitles)
                          (spineItemsOf opfXml)).
Proof.
  intros H. apply parseEpub_inv in H.
  destruct H as [containerXml [m [opfXml [chapterTitles [i0 [w1 [w2 H]]]]]]].
  destruct H as [_ [_ [_ [_ [Hopf [_ [_ [Hloop _]]]]]]]].
  exists (orUndefined (group 1 m)), opfXml, chapterTitles. split; [exact Hopf|].
  pose proof (spineLoop_inv zip _ _ _ completion completion_perm _ _ _ _ _ _ _ chapters
                (f_equal fst Hloop)) as L.
  rewrite PdfFacts.batchesOf_concat, pushResults_numbered, collect_id_map in L. exact L.
Qed.

End Chapters.
End EpubProps.



(** X18.  Every chapter of an EPUB has a title that is not empty and a
    content of at least ten code units with no white space at either end. *)
Theorem epub_chapters_are_titled completion zip name opened sig w bookTitle chapters :
  (forall i n, Permutation (completion i n) (seq 0 n)) ->
  fst (parseEpub completion zip name opened sig w) = Ok (bookTitle, chapters) ->
  Forall (fun ch => title ch <> [] /\
                    (10 <= length (content ch) /\ edge_free (content ch))) chapters.
Proof.
  intros Hp H.
  destruct (EpubProps.parseEpub_chapters completion Hp _ _ _ _ _ _ _ H)
    as [opfPath [opfXml [chapterTitles [_ ->]]]].
  apply (EpubProps.numbered_titled (fun c => 10 <= length c /\ edge_free c)).
  apply Forall_forall. intros [t c] Hin. simpl.
  destruct (collect_In _ _ _ Hin) as [itemId [_ He]].
  destruct (EpubProps.entryOf_content _ _ _ _ _ _ _ He) as [xhtml [-> Hl]].
  split; [exact Hl|apply trim_edge_free].
Qed.

Lemma epub_chapters_are_titled_witness :
  (forall i n, Permutation (lastFirst i n) (seq 0 n)) /\
  fst (parseEpub lastFirst threeFiles (utf16 "three.epub") true never (World 0 []))
  = Ok (utf16 "Three", threeChapters) /\
  Forall (fun ch => title ch <> [] /\
                    (10 <= length (content ch) /\ edge_free (content ch))) threeChapters.
Proof.
  assert (P : forall i n, Permutation (lastFirst i n) (seq 0 n))
    by (intros i n; symmetry; apply Permutation_rev).
  split; [exact P|]. split; [vm_compute; reflexivity|].
  apply (epub_chapters_are_titled lastFirst threeFiles (utf16 "three.epub") true never
           (World 0 []) (utf16 "Three") threeChapters P).
  vm_compute. reflexivity.
Defined.

(** X19.  [parseEpub] returns a book only for a package that opens, holds a
    container with a [full-path] attribute, a package document at that path
    and at least one [itemref] in it; anything less is an error. *)
Theorem epub_book_needs_a_valid_package completion zip name opened sig w title chapters :
  fst (parseEpub completion zip name opened sig w) = Ok (title, chapters) ->
  opened = true /\
  exists containerXml rootfileMatch opfXml,
    zip (utf16 "META-INF/container.xml") = Text containerXml /\ containerXml <> [] /\
    exec rootfilePattern containerXml 0 = Some rootfileMatch /\
    zip (orUndefined (group 1 rootfileMatch)) = Text opfXml /\ opfXml <> [] /\
    spineItemsOf opfXml <> [].
Proof.
  intros H. apply EpubProps.parseEpub_inv in H.
  destruct H as [containerXml [m [opfXml [chapterTitles [i0 [w1 [w2 H]]]]]]].
  split; [tauto|]. exists containerXml, m, opfXml. tauto.
Qed.

Lemma epub_book_needs_a_valid_package_witness :
  fst (parseEpub lastFirst threeFiles (utf16 "three.epub") true never (World 0 []))
  = Ok (utf16 "Three", threeChapters) /\
  exists containerXml rootfileMatch opfXml,
    threeFiles (utf16 "META-INF/container.xml") = Text containerXml /\ containerXml <> [] /\
    exec rootfilePattern containerXml 0 = Some rootfileMatch /\
    threeFiles (orUndefined (group 1 rootfileMatch)) = Text opfXml /\ opfXml <> [] /\
    spineItemsOf opfXml <> [].
Proof.
  split; [vm_compute; reflexivity|].
  apply (epub_book_needs_a_valid_package lastFirst threeFiles (utf16 "three.epub") true never
           (World 0 []) (utf16 "Three") threeChapters).
  vm_compute. reflexivity.
Defined.

(** The class the first character of a match must belong to, for a pattern
    that starts by consuming a character. *)
Fixpoint firstOf (r : regex) : option (char16 -> bool) :=
  match r with
  | Chr c => Some (N.eqb c)
  | ChrI c => Some (ci_eq c)
  | Cls p => Some p
  | Seq r1 _ => firstOf r1
  | Alt r1 r2 =>
      match firstOf r1, firstOf r2 with
      | Some p1, Some p2 => Some (fun c => p1 c || p2 c)
      | _, _ => None
      end
  | Grp _ r => firstOf r
  | Rep _ p (S _) _ => Some p
  | _ => None
  end.

Module MarkupFacts.

(** The state of the matcher is at a character outside the class, or at the
    end. *)
Definition stuck (p : char16 -> bool) (st : mstate) : Prop :=
  match rest st with
  | [] => True
  | c :: _ => p c = false
  end.

Lemma rep_greedy_stuck p min max cs i s k :
  stuck p (MState i s cs) -> rep_greedy p (S min) max cs i s k = None.
Proof.
  unfold stuck. simpl. destruct s as [|c s]; intros H; simpl; [reflexivity|].
  rewrite H. destruct (max_is_zero max); reflexivity.
Qed.

Lemma rep_lazy_stuck p min max cs i s k :
  stuck p (MState i s cs) -> rep_lazy p (S min) max cs i s k = None.
Proof.
  unfold stuck. simpl. destruct s as [|c s]; intros H; simpl; [reflexivity|].
  rewrite H. destruct (max_is_zero max); reflexivity.
Qed.

Lemma firstOf_stuck r : forall p st k,
  firstOf r = Some p -> stuck p st -> rmatch r st k = None.
Proof.
  induction r as [| | |c|c|q|r1 IH1 r2 IH2|r1 IH1 r2 IH2|i r IH|r IH|g q min max];
    intros p st k F S; simpl in F; try discriminate.
  - injection F as <-. unfold stuck in S. simpl. unfold step_if.
    destruct (rest st); [reflexivity|]. rewrite S. reflexivity.
  - injection F as <-. unfold stuck in S. simpl. unfold step_if.
    destruct (rest st); [reflexivity|]. rewrite S. reflexivity.
  - injection F as <-. unfold stuck in S. simpl. unfold step_if.
    destruct (rest st); [reflexivity|]. rewrite S. reflexivity.
  - simpl. apply (IH1 p); assumption.
  - destruct (firstOf r1) as [p1|]; [|discriminate].
    destruct (firstOf r2) as [p2|]; [|discriminate]. injection F as <-.
    assert (S1 : stuck p1 st /\ stuck p2 st).
    { unfold stuck in *. destruct (rest st); [auto|].
      apply orb_false_iff in S. exact S. }
    simpl. rewrite (IH1 p1), (IH2 p2) by tauto. reflexivity.
  - simpl. apply (IH p); assumption.
  - destruct min as [|min]; [discriminate|]. injection F as <-.
    destruct st as [i s cs]. destruct g; simpl;
      [apply rep_greedy_stuck|apply rep_lazy_stuck]; exact S.
Qed.

(** A pattern whose first character occurs nowhere in a text changes
    nothing. *)
Lemma replace_go_absent r f p :
  firstOf r = Some p ->
  forall s i, forallb (fun c => negb (p c)) s = true -> replace_go r f i s 0 = s.
Proof.
  intros F. induction s as [|c s IH]; intros i H; cbn [replace_go].
  - rewrite (firstOf_stuck r p) by (auto; exact I). reflexivity.
  - simpl in H. apply andb_prop in H. destruct H as [Hc Hs].
    rewrite (firstOf_stuck r p) by (auto; unfold stuck; simpl; destruct (p c); auto; discriminate).
    rewrite IH by exact Hs. reflexivity.
Qed.

Lemma replace_absent r f p s :
  firstOf r = Some p -> forallb (fun c => negb (p c)) s = true -> replace r f s = s.
Proof. intros F H. apply (replace_go_absent r f p F s 0 H). Qed.

Lemma ci_eq_lt c : c <> 60%N -> ci_eq 60%N c = false.
Proof.
  intros H. unfold ci_eq, canonicalize. apply N.eqb_neq.
  repeat match goal with
         | |- context [if ?b then _ else _] => destruct b eqn:?
         end;
    repeat match goal with
           | E : (_ && _) = true |- _ => apply andb_prop in E; destruct E
           | E : (_ <=? _)%N = true |- _ => apply N.leb_le in E
           | E : (_ =? _)%N = true |- _ => apply N.eqb_eq in E
           end; try lia; try discriminate.
Qed.

Lemma ci_eq_amp c : c <> 38%N -> ci_eq 38%N c = false.
Proof.
  intros H. unfold ci_eq, canonicalize. apply N.eqb_neq.
  repeat match goal with
         | |- context [if ?b then _ else _] => destruct b eqn:?
         end;
    repeat match goal with
           | E : (_ && _) = true |- _ => apply andb_prop in E; destruct E
           | E : (_ <=? _)%N = true |- _ => apply N.leb_le in E
           | E : (_ =? _)%N = true |- _ => apply N.eqb_eq in E
           end; try lia; try discriminate.
Qed.

End MarkupFacts.

(** X20.  A text without [<] and without [&] holds no markup and no entity:
    [htmlToText] only cleans up its white space. *)
Theorem htmlToText_of_plain_text text :
  forallb (fun c => negb ((c =? 60) || (c =? 38))%N) text = true ->
  htmlToText text = cleanUp text.
Proof.
  intros H.
  assert (Hlt : forallb (fun c => negb (ci_eq 60%N c)) text = true).
  { rewrite forallb_forall in *. intros c Hc. specialize (H c Hc).
    rewrite MarkupFacts.ci_eq_lt; [reflexivity|]. intros ->. discriminate. }
  assert (Hlt' : forallb (fun c => negb (60 =? c)%N) text = true).
  { rewrite forallb_forall in *. intros c Hc. specialize (H c Hc).
    destruct (N.eqb_spec 60 c) as [<-|]; [discriminate|reflexivity]. }
  assert (Hamp : forallb (fun c => negb (ci_eq 38%N c)) text = true).
  { rewrite forallb_forall in *. intros c Hc. specialize (H c Hc).
    rewrite MarkupFacts.ci_eq_amp; [reflexivity|]. intros ->. discriminate. }
  unfold htmlToText. f_equal.
  assert (S : stripMarkup text = text).
  { unfold stripMarkup.
    rewrite (MarkupFacts.replace_absent (region "head") _ (ci_eq 60%N)) by (reflexivity || exact Hlt).
    rewrite (MarkupFacts.replace_absent (region "style") _ (ci_eq 60%N)) by (reflexivity || exact Hlt).
    rewrite (MarkupFacts.replace_absent (region "script") _ (ci_eq 60%N)) by (reflexivity || exact Hlt).
    rewrite (MarkupFacts.replace_absent brTag _ (ci_eq 60%N)) by (reflexivity || exact Hlt).
    rewrite (MarkupFacts.replace_absent closeBlock _ (ci_eq 60%N)) by (reflexivity || exact Hlt).
    rewrite (MarkupFacts.replace_absent openBlock _ (N.eqb 60%N)) by (reflexivity || exact Hlt').
    apply (MarkupFacts.replace_absent anyTag _ (N.eqb 60%N)); [reflexivity|exact Hlt']. }
  rewrite S. unfold decodeEntities.
  repeat (rewrite (MarkupFacts.replace_absent _ _ (ci_eq 38%N) text)
            by (reflexivity || exact Hamp)).
  reflexivity.
Qed.

Lemma htmlToText_of_plain_text_witness :
  forallb (fun c => negb ((c =? 60) || (c =? 38))%N) (utf16 "a  b") = true /\
  htmlToText (utf16 "a  b") = cleanUp (utf16 "a  b").
Proof.
  split; [reflexivity|].
  apply (htmlToText_of_plain_text (utf16 "a  b")). reflexivity.
Defined.

Module LineFacts.
Import HtmlFacts.

Definition nonl (s : jstring) : Prop := forallb (fun c => negb (c =? NL)%N) s = true.

Lemma split_nonl s : Forall nonl (split NL s).
Proof.
  induction s as [|x s IH]; simpl; [repeat constructor|].
  pose proof (split_not_nil NL s) as N.
  destruct (split NL s) as [|l ls]; [congruence|].
  destruct (N.eqb_spec x NL) as [->|Hne].
  - constructor; [reflexivity|exact IH].
  - inversion IH as [|? ? Hl Hls]; subst. constructor; [|exact Hls].
    unfold nonl in *. simpl. rewrite Hl.
    destruct (N.eqb_spec x NL); [congruence|reflexivity].
Qed.

Lemma trim_nonl s : nonl s -> nonl (trim s).
Proof.
  unfold nonl, trim. intros H.
  destruct (trimStart_suffix s) as [a [E1 _]].
  destruct (trimEnd_prefix (trimStart s)) as [b [E2 _]].
  rewrite E1, E2, !forallb_app in H.
  apply andb_prop in H. destruct H as [_ H].
  apply andb_prop in H. destruct H as [H _]. exact H.
Qed.

Lemma split_cons_nonl l ls' :
  nonl l -> split NL (l ++ NL :: join [NL] ls') = l :: split NL (join [NL] ls').
Proof.
  intros H. induction l as [|x l IH]; simpl.
  - pose proof (split_not_nil NL (join [NL] ls')) as N.
    destruct (split NL (join [NL] ls')); [congruence|reflexivity].
  - unfold nonl in H. simpl in H. apply andb_prop in H. destruct H as [Hx Hl].
    rewrite (IH Hl). destruct (x =? NL)%N; [discriminate|reflexivity].
Qed.

Lemma split_one l : nonl l -> split NL l = [l].
Proof.
  intros H. induction l as [|x l IH]; simpl; [reflexivity|].
  unfold nonl in H. simpl in H. apply andb_prop in H. destruct H as [Hx Hl].
  rewrite (IH Hl). destruct (x =? NL)%N; [discriminate|reflexivity].
Qed.

Lemma split_join ls : ls <> [] -> Forall nonl ls -> split NL (join [NL] ls) = ls.
Proof.
  induction ls as [|l ls IH]; intros Hne H; [congruence|].
  inversion H as [|? ? Hl Hls]; subst.
  destruct ls as [|l' ls].
  - simpl. apply split_one. exact Hl.
  - change (join [NL] (l :: l' :: ls)) with (l ++ NL :: join [NL] (l' :: ls)).
    rewrite (split_cons_nonl _ _ Hl). rewrite IH; [reflexivity|discriminate|exact Hls].
Qed.

(** Every line of the string is free of white space at both ends. *)
Definition lineOk (s : jstring) : Prop := Forall edge_free (split NL s).

Lemma edge_free_nil : edge_free [].
Proof. split; intros c; discriminate. Qed.

Lemma edge_free_rev s : edge_free s -> edge_free (rev s).
Proof. intros [H1 H2]. split; [exact H2|rewrite rev_involutive; exact H1]. Qed.

Lemma lineOk_trimStart s : lineOk s -> lineOk (trimStart s).
Proof.
  unfold lineOk. induction s as [|x s IH]; simpl; [auto|].
  pose proof (split_not_nil NL s) as N.
  destruct (is_ws x) eqn:W; [|auto].
  destruct (split NL s) as [|l ls] eqn:E; [congruence|].
  destruct (N.eqb_spec x NL) as [->|Hne]; intros H.
  - apply IH. exact (Forall_inv_tail H).
  - exfalso. pose proof (proj1 (Forall_inv H) x eq_refl). congruence.
Qed.

Lemma split_snoc_sep s : split NL (s ++ [NL]) = split NL s ++ [[]].
Proof.
  induction s as [|x s IH]; simpl; [reflexivity|].
  rewrite IH. pose proof (split_not_nil NL s) as N.
  destruct (split NL s) as [|l ls]; [congruence|]. simpl.
  destruct (x =? NL)%N; reflexivity.
Qed.

Lemma split_snoc_other s x :
  x <> NL ->
  split NL (s ++ [x])
  = removelast (split NL s) ++ [last (split NL s) [] ++ [x]].
Proof.
  intros Hx. induction s as [|y s IH].
  - simpl. destruct (N.eqb_spec x NL); [congruence|reflexivity].
  - cbn [app split]. rewrite IH. pose proof (split_not_nil NL s) as N.
    destruct (split NL s) as [|l ls]; [congruence|].
    destruct ls as [|l' ls].
    + simpl. destruct (y =? NL)%N; reflexivity.
    + cbn [removelast last app].
      destruct (y =? NL)%N; destruct ls; reflexivity.
Qed.

Lemma split_rev s : split NL (rev s) = map (@rev _) (rev (split NL s)).
Proof.
  induction s as [|x s IH]; [reflexivity|].
  cbn [rev split]. pose proof (split_not_nil NL s) as N.
  destruct (N.eqb_spec x NL) as [->|Hne].
  - rewrite split_snoc_sep, IH.
    destruct (split NL s) as [|l ls]; [congruence|].
    cbn [rev]. rewrite !map_app. reflexivity.
  - rewrite (split_snoc_other _ _ Hne), IH.
    destruct (split NL s) as [|l ls]; [congruence|].
    cbn [rev]. rewrite !map_app. cbn [map rev].
    rewrite removelast_last, last_last. reflexivity.
Qed.

Lemma lineOk_rev s : lineOk s -> lineOk (rev s).
Proof.
  unfold lineOk. rewrite split_rev. intros H.
  apply Forall_forall. intros l Hl. apply in_map_iff in Hl.
  destruct Hl as [l0 [<- Hin]]. apply edge_free_rev.
  rewrite Forall_forall in H. apply H. apply in_rev. exact Hin.
Qed.

Lemma lineOk_trim s : lineOk s -> lineOk (trim s).
Proof.
  intros H. unfold trim, trimEnd. apply lineOk_rev, lineOk_trimStart, lineOk_rev,
    lineOk_trimStart. exact H.
Qed.

Lemma lineOk_trimLines s : lineOk (trimLines s).
Proof.
  unfold lineOk, trimLines. rewrite split_join.
  - apply Forall_forall. intros l Hl. apply in_map_iff in Hl.
    destruct Hl as [l0 [<- _]]. apply trim_edge_free.
  - pose proof (split_not_nil NL s). destruct (split NL s); [congruence|discriminate].
  - apply Forall_forall. intros l Hl. apply in_map_iff in Hl.
    destruct Hl as [l0 [<- Hin]]. apply trim_nonl.
    pose proof (split_nonl s) as F. rewrite Forall_forall in F. apply F. exact Hin.
Qed.

End LineFacts.

(** X21.  No line of the text [htmlToText] returns starts or ends with white
    space. *)
Theorem htmlToText_lines_are_trimmed html :
  Forall edge_free (split NL (htmlToText html)).
Proof.
  unfold htmlToText, cleanUp.
  apply LineFacts.lineOk_trim. apply LineFacts.lineOk_trimLines.
Qed.

(** [tidy prev s]: [s] holds no tab and no two spaces in a row, [prev] telling
    whether a space comes just before it. *)
Fixpoint tidy (prev : bool) (s : jstring) : bool :=
  match s with
  | [] => true
  | c :: s' =>
      if sp_tab c then negb prev && (c =? SP)%N && tidy true s'
      else tidy false s'
  end.

Module BlankFacts.
Import HtmlFacts LineFacts.

(** The length of the longest prefix in a class. *)
Fixpoint run (p : char16 -> bool) (s : jstring) : nat :=
  match s with
  | c :: s' => if p c then S (run p s') else 0
  | [] => 0
  end.

Lemma rep_greedy_Some p : forall s min cs i,
  rep_greedy p min None cs i s Some
  = if min <=? run p s then Some (MState (i + run p s) (skipn (run p s) s) cs) else None.
Proof.
  induction s as [|c s IH]; intros min cs i; simpl.
  - rewrite Nat.add_0_r. destruct min; reflexivity.
  - destruct (p c) eqn:Pc.
    + rewrite IH. destruct (Nat.leb_spec (pred min) (run p s)) as [Hle|Hgt].
      * simpl. destruct (Nat.leb_spec min (S (run p s))) as [_|]; [|lia].
        rewrite Nat.add_succ_r. reflexivity.
      * simpl. destruct min as [|min]; [simpl in Hgt; lia|]. simpl.
        destruct (Nat.leb_spec min (run p s)); [simpl in Hgt; lia|reflexivity].
    + rewrite Nat.add_0_r. destruct min; reflexivity.
Qed.

Lemma run_le p s : run p s <= length s.
Proof. induction s as [|c s IH]; simpl; [lia|]. destruct (p c); simpl; lia. Qed.

Lemma run_stop p s : match skipn (run p s) s with [] => True | c :: _ => p c = false end.
Proof.
  induction s as [|c s IH]; simpl; [exact I|].
  destruct (p c) eqn:Pc; simpl; [exact IH|exact Pc].
Qed.

Lemma tidy_weaken s : tidy true s = true -> tidy false s = true.
Proof.
  destruct s as [|c s]; simpl; [auto|]. destruct (sp_tab c); [discriminate|auto].
Qed.

Lemma tidy_tail prev c s : tidy prev (c :: s) = true -> tidy false s = true.
Proof.
  simpl. destruct (sp_tab c); [|auto].
  intros H. apply andb_prop in H. destruct H as [_ H]. apply tidy_weaken. exact H.
Qed.

Lemma replace_go_skip_n r f s m p :
  m <= length s -> replace_go r f p s m = replace_go r f (p + m) (skipn m s) 0.
Proof.
  intros H. rewrite <- (firstn_skipn m s) at 1.
  pose proof (replace_go_skip r f (firstn m s) p (skipn m s)) as E.
  rewrite length_firstn, Nat.min_l in E by exact H. exact E.
Qed.

(** [/[ \t]+/g] replaced by one space. *)
Lemma blanks_tidy : forall n s p, length s <= n ->
  tidy false (replace_go blanks (constant [SP]) p s 0) = true.
Proof.
  induction n as [|n IH]; intros s p Hn.
  - destruct s; [reflexivity|simpl in Hn; lia].
  - destruct s as [|c s]; [reflexivity|].
    cbn [replace_go]. unfold blanks, plus. cbn [rmatch pos rest caps].
    rewrite rep_greedy_Some. cbn [run].
    destruct (sp_tab c) eqn:Pc.
    + cbn [Nat.leb pos caps]. replace (p + S (run sp_tab s) - p) with (S (run sp_tab s)) by lia.
      unfold constant at 1. cbn [app tidy]. change (sp_tab SP) with true. cbn.
      pose proof (run_le sp_tab s) as Hr.
      rewrite (replace_go_skip_n _ _ s (run sp_tab s) (S p) Hr).
      pose proof (run_stop sp_tab s) as Hstop.
      destruct (skipn (run sp_tab s) s) as [|d t] eqn:E; [reflexivity|].
      assert (Ht : length t < length s).
      { assert (L : length (skipn (run sp_tab s) s) = S (length t)) by (rewrite E; reflexivity).
        rewrite length_skipn in L. lia. }
      cbn [replace_go]. unfold blanks, plus. cbn [rmatch pos rest caps].
      rewrite rep_greedy_Some. cbn [run]. rewrite Hstop. cbn [Nat.leb].
      cbn [tidy]. rewrite Hstop. apply IH. simpl in Hn. lia.
    + cbn [Nat.leb]. cbn [tidy]. rewrite Pc. apply IH. simpl in Hn. lia.
Qed.

(** A replacement by a string that holds no blank keeps a text tidy. *)
Lemma replace_go_tidy r t :
  (forall prev s, tidy false s = true -> tidy prev (t ++ s) = true) ->
  tidy false t = true ->
  forall s p skip prev, tidy prev s = true ->
  tidy (match skip with 0 => prev | S _ => false end)
       (replace_go r (constant t) p s skip) = true.
Proof.
  intros Ht Ht0. induction s as [|c s IH]; intros p skip prev H.
  - destruct skip; cbn [replace_go]; [|reflexivity].
    destruct (rmatch r _ _); [|reflexivity].
    unfold constant. rewrite <- (app_nil_r t). apply Ht. reflexivity.
  - destruct skip as [|k]; cbn [replace_go].
    + assert (Hc : tidy prev (c :: replace_go r (constant t) (S p) s 0) = true).
      { revert H. cbn [tidy]. destruct (sp_tab c).
        - intros H. apply andb_prop in H. destruct H as [H1 H2]. rewrite H1. simpl.
          apply (IH (S p) 0 true H2).
        - intros H. apply (IH (S p) 0 false H). }
      destruct (rmatch r _ _) as [st|]; [|exact Hc].
      unfold constant at 1. destruct (pos st - p) as [|m].
      * apply Ht. revert Hc. cbn [tidy]. destruct (sp_tab c); [|auto].
        intros Hc. apply andb_prop in Hc. destruct Hc as [Hc1 Hc2].
        apply andb_prop in Hc1. destruct Hc1 as [_ Hc1]. rewrite Hc1, Hc2. reflexivity.
      * apply Ht. pose proof (IH (S p) m false (tidy_tail _ _ _ H)) as G.
        destruct m; exact G.
    + pose proof (IH (S p) k false (tidy_tail _ _ _ H)) as G. destruct k; exact G.
Qed.

Lemma tidy_app_nl : forall l prev rest,
  tidy prev (l ++ NL :: rest) = tidy prev l && tidy false rest.
Proof.
  induction l as [|c l IH]; intros prev rest; [reflexivity|].
  cbn [app tidy]. destruct (sp_tab c).
  - rewrite IH. rewrite !andb_assoc. reflexivity.
  - apply IH.
Qed.

Lemma tidy_join ls :
  tidy false (join [NL] ls) = forallb (tidy false) ls.
Proof.
  induction ls as [|l ls IH]; [reflexivity|].
  destruct ls as [|l' ls].
  - simpl. rewrite andb_true_r. reflexivity.
  - change (join [NL] (l :: l' :: ls)) with (l ++ NL :: join [NL] (l' :: ls)).
    rewrite tidy_app_nl, IH. reflexivity.
Qed.

Lemma tidy_app_l : forall a b prev, tidy prev (a ++ b) = true -> tidy prev a = true.
Proof.
  induction a as [|c a IH]; intros b prev; [reflexivity|].
  cbn [app tidy]. destruct (sp_tab c).
  - intros H. apply andb_prop in H. destruct H as [H1 H2].
    rewrite H1, (IH _ _ H2). reflexivity.
  - apply IH.
Qed.

Lemma tidy_app_r : forall a b prev, tidy prev (a ++ b) = true -> tidy false b = true.
Proof.
  induction a as [|c a IH]; intros b prev H.
  - simpl in H. destruct prev; [apply tidy_weaken|]; exact H.
  - apply (IH b false). exact (tidy_tail _ _ _ H).
Qed.

Lemma tidy_trim s : tidy false s = true -> tidy false (trim s) = true.
Proof.
  intros H. unfold trim.
  destruct (trimStart_suffix s) as [a [E1 _]].
  destruct (trimEnd_prefix (trimStart s)) as [b [E2 _]].
  rewrite E1 in H. apply tidy_app_r in H. rewrite E2 in H. apply tidy_app_l in H. exact H.
Qed.

Lemma tidy_trimLines s : tidy false s = true -> tidy false (trimLines s) = true.
Proof.
  intros H. unfold trimLines. rewrite tidy_join.
  rewrite <- (join_split s), tidy_join in H.
  rewrite forallb_forall in *. intros l Hl. apply in_map_iff in Hl.
  destruct Hl as [l0 [<- Hin]]. apply tidy_trim. apply H. exact Hin.
Qed.

Lemma tidy_cleanUp text : tidy false (cleanUp text) = true.
Proof.
  unfold cleanUp. apply tidy_trim, tidy_trimLines. unfold collapseBlankLines.
  apply (replace_go_tidy blankLines [NL; NL]
           (fun prev s H => H) eq_refl _ 0 0 false).
  apply (blanks_tidy (length text) text 0). lia.
Qed.

Lemma tidy_no_tab : forall s prev, tidy prev s = true -> ~ In TAB s.
Proof.
  induction s as [|c s IH]; intros prev H; [intros []|].
  intros [E|I].
  - subst c. simpl in H. rewrite andb_false_r in H. discriminate.
  - revert H. cbn [tidy]. destruct (sp_tab c).
    + intros H. apply andb_prop in H. destruct H as [_ H]. exact (IH _ H I).
    + intros H. exact (IH _ H I).
Qed.

Lemma tidy_no_double : forall a b prev, tidy prev (a ++ SP :: SP :: b) = false.
Proof.
  induction a as [|c a IH]; intros b prev.
  - simpl. destruct prev; reflexivity.
  - cbn [app tidy]. rewrite !IH. rewrite andb_false_r. destruct (sp_tab c); reflexivity.
Qed.

End BlankFacts.

(** X22.  The text [htmlToText] returns holds no tab and no two spaces in a
    row: every run of blanks of the document, the ones that entities decode
    to included, is one space. *)
Theorem htmlToText_has_no_blank_runs html :
  ~ In TAB (htmlToText html) /\
  forall a b, htmlToText html <> a ++ SP :: SP :: b.
Proof.
  pose proof (BlankFacts.tidy_cleanUp (decodeEntities (stripMarkup html))) as T.
  fold (htmlToText html) in T. split.
  - exact (BlankFacts.tidy_no_tab _ _ T).
  - intros a b E. rewrite E, BlankFacts.tidy_no_double in T. discriminate.
Qed.

Module HeadingFacts.
Import OptimizedFacts HtmlFacts BlankFacts MarkupFacts.

(** [fullMatch.replace(/^[\n\r]+/, '')] drops the newlines and carriage
    returns the match starts with. *)
Lemma stripLeadingNewlines_run s :
  stripLeadingNewlines s = skipn (run nl_cr s) s.
Proof.
  unfold stripLeadingNewlines, replaceFirst.
  assert (M0 : match_at leadingNewlines s 0
               = if 1 <=? run nl_cr s then Some (RMatch 0 (run nl_cr s) []) else None).
  { unfold match_at, leadingNewlines, plus. cbn [rmatch pos rest caps skipn Nat.eqb].
    rewrite rep_greedy_Some. destruct (1 <=? run nl_cr s); reflexivity. }
  destruct (Nat.leb_spec 1 (run nl_cr s)) as [H|H].
  - rewrite (exec_first leadingNewlines s 0 0 _ ltac:(intros; lia) M0 ltac:(lia)).
    reflexivity.
  - rewrite exec_all_none.
    + replace (run nl_cr s) with 0 by lia. reflexivity.
    + intros q Hq. destruct q as [|q]; [exact M0|]. reflexivity.
Qed.

Lemma leadingNewlineLen_run s : leadingNewlineLen s = run nl_cr s.
Proof.
  unfold leadingNewlineLen. rewrite stripLeadingNewlines_run, length_skipn.
  pose proof (run_le nl_cr s). lia.
Qed.

(** A pattern that consumes a character, starting in a class, starts at a
    character of the class. *)
Lemma firstOf_head r p st k res :
  firstOf r = Some p -> rmatch r st k = Some res ->
  exists c s, rest st = c :: s /\ p c = true.
Proof.
  intros F H. destruct (rest st) as [|c s] eqn:E.
  - rewrite (firstOf_stuck r p st k F) in H; [discriminate|]. unfold stuck. rewrite E. exact I.
  - destruct (p c) eqn:Pc; [eauto|].
    rewrite (firstOf_stuck r p st k F) in H; [discriminate|]. unfold stuck. rewrite E. exact Pc.
Qed.

Lemma firstOf_minlen r : forall p, firstOf r = Some p -> 1 <= minlen r.
Proof.
  induction r as [| | |c|c|q|r1 IH1 r2 IH2|r1 IH1 r2 IH2|i r IH|r IH|g q min max];
    intros p F; simpl in *; try discriminate; try lia.
  - specialize (IH1 _ F). lia.
  - destruct (firstOf r1) as [p1|]; [|discriminate].
    destruct (firstOf r2) as [p2|]; [|discriminate].
    specialize (IH1 _ eq_refl). specialize (IH2 _ eq_refl). lia.
  - exact (IH _ F).
  - destruct min; [discriminate|lia].
Qed.

Section Heading.
Variables (kw : regex) (pk : char16 -> bool).
Hypothesis kw_first : firstOf kw = Some pk.
Hypothesis kw_letter : forall c, pk c = true -> nl_cr c = false.

(** Where a heading matches: at the start of the text or at a newline, and
    what follows is the line of the heading. *)
Lemma heading_shape text p m :
  match_at (heading kw) text p = Some m -> p <= length text ->
  exists pre x s,
    skipn p text = pre ++ x :: s /\ nl_cr x = false /\
    length pre + 1 <= mend m - p /\
    ((p = 0 /\ pre = []) \/ pre = [NL]).
Proof.
  intros H Hp. pose proof H as Hm. unfold match_at in H.
  destruct (rmatch _ _ _) as [st|] eqn:E; [|discriminate]. injection H as <-.
  cbn [mend].
  unfold heading, headingStart in E. cbn [rmatch] in E.
  assert (K : forall st1, 
    rmatch (star sp_tab) st1
      (fun st2 => rmatch kw st2 (fun st3 => rmatch headingRest st3 Some)) = Some st ->
    exists x s, rest st1 = x :: s /\ nl_cr x = false /\ pos st1 + 1 <= pos st).
  { intros st1 R. unfold star in R. cbn [rmatch] in R.
    destruct (rep_greedy_sound _ _ _ _ _ _ _ _ R) as [w [s' [Es [Fw [_ R2]]]]].
    destruct (firstOf_head _ _ _ _ _ kw_first R2) as [c [s'' [Ec Pc]]]. cbn [rest] in Ec.
    destruct (rmatch_sound _ _ _ _ R2) as [st3 [R3 A3]].
    destruct (rmatch_sound _ _ _ _ R3) as [st4 [R4 A4]]. injection R4 as ->.
    destruct A3 as [w3 [E3 [P3 L3]]]. destruct A4 as [w4 [E4 [P4 L4]]].
    cbn [rest pos] in *. subst s'.
    assert (L3' : 1 <= length w3)
      by (pose proof (firstOf_minlen kw pk kw_first); lia).
    destruct w as [|b w].
    - simpl in Es. exists c, s''. rewrite Es. split; [reflexivity|].
      split; [apply kw_letter; exact Pc|]. rewrite P4, P3. lia.
    - simpl in Es. exists b, (w ++ c :: s''). rewrite Es. split; [reflexivity|].
      split.
      + simpl in Fw. apply andb_prop in Fw. destruct Fw as [Fb _].
        unfold sp_tab in Fb. unfold nl_cr.
        apply orb_prop in Fb. destruct Fb as [Fb|Fb]; apply N.eqb_eq in Fb; subst b; reflexivity.
      + rewrite P4, P3. simpl. lia. }
  apply orelse_some in E. destruct E as [E|[_ E]].
  - cbn [pos] in E. destruct (Nat.eqb_spec p 0) as [->|]; [|discriminate].
    destruct (K _ E) as [x [s [R [Hx L]]]]. cbn [rest pos] in *.
    exists [], x, s. simpl. repeat split; auto. lia.
  - destruct (step_if_sound _ _ _ _ E) as [c [s1 [R [C E1]]]]. cbn [rest pos caps] in *.
    apply N.eqb_eq in C. subst c.
    destruct (K _ E1) as [x [s [R1 [Hx L]]]]. cbn [rest pos] in *.
    exists [NL], x, s. rewrite R, R1. simpl. repeat split; auto. lia.
Qed.

(** The candidate for a heading matched at [p] starts at [p], the start of
    the text, or just after the newline at [p]. *)
Lemma matchStart_line text m c :
  raw_ok (heading kw) text m -> Optimized.chapterMatch text m = Some c ->
  (ChapterMatch.matchStart c = 0 \/
   nth_error text (ChapterMatch.matchStart c - 1) = Some NL) /\
  exists x, nth_error text (ChapterMatch.matchStart c) = Some x /\ nl_cr x = false.
Proof.
  intros [Hm [Hlt Hend]] Hc.
  destruct (chapterMatch_inv _ _ _ Hc) as [MS _]. rewrite leadingNewlineLen_run in MS.
  destruct (heading_shape _ _ _ Hm ltac:(lia)) as [pre [x [s [Es [Hx [L Hpre]]]]]].
  assert (Hrun : run nl_cr (matched text m) = length pre).
  { unfold matched. rewrite Es, firstn_app.
    rewrite firstn_all2 by lia.
    destruct (mend m - mindex m - length pre) as [|k] eqn:D; [lia|]. cbn [firstn].
    destruct Hpre as [[_ ->]| ->]; simpl; rewrite Hx; reflexivity. }
  rewrite Hrun in MS.
  assert (Hn : forall j, nth_error text (mindex m + j) = nth_error (pre ++ x :: s) j).
  { intros j. rewrite <- Es. symmetry. apply nth_error_skipn. }
  split.
  - destruct Hpre as [[H0 ->]| ->]; simpl in MS.
    + left. lia.
    + right. rewrite MS. replace (mindex m + 1 - 1) with (mindex m + 0) by lia.
      rewrite Hn. reflexivity.
  - exists x. split; [|exact Hx]. rewrite MS, Hn.
    rewrite nth_error_app2, Nat.sub_diag by lia. reflexivity.
Qed.

End Heading.

Lemma keyword_first kw :
  In kw [alts (keywords1 ++ keywords2); alts keywords1; alts keywords2] ->
  exists pk, firstOf kw = Some pk /\ forall c, pk c = true -> nl_cr c = false.
Proof.
  intros H. simpl in H.
  assert (G : forall pk, pk NL = false -> pk CR = false ->
                forall c, pk c = true -> nl_cr c = false).
  { intros pk H1 H2 c Hc. unfold nl_cr.
    destruct (N.eqb_spec c NL) as [->|]; [congruence|].
    destruct (N.eqb_spec c CR) as [->|]; [congruence|]. reflexivity. }
  destruct H as [<-|[<-|[<-|[]]]]; eexists; (split; [reflexivity|]); apply G; reflexivity.
Qed.

End HeadingFacts.

(* ================================================================== *)
(** * The chapters and the text *)
(* ================================================================== *)

(** The text cut at the candidates: for each candidate its heading, from
    [matchStart] to [index] (what is left of the line on which the heading
    starts, the newline included, or the match itself when no newline
    follows), and its body, from [index] to the [matchStart] of the next
    candidate, the end of the text for the last one. *)
Fixpoint pieces (text : jstring) (cands : list ChapterMatch.t) : list (jstring * jstring) :=
  match cands with
  | [] => []
  | c :: rest =>
      (slice text (ChapterMatch.matchStart c) (ChapterMatch.index c),
       slice text (ChapterMatch.index c)
             (match rest with
              | [] => length text
              | c' :: _ => ChapterMatch.matchStart c'
              end))
      :: pieces text rest
  end.

(** The text before the first candidate. *)
Definition preamble (text : jstring) (cands : list ChapterMatch.t) : jstring :=
  match cands with
  | [] => text
  | c0 :: _ => slice text 0 (ChapterMatch.matchStart c0)
  end.


Module TilingFacts.
Import Optimized OptimizedFacts SortFacts SplitFacts HeadingFacts EpubFacts.









(** *** A candidate of either splitter *)




Section Heading.
Variables (kw : regex) (pk : char16 -> bool).
Hypothesis kw_first : firstOf kw = Some pk.
Hypothesis kw_letter : forall c, pk c = true -> nl_cr c = false.


End Heading.





(** *** The removal of duplicates and the sort, in general *)






(** *** The original splitter, whatever the signal *)





End TilingFacts.


(** The example book, cut at its two candidates. *)
Example book_pieces :
  preamble SplitExamples.book (OptimizedFacts.candidates SplitExamples.book)
  = lines ["intro"; ""] /\
  pieces SplitExamples.book (OptimizedFacts.candidates SplitExamples.book)
  = [(lines ["Chapter 1: The Beginning"; ""], lines [""; "body text."; ""]);
     (lines ["Chapter 2: The Journey"; ""], utf16 "more")].
Proof. vm_compute. split; reflexivity. Qed.

(** A heading that is not followed by a newline ends with its match: what
    follows on the line is the content. *)
Example heading_without_newline :
  fst (run (Optimized.splitIntoChapters (utf16 "Chapter 1x")) never)
  = Ok [mkChapter (utf16 "Chapter 1") (utf16 "x")] /\
  pieces (utf16 "Chapter 1x") (OptimizedFacts.candidates (utf16 "Chapter 1x"))
  = [(utf16 "Chapter 1", utf16 "x")].
Proof. vm_compute. split; reflexivity. Qed.


(** X23.  A chapter heading always starts a line: every candidate of either
    splitter begins at the start of the text or just after a newline, on a
    character that is no line break.  A keyword in the middle of a line never
    starts a chapter. *)
Theorem headings_start_a_line text c :
  In c (OptimizedFacts.candidates text) \/ In c (OriginalFacts.allMatches text) ->
  (ChapterMatch.matchStart c = 0 \/
   nth_error text (ChapterMatch.matchStart c - 1) = Some NL) /\
  exists x, nth_error text (ChapterMatch.matchStart c) = Some x /\ nl_cr x = false.
Proof.
  assert (G : forall kw ms,
            In kw [alts (keywords1 ++ keywords2); alts keywords1; alts keywords2] ->
            scanned (heading kw) text 0 ms ->
            In c (collect (Optimized.chapterMatch text) ms) ->
            (ChapterMatch.matchStart c = 0 \/
             nth_error text (ChapterMatch.matchStart c - 1) = Some NL) /\
            exists x, nth_error text (ChapterMatch.matchStart c) = Some x /\ nl_cr x = false).
  { intros kw ms Hkw Hsc Hin.
    destruct (HeadingFacts.keyword_first kw Hkw) as [pk [F L]].
    destruct (collect_In _ _ _ Hin) as [m [Hm Hc]].
    destruct (OptimizedFacts.scanned_sorted _ _ _ _ Hsc) as [Hok _].
    rewrite Forall_forall in Hok. destruct (Hok m Hm) as [_ Hraw].
    exact (HeadingFacts.matchStart_line kw pk F L text m c Hraw Hc). }
  intros [H|H].
  - apply (G (alts (keywords1 ++ keywords2)) (OptimizedFacts.rawMatches text));
      [simpl; auto|exact (proj2 (OptimizedFacts.execAll_chapterRegex text))|exact H].
  - unfold OriginalFacts.allMatches in H. apply in_app_or in H.
    rewrite !(RefinementFacts.collect_ext _ _ _ (OriginalFacts.chapterMatch_same text)) in H.
    destruct H as [H|H].
    + apply (G (alts keywords1) (OriginalFacts.rawMatches1 text));
        [simpl; auto|exact (proj2 (OriginalFacts.execAll_heading1 text))|exact H].
    + apply (G (alts keywords2) (OriginalFacts.rawMatches2 text));
        [simpl; auto|exact (proj2 (OriginalFacts.execAll_heading2 text))|exact H].
Qed.

Lemma headings_start_a_line_witness :
  In (ChapterMatch.mk 31 6 (utf16 "Chapter 1: The Beginning"))
     (OptimizedFacts.candidates SplitExamples.book) /\
  ((6 = 0 \/ nth_error SplitExamples.book (6 - 1) = Some NL) /\
   exists x, nth_error SplitExamples.book 6 = Some x /\ nl_cr x = false).
Proof.
  assert (H : In (ChapterMatch.mk 31 6 (utf16 "Chapter 1: The Beginning"))
                 (OptimizedFacts.candidates SplitExamples.book))
    by (vm_compute; auto).
  split; [exact H|].
  exact (headings_start_a_line SplitExamples.book
           (ChapterMatch.mk 31 6 (utf16 "Chapter 1: The Beginning")) (or_introl H)).
Defined.

(** The characters that are no white space. *)
Definition inked (s : jstring) : jstring := filter (fun c => negb (is_ws c)) s.

Module ReaderFacts.
Import Reader HtmlFacts LineFacts ReplaceFacts.

(** A paragraph: not empty, no white space at either end, on one line. *)
Definition paragraph (p : jstring) : Prop := p <> [] /\ edge_free p /\ nonl p.

Lemma nonl_app a b : nonl a -> nonl b -> nonl (a ++ b).
Proof.
  unfold nonl. intros Ha Hb. rewrite forallb_app.
  apply andb_true_intro. split; assumption.
Qed.

Lemma paragraph_trim l : nonl l -> trim l <> [] -> paragraph (trim l).
Proof. intros H N. split; [exact N|]. split; [apply trim_edge_free|apply trim_nonl; exact H]. Qed.

Lemma paragraph_extend cur line :
  paragraph cur -> paragraph line -> paragraph (cur ++ [SP] ++ line).
Proof.
  intros [N1 [[H1 _] L1]] [N2 [[_ T2] L2]]. split; [|split; [split|]].
  - destruct cur; [congruence|discriminate].
  - destruct cur as [|x cur]; [congruence|]. exact H1.
  - intros c. rewrite !rev_app_distr.
    destruct (rev line) as [|y l] eqn:E.
    + apply (f_equal (@rev _)) in E. rewrite rev_involutive in E. simpl in E. congruence.
    + simpl. intros [= <-]. apply T2. reflexivity.
  - apply nonl_app; [exact L1|]. apply nonl_app; [reflexivity|exact L2].
Qed.

Lemma joinLines_paragraphs : forall ls paragraphs cur,
  Forall nonl ls -> Forall paragraph paragraphs -> (cur = [] \/ paragraph cur) ->
  Forall paragraph (fst (joinLines ls paragraphs cur)) /\
  (snd (joinLines ls paragraphs cur) = [] \/ paragraph (snd (joinLines ls paragraphs cur))).
Proof.
  induction ls as [|l ls IH]; intros paragraphs cur Hl Hp Hc; cbn [joinLines].
  - auto.
  - inversion Hl as [|? ? Hl1 Hl2]; subst.
    destruct (trim l) as [|x t] eqn:E; cbn [truthy negb].
    + apply IH; auto.
    + assert (Pl : paragraph (x :: t)).
      { rewrite <- E. apply paragraph_trim; [exact Hl1|]. rewrite E. discriminate. }
      destruct cur as [|y cur]; cbn [truthy negb].
      * apply IH; auto.
      * destruct Hc as [Hc|Hc]; [discriminate|].
        destruct (_ || _).
        -- apply IH; auto. right. apply (paragraph_extend _ _ Hc Pl).
        -- apply IH; auto. apply Forall_app. split; [exact Hp|]. constructor; auto.
Qed.

Lemma replaced_nonl p : nonl (replace (Chr NL) (constant [SP]) p).
Proof.
  unfold constant. rewrite replace_chr. unfold nonl. apply forallb_forall.
  intros c Hc. apply in_flat_map in Hc. destruct Hc as [x [_ Hx]].
  destruct (N.eqb_spec NL x) as [E|Hne]; simpl in Hx; destruct Hx as [<-|[]].
  - reflexivity.
  - destruct (N.eqb_spec x NL); [congruence|reflexivity].
Qed.

(** ** What the cutting keeps *)

Lemma inked_app a b : inked (a ++ b) = inked a ++ inked b.
Proof. apply filter_app. Qed.

Lemma inked_ws a : forallb is_ws a = true -> inked a = [].
Proof.
  unfold inked. induction a as [|c a IH]; simpl; [reflexivity|].
  destruct (is_ws c); simpl; [exact IH|discriminate].
Qed.

Lemma inked_skip k s : forallb is_ws (firstn k s) = true -> inked (skipn k s) = inked s.
Proof.
  intros H. rewrite <- (firstn_skipn k s) at 2. rewrite inked_app, (inked_ws _ H). reflexivity.
Qed.

Lemma inked_trim s : inked (trim s) = inked s.
Proof.
  unfold trim.
  destruct (trimStart_suffix s) as [a [E1 F1]].
  destruct (trimEnd_prefix (trimStart s)) as [b [E2 F2]].
  rewrite E1 at 2. rewrite E2 at 2.
  rewrite !inked_app, (inked_ws _ F1), (inked_ws _ F2), app_nil_r. reflexivity.
Qed.

Lemma inked_join ls : inked (join [NL] ls) = inked (concat ls).
Proof.
  induction ls as [|l ls IH]; [reflexivity|].
  destruct ls as [|l' ls].
  - simpl. rewrite app_nil_r. reflexivity.
  - change (join [NL] (l :: l' :: ls)) with (l ++ [NL] ++ join [NL] (l' :: ls)).
    rewrite !inked_app, IH. cbn [concat]. rewrite !inked_app. reflexivity.
Qed.

(** The matches of a pattern are white space. *)
Definition blankMatches (r : regex) : Prop :=
  forall q s st, rmatch r (MState q s []) Some = Some st ->
                 forallb is_ws (firstn (pos st - q) s) = true.

Lemma firstn_ws_tail k c s :
  forallb is_ws (firstn (S k) (c :: s)) = true -> forallb is_ws (firstn k s) = true.
Proof. simpl. intros H. apply andb_prop in H. tauto. Qed.

Lemma replace_go_inked r f :
  blankMatches r -> (forall s m, forallb is_ws (f s m) = true) ->
  forall s p skip, forallb is_ws (firstn skip s) = true ->
  inked (replace_go r f p s skip) = inked s.
Proof.
  intros Hm Hf. induction s as [|c s IH]; intros p skip Hs.
  - destruct skip; cbn [replace_go]; [|reflexivity].
    destruct (rmatch r _ _); [|reflexivity]. apply inked_ws, Hf.
  - destruct skip as [|k]; cbn [replace_go].
    + destruct (rmatch r (MState p (c :: s) []) Some) as [st|] eqn:E.
      * specialize (Hm _ _ _ E).
        destruct (pos st - p) as [|n]; rewrite inked_app, (inked_ws _ (Hf _ _)); cbn [app].
        -- change (c :: replace_go r f (S p) s 0) with ([c] ++ replace_go r f (S p) s 0).
           change (c :: s) with ([c] ++ s). rewrite !inked_app, IH; reflexivity.
        -- rewrite (IH _ _ (firstn_ws_tail _ _ _ Hm)).
           simpl in Hm. apply andb_prop in Hm. destruct Hm as [Hc _].
           unfold inked. simpl. rewrite Hc. reflexivity.
      * change (c :: replace_go r f (S p) s 0) with ([c] ++ replace_go r f (S p) s 0).
        change (c :: s) with ([c] ++ s). rewrite !inked_app, IH; reflexivity.
    + rewrite (IH _ _ (firstn_ws_tail _ _ _ Hs)).
      simpl in Hs. apply andb_prop in Hs. destruct Hs as [Hc _].
      unfold inked. simpl. rewrite Hc. reflexivity.
Qed.

Lemma inked_cons c s : inked (c :: s) = inked [c] ++ inked s.
Proof. apply (inked_app [c] s). Qed.

Lemma inked_blank c : is_ws c = true -> inked [c] = [].
Proof. intros H. unfold inked. simpl. rewrite H. reflexivity. Qed.

Lemma splitRe_go_inked r :
  blankMatches r ->
  forall s q cur skip, forallb is_ws (firstn skip s) = true ->
  inked (concat (splitRe_go r q s cur skip)) = inked (rev cur) ++ inked s.
Proof.
  intros Hm. induction s as [|c s IH]; intros q cur skip Hs.
  - destruct skip; simpl; rewrite !app_nil_r; reflexivity.
  - rewrite (inked_cons c s). destruct skip as [|k]; cbn [splitRe_go].
    + destruct (rmatch r (MState q (c :: s) []) Some) as [st|] eqn:E.
      * specialize (Hm _ _ _ E).
        destruct (pos st - q) as [|n].
        -- destruct cur as [|y cur].
           ++ rewrite IH by reflexivity. reflexivity.
           ++ cbn [concat]. rewrite inked_app, IH by reflexivity. reflexivity.
        -- cbn [concat]. rewrite inked_app, (IH _ _ _ (firstn_ws_tail _ _ _ Hm)).
           simpl in Hm. apply andb_prop in Hm. destruct Hm as [Hc _].
           rewrite (inked_blank _ Hc). reflexivity.
      * rewrite IH by reflexivity. cbn [rev]. rewrite inked_app, <- app_assoc. reflexivity.
    + rewrite (IH _ _ _ (firstn_ws_tail _ _ _ Hs)).
      simpl in Hs. apply andb_prop in Hs. destruct Hs as [Hc _].
      rewrite (inked_blank _ Hc). reflexivity.
Qed.

Lemma blank_crlf : blankMatches crlf.
Proof.
  intros q s st H. unfold crlf, lit in H. cbn [fold_right rmatch] in H.
  destruct (step_if_sound _ _ _ _ H) as [c1 [s1 [R1 [C1 H1]]]].
  destruct (step_if_sound _ _ _ _ H1) as [c2 [s2 [R2 [C2 H2]]]].
  cbn [rest pos caps] in *. injection H2 as <-. cbn [pos]. subst s s1.
  apply N.eqb_eq in C1, C2. subst c1 c2.
  replace (S (S q) - q) with 2 by lia. reflexivity.
Qed.

Lemma blank_nl : blankMatches (Chr NL).
Proof.
  intros q s st H. cbn [rmatch] in H.
  destruct (step_if_sound _ _ _ _ H) as [c1 [s1 [R1 [C1 H1]]]].
  cbn [rest pos caps] in *. injection H1 as <-. cbn [pos]. subst s.
  apply N.eqb_eq in C1. subst c1. replace (S q - q) with 1 by lia. reflexivity.
Qed.

Lemma blank_paragraphBreak : blankMatches paragraphBreak.
Proof.
  intros q s st H. unfold paragraphBreak, seqs, star in H. cbn [rmatch] in H.
  destruct (step_if_sound _ _ _ _ H) as [c1 [s1 [R1 [C1 H1]]]].
  cbn [rest pos caps] in *.
  destruct (rep_greedy_sound _ _ _ _ _ _ _ _ H1) as [w [s2 [E2 [Fw [_ H2]]]]].
  destruct (step_if_sound _ _ _ _ H2) as [c3 [s3 [R3 [C3 H3]]]].
  cbn [rest pos caps] in *. injection H3 as <-. cbn [pos]. subst s s1 s2.
  apply N.eqb_eq in C1, C3. subst c1 c3.
  assert (E : NL :: w ++ NL :: s3 = (NL :: w ++ [NL]) ++ s3)
    by (simpl; rewrite <- app_assoc; reflexivity).
  rewrite E.
  rewrite (firstn_exact (NL :: w ++ [NL]) s3)
    by (cbn [length]; rewrite length_app; cbn [length]; lia).
  simpl. rewrite forallb_app, Fw. reflexivity.
Qed.

Lemma joinLines_inked : forall ls paragraphs cur,
  inked (concat (fst (joinLines ls paragraphs cur)) ++ snd (joinLines ls paragraphs cur))
  = inked (concat paragraphs) ++ inked cur ++ inked (concat ls).
Proof.
  induction ls as [|l ls IH]; intros paragraphs cur; cbn [joinLines].
  - simpl. rewrite inked_app, app_nil_r. reflexivity.
  - cbn [concat]. rewrite (inked_app l), <- (inked_trim l).
    destruct (trim l) as [|x t] eqn:E; cbn [truthy negb].
    + rewrite IH. reflexivity.
    + destruct cur as [|y cur]; cbn [truthy negb].
      * rewrite IH. reflexivity.
      * destruct (_ || _); rewrite IH.
        -- rewrite !inked_app. rewrite <- !app_assoc. reflexivity.
        -- rewrite concat_app, !inked_app. cbn [concat]. rewrite app_nil_r, <- !app_assoc.
           reflexivity.
Qed.

End ReaderFacts.

Module ReaderProps.
Import Reader HtmlFacts LineFacts ReplaceFacts ReaderFacts.

Lemma processContent_paragraph text : Forall paragraph (processContent text).
Proof.
  unfold processContent. destruct (negb (truthy text)); [constructor|].
  cbv zeta. destruct (3 <? _).
  - apply Forall_forall. intros p Hp. apply filter_In in Hp. destruct Hp as [Hin Ht].
    apply in_map_iff in Hin. destruct Hin as [p0 [<- _]].
    apply paragraph_trim; [apply replaced_nonl|].
    intros E. rewrite E in Ht. discriminate.
  - pose proof (joinLines_paragraphs (split NL (replace crlf (constant [NL]) text)) [] []
                  (split_nonl _) (Forall_nil _) (or_introl eq_refl)) as [H1 H2].
    destruct (joinLines _ _ _) as [ps cur]. cbn [fst snd] in *.
    destruct cur as [|c cur]; cbn [truthy]; [exact H1|].
    apply Forall_app. split; [exact H1|]. constructor; [|constructor].
    destruct H2 as [H2|H2]; [discriminate|exact H2].
Qed.

Lemma inked_filter_truthy ps : inked (concat (filter truthy ps)) = inked (concat ps).
Proof.
  induction ps as [|p ps IH]; [reflexivity|].
  cbn [filter concat]. destruct p as [|c p]; cbn [truthy]; [exact IH|].
  cbn [concat]. rewrite !inked_app, IH. reflexivity.
Qed.

Lemma inked_map (f : jstring -> jstring) ps :
  (forall p, inked (f p) = inked p) -> inked (concat (map f ps)) = inked (concat ps).
Proof.
  intros H. induction ps as [|p ps IH]; [reflexivity|].
  cbn [map concat]. rewrite !inked_app, H, IH. reflexivity.
Qed.

Lemma inked_splitRe r s : blankMatches r -> inked (concat (splitRe r s)) = inked s.
Proof.
  intros H. destruct s as [|c s].
  - simpl. destruct (rmatch r _ _); reflexivity.
  - unfold splitRe. rewrite (splitRe_go_inked r H) by reflexivity. reflexivity.
Qed.

Lemma processContent_inked text : inked (concat (processContent text)) = inked text.
Proof.
  unfold processContent. destruct text as [|c0 text0] eqn:Et; [reflexivity|]. rewrite <- Et.
  assert (N : inked (replace crlf (constant [NL]) text) = inked text).
  { apply (replace_go_inked crlf (constant [NL]) blank_crlf); reflexivity. }
  replace (negb (truthy text)) with false by (rewrite Et; reflexivity).
  cbv zeta. destruct (3 <? _).
  - rewrite inked_filter_truthy, inked_map.
    + rewrite (inked_splitRe _ _ blank_paragraphBreak). exact N.
    + intros p. rewrite inked_trim.
      apply (replace_go_inked (Chr NL) (constant [SP]) blank_nl); reflexivity.
  - pose proof (joinLines_inked (split NL (replace crlf (constant [NL]) text)) [] []) as J.
    destruct (joinLines _ _ _) as [ps cur]. cbn [fst snd concat] in J.
    rewrite <- inked_join, join_split, N in J. cbn [inked filter app] in J.
    rewrite <- J. destruct cur; cbn [truthy].
    + rewrite app_nil_r. reflexivity.
    + rewrite concat_app. cbn [concat]. rewrite app_nil_r. reflexivity.
Qed.

End ReaderProps.

(** X24.  Every paragraph [processContent] cuts from the content of a chapter
    is fit to be shown and spoken: it is not empty, it has no white space at
    either end, and it holds no newline. *)
Theorem paragraphs_are_clean text :
  Forall (fun p => p <> [] /\ edge_free p /\ ~ In NL p) (Reader.processContent text).
Proof.
  pose proof (ReaderProps.processContent_paragraph text) as H.
  eapply Forall_impl; [|exact H]. intros p [H1 [H2 H3]].
  split; [exact H1|]. split; [exact H2|]. intros I.
  unfold LineFacts.nonl in H3. rewrite forallb_forall in H3.
  specialize (H3 _ I). rewrite N.eqb_refl in H3. discriminate.
Qed.

(** X25.  Cutting a chapter into paragraphs loses nothing but white space:
    the characters of the paragraphs that are no white space are those of the
    content, in the same order. *)
Theorem paragraphs_keep_the_text text :
  inked (concat (Reader.processContent text)) = inked text.
Proof. apply ReaderProps.processContent_inked. Qed.

(** X26.  A chapter has no paragraph exactly when its content is white space
    only: the speech service is then given nothing to read. *)
Theorem no_paragraph_iff_blank text :
  Reader.processContent text = [] <-> forallb is_ws text = true.
Proof.
  pose proof (ReaderProps.processContent_inked text) as K.
  pose proof (ReaderProps.processContent_paragraph text) as P. split.
  - intros E. rewrite E in K. simpl in K. unfold inked in K.
    apply forallb_forall. intros c Hc. destruct (is_ws c) eqn:W; [reflexivity|].
    assert (I : In c (filter (fun c => negb (is_ws c)) text))
      by (apply filter_In; rewrite W; auto).
    rewrite <- K in I. destruct I.
  - intros W. rewrite (ReaderFacts.inked_ws _ W) in K.
    destruct (Reader.processContent text) as [|p ps]; [reflexivity|]. exfalso.
    inversion P as [|? ? [Hne [[Hh _] _]] _]; subst.
    destruct p as [|c p]; [congruence|].
    cbn [concat app] in K. rewrite ReaderFacts.inked_cons in K.
    unfold inked at 1 in K. simpl in K. rewrite (Hh c eq_refl) in K. discriminate.
Qed.

(** The text a text or PDF file gives to the splitter, in a run that is never
    cancelled. *)
Definition flatText (sortItems : list TextItem -> list TextItem) (file : File)
  : result jstring :=
  if isPdf file then OriginalPdfFacts.extraction sortItems (pdf file) else Ok (text file).

Module PipelineRefinement.
Import OriginalPdfFacts.

Lemma fst_bind {A B} (m : M A) (f : A -> M B) sig w :
  fst (bind m f sig w)
  = match fst (m sig w) with
    | Ok a => fst (f a sig (snd (m sig w)))
    | Throw e => Throw e
    | Hang => Hang
    end.
Proof. unfold bind. destruct (m sig w) as [[a|e|] w']; reflexivity. Qed.

Section Never.
Variable sig : nat -> bool.
Hypothesis never_raised : forall t, sig t = false.

Lemma reading_never sortItems (file : File) w :
  fst ((if isPdf file
        then onProgress PdfOpening ;;; Pdf.parsePdf sortItems (pdf file)
        else onProgress TextReading ;;; await ;;; ret (text file)) sig w)
  = flatText sortItems file.
Proof.
  unfold flatText. destruct (isPdf file).
  - rewrite fst_bind. cbn [fst snd onProgress]. apply parsePdf_never. exact never_raised.
  - reflexivity.
Qed.

Lemma original_reading_never sortItems report (file : File) w :
  fst ((if isPdf file
        then onProgress PdfOpening ;;; OriginalPdf.parsePdf sortItems report (pdf file)
        else onProgress TextReading ;;; await ;;; ret (text file)) sig w)
  = flatText sortItems file.
Proof.
  unfold flatText. destruct (isPdf file).
  - rewrite fst_bind. cbn [fst snd onProgress]. apply original_parsePdf_never.
    exact never_raised.
  - reflexivity.
Qed.

Lemma parseFile_never sortItems completion file w :
  isEpub file = false ->
  fst (parseFile sortItems completion file sig w)
  = match flatText sortItems file with
    | Ok text => Ok (baseName (name file), OptimizedFacts.chapters text)
    | Throw e => Throw e
    | Hang => Hang
    end.
Proof.
  intros He. unfold parseFile. rewrite He. rewrite fst_bind, reading_never.
  destruct (flatText sortItems file) as [text|e|]; try reflexivity.
  rewrite fst_bind. unfold checkAborted at 1. rewrite never_raised. cbn [fst snd].
  rewrite fst_bind. cbn [fst snd onProgress]. rewrite fst_bind.
  match goal with
  | |- context [Optimized.splitIntoChapters ?t sig ?w1] =>
      destruct (OptimizedFacts.splitIntoChapters_ok t sig w1 (never_raised _)) as [tr ->]
  end.
  reflexivity.
Qed.

Lemma original_parseFile_never sortItems report file w :
  fst (OriginalPipeline.parseFile sortItems report file sig w)
  = match flatText sortItems file with
    | Ok text => Ok (baseName (name file), OriginalFacts.chapters text)
    | Throw e => Throw e
    | Hang => Hang
    end.
Proof.
  unfold OriginalPipeline.parseFile. rewrite fst_bind, original_reading_never.
  destruct (flatText sortItems file) as [text|e|]; try reflexivity.
  rewrite fst_bind. unfold checkAborted at 1. rewrite never_raised. cbn [fst snd].
  rewrite fst_bind. cbn [fst snd onProgress]. rewrite fst_bind.
  match goal with
  | |- context [Original.splitIntoChapters ?t sig ?w1] =>
      destruct (OriginalFacts.original_splitIntoChapters_ok t sig w1 never_raised) as [w' ->]
  end.
  reflexivity.
Qed.

End Never.
End PipelineRefinement.

(** X27.  The current [parseFile] refines the original one on the files the
    original was written for.  For a file that is no EPUB and a run that is
    never cancelled, both return the same book or both reject (the extraction
    of a PDF fails in both; which page's error each one carries is not
    compared), provided that in the text of the file no heading of the first
    family of keywords overlaps one of the second. *)
Theorem parseFile_versions_agree sortItems completion report file sig w w' :
  isEpub file = false ->
  (forall t, sig t = false) ->
  (forall text, flatText sortItems file = Ok text ->
     disjointb (OriginalFacts.rawMatches1 text) (OriginalFacts.rawMatches2 text) = true) ->
  (exists book,
     fst (OriginalPipeline.parseFile sortItems report file sig w) = Ok book /\
     fst (parseFile sortItems completion file sig w') = Ok book) \/
  (fst (OriginalPipeline.parseFile sortItems report file sig w) = Throw Rejected /\
   fst (parseFile sortItems completion file sig w') = Throw Rejected).
Proof.
  intros He Hs Hd.
  rewrite (PipelineRefinement.original_parseFile_never sig Hs),
          (PipelineRefinement.parseFile_never sig Hs _ _ _ _ He).
  unfold flatText in *. destruct (isPdf file).
  - unfold OriginalPdfFacts.extraction in *. destruct (pdf file) as [pages|]; [|auto].
    destruct (promiseAll _) as [texts|]; [|auto].
    left. rewrite (RefinementFacts.chapters_same _ (Hd _ eq_refl)). eauto.
  - left. rewrite (RefinementFacts.chapters_same _ (Hd _ eq_refl)). eauto.
Qed.

Lemma parseFile_versions_agree_witness :
  isEpub notes = false /\
  (forall t, never t = false) /\
  (forall text, flatText insertionSort notes = Ok text ->
     disjointb (OriginalFacts.rawMatches1 text) (OriginalFacts.rawMatches2 text) = true) /\
  ((exists book,
      fst (OriginalPipeline.parseFile insertionSort PdfBatch notes never (World 0 []))
      = Ok book /\
      fst (parseFile insertionSort inOrder notes never (World 0 [])) = Ok book) \/
   (fst (OriginalPipeline.parseFile insertionSort PdfBatch notes never (World 0 []))
    = Throw Rejected /\
    fst (parseFile insertionSort inOrder notes never (World 0 [])) = Throw Rejected)).
Proof.
  assert (D : forall text, flatText insertionSort notes = Ok text ->
     disjointb (OriginalFacts.rawMatches1 text) (OriginalFacts.rawMatches2 text) = true).
  { intros text E. injection E as <-. vm_compute. reflexivity. }
  split; [reflexivity|]. split; [reflexivity|]. split; [exact D|].
  exact (parseFile_versions_agree insertionSort inOrder PdfBatch notes never
           (World 0 []) (World 0 []) eq_refl (fun _ => eq_refl) D).
Defined.

(** [ciStrip word s]: what is left of [s] after a prefix that is [word] up to
    the case of its letters. *)
Fixpoint ciStrip (word s : jstring) : option jstring :=
  match word with
  | [] => Some s
  | k :: word' =>
      match s with
      | c :: s' => if ci_eq k c then ciStrip word' s' else None
      | [] => None
      end
  end.

(** The nine keywords, in the order of the pattern that reads the keyword
    back from the heading. *)
Definition keywordWords : list jstring :=
  [utf16 "Chương"; utf16 "Chapter"; utf16 "Hồi"; utf16 "Phần"; utf16 "Quyển";
   utf16 "Tiết"; utf16 "Mục"; utf16 "Book"; utf16 "Part"].

(** [kw] is one of the keywords, in any letter case. *)
Definition isKeyword (kw : jstring) : Prop :=
  exists word, In word keywordWords /\ ciStrip word kw = Some [].

Module TitleFacts.
Import OptimizedFacts HtmlFacts BlankFacts MarkupFacts HeadingFacts.

(** *** White space *)

Definition wsList : list char16 :=
  [9; 10; 11; 12; 13; 32; 160; 5760; 8192; 8193; 8194; 8195; 8196; 8197; 8198; 8199;
   8200; 8201; 8202; 8232; 8233; 8239; 8287; 12288; 65279]%N.

Lemma ws_cases x : is_ws x = true -> In x wsList.
Proof.
  unfold is_ws. rewrite !orb_true_iff, !andb_true_iff, !N.leb_le, !N.eqb_eq.
  unfold wsList. simpl. lia.
Qed.

Lemma ws_check (P : char16 -> bool) :
  forallb P wsList = true -> forall x, P x = false -> is_ws x = false.
Proof.
  intros H x Hx. destruct (is_ws x) eqn:W; [|reflexivity].
  apply ws_cases in W. rewrite forallb_forall in H. rewrite (H x W) in Hx. discriminate.
Qed.

(** A letter no white space is equal to, whatever the case. *)
Definition inkLetter (k : char16) : bool := forallb (fun x => negb (ci_eq k x)) wsList.

Lemma inkLetter_ws k c : inkLetter k = true -> ci_eq k c = true -> is_ws c = false.
Proof.
  intros H E. apply (ws_check (fun x => negb (ci_eq k x)) H). rewrite E. reflexivity.
Qed.

(** *** Literal words *)

Lemma rmatch_litI word : forall st k,
  rmatch (litI word) st k
  = match ciStrip word (rest st) with
    | Some s' => k (MState (pos st + length word) s' (caps st))
    | None => None
    end.
Proof.
  induction word as [|c word IH]; intros st k.
  - destruct st as [p s cs]. simpl. rewrite Nat.add_0_r. reflexivity.
  - change (litI (c :: word)) with (Seq (ChrI c) (litI word)). cbn [rmatch ciStrip].
    unfold step_if. destruct (rest st) as [|x s']; [reflexivity|].
    destruct (ci_eq c x); [|reflexivity].
    rewrite IH. cbn [rest pos caps length].
    replace (S (pos st) + length word) with (pos st + S (length word)) by lia. reflexivity.
Qed.

Lemma ciStrip_split word : forall s s',
  ciStrip word s = Some s' ->
  exists K, s = K ++ s' /\ length K = length word /\ ciStrip word K = Some [].
Proof.
  induction word as [|k word IH]; intros s s' H; simpl in H.
  - injection H as <-. exists []. auto.
  - destruct s as [|c s]; [discriminate|]. destruct (ci_eq k c) eqn:E; [|discriminate].
    destruct (IH _ _ H) as [K [E1 [E2 E3]]]. exists (c :: K). simpl.
    rewrite E, E1 at 1. rewrite E2, E3. auto.
Qed.

Lemma ciStrip_app word : forall K X, ciStrip word K = Some [] -> ciStrip word (K ++ X) = Some X.
Proof.
  induction word as [|k word IH]; intros K X H; simpl in *.
  - injection H as ->. reflexivity.
  - destruct K as [|c K]; [discriminate|]. simpl.
    destruct (ci_eq k c); [apply IH; exact H|discriminate].
Qed.

Lemma ciStrip_ink word : forall K,
  forallb inkLetter word = true -> ciStrip word K = Some [] ->
  forallb (fun c => negb (is_ws c)) K = true.
Proof.
  induction word as [|k word IH]; intros K Hw H; simpl in *.
  - injection H as ->. reflexivity.
  - destruct K as [|c K]; [discriminate|]. apply andb_prop in Hw. destruct Hw as [Hk Hw].
    destruct (ci_eq k c) eqn:E; [|discriminate].
    simpl. rewrite (inkLetter_ws k c Hk E). simpl. apply IH; assumption.
Qed.

Lemma ciStrip_nonempty word K :
  word <> [] -> ciStrip word K = Some [] -> K <> [].
Proof. destruct word; [congruence|]. destruct K; simpl; [discriminate|discriminate]. Qed.

(** *** Alternations of literal words *)

Lemma never_matches st k : rmatch (alts []) st k = None.
Proof.
  cbn [alts rmatch]. destruct (rest st) as [|c s]; reflexivity.
Qed.

Lemma alts_litI_sound : forall words st k res,
  rmatch (alts (map litI words)) st k = Some res ->
  exists word s', In word words /\ ciStrip word (rest st) = Some s' /\
                  k (MState (pos st + length word) s' (caps st)) = Some res.
Proof.
  induction words as [|w words IH]; intros st k res H.
  - cbn [map] in H. rewrite never_matches in H. discriminate.
  - destruct words as [|w' words].
    + cbn [map alts] in H. rewrite rmatch_litI in H.
      destruct (ciStrip w (rest st)) as [s'|] eqn:E; [|discriminate].
      exists w, s'. simpl. auto.
    + change (alts (map litI (w :: w' :: words)))
        with (Alt (litI w) (alts (map litI (w' :: words)))) in H.
      cbn [rmatch] in H. apply orelse_some in H. destruct H as [H|[_ H]].
      * rewrite rmatch_litI in H.
        destruct (ciStrip w (rest st)) as [s'|] eqn:E; [|discriminate].
        exists w, s'. simpl. auto.
      * destruct (IH _ _ _ H) as [word [s' [I [E K]]]].
        exists word, s'. split; [right; exact I|auto].
Qed.

Lemma alts_litI_total : forall words st (k : cont),
  (forall st', k st' <> None) ->
  (exists word s', In word words /\ ciStrip word (rest st) = Some s') ->
  rmatch (alts (map litI words)) st k <> None.
Proof.
  induction words as [|w words IH]; intros st k Hk [word [s' [I E]]]; [destruct I|].
  destruct words as [|w' words].
  - destruct I as [<-|[]]. cbn [map alts]. rewrite rmatch_litI, E. apply Hk.
  - change (alts (map litI (w :: w' :: words)))
      with (Alt (litI w) (alts (map litI (w' :: words)))).
    cbn [rmatch]. rewrite rmatch_litI.
    destruct (ciStrip w (rest st)) as [s1|] eqn:E1.
    + destruct (k _) eqn:K1; [discriminate|]. exfalso. exact (Hk _ K1).
    + simpl. apply IH; [exact Hk|]. destruct I as [<-|I]; [congruence|].
      exists word, s'. auto.
Qed.

(** *** Trimming around a word *)

Lemma trimStart_stop X y Y :
  is_ws y = false -> trimStart (X ++ y :: Y) = trimStart X ++ y :: Y.
Proof.
  intros H. induction X as [|x X IH]; simpl.
  - rewrite H. reflexivity.
  - destruct (is_ws x); [exact IH|reflexivity].
Qed.

Lemma trimStart_blanks b y Y :
  forallb is_ws b = true -> is_ws y = false -> trimStart (b ++ y :: Y) = y :: Y.
Proof.
  intros Hb Hy. rewrite trimStart_stop by exact Hy.
  rewrite (trimStart_all_ws _ Hb). reflexivity.
Qed.

Lemma trimEnd_keep A a B :
  is_ws a = false -> trimEnd ((A ++ [a]) ++ B) = (A ++ [a]) ++ trimEnd B.
Proof.
  intros H. unfold trimEnd. rewrite !rev_app_distr. change (rev [a]) with [a].
  cbn [app]. rewrite trimStart_stop by exact H.
  rewrite rev_app_distr. cbn [rev]. rewrite rev_involutive, <- app_assoc. reflexivity.
Qed.

Lemma ink_last K :
  K <> [] -> forallb (fun c => negb (is_ws c)) K = true ->
  exists A a, K = A ++ [a] /\ is_ws a = false.
Proof.
  intros N H. destruct (exists_last N) as [A [a ->]]. exists A, a. split; [reflexivity|].
  rewrite forallb_app in H. apply andb_prop in H. destruct H as [_ H]. simpl in H.
  destruct (is_ws a); [discriminate|reflexivity].
Qed.

Lemma ink_head K :
  K <> [] -> forallb (fun c => negb (is_ws c)) K = true ->
  exists a A, K = a :: A /\ is_ws a = false.
Proof.
  intros N H. destruct K as [|a A]; [congruence|]. exists a, A. split; [reflexivity|].
  simpl in H. destruct (is_ws a); [discriminate|reflexivity].
Qed.

(** A word without white space, followed by anything, keeps its place at the
    head of the trimmed string. *)
Lemma trim_word K X :
  K <> [] -> forallb (fun c => negb (is_ws c)) K = true ->
  forall b, forallb is_ws b = true -> trim (b ++ K ++ X) = K ++ trimEnd X.
Proof.
  intros N H b Hb.
  destruct (ink_head K N H) as [a [A [E Ha]]].
  destruct (ink_last K N H) as [A' [a' [E' Ha']]].
  unfold trim. rewrite E at 1. cbn [app]. rewrite (trimStart_blanks _ _ _ Hb Ha).
  change (a :: A ++ X) with ((a :: A) ++ X). rewrite <- E, E'.
  apply trimEnd_keep. exact Ha'.
Qed.

(** *** The optional group and the capture group *)

Lemma opt_sound r st k res :
  rmatch (Opt r) st k = Some res ->
  rmatch r st (fun st1 => if pos st1 =? pos st then None else k st1) = Some res
  \/ k st = Some res.
Proof.
  cbn [rmatch]. intros H. apply orelse_some in H. destruct H as [H|[_ H]]; auto.
Qed.

(** A pattern without capture groups leaves the captures as they are. *)
Fixpoint nogroup (r : regex) : bool :=
  match r with
  | Grp _ _ => false
  | Seq r1 r2 | Alt r1 r2 => nogroup r1 && nogroup r2
  | Opt r => nogroup r
  | _ => true
  end.

Lemma rmatch_nogroup r : forall st k res,
  nogroup r = true -> rmatch r st k = Some res ->
  exists st', k st' = Some res /\ caps st' = caps st /\ adv 0 st st'.
Proof.
  induction r as [| | |c|c|p|r1 IH1 r2 IH2|r1 IH1 r2 IH2|i r IH|r IH|g p min max];
    intros st k res G H; simpl in G, H; try discriminate.
  - exists st. split; [exact H|]. split; [reflexivity|apply adv_refl].
  - destruct (pos st =? 0); [|discriminate].
    exists st. split; [exact H|]. split; [reflexivity|apply adv_refl].
  - destruct (rest st) eqn:E; [|discriminate].
    exists st. split; [exact H|]. split; [reflexivity|apply adv_refl].
  - destruct (step_if_sound _ _ _ _ H) as [x [s' [E [_ K]]]].
    eexists. split; [exact K|]. split; [reflexivity|]. exists [x]. simpl. repeat split; auto; lia.
  - destruct (step_if_sound _ _ _ _ H) as [x [s' [E [_ K]]]].
    eexists. split; [exact K|]. split; [reflexivity|]. exists [x]. simpl. repeat split; auto; lia.
  - destruct (step_if_sound _ _ _ _ H) as [x [s' [E [_ K]]]].
    eexists. split; [exact K|]. split; [reflexivity|]. exists [x]. simpl. repeat split; auto; lia.
  - apply andb_prop in G. destruct G as [G1 G2].
    destruct (IH1 _ _ _ G1 H) as [st1 [K1 [C1 A1]]].
    destruct (IH2 _ _ _ G2 K1) as [st2 [K2 [C2 A2]]].
    exists st2. split; [exact K2|]. split; [congruence|].
    exact (adv_trans _ _ _ _ _ A1 A2).
  - apply andb_prop in G. destruct G as [G1 G2].
    apply orelse_some in H. destruct H as [H|[_ H]]; [apply (IH1 _ _ _ G1 H)|apply (IH2 _ _ _ G2 H)].
  - apply orelse_some in H. destruct H as [H|[_ H]].
    + destruct (IH _ _ _ G H) as [st1 [K1 [C1 A1]]].
      destruct (pos st1 =? pos st); [discriminate|]. exists st1. auto.
    + exists st. split; [exact H|]. split; [reflexivity|apply adv_refl].
  - destruct g.
    + destruct (rep_greedy_sound _ _ _ _ _ _ _ _ H) as [w [s' [E [_ [L K]]]]].
      eexists. split; [exact K|]. split; [reflexivity|]. exists w. simpl. repeat split; auto; lia.
    + destruct (rep_lazy_sound _ _ _ _ _ _ _ _ H) as [w [s' [E [_ [L K]]]]].
      eexists. split; [exact K|]. split; [reflexivity|]. exists w. simpl. repeat split; auto; lia.
Qed.

(** *** The parts of a heading *)

(** [(?:[ \t]*[:\-\.\s][ \t]*([^\n]{0,100}))] *)
Definition subtitle : regex :=
  seqs [star sp_tab; Cls sep_ws; star sp_tab; Grp 2 (Rep true not_nl 0 (Some 100))].

Lemma headingRest_unfold :
  headingRest
  = Seq (star sp_tab)
      (Seq (Opt (Cls sep))
         (Seq (star sp_tab)
            (Seq (Grp 1 (Alt (plus digit) (plus roman))) (Opt subtitle)))).
Proof. reflexivity. Qed.

Lemma subtitle_unfold :
  subtitle
  = Seq (star sp_tab)
      (Seq (Cls sep_ws) (Seq (star sp_tab) (Grp 2 (Rep true not_nl 0 (Some 100))))).
Proof. reflexivity. Qed.

(** [st'] is reached from [st] over the characters [w]. *)
Definition reach (st st' : mstate) (w : jstring) : Prop :=
  rest st = w ++ rest st' /\ pos st' = pos st + length w.

Lemma adv_reach n st st' : adv n st st' -> exists w, reach st st' w.
Proof. intros [w [R [P _]]]. exists w. split; assumption. Qed.

Lemma reach_trans a b c w1 w2 : reach a b w1 -> reach b c w2 -> reach a c (w1 ++ w2).
Proof.
  intros [R1 P1] [R2 P2]. split.
  - rewrite R1, R2, app_assoc. reflexivity.
  - rewrite P2, P1, length_app. lia.
Qed.

Lemma seq_unfold r1 r2 st k :
  rmatch (Seq r1 r2) st k = rmatch r1 st (fun st1 => rmatch r2 st1 k).
Proof. reflexivity. Qed.

Lemma grp_unfold i r st k :
  rmatch (Grp i r) st k
  = rmatch r st (fun st1 =>
      k (MState (pos st1) (rest st1) ((i, firstn (pos st1 - pos st) (rest st)) :: caps st1))).
Proof. reflexivity. Qed.

Lemma alt_unfold r1 r2 st k :
  rmatch (Alt r1 r2) st k = orelse (rmatch r1 st k) (rmatch r2 st k).
Proof. reflexivity. Qed.

Lemma rep_unfold p min max st k :
  rmatch (Rep true p min max) st k = rep_greedy p min max (caps st) (pos st) (rest st) k.
Proof. reflexivity. Qed.

(** The optional subtitle keeps the first capture. *)
Lemma subtitle_captures st7 st num :
  caps st7 = [(1, num)] ->
  rmatch (Opt subtitle) st7 Some = Some st ->
  capture 1 (caps st) = Some num /\ exists tl, reach st7 st tl.
Proof.
  intros C H. apply opt_sound in H. destruct H as [H|H].
  - rewrite subtitle_unfold, seq_unfold in H.
    destruct (rmatch_nogroup (star sp_tab) _ _ _ eq_refl H) as [s1 [K1 [C1 A1]]].
    cbv beta in K1. rewrite seq_unfold in K1.
    destruct (rmatch_nogroup (Cls sep_ws) _ _ _ eq_refl K1) as [s2 [K2 [C2 A2]]].
    cbv beta in K2. rewrite seq_unfold in K2.
    destruct (rmatch_nogroup (star sp_tab) _ _ _ eq_refl K2) as [s3 [K3 [C3 A3]]].
    cbv beta in K3. rewrite grp_unfold in K3.
    destruct (rmatch_nogroup (Rep true not_nl 0 (Some 100)) _ _ _ eq_refl K3)
      as [s4 [K4 [C4 A4]]].
    cbn [pos rest caps] in K4. destruct (pos s4 =? pos st7); [discriminate|].
    injection K4 as <-. cbn [caps]. rewrite C4, C3, C2, C1, C. split; [reflexivity|].
    destruct (adv_reach _ _ _ A1) as [w1 R1]. destruct (adv_reach _ _ _ A2) as [w2 R2].
    destruct (adv_reach _ _ _ A3) as [w3 R3]. destruct (adv_reach _ _ _ A4) as [w4 R4].
    exists (((w1 ++ w2) ++ w3) ++ w4).
    pose proof (reach_trans _ _ _ _ _ (reach_trans _ _ _ _ _ (reach_trans _ _ _ _ _ R1 R2) R3) R4)
      as [R P].
    split; [exact R|exact P].
  - injection H as <-. rewrite C. split; [reflexivity|]. exists []. split; [reflexivity|simpl; lia].
Qed.

(** The number of the chapter is the first capture. *)
Lemma number_captured st6 st :
  caps st6 = [] ->
  rmatch (Seq (Grp 1 (Alt (plus digit) (plus roman))) (Opt subtitle)) st6 Some = Some st ->
  exists num tl,
    reach st6 st (num ++ tl) /\ num <> [] /\
    (forallb digit num = true \/ forallb roman num = true) /\
    capture 1 (caps st) = Some num.
Proof.
  intros C H. rewrite seq_unfold, grp_unfold, alt_unfold in H. unfold plus in H.
  rewrite !rep_unfold in H. apply orelse_some in H.
  assert (G : forall p,
    rep_greedy p 1 None (caps st6) (pos st6) (rest st6)
      (fun st1 => rmatch (Opt subtitle)
         (MState (pos st1) (rest st1)
            ((1, firstn (pos st1 - pos st6) (rest st6)) :: caps st1)) Some) = Some st ->
    exists num tl, reach st6 st (num ++ tl) /\ num <> [] /\ forallb p num = true /\
                   capture 1 (caps st) = Some num).
  { intros p R. destruct (rep_greedy_sound _ _ _ _ _ _ _ _ R) as [w [s7 [E [Fw [L K]]]]].
    cbn [pos rest caps] in K. rewrite E in K.
    replace (pos st6 + length w - pos st6) with (length w) in K by lia.
    rewrite (firstn_exact w s7 _ eq_refl), C in K.
    destruct (subtitle_captures (MState (pos st6 + length w) s7 [(1, w)]) st w eq_refl K)
      as [Hc [tl [Rt Pt]]]. cbn [rest pos] in *.
    exists w, tl. split; [|split; [|split]]; auto.
    - split; [rewrite E, Rt, app_assoc; reflexivity|rewrite Pt, length_app; lia].
    - destruct w; [simpl in L; lia|discriminate]. }
  destruct H as [H|[_ H]]; destruct (G _ H) as [num [tl [R [N [F Hc]]]]];
    exists num, tl; auto.
Qed.

(** After the start of the line: blanks, the keyword, the number. *)
Lemma heading_parts words st1 st :
  caps st1 = [] ->
  rmatch (star sp_tab) st1
    (fun st2 => rmatch (alts (map litI words)) st2
       (fun st3 => rmatch headingRest st3 Some)) = Some st ->
  exists b1 word K tl num,
    reach st1 st (b1 ++ K ++ tl) /\ forallb sp_tab b1 = true /\
    In word words /\ ciStrip word K = Some [] /\
    num <> [] /\ (forallb digit num = true \/ forallb roman num = true) /\
    capture 1 (caps st) = Some num.
Proof.
  intros C H. unfold star in H. rewrite rep_unfold in H.
  destruct (rep_greedy_sound _ _ _ _ _ _ _ _ H) as [b1 [s2 [E1 [F1 [_ H2]]]]].
  destruct (alts_litI_sound _ _ _ _ H2) as [word [s3 [I [E2 H3]]]]. cbn [rest pos caps] in *.
  destruct (ciStrip_split _ _ _ E2) as [K [E3 [L3 E4]]].
  rewrite headingRest_unfold, seq_unfold in H3.
  destruct (rmatch_nogroup (star sp_tab) _ _ _ eq_refl H3) as [s4 [K4 [C4 A4]]].
  cbv beta in K4. rewrite seq_unfold in K4.
  destruct (rmatch_nogroup (Opt (Cls sep)) _ _ _ eq_refl K4) as [s5 [K5 [C5 A5]]].
  cbv beta in K5. rewrite seq_unfold in K5.
  destruct (rmatch_nogroup (star sp_tab) _ _ _ eq_refl K5) as [s6 [K6 [C6 A6]]].
  cbv beta in K6.
  cbn [caps] in C4.
  assert (C6' : caps s6 = []) by congruence.
  destruct (number_captured _ _ C6' K6) as [num [tl [R7 [N [F Hc]]]]].
  destruct (adv_reach _ _ _ A4) as [w4 R4]. destruct (adv_reach _ _ _ A5) as [w5 R5].
  destruct (adv_reach _ _ _ A6) as [w6 R6].
  pose proof (reach_trans _ _ _ _ _ (reach_trans _ _ _ _ _ (reach_trans _ _ _ _ _ R4 R5) R6) R7)
    as [R P]. cbn [rest pos] in R, P.
  exists b1, word, K, (((w4 ++ w5) ++ w6) ++ num ++ tl), num.
  split; [|tauto]. split.
  - rewrite E1, E3, R, <- !app_assoc. reflexivity.
  - rewrite P, !length_app, L3. lia.
Qed.

(** *** The title of a candidate *)

(** [keyword], read back from the trimmed match. *)
Definition keywordOf (trimmedMatch : jstring) : jstring :=
  match exec keywordPattern trimmedMatch 0 with
  | Some km => orUndefined (group 1 km)
  | None => []
  end.

Lemma chapterMatch_title text m c :
  Optimized.chapterMatch text m = Some c ->
  exists opt,
    ChapterMatch.title c
    = trim ((keywordOf (trim (stripLeadingNewlines (matched text m))) ++ [SP]
             ++ orUndefined (group 1 m)) ++ opt).
Proof.
  unfold Optimized.chapterMatch, keywordOf.
  destruct (test falsePositivePattern _); [discriminate|].
  destruct (length _ =? 0); [discriminate|].
  intros [= <-]. cbn [ChapterMatch.title].
  destruct (_ && _).
  - eexists. rewrite <- !app_assoc. reflexivity.
  - exists []. rewrite app_nil_r. reflexivity.
Qed.

Lemma keywordWords_ok :
  Forall (fun w => w <> [] /\ forallb inkLetter w = true) keywordWords.
Proof. repeat constructor; try discriminate. Qed.

Lemma keyword_ink word K :
  In word keywordWords -> ciStrip word K = Some [] ->
  K <> [] /\ forallb (fun c => negb (is_ws c)) K = true.
Proof.
  intros I E. pose proof keywordWords_ok as F. rewrite Forall_forall in F.
  destruct (F word I) as [N W]. split.
  - exact (ciStrip_nonempty _ _ N E).
  - exact (ciStrip_ink _ _ W E).
Qed.

(** The keyword pattern reads a keyword at the head of a string back. *)
Lemma keyword_read s :
  (exists word s', In word keywordWords /\ ciStrip word s = Some s') ->
  isKeyword (keywordOf s).
Proof.
  intros Hex. unfold keywordOf.
  set (k := fun st1 : mstate =>
              Some (MState (pos st1) (rest st1) ((1, firstn (pos st1 - 0) s) :: caps st1))).
  assert (M : match_at keywordPattern s 0
              = match rmatch (alts (map litI keywordWords)) (MState 0 s []) k with
                | Some st => Some (RMatch 0 (pos st) (caps st))
                | None => None
                end) by reflexivity.
  destruct (rmatch (alts (map litI keywordWords)) (MState 0 s []) k) as [st|] eqn:R.
  - rewrite (exec_first keywordPattern s 0 0 _ ltac:(intros; lia) M ltac:(lia)).
    destruct (alts_litI_sound _ _ _ _ R) as [word [s' [I [E K]]]].
    unfold k in K. cbn [pos rest caps] in K. injection K as <-.
    unfold group. cbn [groups capture Nat.eqb orUndefined pos caps].
    destruct (ciStrip_split _ _ _ E) as [K' [E1 [E2 E3]]]. cbn [rest] in E1.
    match goal with
    | |- context [firstn ?n s] => replace n with (length K') by (simpl; lia)
    end.
    assert (F : firstn (length K') s = K') by (rewrite E1; apply firstn_exact; reflexivity).
    rewrite F. exists word. auto.
  - exfalso. revert R. apply alts_litI_total; [intros st'; discriminate|exact Hex].
Qed.

Lemma digit_ink c : digit c = true -> is_ws c = false.
Proof.
  intros H. apply (ws_check (fun x => negb (digit x)) eq_refl). rewrite H. reflexivity.
Qed.

Lemma roman_ink c : roman c = true -> is_ws c = false.
Proof.
  intros H. apply (ws_check (fun x => negb (roman x)) eq_refl). rewrite H. reflexivity.
Qed.

Lemma number_ink num :
  forallb digit num = true \/ forallb roman num = true ->
  forallb (fun c => negb (is_ws c)) num = true.
Proof.
  intros [H|H]; rewrite forallb_forall in *; intros c Hc.
  - rewrite (digit_ink c (H c Hc)). reflexivity.
  - rewrite (roman_ink c (H c Hc)). reflexivity.
Qed.

Lemma run_stop_here p x s : p x = false -> run p (x :: s) = 0.
Proof. intros H. simpl. rewrite H. reflexivity. Qed.

Lemma sp_tab_ws b : forallb sp_tab b = true -> forallb is_ws b = true.
Proof.
  intros H. rewrite forallb_forall in *. intros c Hc. specialize (H c Hc).
  unfold sp_tab in H. apply orb_prop in H.
  destruct H as [H|H]; apply N.eqb_eq in H; subst c; reflexivity.
Qed.

Lemma ws_nl_cr x : is_ws x = false -> nl_cr x = false.
Proof.
  intros H. unfold nl_cr. destruct (N.eqb_spec x NL) as [->|]; [discriminate|].
  destruct (N.eqb_spec x CR) as [->|]; [discriminate|reflexivity].
Qed.

(** The title of the candidate for a heading: the keyword as the text has it,
    a space, the number, and what is left of the subtitle. *)
Lemma title_parts words text m c :
  (forall w, In w words -> In w keywordWords) ->
  raw_ok (heading (alts (map litI words))) text m ->
  Optimized.chapterMatch text m = Some c ->
  exists kw num tail,
    ChapterMatch.title c = kw ++ [SP] ++ num ++ tail /\ isKeyword kw /\
    num <> [] /\ (forallb digit num = true \/ forallb roman num = true).
Proof.
  intros Hw [Hm [Hlt Hend]] Hc.
  (* the parts of the match *)
  assert (P : exists pre b1 word K tl num,
            matched text m = pre ++ b1 ++ K ++ tl /\ (pre = [] \/ pre = [NL]) /\
            forallb sp_tab b1 = true /\ In word words /\ ciStrip word K = Some [] /\
            num <> [] /\ (forallb digit num = true \/ forallb roman num = true) /\
            group 1 m = Some num).
  { pose proof Hm as Hm'. unfold match_at in Hm'.
    destruct (rmatch _ _ _) as [st|] eqn:E; [|discriminate].
    assert (Em : m = RMatch (mindex m) (pos st) (caps st)) by congruence.
    unfold heading, headingStart in E. rewrite !seq_unfold, alt_unfold in E.
    apply orelse_some in E.
    assert (G : forall pre st1, caps st1 = [] ->
              skipn (mindex m) text = pre ++ rest st1 -> pos st1 = mindex m + length pre ->
              rmatch (star sp_tab) st1
                (fun st2 => rmatch (Seq (alts (map litI words)) headingRest) st2 Some) = Some st ->
              exists b1 word K tl num,
                matched text m = pre ++ b1 ++ K ++ tl /\
                forallb sp_tab b1 = true /\ In word words /\ ciStrip word K = Some [] /\
                num <> [] /\ (forallb digit num = true \/ forallb roman num = true) /\
                group 1 m = Some num).
    { intros pre st1 C1 S1 P1 R1.
      destruct (heading_parts words st1 st C1 R1)
        as [b1 [word [K [tl [num [[Rr Rp] [F1 [I [Ek [N [F Hcap]]]]]]]]]]].
      exists b1, word, K, tl, num. split; [|split; [|split; [|split; [|split; [|split]]]]]; auto.
      - unfold matched. rewrite S1, Rr. rewrite Em. cbn [mend mindex].
        replace (pos st - mindex m) with (length (pre ++ b1 ++ K ++ tl))
          by (rewrite Rp, P1, !length_app; lia).
        replace (pre ++ (b1 ++ K ++ tl) ++ rest st) with ((pre ++ b1 ++ K ++ tl) ++ rest st)
          by (rewrite <- !app_assoc; reflexivity).
        apply firstn_exact. reflexivity.
      - rewrite Em. exact Hcap. }
    destruct E as [E|[_ E]].
    - cbn [rmatch pos] in E. destruct (Nat.eqb_spec (mindex m) 0) as [E0|]; [|discriminate].
      destruct (G [] (MState (mindex m) (skipn (mindex m) text) []) eq_refl eq_refl
                  ltac:(simpl; lia) E)
        as [b1 [word [K [tl [num H]]]]].
      exists [], b1, word, K, tl, num. intuition.
    - destruct (step_if_sound _ _ _ _ E) as [x [s1 [R [C E1]]]]. cbn [rest pos caps] in *.
      apply N.eqb_eq in C. subst x.
      destruct (G [NL] (MState (S (mindex m)) s1 []) eq_refl R ltac:(simpl; lia) E1)
        as [b1 [word [K [tl [num H]]]]].
      exists [NL], b1, word, K, tl, num. intuition. }
  destruct P as [pre [b1 [word [K [tl [num [Ematch [Hpre [F1 [I [Ek [N [F Hg]]]]]]]]]]]]].
  destruct (keyword_ink word K (Hw _ I) Ek) as [NK IK].
  (* the trimmed match starts with the keyword *)
  assert (Hstrip : stripLeadingNewlines (matched text m) = b1 ++ K ++ tl).
  { rewrite stripLeadingNewlines_run, Ematch.
    assert (Hx : exists x s, b1 ++ K ++ tl = x :: s /\ nl_cr x = false).
    { destruct b1 as [|b b1].
      - destruct (ink_head K NK IK) as [a [A [-> Ha]]]. exists a, (A ++ tl).
        split; [reflexivity|apply ws_nl_cr; exact Ha].
      - exists b, (b1 ++ K ++ tl). split; [reflexivity|].
        simpl in F1. apply andb_prop in F1. destruct F1 as [Fb _].
        unfold sp_tab in Fb. apply orb_prop in Fb.
        destruct Fb as [Fb|Fb]; apply N.eqb_eq in Fb; subst b; reflexivity. }
    destruct Hx as [x [s [Ex Hx]]]. rewrite Ex.
    destruct Hpre as [->| ->]; simpl; rewrite Hx; reflexivity. }
  assert (Htrim : trim (stripLeadingNewlines (matched text m)) = K ++ trimEnd tl).
  { rewrite Hstrip. apply trim_word; auto. apply sp_tab_ws. exact F1. }
  destruct (chapterMatch_title _ _ _ Hc) as [opt Ht].
  rewrite Htrim, Hg in Ht. cbn [orUndefined] in Ht.
  assert (Hk : isKeyword (keywordOf (K ++ trimEnd tl))).
  { apply keyword_read. exists word, (trimEnd tl). split; [exact (Hw _ I)|].
    apply ciStrip_app. exact Ek. }
  set (kw := keywordOf (K ++ trimEnd tl)) in *.
  destruct Hk as [word' [I' Ek']].
  destruct (keyword_ink word' kw I' Ek') as [Nk Ik].
  exists kw, num. 
  pose proof (number_ink num F) as In.
  destruct (ink_last num N In) as [A [a [En Ha]]].
  exists (trimEnd opt). split; [|split; [exists word'; auto|auto]].
  rewrite Ht.
  replace ((kw ++ [SP] ++ num) ++ opt) with ([] ++ kw ++ ([SP] ++ num) ++ opt)
    by (rewrite <- !app_assoc; reflexivity).
  rewrite (trim_word kw _ Nk Ik [] eq_refl).
  rewrite En. replace ([SP] ++ A ++ [a]) with ((SP :: A) ++ [a]) by reflexivity.
  rewrite (trimEnd_keep _ _ _ Ha). rewrite <- !app_assoc. reflexivity.
Qed.

End TitleFacts.

(** X28.  The title of a chapter names its keyword and its number: the title
    of every candidate of either splitter is one of the nine keywords, in the
    letter case of the text, then a space, then the number of the chapter in
    digits or in roman numerals, and after that what is kept of the
    subtitle. *)
Theorem titles_name_keyword_and_number text c :
  In c (OptimizedFacts.candidates text) \/ In c (OriginalFacts.allMatches text) ->
  exists kw num tail,
    ChapterMatch.title c = kw ++ [SP] ++ num ++ tail /\ isKeyword kw /\
    num <> [] /\ (forallb digit num = true \/ forallb roman num = true).
Proof.
  assert (G : forall words ms,
            (forall w, In w words -> In w keywordWords) ->
            scanned (heading (alts (map litI words))) text 0 ms ->
            In c (collect (Optimized.chapterMatch text) ms) ->
            exists kw num tail,
              ChapterMatch.title c = kw ++ [SP] ++ num ++ tail /\ isKeyword kw /\
              num <> [] /\ (forallb digit num = true \/ forallb roman num = true)).
  { intros words ms Hw Hsc Hin.
    destruct (collect_In _ _ _ Hin) as [m [Hm Hc]].
    destruct (OptimizedFacts.scanned_sorted _ _ _ _ Hsc) as [Hok _].
    rewrite Forall_forall in Hok. destruct (Hok m Hm) as [_ Hraw].
    exact (TitleFacts.title_parts words text m c Hw Hraw Hc). }
  intros [H|H].
  - apply (G [utf16 "Chương"; utf16 "Chapter"; utf16 "Hồi"; utf16 "Quyển"; utf16 "Book";
              utf16 "Phần"; utf16 "Tiết"; utf16 "Mục"; utf16 "Part"]
             (OptimizedFacts.rawMatches text)).
    + intros w Hw. simpl in Hw. unfold keywordWords. simpl. intuition.
    + exact (proj2 (OptimizedFacts.execAll_chapterRegex text)).
    + exact H.
  - unfold OriginalFacts.allMatches in H. apply in_app_or in H.
    rewrite !(RefinementFacts.collect_ext _ _ _ (OriginalFacts.chapterMatch_same text)) in H.
    destruct H as [H|H].
    + apply (G [utf16 "Chương"; utf16 "Chapter"; utf16 "Hồi"; utf16 "Quyển"; utf16 "Book"]
               (OriginalFacts.rawMatches1 text)).
      * intros w Hw. simpl in Hw. unfold keywordWords. simpl. intuition.
      * exact (proj2 (OriginalFacts.execAll_heading1 text)).
      * exact H.
    + apply (G [utf16 "Phần"; utf16 "Tiết"; utf16 "Mục"; utf16 "Part"]
               (OriginalFacts.rawMatches2 text)).
      * intros w Hw. simpl in Hw. unfold keywordWords. simpl. intuition.
      * exact (proj2 (OriginalFacts.execAll_heading2 text)).
      * exact H.
Qed.

Lemma titles_name_keyword_and_number_witness :
  In (ChapterMatch.mk 31 6 (utf16 "Chapter 1: The Beginning"))
     (OptimizedFacts.candidates SplitExamples.book) /\
  exists kw num tail,
    utf16 "Chapter 1: The Beginning" = kw ++ [SP] ++ num ++ tail /\ isKeyword kw /\
    num <> [] /\ (forallb digit num = true \/ forallb roman num = true).
Proof.
  assert (H : In (ChapterMatch.mk 31 6 (utf16 "Chapter 1: The Beginning"))
                 (OptimizedFacts.candidates SplitExamples.book))
    by (vm_compute; auto).
  split; [exact H|].
  exact (titles_name_keyword_and_number SplitExamples.book
           (ChapterMatch.mk 31 6 (utf16 "Chapter 1: The Beginning")) (or_introl H)).
Defined.

Module IdempotenceFacts.
Import HtmlFacts LineFacts BlankFacts.

Lemma trimStart_id s : (forall c, hd_error s = Some c -> is_ws c = false) -> trimStart s = s.
Proof.
  destruct s as [|c s]; [reflexivity|]. intros H. simpl. rewrite (H c eq_refl). reflexivity.
Qed.

Lemma trim_id s : edge_free s -> trim s = s.
Proof.
  intros [H1 H2]. unfold trim, trimEnd.
  rewrite (trimStart_id s H1), (trimStart_id (rev s) H2). apply rev_involutive.
Qed.

Lemma trimLines_id s : lineOk s -> trimLines s = s.
Proof.
  intros H. unfold trimLines. rewrite <- (join_split s) at 2. f_equal.
  rewrite <- (map_id (split NL s)) at 2. apply map_ext_in.
  intros l Hl. apply trim_id. unfold lineOk in H. rewrite Forall_forall in H. exact (H l Hl).
Qed.

(** A pattern that matches at no position of a text changes nothing. *)
Lemma replace_go_none r f : forall s p,
  (forall a b q, s = a ++ b -> rmatch r (MState q b []) Some = None) ->
  replace_go r f p s 0 = s.
Proof.
  induction s as [|c s IH]; intros p H; cbn [replace_go].
  - rewrite (H [] [] p eq_refl). reflexivity.
  - rewrite (H [] (c :: s) p eq_refl). rewrite IH; [reflexivity|].
    intros a b q E. apply (H (c :: a) b q). rewrite E. reflexivity.
Qed.

Lemma ok3_nlws : forall s cnt, cnt <= 2 -> ok3 cnt s = true -> cnt + nlws s <= 2.
Proof.
  induction s as [|c s IH]; intros cnt Hc H; simpl in *; [lia|].
  destruct (N.eqb_spec c NL) as [->|Hne].
  - apply andb_prop in H. destruct H as [H1 H2]. apply Nat.ltb_lt in H1.
    change (is_ws NL) with true. cbn iota. specialize (IH (S cnt) ltac:(lia) H2). lia.
  - destruct (is_ws c); [|lia]. specialize (IH cnt Hc H). lia.
Qed.

Lemma ok3_suffix : forall a b cnt,
  cnt <= 2 -> ok3 cnt (a ++ b) = true -> exists cnt', cnt' <= 2 /\ ok3 cnt' b = true.
Proof.
  induction a as [|c a IH]; intros b cnt Hc H; [eauto|].
  simpl in H. destruct (c =? NL)%N.
  - apply andb_prop in H. destruct H as [H1 H2]. apply Nat.ltb_lt in H1.
    apply (IH b (S cnt)); [lia|exact H2].
  - destruct (is_ws c); [apply (IH b cnt)|apply (IH b 0)]; auto; lia.
Qed.

Lemma collapse_id s : ok3 0 s = true -> collapseBlankLines s = s.
Proof.
  intros H. unfold collapseBlankLines, replace. apply replace_go_none.
  intros a b q E. destruct (rmatch blankLines _ _) as [st|] eqn:M; [|reflexivity].
  exfalso. destruct (blankLines_match _ _ _ M) as [N _].
  rewrite E in H. destruct (ok3_suffix a b 0 ltac:(lia) H) as [cnt' [Hc Hb]].
  pose proof (ok3_nlws b cnt' Hc Hb). lia.
Qed.

Lemma tidy_true_run s : tidy true s = true -> run sp_tab s = 0.
Proof.
  destruct s as [|d s]; [reflexivity|]. simpl. destruct (sp_tab d); [discriminate|reflexivity].
Qed.

Lemma blanks_id : forall s p prev,
  tidy prev s = true -> replace_go blanks (constant [SP]) p s 0 = s.
Proof.
  induction s as [|c s IH]; intros p prev H.
  - reflexivity.
  - cbn [replace_go]. unfold blanks, plus. rewrite TitleFacts.rep_unfold.
    cbn [pos rest caps]. rewrite rep_greedy_Some. cbn [run].
    revert H. cbn [tidy]. destruct (sp_tab c) eqn:Pc.
    + intros H. apply andb_prop in H. destruct H as [H1 H2].
      apply andb_prop in H1. destruct H1 as [_ H1]. apply N.eqb_eq in H1. subst c.
      rewrite (tidy_true_run s H2). cbn [Nat.leb pos].
      replace (p + 1 - p) with 1 by lia. unfold constant at 1. cbn [app].
      f_equal. exact (IH (S p) true H2).
    + intros H. cbn [Nat.leb]. f_equal. exact (IH (S p) false H).
Qed.

End IdempotenceFacts.

(** X29.  The clean-up that ends [htmlToText] is idempotent: a text that went
    through it goes through it again unchanged. *)
Theorem cleanUp_is_idempotent text : cleanUp (cleanUp text) = cleanUp text.
Proof.
  set (u := cleanUp text).
  assert (T : tidy false u = true) by apply BlankFacts.tidy_cleanUp.
  assert (O : HtmlFacts.ok3 0 u = true) by apply HtmlFacts.cleanUp_ok3.
  assert (L : LineFacts.lineOk u)
    by (apply LineFacts.lineOk_trim, LineFacts.lineOk_trimLines).
  assert (E : edge_free u) by apply trim_edge_free.
  unfold cleanUp at 1. unfold replace.
  rewrite (IdempotenceFacts.blanks_id u 0 false T).
  rewrite (IdempotenceFacts.collapse_id u O).
  rewrite (IdempotenceFacts.trimLines_id u L).
  apply IdempotenceFacts.trim_id. exact E.
Qed.

Module BatchFacts.
Import PdfFacts.

Lemma batches_go_length {A} size : 0 < size -> forall (l cur : list A) n,
  n < size ->
  length (batches_go size l cur n) = (n + length l + (size - 1)) / size.
Proof.
  intros Hs. induction l as [|x l IH]; intros cur n Hn; cbn [batches_go length].
  - destruct (Nat.eqb_spec n 0) as [->|Hne]; cbn [length].
    + symmetry. apply Nat.div_small. lia.
    + apply (Nat.div_unique _ _ 1 (n - 1)); lia.
  - destruct (Nat.eqb_spec (S n) size) as [E|Hne]; cbn [length].
    + rewrite (IH [] 0 Hs).
      replace (n + S (length l) + (size - 1)) with (1 * size + (0 + length l + (size - 1))) by lia.
      rewrite Nat.div_add_l by lia. reflexivity.
    + rewrite (IH (x :: cur) (S n)) by lia. f_equal. lia.
Qed.

Lemma batchesOf_length {A} size (l : list A) :
  0 < size -> length (batchesOf size l) = (length l + (size - 1)) / size.
Proof. intros Hs. unfold batchesOf. rewrite batches_go_length by lia. reflexivity. Qed.

Lemma batchesOf_incl {A} size (l batch : list A) x :
  In batch (batchesOf size l) -> In x batch -> In x l.
Proof.
  intros Hb Hx. rewrite <- (batchesOf_concat size l). apply in_concat. eauto.
Qed.

Lemma promiseAll_all {A} (l : list (option A)) :
  ~ In None l -> promiseAll l <> None.
Proof.
  induction l as [|[v|] l IH]; intros H; simpl.
  - discriminate.
  - destruct (promiseAll l); [discriminate|]. exfalso. apply IH; [|reflexivity].
    intros I. apply H. right. exact I.
  - exfalso. apply H. left. reflexivity.
Qed.

(** The reports of the batches that start at the pages [i], [i + 50], ... *)
Definition reports (numPages i count : nat) : list progress :=
  map (fun k => PdfBatch (i + BATCH_SIZE * k) (Nat.min (i + BATCH_SIZE * k + BATCH_SIZE - 1) numPages) numPages)
      (seq 0 count).

Lemma reports_S numPages i count :
  reports numPages i (S count) =
  PdfBatch i (Nat.min (i + BATCH_SIZE - 1) numPages) numPages
  :: reports numPages (i + BATCH_SIZE) count.
Proof.
  unfold reports. cbn [seq map]. f_equal.
  - f_equal; [lia|f_equal; lia].
  - rewrite <- seq_shift, map_map. apply map_ext. intros k.
    f_equal; [lia|f_equal; lia].
Qed.

Lemma batchLoop_world sortItems numPages sig :
  (forall t, sig t = false) ->
  forall todo i acc w,
  (forall batch, In batch todo -> ~ In PageFails batch) ->
  snd (batchLoop sortItems numPages todo i acc sig w) =
  World (clock w + length todo) (trace w ++ reports numPages i (length todo)).
Proof.
  intros Hs. induction todo as [|batch todo IH]; intros i acc w Hok.
  - simpl. destruct w as [c t]. simpl. rewrite Nat.add_0_r, app_nil_r. reflexivity.
  - cbn [batchLoop length]. unfold bind at 1, checkAborted. rewrite Hs.
    unfold bind at 1, onProgress. unfold bind at 1, await.
    destruct (promiseAll (map (pagePromise sortItems) batch)) as [texts|] eqn:P.
    + rewrite IH by (intros b Hb; apply Hok; right; exact Hb).
      cbn [clock trace]. rewrite reports_S, <- app_assoc. cbn [app].
      f_equal. lia.
    + exfalso. revert P. apply promiseAll_all. intros I.
      apply in_map_iff in I. destruct I as [page [E I]].
      destruct page; [|discriminate]. exact (Hok batch (or_introl eq_refl) I).
Qed.

End BatchFacts.

(** X30.  The progress of a PDF extraction: when the run is not cancelled and
    every page decodes, [parsePdf] suspends twice to open the document and
    then once per batch of 50 pages, and it reports each batch once, in
    order, with the numbers of its first and last page: pages 1-50, 51-100,
    ..., the last batch ending at the last page. *)
Theorem parsePdf_reports_each_batch sortItems pageItems sig w :
  (forall t, sig t = false) ->
  snd (parsePdf sortItems (Some (map PageItems pageItems)) sig w) =
  World (clock w + 2 + (length pageItems + 49) / 50)
        (trace w ++ map (fun k => PdfBatch (50 * k + 1)
                                    (Nat.min (50 * k + 50) (length pageItems))
                                    (length pageItems))
                        (seq 0 ((length pageItems + 49) / 50))).
Proof.
  intros Hs. set (n := length pageItems). set (count := (n + 49) / 50). unfold parsePdf.
  unfold bind at 1, await at 1. unfold bind at 1, await at 1. unfold bind at 1.
  match goal with
  | |- context [batchLoop ?s ?m ?todo ?i ?acc sig ?w1] =>
      pose proof (BatchFacts.batchLoop_world s m sig Hs todo i acc w1) as B;
      destruct (batchLoop s m todo i acc sig w1) as [r w2] eqn:R
  end.
  cbn [snd] in B.
  assert (W : snd (match r with
                   | Ok a => ret (join [NL; NL] a) sig w2
                   | Throw e => (Throw e, w2)
                   | Hang => (Hang, w2)
                   end) = w2) by (destruct r; reflexivity).
  rewrite W, B; clear W B.
  - rewrite BatchFacts.batchesOf_length by (unfold BATCH_SIZE; lia).
    rewrite length_map. cbn [clock trace]. unfold BATCH_SIZE. fold n.
    change (50 - 1) with 49. fold count. f_equal; [lia|].
    f_equal. unfold BatchFacts.reports, BATCH_SIZE. apply map_ext. intros k.
    f_equal; [lia|f_equal; lia].
  - intros batch Hb I. pose proof (BatchFacts.batchesOf_incl _ _ _ _ Hb I) as J.
    apply in_map_iff in J. destruct J as [x [E _]]. discriminate.
Qed.

(** A document of 120 pages: three batches. *)
Lemma parsePdf_reports_each_batch_witness :
  (forall t : nat, (fun _ => false) t = false) /\
  snd (parsePdf (fun l => l) (Some (map PageItems (repeat [] 120))) (fun _ => false) (World 0 []))
  = World 5 [PdfBatch 1 50 120; PdfBatch 51 100 120; PdfBatch 101 120 120].
Proof.
  split; [reflexivity|].
  exact (parsePdf_reports_each_batch (fun l => l) (repeat [] 120) (fun _ => false)
           (World 0 []) (fun _ => eq_refl)).
Defined.

(* ================================================================== *)
(** * The markup normalizer: what becomes of the newlines *)
(* ================================================================== *)

Module CollapseFacts.
Import HtmlFacts LineFacts BlankFacts.

(** For the proofs, [replace_go] with a constant replacement, when the length
    of the match at the head of [s] is a function [len] of [s] alone
    ([replace_go_by] below). *)
Fixpoint replaceBy (len : jstring -> option nat) (t s : jstring) (skip : nat) : jstring :=
  match s with
  | [] =>
      match skip with
      | S _ => []
      | 0 => match len [] with Some _ => t | None => [] end
      end
  | c :: s' =>
      match skip with
      | S skip' => replaceBy len t s' skip'
      | 0 =>
          match len s with
          | Some 0 => t ++ c :: replaceBy len t s' 0
          | Some (S n) => t ++ replaceBy len t s' n
          | None => c :: replaceBy len t s' 0
          end
      end
  end.

(** That function for [/[ \t]+/] ([blanks_len] below) and for
    [/\n\s*\n\s*\n/] ([blankLines_len]): the match runs up to the last
    newline of the white space at the head, when that starts with a newline
    and holds three. *)
Definition blankRun (s : jstring) : option nat :=
  if 1 <=? BlankFacts.run sp_tab s then Some (BlankFacts.run sp_tab s) else None.

Fixpoint nlEnd (s : jstring) : nat :=
  match s with
  | [] => 0
  | c :: s' =>
      if is_ws c
      then if HtmlFacts.nlws s' =? 0 then (if (c =? NL)%N then 1 else 0) else S (nlEnd s')
      else 0
  end.

Definition blankLen (s : jstring) : option nat :=
  match s with
  | c :: s' => if (c =? NL)%N && (2 <=? HtmlFacts.nlws s') then Some (nlEnd s) else None
  | [] => None
  end.

Lemma replace_go_by r t len :
  (forall p s, option_map (fun st => pos st - p) (rmatch r (MState p s []) Some) = len s) ->
  forall s p skip, replace_go r (constant t) p s skip = replaceBy len t s skip.
Proof.
  intros H. induction s as [|c s IH]; intros p skip.
  - destruct skip; cbn [replace_go replaceBy]; [|reflexivity].
    rewrite <- (H p []). destruct (rmatch r _ _); reflexivity.
  - destruct skip as [|k]; cbn [replace_go replaceBy]; [|apply IH].
    rewrite <- (H p (c :: s)). destruct (rmatch r _ _) as [st|]; cbn [option_map].
    + destruct (pos st - p); unfold constant at 1; rewrite IH; reflexivity.
    + rewrite IH. reflexivity.
Qed.

Lemma blanks_len p s :
  option_map (fun st => pos st - p) (rmatch blanks (MState p s []) Some) = blankRun s.
Proof.
  unfold blanks, plus, blankRun. rewrite TitleFacts.rep_unfold. cbn [pos rest caps].
  rewrite rep_greedy_Some. destruct (1 <=? run sp_tab s); [|reflexivity].
  cbn [option_map pos]. f_equal. lia.
Qed.

Lemma nlws_app_ink b c v : is_ws c = false -> nlws (b ++ c :: v) = nlws b.
Proof.
  intros Hc. induction b as [|d b IH]; simpl; [rewrite Hc; reflexivity|].
  rewrite IH. reflexivity.
Qed.

Lemma nlEnd_app_ink b c v : is_ws c = false -> nlEnd (b ++ c :: v) = nlEnd b.
Proof.
  intros Hc. induction b as [|d b IH]; simpl; [rewrite Hc; reflexivity|].
  rewrite IH, (nlws_app_ink b c v Hc). reflexivity.
Qed.

Lemma nlEnd_le s : nlEnd s <= length s.
Proof.
  induction s as [|c s IH]; simpl; [lia|].
  destruct (is_ws c); [|lia]. destruct (nlws s =? 0); [destruct (c =? NL)%N|]; lia.
Qed.

Lemma nlEnd_rest s : nlws (skipn (nlEnd s) s) = 0.
Proof.
  induction s as [|c s IH]; simpl; [reflexivity|].
  destruct (is_ws c) eqn:W; [|simpl; rewrite W; reflexivity].
  destruct (Nat.eqb_spec (nlws s) 0) as [Z|NZ].
  - destruct (c =? NL)%N eqn:E; simpl; [exact Z|]. rewrite W, E, Z. reflexivity.
  - simpl. exact IH.
Qed.

Lemma nlEnd_exact m s : forallb is_ws m = true -> nlws s = 0 ->
  nlEnd (m ++ NL :: s) = length m + 1.
Proof.
  intros Hm Hs. induction m as [|c m IH]; simpl.
  - rewrite Hs. reflexivity.
  - simpl in Hm. apply andb_prop in Hm. destruct Hm as [Hc Hm]. rewrite Hc.
    pose proof (nlws_app_ws m (NL :: s) Hm) as A. rewrite nlws_cons_nl in A.
    destruct (Nat.eqb_spec (nlws (m ++ NL :: s)) 0); [lia|]. rewrite (IH Hm). reflexivity.
Qed.

(** A match of the pattern: white space that ends with a newline. *)
Lemma blankLines_shape p s st :
  rmatch blankLines (MState p s []) Some = Some st ->
  exists m, s = m ++ NL :: rest st /\ forallb is_ws m = true /\ pos st = p + length m + 1.
Proof.
  rewrite blankLines_unfold. intros H.
  destruct (step_nl_sound _ _ _ H) as [s1 [R1 H1]]. simpl in R1, H1. subst s.
  destruct (rep_greedy_sound _ _ _ _ _ _ _ _ H1) as [w1 [s2 [E1 [F1 [_ H2]]]]].
  destruct (step_nl_sound _ _ _ H2) as [s3 [R3 H3]]. simpl in R3, H3. subst s2.
  destruct (rep_greedy_sound _ _ _ _ _ _ _ _ H3) as [w2 [s4 [E2 [F2 [_ H4]]]]].
  destruct (step_nl_sound _ _ _ H4) as [s5 [R5 H5]]. simpl in R5, H5. subst s4.
  injection H5 as <-. cbn [pos rest]. subst s1 s3.
  exists (NL :: w1 ++ NL :: w2). split; [|split].
  - simpl. rewrite <- app_assoc. reflexivity.
  - cbn [forallb]. rewrite forallb_app. cbn [forallb]. rewrite F1, F2. reflexivity.
  - cbn [length]. rewrite length_app. cbn [length]. lia.
Qed.

Lemma blankLines_len p s :
  option_map (fun st => pos st - p) (rmatch blankLines (MState p s []) Some) = blankLen s.
Proof.
  destruct (rmatch blankLines (MState p s []) Some) as [st|] eqn:R; cbn [option_map].
  - destruct (blankLines_match _ _ _ R) as [N3 [_ [_ [N0 _]]]].
    destruct (blankLines_shape _ _ _ R) as [m [E [F P]]].
    destruct s as [|c s']; [simpl in N3; lia|].
    destruct (N.eqb_spec c NL) as [->|Hne];
      [|rewrite (blankLines_no_nl p c s' Hne) in R; discriminate].
    rewrite nlws_cons_nl in N3. unfold blankLen. rewrite N.eqb_refl.
    destruct (Nat.leb_spec 2 (nlws s')); [|lia]. cbn [andb]. f_equal.
    rewrite E, (nlEnd_exact m (rest st) F N0). lia.
  - destruct s as [|c s']; [reflexivity|]. unfold blankLen.
    destruct (N.eqb_spec c NL) as [->|Hne]; [|reflexivity].
    apply blankLines_complete in R. destruct (Nat.leb_spec 2 (nlws s')); [lia|reflexivity].
Qed.

(** *** A character that no match can hold splits the replacement *)

Lemma replaceBy_app len t c v :
  len [] = None ->
  forall u skip,
  (forall a b, u = a ++ b -> len (b ++ c :: v) = len b) ->
  (forall a b n, u = a ++ b -> len b = Some n -> n <= length b) ->
  skip <= length u ->
  replaceBy len t (u ++ c :: v) skip = replaceBy len t u skip ++ c :: replaceBy len t v 0.
Proof.
  intros L0. induction u as [|d u IH]; intros skip H1 H2 Hs.
  - simpl in Hs. replace skip with 0 by lia. cbn [app replaceBy].
    rewrite (H1 [] [] eq_refl : len (c :: v) = len []), L0. reflexivity.
  - assert (G1 : forall a b, u = a ++ b -> len (b ++ c :: v) = len b)
      by (intros a b E; apply (H1 (d :: a) b); rewrite E; reflexivity).
    assert (G2 : forall a b n, u = a ++ b -> len b = Some n -> n <= length b)
      by (intros a b n E; apply (H2 (d :: a) b); rewrite E; reflexivity).
    destruct skip as [|k]; cbn [app replaceBy].
    + rewrite (H1 [] (d :: u) eq_refl : len (d :: u ++ c :: v) = len (d :: u)).
      destruct (len (d :: u)) as [[|n]|] eqn:E.
      * rewrite (IH 0 G1 G2 ltac:(lia)), <- app_assoc. reflexivity.
      * pose proof (H2 [] (d :: u) _ eq_refl E) as L. simpl in L.
        rewrite (IH n G1 G2 ltac:(lia)), <- app_assoc. reflexivity.
      * rewrite (IH 0 G1 G2 ltac:(lia)). reflexivity.
    + simpl in Hs. apply (IH k G1 G2). lia.
Qed.

Lemma replaceBy_skip len t a : forall b,
  replaceBy len t (a ++ b) (length a) = replaceBy len t b 0.
Proof.
  induction a as [|x a IH]; intros b; [reflexivity|].
  cbn [app length replaceBy]. apply IH.
Qed.

Lemma ink_not_blank c : is_ws c = false -> sp_tab c = false.
Proof.
  intros H. destruct (sp_tab c) eqn:E; [|reflexivity].
  pose proof (TitleFacts.sp_tab_ws [c]) as W. simpl in W. rewrite E, H in W.
  discriminate (W eq_refl).
Qed.

Lemma run_app_stop p b c v : p c = false -> run p (b ++ c :: v) = run p b.
Proof.
  intros Hc. induction b as [|d b IH]; simpl; [rewrite Hc; reflexivity|].
  rewrite IH. reflexivity.
Qed.

(** The two replacements of the clean-up, around a character that is no
    white space. *)
Lemma blank_app u c v :
  is_ws c = false ->
  replaceBy blankRun [SP] (u ++ c :: v) 0
  = replaceBy blankRun [SP] u 0 ++ c :: replaceBy blankRun [SP] v 0.
Proof.
  intros Hc. apply replaceBy_app; [reflexivity| | |lia].
  - intros a b _. unfold blankRun. rewrite (run_app_stop _ b c v (ink_not_blank c Hc)).
    reflexivity.
  - intros a b n _. unfold blankRun. destruct (1 <=? run sp_tab b); [|discriminate].
    intros [= <-]. apply run_le.
Qed.

Lemma collapse_app u c v :
  is_ws c = false ->
  replaceBy blankLen [NL; NL] (u ++ c :: v) 0
  = replaceBy blankLen [NL; NL] u 0 ++ c :: replaceBy blankLen [NL; NL] v 0.
Proof.
  intros Hc. apply replaceBy_app; [reflexivity| | |lia].
  - intros a b _. destruct b as [|d b]; cbn [app blankLen].
    + destruct (N.eqb_spec c NL) as [->|]; [discriminate Hc|reflexivity].
    + change (d :: b ++ c :: v) with ((d :: b) ++ c :: v).
      rewrite (nlEnd_app_ink (d :: b) c v Hc), (nlws_app_ink b c v Hc). reflexivity.
  - intros a b n _. destruct b as [|d b]; cbn [blankLen]; [discriminate|].
    destruct (_ && _); [|discriminate]. intros [= <-]. exact (nlEnd_le (d :: b)).
Qed.

(** *** White space between two characters that are none *)

Lemma blank_not_nl d : sp_tab d = true -> (d =? NL)%N = false /\ is_ws d = true.
Proof.
  unfold sp_tab. intros H. apply orb_prop in H.
  destruct H as [H|H]; apply N.eqb_eq in H; subst d; split; reflexivity.
Qed.

(** The replacement of the runs of blanks keeps white space white and its
    newlines as many. *)
Lemma blank_ws : forall s skip,
  forallb is_ws s = true -> skip <= run sp_tab s ->
  forallb is_ws (replaceBy blankRun [SP] s skip) = true /\
  nlws (replaceBy blankRun [SP] s skip) = nlws s.
Proof.
  induction s as [|d s IH]; intros skip Hs Hk.
  - simpl in Hk. replace skip with 0 by lia. split; reflexivity.
  - cbn [forallb] in Hs. apply andb_prop in Hs. destruct Hs as [Hd Hs].
    destruct skip as [|k]; cbn [replaceBy].
    + replace (blankRun (d :: s))
        with (if sp_tab d then Some (S (run sp_tab s)) else None)
        by (unfold blankRun; cbn [run]; destruct (sp_tab d); reflexivity).
      destruct (sp_tab d) eqn:Pd.
      * destruct (IH (run sp_tab s) Hs (le_n _)) as [A B].
        destruct (blank_not_nl d Pd) as [Nd _]. split.
        -- cbn [app forallb]. rewrite A. reflexivity.
        -- cbn [app nlws]. rewrite B, Hd, Nd. reflexivity.
      * destruct (IH 0 Hs (Nat.le_0_l _)) as [A B]. split.
        -- cbn [forallb]. rewrite A, Hd. reflexivity.
        -- cbn [nlws]. rewrite B, Hd. reflexivity.
    + cbn [run] in Hk. destruct (sp_tab d) eqn:Pd; [|lia].
      destruct (IH k Hs ltac:(lia)) as [A B].
      destruct (blank_not_nl d Pd) as [Nd _].
      cbn [nlws]. rewrite Hd, Nd. split; [exact A|exact B].
Qed.

Lemma ws_nonl w : forallb is_ws w = true -> nlws w = 0 -> nonl w.
Proof.
  unfold nonl. induction w as [|d w IH]; intros Hw Hn; [reflexivity|].
  cbn [forallb] in *. apply andb_prop in Hw. destruct Hw as [Hd Hw].
  cbn [nlws] in Hn. rewrite Hd in Hn.
  destruct (d =? NL)%N; [discriminate|]. rewrite (IH Hw Hn). reflexivity.
Qed.

Lemma collapse_copy t w z :
  nonl w -> replaceBy blankLen t (w ++ z) 0 = w ++ replaceBy blankLen t z 0.
Proof.
  unfold nonl. induction w as [|d w IH]; intros Hw; [reflexivity|].
  cbn [forallb] in Hw. apply andb_prop in Hw. destruct Hw as [Hd Hw].
  cbn [app replaceBy blankLen]. destruct (d =? NL)%N; [discriminate|].
  cbn [andb]. rewrite (IH Hw). reflexivity.
Qed.

Lemma forallb_skipn {A} (p : A -> bool) n l : forallb p l = true -> forallb p (skipn n l) = true.
Proof.
  intros H. rewrite <- (firstn_skipn n l), forallb_app in H.
  apply andb_prop in H. exact (proj2 H).
Qed.

Lemma replaceBy_skipn len t : forall n W z,
  n <= length W -> replaceBy len t (W ++ z) n = replaceBy len t (skipn n W ++ z) 0.
Proof.
  induction n as [|n IH]; intros W z H; [reflexivity|].
  destruct W as [|x W]; [simpl in H; lia|].
  cbn [app replaceBy skipn]. apply IH. simpl in H. lia.
Qed.

(** White space that holds three newlines or more, before a character that
    is none: what is replaced runs from its first newline to its last, and
    what is left around the two newlines holds no newline. *)
Lemma collapse_ws : forall W,
  forallb is_ws W = true -> 3 <= nlws W ->
  exists w0 w2,
    forallb is_ws w0 = true /\ nonl w0 /\ forallb is_ws w2 = true /\ nonl w2 /\
    forall c v, is_ws c = false ->
      replaceBy blankLen [NL; NL] (W ++ c :: v) 0
      = w0 ++ [NL; NL] ++ w2 ++ c :: replaceBy blankLen [NL; NL] v 0.
Proof.
  induction W as [|d W IH]; intros HW H3; [simpl in H3; lia|].
  cbn [forallb] in HW. apply andb_prop in HW. destruct HW as [Hd HW].
  destruct (N.eqb_spec d NL) as [->|Hne].
  - rewrite nlws_cons_nl in H3.
    exists [], (skipn (nlEnd W) W).
    split; [reflexivity|]. split; [reflexivity|].
    split; [apply forallb_skipn; exact HW|].
    split; [apply ws_nonl; [apply forallb_skipn; exact HW|apply nlEnd_rest]|].
    intros c v Hc. cbn [app replaceBy blankLen].
    rewrite N.eqb_refl, (nlws_app_ink W c v Hc).
    destruct (Nat.leb_spec 2 (nlws W)); [|lia]. cbn [andb].
    change (NL :: W ++ c :: v) with ((NL :: W) ++ c :: v).
    rewrite (nlEnd_app_ink (NL :: W) c v Hc). cbn [nlEnd]. rewrite NL_is_ws.
    destruct (Nat.eqb_spec (nlws W) 0); [lia|].
    rewrite (replaceBy_skipn _ _ _ W (c :: v) (nlEnd_le W)), collapse_copy
      by (apply ws_nonl; [apply forallb_skipn; exact HW|apply nlEnd_rest]).
    rewrite (collapse_app [] c v Hc : replaceBy blankLen [NL; NL] (c :: v) 0 = _). reflexivity.
  - assert (Nd : (d =? NL)%N = false) by (apply N.eqb_neq; exact Hne).
    cbn [nlws] in H3. rewrite Hd, Nd in H3. cbn [Nat.add] in H3.
    destruct (IH HW H3) as [w0 [w2 [A0 [B0 [A2 [B2 E]]]]]].
    exists (d :: w0), w2.
    split; [cbn [forallb]; rewrite Hd, A0; reflexivity|].
    split; [unfold nonl in *; cbn [forallb]; rewrite Nd, B0; reflexivity|].
    split; [exact A2|]. split; [exact B2|].
    intros c v Hc. cbn [app replaceBy blankLen]. rewrite Nd. cbn [andb].
    rewrite (E c v Hc). reflexivity.
Qed.

(** *** Trimming the lines, and the text *)

Lemma trimStart_app l z :
  trimStart (l ++ z) = if forallb is_ws l then trimStart z else trimStart l ++ z.
Proof.
  induction l as [|x l IH]; [reflexivity|].
  cbn [app trimStart forallb]. destruct (is_ws x); [exact IH|reflexivity].
Qed.

Lemma forallb_rev {A} (p : A -> bool) l : forallb p (rev l) = forallb p l.
Proof.
  induction l as [|x l IH]; [reflexivity|].
  cbn [rev forallb]. rewrite forallb_app, IH. cbn [forallb].
  rewrite andb_true_r. apply andb_comm.
Qed.

Lemma trimEnd_app l z :
  trimEnd (l ++ z) = if forallb is_ws z then trimEnd l else l ++ trimEnd z.
Proof.
  unfold trimEnd. rewrite rev_app_distr, trimStart_app, forallb_rev.
  destruct (forallb is_ws z); [reflexivity|].
  rewrite rev_app_distr, rev_involutive. reflexivity.
Qed.

Lemma trim_ws_r l w : forallb is_ws w = true -> trim (l ++ w) = trim l.
Proof.
  intros Hw. unfold trim. rewrite trimStart_app.
  destruct (forallb is_ws l) eqn:Hl.
  - rewrite (trimStart_all_ws w Hw), (trimStart_all_ws l Hl). reflexivity.
  - rewrite trimEnd_app, Hw. reflexivity.
Qed.

Lemma trim_ws_l w l : forallb is_ws w = true -> trim (w ++ l) = trim l.
Proof. intros Hw. unfold trim. rewrite trimStart_app, Hw. reflexivity. Qed.

Lemma split_app_nl a b : split NL (a ++ NL :: b) = split NL a ++ split NL b.
Proof.
  induction a as [|x a IH]; cbn [app split].
  - pose proof (split_not_nil NL b) as N. destruct (split NL b); [congruence|].
    rewrite N.eqb_refl. reflexivity.
  - rewrite IH. pose proof (split_not_nil NL a) as N.
    destruct (split NL a) as [|l ls]; [congruence|]. cbn [app].
    destruct (x =? NL)%N; reflexivity.
Qed.

Lemma split_app_r a w :
  nonl w -> exists ls l, split NL a = ls ++ [l] /\ split NL (a ++ w) = ls ++ [l ++ w].
Proof.
  intros Hw. induction a as [|x a [ls [l [E1 E2]]]].
  - exists [], []. split; [reflexivity|]. apply split_one. exact Hw.
  - cbn [app split]. rewrite E1, E2. destruct ls as [|l0 ls]; cbn [app].
    + destruct (x =? NL)%N; [exists [[]], l|exists [], (x :: l)]; split; reflexivity.
    + destruct (x =? NL)%N; [exists ([] :: l0 :: ls), l|exists ((x :: l0) :: ls), l];
        split; reflexivity.
Qed.

Lemma split_app_l w b :
  nonl w -> exists l ls, split NL b = l :: ls /\ split NL (w ++ b) = (w ++ l) :: ls.
Proof.
  unfold nonl. induction w as [|x w IH]; intros Hw.
  - cbn [app]. pose proof (split_not_nil NL b) as N.
    destruct (split NL b) as [|l ls]; [congruence|].
    exists l, ls. split; reflexivity.
  - cbn [forallb] in Hw. apply andb_prop in Hw. destruct Hw as [Hx Hw].
    destruct (IH Hw) as [l [ls [E1 E2]]]. exists l, ls. split; [exact E1|].
    cbn [app split]. rewrite E2. destruct (x =? NL)%N; [discriminate|reflexivity].
Qed.

Lemma join_app (l1 l2 : list jstring) :
  l1 <> [] -> l2 <> [] -> join [NL] (l1 ++ l2) = join [NL] l1 ++ NL :: join [NL] l2.
Proof.
  intros N1 N2. induction l1 as [|x l1 IH]; [congruence|].
  destruct l1 as [|y l1].
  - destruct l2 as [|z l2]; [congruence|]. reflexivity.
  - change (join [NL] ((x :: y :: l1) ++ l2))
      with (x ++ [NL] ++ join [NL] ((y :: l1) ++ l2)).
    rewrite IH by discriminate.
    change (join [NL] (x :: y :: l1)) with (x ++ [NL] ++ join [NL] (y :: l1)).
    rewrite <- !app_assoc. reflexivity.
Qed.

Lemma map_not_nil {A B} (f : A -> B) l : l <> [] -> map f l <> [].
Proof. destruct l; [congruence|discriminate]. Qed.

Lemma trimLines_nl a b : trimLines (a ++ NL :: b) = trimLines a ++ NL :: trimLines b.
Proof.
  unfold trimLines. rewrite split_app_nl, map_app.
  apply join_app; apply map_not_nil, split_not_nil.
Qed.

Lemma trimLines_ws_r a w :
  forallb is_ws w = true -> nonl w -> trimLines (a ++ w) = trimLines a.
Proof.
  intros Hw Nw. unfold trimLines. destruct (split_app_r a w Nw) as [ls [l [-> ->]]].
  rewrite !map_app. cbn [map]. rewrite (trim_ws_r l w Hw). reflexivity.
Qed.

Lemma trimLines_ws_l w b :
  forallb is_ws w = true -> nonl w -> trimLines (w ++ b) = trimLines b.
Proof.
  intros Hw Nw. unfold trimLines. destruct (split_app_l w b Nw) as [l [ls [-> ->]]].
  cbn [map]. rewrite (trim_ws_l w l Hw). reflexivity.
Qed.

Lemma ink_not_nl c : is_ws c = false -> (c =? NL)%N = false.
Proof. intros H. destruct (N.eqb_spec c NL) as [->|]; [discriminate H|reflexivity]. Qed.

Lemma trimEnd_ink c : is_ws c = false -> trimEnd [c] = [c].
Proof. intros H. unfold trimEnd. simpl. rewrite H. reflexivity. Qed.

Lemma trim_last l c : is_ws c = false -> exists l', trim (l ++ [c]) = l' ++ [c].
Proof.
  intros Hc. unfold trim. destruct (trimStart_app_keep l c Hc) as [l' ->].
  exists l'. rewrite trimEnd_app. cbn [forallb]. rewrite Hc, (trimEnd_ink c Hc). reflexivity.
Qed.

Lemma trim_head c l : is_ws c = false -> exists l', trim (c :: l) = c :: l'.
Proof.
  intros Hc. unfold trim. cbn [trimStart]. rewrite Hc.
  pose proof (trimEnd_hd (c :: l) c eq_refl Hc) as H.
  destruct (trimEnd (c :: l)) as [|x l']; [discriminate|]. injection H as ->. eauto.
Qed.

Lemma join_last (xs : list jstring) y c :
  join [NL] (xs ++ [y ++ [c]]) = join [NL] (xs ++ [y]) ++ [c].
Proof.
  induction xs as [|x xs IH]; [reflexivity|].
  destruct xs as [|x' xs].
  - cbn [app join]. rewrite <- !app_assoc. reflexivity.
  - change (join [NL] ((x :: x' :: xs) ++ [y ++ [c]]))
      with (x ++ [NL] ++ join [NL] ((x' :: xs) ++ [y ++ [c]])).
    rewrite IH.
    change (join [NL] ((x :: x' :: xs) ++ [y]))
      with (x ++ [NL] ++ join [NL] ((x' :: xs) ++ [y])).
    rewrite <- !app_assoc. reflexivity.
Qed.

Lemma trimLines_last a c : is_ws c = false -> exists a', trimLines (a ++ [c]) = a' ++ [c].
Proof.
  intros Hc. unfold trimLines.
  assert (Nc : nonl [c]) by (unfold nonl; cbn [forallb]; rewrite (ink_not_nl c Hc); reflexivity).
  destruct (split_app_r a [c] Nc) as [ls [l [_ ->]]].
  rewrite map_app. cbn [map]. destruct (trim_last l c Hc) as [l' ->].
  rewrite join_last. eauto.
Qed.

Lemma trimLines_head c b : is_ws c = false -> exists b', trimLines (c :: b) = c :: b'.
Proof.
  intros Hc. unfold trimLines. cbn [split].
  pose proof (split_not_nil NL b) as N. destruct (split NL b) as [|l ls]; [congruence|].
  rewrite (ink_not_nl c Hc). cbn [map]. destruct (trim_head c l Hc) as [l' ->].
  destruct (map trim ls); cbn [join app]; eauto.
Qed.

(** Trimming a text that ends and starts with a character that is none. *)
Lemma trim_between a cx m cy b :
  is_ws cx = false -> is_ws cy = false ->
  trim ((a ++ [cx]) ++ m ++ cy :: b) = trim (a ++ [cx]) ++ m ++ trim (cy :: b).
Proof.
  intros Hx Hy. unfold trim.
  assert (Fx : forallb is_ws (a ++ [cx]) = false)
    by (rewrite forallb_app; cbn [forallb]; rewrite Hx; apply andb_false_r).
  rewrite trimStart_app, Fx.
  destruct (trimStart_app_keep a cx Hx) as [a' ->].
  cbn [trimStart]. rewrite Hy.
  rewrite (trimEnd_app a' [cx]). cbn [forallb]. rewrite Hx, (trimEnd_ink cx Hx). cbn [andb].
  rewrite !app_assoc. rewrite trimEnd_app. cbn [forallb]. rewrite Hy. cbn [andb].
  reflexivity.
Qed.

(** *** The clean-up around a stretch of white space *)

Lemma cleanUp_by s :
  cleanUp s
  = trim (trimLines (replaceBy blankLen [NL; NL] (replaceBy blankRun [SP] s 0) 0)).
Proof.
  unfold cleanUp, collapseBlankLines, replace.
  rewrite (replace_go_by blanks [SP] blankRun blanks_len).
  rewrite (replace_go_by blankLines [NL; NL] blankLen blankLines_len).
  reflexivity.
Qed.

Lemma cleanUp_between x cx W cy y :
  is_ws cx = false -> is_ws cy = false ->
  forallb is_ws W = true -> 3 <= nlws W ->
  exists a b,
    cleanUp (x ++ [cx]) = a ++ [cx] /\ cleanUp (cy :: y) = cy :: b /\
    cleanUp (x ++ [cx] ++ W ++ [cy] ++ y) = a ++ [cx; NL; NL; cy] ++ b.
Proof.
  intros Hx Hy HW H3. rewrite !cleanUp_by.
  set (B := fun s => replaceBy blankRun [SP] s 0).
  set (C := fun s => replaceBy blankLen [NL; NL] s 0).
  change (exists a b,
    trim (trimLines (C (B (x ++ [cx])))) = a ++ [cx] /\
    trim (trimLines (C (B (cy :: y)))) = cy :: b /\
    trim (trimLines (C (B (x ++ [cx] ++ W ++ [cy] ++ y)))) = a ++ [cx; NL; NL; cy] ++ b).
  assert (B1 : B (x ++ [cx]) = B x ++ [cx]) by (apply (blank_app x cx [] Hx)).
  assert (B2 : B (cy :: y) = cy :: B y) by (apply (blank_app [] cy y Hy)).
  assert (B3 : B (x ++ [cx] ++ W ++ [cy] ++ y) = B x ++ cx :: B W ++ cy :: B y).
  { unfold B. cbn [app]. rewrite (blank_app x cx _ Hx), (blank_app W cy y Hy). reflexivity. }
  destruct (blank_ws W 0 HW (Nat.le_0_l _)) as [W1 W2]. fold (B W) in W1, W2.
  destruct (collapse_ws (B W) W1 ltac:(lia)) as [w0 [w2 [A0 [N0 [A2 [N2 E]]]]]].
  assert (C1 : C (B x ++ [cx]) = C (B x) ++ [cx]) by (apply (collapse_app (B x) cx [] Hx)).
  assert (C2 : C (cy :: B y) = cy :: C (B y)) by (apply (collapse_app [] cy (B y) Hy)).
  assert (C3 : C (B x ++ cx :: B W ++ cy :: B y)
               = ((C (B x) ++ [cx]) ++ w0) ++ NL :: [] ++ NL :: w2 ++ cy :: C (B y)).
  { unfold C. rewrite (collapse_app (B x) cx _ Hx), (E cy (B y) Hy).
    rewrite <- !app_assoc. reflexivity. }
  rewrite B1, B2, B3, C1, C2, C3.
  rewrite trimLines_nl, trimLines_nl, (trimLines_ws_r _ w0 A0 N0), (trimLines_ws_l w2 _ A2 N2).
  destruct (trimLines_last (C (B x)) cx Hx) as [a1 ->].
  destruct (trimLines_head cy (C (B y)) Hy) as [b1 ->].
  change (trimLines []) with (@nil char16). cbn [app].
  change ((a1 ++ [cx]) ++ NL :: NL :: cy :: b1)
    with ((a1 ++ [cx]) ++ [NL; NL] ++ cy :: b1).
  rewrite (trim_between a1 cx [NL; NL] cy b1 Hx Hy).
  destruct (trim_last a1 cx Hx) as [a ->]. destruct (trim_head cy b1 Hy) as [b ->].
  exists a, b. split; [reflexivity|]. split; [reflexivity|].
  rewrite <- app_assoc. reflexivity.
Qed.

Lemma nlws_count W :
  forallb is_ws W = true -> nlws W = length (filter (N.eqb NL) W).
Proof.
  induction W as [|d W IH]; intros H; [reflexivity|].
  cbn [forallb] in H. apply andb_prop in H. destruct H as [Hd HW].
  cbn [nlws filter]. rewrite Hd, (IH HW), (N.eqb_sym NL d).
  destruct (d =? NL)%N; reflexivity.
Qed.

(** *** White space at the start and at the end *)

Lemma collapse_keeps_ws : forall s skip,
  forallb is_ws s = true -> forallb is_ws (replaceBy blankLen [NL; NL] s skip) = true.
Proof.
  induction s as [|d s IH]; intros skip Hs.
  - destruct skip; reflexivity.
  - cbn [forallb] in Hs. apply andb_prop in Hs. destruct Hs as [Hd Hs].
    destruct skip as [|k]; cbn [replaceBy]; [|apply IH; exact Hs].
    destruct (blankLen (d :: s)) as [[|n]|].
    + cbn [app forallb]. rewrite Hd, (IH 0 Hs). reflexivity.
    + cbn [app forallb]. apply IH. exact Hs.
    + cbn [forallb]. rewrite Hd, (IH 0 Hs). reflexivity.
Qed.

Lemma trimLines_ws_before : forall W Q,
  forallb is_ws W = true ->
  exists N, forallb is_ws N = true /\ trimLines (W ++ Q) = N ++ trimLines Q.
Proof.
  induction W as [|d W IH]; intros Q HW.
  - exists []. split; reflexivity.
  - cbn [forallb] in HW. apply andb_prop in HW. destruct HW as [Hd HW].
    destruct (IH Q HW) as [N [HN E]].
    destruct (N.eqb_spec d NL) as [->|Hne].
    + exists (NL :: N). split; [cbn [forallb]; rewrite HN; reflexivity|].
      change ((NL :: W) ++ Q) with ([] ++ NL :: (W ++ Q)).
      rewrite trimLines_nl, E. reflexivity.
    + exists N. split; [exact HN|].
      change ((d :: W) ++ Q) with ([d] ++ (W ++ Q)).
      rewrite trimLines_ws_l; [exact E|cbn [forallb]; rewrite Hd; reflexivity|].
      unfold nonl. cbn [forallb]. apply N.eqb_neq in Hne. rewrite Hne. reflexivity.
Qed.

Lemma trimLines_ws_after : forall W P,
  forallb is_ws W = true ->
  exists N, forallb is_ws N = true /\ trimLines (P ++ W) = trimLines P ++ N.
Proof.
  induction W as [|d W IH] using rev_ind; intros P HW.
  - exists []. rewrite !app_nil_r. split; reflexivity.
  - rewrite forallb_app in HW. apply andb_prop in HW. destruct HW as [HW Hd].
    cbn [forallb] in Hd. rewrite andb_true_r in Hd.
    destruct (IH P HW) as [N [HN E]]. rewrite app_assoc.
    destruct (N.eqb_spec d NL) as [->|Hne].
    + exists (N ++ [NL]). split; [rewrite forallb_app, HN; reflexivity|].
      rewrite trimLines_nl, E, <- app_assoc. reflexivity.
    + exists N. split; [exact HN|].
      rewrite trimLines_ws_r; [exact E|cbn [forallb]; rewrite Hd; reflexivity|].
      unfold nonl. cbn [forallb]. apply N.eqb_neq in Hne. rewrite Hne. reflexivity.
Qed.

(** White space before the first character that is none, and after the
    last, is removed, newlines included. *)
Lemma cleanUp_leading W cy y :
  forallb is_ws W = true -> is_ws cy = false ->
  cleanUp (W ++ cy :: y) = cleanUp (cy :: y).
Proof.
  intros HW Hy. rewrite !cleanUp_by.
  set (B := fun s => replaceBy blankRun [SP] s 0).
  set (C := fun s => replaceBy blankLen [NL; NL] s 0).
  change (trim (trimLines (C (B (W ++ cy :: y)))) = trim (trimLines (C (B (cy :: y))))).
  assert (B1 : B (W ++ cy :: y) = B W ++ cy :: B y) by (apply (blank_app W cy y Hy)).
  assert (B2 : B (cy :: y) = cy :: B y) by (apply (blank_app [] cy y Hy)).
  assert (C1 : C (B W ++ cy :: B y) = C (B W) ++ cy :: C (B y))
    by (apply (collapse_app (B W) cy (B y) Hy)).
  assert (C2 : C (cy :: B y) = cy :: C (B y)) by (apply (collapse_app [] cy (B y) Hy)).
  rewrite B1, B2, C1, C2.
  destruct (blank_ws W 0 HW (Nat.le_0_l _)) as [W1 _].
  pose proof (collapse_keeps_ws _ 0 W1) as W2.
  destruct (trimLines_ws_before _ (cy :: C (B y)) W2) as [N [HN E]].
  fold (B W) in E. fold (C (B W)) in E. rewrite E.
  apply trim_ws_l. exact HN.
Qed.

Lemma cleanUp_trailing x cx W :
  forallb is_ws W = true -> is_ws cx = false ->
  cleanUp (x ++ [cx] ++ W) = cleanUp (x ++ [cx]).
Proof.
  intros HW Hx. rewrite !cleanUp_by.
  set (B := fun s => replaceBy blankRun [SP] s 0).
  set (C := fun s => replaceBy blankLen [NL; NL] s 0).
  change (trim (trimLines (C (B (x ++ [cx] ++ W)))) = trim (trimLines (C (B (x ++ [cx]))))).
  assert (B1 : B (x ++ [cx] ++ W) = B x ++ cx :: B W) by (apply (blank_app x cx W Hx)).
  assert (B2 : B (x ++ [cx]) = B x ++ [cx]) by (apply (blank_app x cx [] Hx)).
  assert (C1 : C (B x ++ cx :: B W) = (C (B x) ++ [cx]) ++ C (B W)).
  { unfold C. rewrite (collapse_app (B x) cx (B W) Hx), <- app_assoc. reflexivity. }
  assert (C2 : C (B x ++ [cx]) = C (B x) ++ [cx]) by (apply (collapse_app (B x) cx [] Hx)).
  rewrite B1, B2, C1, C2.
  destruct (blank_ws W 0 HW (Nat.le_0_l _)) as [W1 _].
  pose proof (collapse_keeps_ws _ 0 W1) as W2.
  destruct (trimLines_ws_after _ (C (B x) ++ [cx]) W2) as [N [HN E]].
  fold (B W) in E. fold (C (B W)) in E. rewrite E.
  apply trim_ws_r. exact HN.
Qed.

Lemma cleanUp_all_ws W : forallb is_ws W = true -> cleanUp W = [].
Proof.
  intros HW. rewrite cleanUp_by.
  destruct (blank_ws W 0 HW (Nat.le_0_l _)) as [W1 _].
  pose proof (collapse_keeps_ws _ 0 W1) as W2.
  destruct (trimLines_ws_before _ [] W2) as [N [HN E]].
  rewrite app_nil_r in E. rewrite E. change (trimLines []) with (@nil char16).
  rewrite app_nil_r. apply trim_all_ws. exact HN.
Qed.

Lemma cleanUp_head cy y : is_ws cy = false -> exists b, cleanUp (cy :: y) = cy :: b.
Proof.
  intros Hy. rewrite cleanUp_by.
  set (B := fun s => replaceBy blankRun [SP] s 0).
  set (C := fun s => replaceBy blankLen [NL; NL] s 0).
  change (exists b, trim (trimLines (C (B (cy :: y)))) = cy :: b).
  assert (B2 : B (cy :: y) = cy :: B y) by (apply (blank_app [] cy y Hy)).
  assert (C2 : C (cy :: B y) = cy :: C (B y)) by (apply (collapse_app [] cy (B y) Hy)).
  rewrite B2, C2. destruct (trimLines_head cy (C (B y)) Hy) as [b1 ->].
  apply trim_head. exact Hy.
Qed.

Lemma cleanUp_last x cx : is_ws cx = false -> exists a, cleanUp (x ++ [cx]) = a ++ [cx].
Proof.
  intros Hx. rewrite cleanUp_by.
  set (B := fun s => replaceBy blankRun [SP] s 0).
  set (C := fun s => replaceBy blankLen [NL; NL] s 0).
  change (exists a, trim (trimLines (C (B (x ++ [cx])))) = a ++ [cx]).
  assert (B2 : B (x ++ [cx]) = B x ++ [cx]) by (apply (blank_app x cx [] Hx)).
  assert (C2 : C (B x ++ [cx]) = C (B x) ++ [cx]) by (apply (collapse_app (B x) cx [] Hx)).
  rewrite B2, C2. destruct (trimLines_last (C (B x)) cx Hx) as [a1 ->].
  apply trim_last. exact Hx.
Qed.

End CollapseFacts.

(** C7 (as amended).  The text [htmlToText] returns never contains three
    newlines in a row.  What becomes of the newlines of the intermediate text
    (the text once the markup is stripped and the entities are decoded)
    depends on where they lie.  A stretch of white space that holds three
    newlines or more, between two characters that are no white space, comes
    out as exactly two newlines between these two characters.  White space
    before the first such character, or after the last, is removed
    altogether by the final [trim()], newlines included; and a text of white
    space only comes out empty. *)
Theorem htmlToText_newline_runs html :
  (forall a b, htmlToText html <> a ++ [NL; NL; NL] ++ b) /\
  (forall x cx W cy y,
     decodeEntities (stripMarkup html) = x ++ [cx] ++ W ++ [cy] ++ y ->
     is_ws cx = false -> is_ws cy = false ->
     forallb is_ws W = true -> 3 <= length (filter (N.eqb NL) W) ->
     exists a b,
       cleanUp (x ++ [cx]) = a ++ [cx] /\ cleanUp (cy :: y) = cy :: b /\
       htmlToText html = a ++ [cx; NL; NL; cy] ++ b) /\
  (forall W cy y,
     decodeEntities (stripMarkup html) = W ++ cy :: y ->
     forallb is_ws W = true -> is_ws cy = false ->
     exists b, htmlToText html = cy :: b /\ cleanUp (cy :: y) = cy :: b) /\
  (forall x cx W,
     decodeEntities (stripMarkup html) = x ++ [cx] ++ W ->
     forallb is_ws W = true -> is_ws cx = false ->
     exists a, htmlToText html = a ++ [cx] /\ cleanUp (x ++ [cx]) = a ++ [cx]) /\
  (forallb is_ws (decodeEntities (stripMarkup html)) = true -> htmlToText html = []).
Proof.
  unfold htmlToText. split; [|split; [|split; [|split]]].
  - intros a b E.
    pose proof (HtmlFacts.cleanUp_ok3 (decodeEntities (stripMarkup html))) as H.
    rewrite E, HtmlFacts.ok3_no_triple in H. discriminate.
  - intros x cx W cy y -> Hx Hy HW H3.
    apply CollapseFacts.cleanUp_between; auto.
    rewrite CollapseFacts.nlws_count by exact HW. exact H3.
  - intros W cy y -> HW Hy. rewrite (CollapseFacts.cleanUp_leading W cy y HW Hy).
    destruct (CollapseFacts.cleanUp_head cy y Hy) as [b E]. exists b. auto.
  - intros x cx W -> HW Hx. rewrite (CollapseFacts.cleanUp_trailing x cx W HW Hx).
    destruct (CollapseFacts.cleanUp_last x cx Hx) as [a E]. exists a. auto.
  - apply CollapseFacts.cleanUp_all_ws.
Qed.

(** Two paragraphs: the four newlines between them come out as two, the two
    newlines after the second are removed. *)
Lemma htmlToText_newline_runs_witness :
  decodeEntities (stripMarkup two_paragraphs)
  = [] ++ utf16 "a" ++ repeat NL 4 ++ utf16 "b" ++ utf16 " & c" ++ [NL; NL] /\
  is_ws 97%N = false /\ is_ws 98%N = false /\
  forallb is_ws (repeat NL 4) = true /\ 3 <= length (filter (N.eqb NL) (repeat NL 4)) /\
  exists a b,
    cleanUp ([] ++ utf16 "a") = a ++ utf16 "a" /\
    cleanUp (98%N :: utf16 " & c" ++ [NL; NL]) = 98%N :: b /\
    htmlToText two_paragraphs = a ++ [97%N; NL; NL; 98%N] ++ b.
Proof.
  destruct (htmlToText_newline_runs two_paragraphs) as [_ [H _]].
  split; [vm_compute; reflexivity|]. split; [reflexivity|]. split; [reflexivity|].
  split; [reflexivity|]. split; [vm_compute; lia|].
  apply (H [] 97%N (repeat NL 4) 98%N (utf16 " & c" ++ [NL; NL]));
    [vm_compute; reflexivity|reflexivity|reflexivity|reflexivity|vm_compute; lia].
Defined.

(** C7: the claim as stated fails for newlines at the start of the text: the
    three newlines of three [<br>] are not reduced to two, they are removed. *)
Lemma newline_run_at_the_start_is_removed :
  decodeEntities (stripMarkup (utf16 "<br><br><br>a")) = [NL; NL; NL] ++ utf16 "a" /\
  htmlToText (utf16 "<br><br><br>a") = utf16 "a".
Proof. split; vm_compute; reflexivity. Qed.
